(** * ufo2ft: anchor propagation and the mark feature writer

    A shallow embedding of
      - Lib/ufo2ft/filters/propagateAnchors.py
      - Lib/ufo2ft/featureWriters/markFeatureWriter.py
    and the properties of the anchor model, the attachment registry, the
    propagation engine, the mark class builder and the mark feature writer.

    Conventions of the embedding.
      - Coordinates and transform entries are integers ([Z]); Python numbers
        that are floats are outside the model.
      - Strings are ASCII strings; [\d] is the ten ASCII digits.
      - A Python function that may raise returns a [result]; recursion that
        Python bounds by its call stack takes a fuel argument.
      - Python objects compared by identity (components, attachments) carry
        their position in the owning list, and are compared on it. *)

From Stdlib Require Import ZArith Ascii String List Bool Lia Permutation Sorted.
From stdpp Require Import gmap strings list fin_maps pretty.
Import ListNotations.

#[local] Open Scope string_scope.
#[local] Open Scope list_scope.
#[local] Open Scope Z_scope.

(* ===================================================================== *)
(** ** Python values and control                                          *)
(* ===================================================================== *)

Module Py.

(** Exceptions raised by the embedded code. *)
Inductive exn : Type :=
| ValueError (msg : string)
| AssertionError (msg : string)
| KeyError (key : string)
| AttributeError (msg : string)
| FeatureLibError (msg : string).

(** Outcome of a call: a value, an exception, or recursion that did not
    finish within the fuel given. *)
Inductive result (A : Type) : Type :=
| Ok (a : A)
| Raise (e : exn)
| OutOfFuel.

Arguments Ok {A} a.
Arguments Raise {A} e.
Arguments OutOfFuel {A}.

Definition bind {A B : Type} (m : result A) (k : A -> result B) : result B :=
  match m with
  | Ok a => k a
  | Raise e => Raise e
  | OutOfFuel => OutOfFuel
  end.

Definition is_ok {A : Type} (m : result A) : bool :=
  match m with Ok _ => true | _ => false end.

Definition raises {A : Type} (m : result A) : bool :=
  match m with Raise _ => true | _ => false end.

(** *** Lists *)

Fixpoint take_while {A : Type} (p : A -> bool) (l : list A) : list A :=
  match l with
  | [] => []
  | x :: t => if p x then x :: take_while p t else []
  end.

Fixpoint drop_while {A : Type} (p : A -> bool) (l : list A) : list A :=
  match l with
  | [] => []
  | x :: t => if p x then drop_while p t else l
  end.

(** [list.remove(x)]: removes the first element equal to [x]; raises
    [ValueError] when there is none. *)
Fixpoint list_remove {A : Type} (eqb : A -> A -> bool) (x : A) (l : list A)
  : result (list A) :=
  match l with
  | [] => Raise (ValueError "list.remove(x): x not in list")
  | y :: t =>
      if eqb y x then Ok t
      else bind (list_remove eqb x t) (fun t' => Ok (y :: t'))
  end.

(** [sorted(l, key=...)]: Python's sort is stable, so its result is that of
    any stable sort; this is insertion sort, [le] being the order on keys. *)
Fixpoint insert_sorted {A : Type} (le : A -> A -> bool) (x : A) (l : list A)
  : list A :=
  match l with
  | [] => [x]
  | y :: t => if le x y then x :: l else y :: insert_sorted le x t
  end.

Fixpoint sorted {A : Type} (le : A -> A -> bool) (l : list A) : list A :=
  match l with
  | [] => []
  | x :: t => insert_sorted le x (sorted le t)
  end.

(** The order of a comparison function, as a relation. *)
Definition le_prop {A : Type} (le : A -> A -> bool) (a b : A) : Prop :=
  le a b = true.

Definition nonempty {A : Type} (l : list A) : bool :=
  match l with [] => false | _ => true end.

(** *** Insertion-ordered dicts with string keys *)

(** [dict.get] and [in] on an insertion-ordered dict. *)
Fixpoint assoc {V : Type} (k : string) (d : list (string * V)) : option V :=
  match d with
  | [] => None
  | (k', v) :: t => if String.eqb k' k then Some v else assoc k t
  end.

Definition has_key {V : Type} (k : string) (d : list (string * V)) : bool :=
  match assoc k d with Some _ => true | None => false end.

(** [d[k] = v]: the value is replaced in place, a new key goes last. *)
Fixpoint assoc_set {V : Type} (k : string) (v : V) (d : list (string * V))
  : list (string * V) :=
  match d with
  | [] => [(k, v)]
  | (k', v') :: t =>
      if String.eqb k' k then (k', v) :: t else (k', v') :: assoc_set k v t
  end.

(** *** Strings *)

Definition chars (s : string) : list ascii := list_ascii_of_string s.
Definition str (l : list ascii) : string := string_of_list_ascii l.

Definition is_digit (c : ascii) : bool :=
  (Ascii.leb "0" c && Ascii.leb c "9")%char.

Definition digit_value (c : ascii) : Z :=
  Z.of_nat (nat_of_ascii c) - 48.

(** [int(s)] for a string of ASCII digits. *)
Definition int_of_digits (l : list ascii) : Z :=
  fold_left (fun acc c => 10 * acc + digit_value c) l 0.

Definition newline : ascii := "010"%char.
Definition underscore : ascii := "_"%char.

Definition startswith (s p : string) : bool := String.prefix p s.

Definition endswith (s p : string) : bool :=
  String.prefix (str (rev (chars p))) (str (rev (chars s))).

(** [s.rstrip(cs)]: drops the trailing characters of [s] that occur in [cs]. *)
Definition rstrip (s cs : string) : string :=
  str (rev (drop_while (fun c => existsb (Ascii.eqb c) (chars cs))
                       (rev (chars s)))).

(** [s[:-n]] for [0 < n]. *)
Definition drop_last (n : nat) (s : string) : string :=
  str (rev (skipn n (rev (chars s)))).

(** [s[n:]]. *)
Definition drop_first (n : nat) (s : string) : string :=
  str (skipn n (chars s)).

(** [s.find(c)] for a one-character pattern: index of the first
    occurrence, [-1] when there is none. *)
Fixpoint find_char (c : ascii) (l : list ascii) : Z :=
  match l with
  | [] => -1
  | x :: t =>
      if Ascii.eqb x c then 0
      else let i := find_char c t in if i <? 0 then -1 else i + 1
  end.

(** [s.replace(c, "", 1)] for a one-character pattern: the first
    occurrence of [c] is deleted. *)
Fixpoint remove_first_char (c : ascii) (l : list ascii) : list ascii :=
  match l with
  | [] => []
  | x :: t => if Ascii.eqb x c then t else x :: remove_first_char c t
  end.

(** [s.rsplit(c, 1)[0]]: what precedes the last occurrence of [c]; the whole
    string when [c] does not occur. *)
Definition rsplit1_head (c : ascii) (s : string) : string :=
  let r := rev (chars s) in
  if existsb (Ascii.eqb c) r
  then str (rev (skipn 1 (drop_while (fun x => negb (Ascii.eqb x c)) r)))
  else s.

(** ["%s_%d" % (name, i)]. *)
Definition fmt_name_index (name : string) (i : N) : string :=
  name +:+ "_" +:+ pretty i.

(** Order of Python tuples [(str, int, int)]. *)
Definition tuple3_le (a b : string * Z * Z) : bool :=
  let '(n1, x1, y1) := a in
  let '(n2, x2, y2) := b in
  match String.compare n1 n2 with
  | Lt => true
  | Gt => false
  | Eq => if x1 <? x2 then true
          else if x2 <? x1 then false
          else y1 <=? y2
  end.

End Py.

Import Py.

(** [result] is a monad: [x ← m; k] runs [m] and passes its value on, an
    exception or exhausted fuel ends the computation. *)
#[global] Instance result_ret : MRet result := @Ok.
#[global] Instance result_bind : MBind result :=
  fun A B k m => Py.bind m k.

(* ===================================================================== *)
(** ** markFeatureWriter.py: the anchor model                             *)
(* ===================================================================== *)

Module MarkFeatureWriter.

(** [LIGA_NUM_RE = re.compile(r".*?(\d+)$")], matched from the start of the
    name: the result is group 1, the trailing run of digits.  [$] also
    matches before a final newline, and [.] matches no newline. *)
Definition ligaNumRE_match (s : string) : option string :=
  let r := rev (chars s) in
  let r' := match r with
            | c :: t => if Ascii.eqb c newline then t else r
            | [] => r
            end in
  match take_while is_digit r' with
  | [] => None
  | ds =>
      if existsb (Ascii.eqb newline) (drop_while is_digit r') then None
      else Some (str (rev ds))
  end.

(** The first half of [parseAnchorName]: the key and the ligature number
    of a name.  A name carries a number when it ends in the separator
    followed by digits. *)
Definition ligature_number (anchorName : string) : string * option Z :=
  match ligaNumRE_match anchorName with
  | None => (anchorName, None)
  | Some number =>
      let key := rstrip anchorName number in
      if endswith key "_"
      then (drop_last 1 key, Some (int_of_digits (chars number)))
      else (anchorName, None)
  end.

(** [parseAnchorName] with [markPrefix = ligaSeparator = "_"],
    [ligaNumRE = LIGA_NUM_RE] and no [ignoreRE]: the result is
    [(isMark, key, number)]. *)
Definition parseAnchorName (anchorName : string)
  : result (bool * string * option Z) :=
  let '(key, number) := ligature_number anchorName in
  if startswith anchorName "_" && negb (String.eqb key "") then
    match number with
    | Some _ => Raise (ValueError "mark anchor cannot be numbered")
    | None =>
        let key := drop_first 1 key in
        if String.eqb key "" then Raise (ValueError "mark anchor key is nil")
        else Ok (true, key, number)
    end
  else Ok (false, key, number).

Record NamedAnchor : Type := mkNamedAnchor {
  name : string;
  x : Z;
  y : Z;
  isMark : bool;
  key : string;
  number : option Z;
  markClass : option string
}.

(** [NamedAnchor.__init__]. *)
Definition NamedAnchor_init (name : string) (x y : Z) (markClass : option string)
  : result NamedAnchor :=
  '(isMark, key, number) ← parseAnchorName name;
  match number with
  | Some n =>
      if n <? 1
      then Raise (ValueError "ligature component indexes must start from 1")
      else Ok (mkNamedAnchor name x y isMark key number markClass)
  | None =>
      if String.eqb key "" then Raise (AssertionError name)
      else Ok (mkNamedAnchor name x y isMark key number markClass)
  end.

Definition markAnchorName (a : NamedAnchor) : string := "_" +:+ key a.

Definition set_markClass (a : NamedAnchor) (c : option string) : NamedAnchor :=
  mkNamedAnchor (name a) (x a) (y a) (isMark a) (key a) (number a) c.

(** *** The feature-file syntax tree (fontTools.feaLib.ast), as far as the
    writer builds it *)

Record astAnchor : Type := mkAstAnchor {
  ax : Z;
  ay : Z;
  contourpoint : option Z;
  xDeviceTable : option (list (Z * Z));
  yDeviceTable : option (list (Z * Z))
}.

(** [ast.Anchor(x=round(x), y=round(y))]; on integers [round] changes
    nothing. *)
Definition Anchor_xy (x y : Z) : astAnchor := mkAstAnchor x y None None None.

(** A definition names its mark class; the class object is found under that
    name in [feaFile.markClasses]. *)
Record MarkClassDefinition : Type := mkMarkClassDefinition {
  mcd_markClass : string;
  mcd_anchor : astAnchor;
  mcd_glyph : string
}.

Record MarkClass : Type := mkMarkClass {
  mc_name : string;
  definitions : list MarkClassDefinition;
  glyphs : list (string * MarkClassDefinition)
}.

(** [MarkClass.addDefinition] of feaLib, for a definition of one glyph. *)
Definition addDefinition (mc : MarkClass) (d : MarkClassDefinition)
  : result MarkClass :=
  if has_key (mcd_glyph d) (glyphs mc)
  then Raise (FeatureLibError "Glyph already defined")
  else Ok (mkMarkClass (mc_name mc) (definitions mc ++ [d])
             (glyphs mc ++ [(mcd_glyph d, d)])).

Inductive PosStatement : Type :=
| MarkBasePosStatement (glyph : string) (marks : list (astAnchor * option string))
| MarkMarkPosStatement (glyph : string) (marks : list (astAnchor * option string))
| MarkLigPosStatement (glyph : string)
    (marks : list (list (astAnchor * option string))).

Inductive LookupStatement : Type :=
| GlyphClassDefinition (cname : string) (members : list string)
| LookupFlag (markFilteringSet : string)
| Pos (p : PosStatement).

Record LookupBlock : Type := mkLookupBlock {
  lookup_name : string;
  lookup_statements : list LookupStatement
}.

Record FeatureBlock : Type := mkFeatureBlock {
  tag : string;
  feature_statements : list LookupBlock
}.

Inductive Statement : Type :=
| SMarkClassDefinition (d : MarkClassDefinition)
| SComment (text : string)
| SFeatureBlock (f : FeatureBlock).

Inductive LogLevel : Type := DEBUG | WARNING.

(** What this file uses of [ufo2ft.featureWriters.ast], which is not part of
    the sources at hand: [makeFeaClassName(name)] and
    [makeFeaClassName(name, existingClassNames)].  They are parameters of
    the model. *)
Record AstModule : Type := mkAstModule {
  makeFeaClassName : string -> string;
  makeFeaClassName_unique : string -> list string -> string
}.

(** The name [makeFeaClassName] settles on: [name], or the first of
    [name_1], [name_2], ... that is not taken. *)
Fixpoint first_free_name (fuel : nat) (origName : string) (i : N)
    (name : string) (existing : list string) : string :=
  match fuel with
  | O => name
  | S fuel' =>
      if bool_decide (name ∈ existing)
      then first_free_name fuel' origName (i + 1)
             (fmt_name_index origName i) existing
      else name
  end.

Definition is_class_name_char (c : ascii) : bool :=
  (Ascii.leb "A" c && Ascii.leb c "Z") || (Ascii.leb "a" c && Ascii.leb c "z")
  || is_digit c || Ascii.eqb c "." || Ascii.eqb c "_".

(** Modelled from the spec: [ast.makeFeaClassName] is not among the sources
    at hand; the spec asks for a mark class "named deterministically from
    the key" and, on a conflict of geometry, for "a new uniquely-named
    class".  In this model the name keeps its letters, digits, dots and
    underscores, and is followed by the first counter that makes it new. *)
Definition ast_model : AstModule :=
  mkAstModule
    (fun name => str (List.filter is_class_name_char (chars name)))
    (fun name existing =>
       let name := str (List.filter is_class_name_char (chars name)) in
       first_free_name (S (length existing)) name 1 name existing).

(** The feature file being assembled. *)
Record FeaFile : Type := mkFeaFile {
  statements : list Statement;
  markClasses : gmap string MarkClass;
  glyphClassNames : list string
}.

(** *** The mark class builder *)

(** [_anchorsAreEqual]. *)
Definition anchorsAreEqual (a1 a2 : astAnchor) : bool :=
  (ax a1 =? ax a2) && (ay a1 =? ay a2)
  && bool_decide (contourpoint a1 = contourpoint a2)
  && bool_decide (xDeviceTable a1 = xDeviceTable a2)
  && bool_decide (yDeviceTable a1 = yDeviceTable a2).

Definition Log : Type := list (LogLevel * string).

Definition class_names (markClasses : gmap string MarkClass) : list string :=
  map fst (map_to_list markClasses).

(** [_defineMarkClass]: the definition made, or [None], with the mark
    classes and the log as the call leaves them. *)
Definition defineMarkClass (astm : AstModule) (glyphName : string) (x y : Z)
    (className : string) (markClasses : gmap string MarkClass) (log : Log)
  : result (option MarkClassDefinition * gmap string MarkClass * Log) :=
  let anchor := Anchor_xy x y in
  let define (k : string) (markClass : MarkClass)
             (markClasses : gmap string MarkClass) :=
    (* the class object held under the key [k] gets the definition *)
    let mcdef := mkMarkClassDefinition (mc_name markClass) anchor glyphName in
    markClass' ← addDefinition markClass mcdef;
    Ok (Some mcdef, <[k := markClass']> markClasses, log) in
  match markClasses !! className with
  | None =>
      let markClass := mkMarkClass className [] [] in
      define className markClass (<[className := markClass]> markClasses)
  | Some markClass =>
      match assoc glyphName (glyphs markClass) with
      | Some mcdef =>
          if anchorsAreEqual anchor (mcd_anchor mcdef) then
            Ok (None, markClasses,
                log ++ [(DEBUG, "Glyph already defined in markClass")])
          else
            let newClassName :=
              makeFeaClassName_unique astm className (class_names markClasses) in
            let markClass := mkMarkClass newClassName [] [] in
            define newClassName markClass
              (<[newClassName := markClass]> markClasses)
      | None => define className markClass markClasses
      end
  end.

(** The writer's context. *)
Record Context : Type := mkContext {
  anchorLists : list (string * list NamedAnchor);
  anchorPairs : list (string * string);
  markGlyphNames : list string;
  ctx_markClasses : list (string * string);
  feaFile : FeaFile;
  todo : list string;
  log : Log
}.

Definition markClassPrefix : string := "MC".

(** The loop of [_getAnchorLists] over the anchors [(name, x, y)] of one
    glyph; an unnamed anchor has the name [""]. *)
Fixpoint anchor_dict (anchors : list (string * Z * Z))
    (anchorDict : list (string * NamedAnchor)) (log : Log)
  : result (list (string * NamedAnchor) * Log) :=
  match anchors with
  | [] => Ok (anchorDict, log)
  | (anchorName, x, y) :: rest =>
      if String.eqb anchorName "" then
        anchor_dict rest anchorDict (log ++ [(WARNING, "unnamed anchor discarded")])
      else
        let log := if has_key anchorName anchorDict
                   then log ++ [(WARNING, "duplicate anchor")]
                   else log in
        a ← NamedAnchor_init anchorName x y None;
        anchor_dict rest (assoc_set anchorName a anchorDict) log
  end.

(** [_getAnchorLists], over the ordered glyph set. *)
Fixpoint getAnchorLists (glyphSet : list (string * list (string * Z * Z)))
    (result_ : list (string * list NamedAnchor)) (log : Log)
  : result (list (string * list NamedAnchor) * Log) :=
  match glyphSet with
  | [] => Ok (result_, log)
  | (glyphName, anchors) :: rest =>
      '(anchorDict, log) ← anchor_dict anchors [] log;
      getAnchorLists rest
        (if nonempty anchorDict
         then assoc_set glyphName (map snd anchorDict) result_
         else result_)
        log
  end.

(** [_getAnchorPairs]. *)
Definition getAnchorPairs (anchorLists : list (string * list NamedAnchor))
  : list (string * string) :=
  let all := concat (map snd anchorLists) in
  let markAnchorNames := map name (List.filter isMark all) in
  fold_left
    (fun anchorPairs anchor =>
       if isMark anchor then anchorPairs
       else if bool_decide (markAnchorName anchor ∈ markAnchorNames)
       then assoc_set (name anchor) (markAnchorName anchor) anchorPairs
       else anchorPairs)
    all [].

(** [setContext], for a feature file [fea] and the features [todo]. *)
Definition setContext (glyphSet : list (string * list (string * Z * Z)))
    (fea : FeaFile) (todo : list string) : result Context :=
  '(anchorLists, log) ← getAnchorLists glyphSet [] [];
  Ok (mkContext anchorLists (getAnchorPairs anchorLists) [] [] fea todo log).

(** [shouldContinue]; [super] is the answer of
    [BaseFeatureWriter.shouldContinue], which is not part of the sources at
    hand and is asked only when there are anchor pairs. *)
Definition shouldContinue (super : bool) (ctx : Context) : bool * Log :=
  if negb (nonempty (anchorPairs ctx)) then
    (false, log ctx ++ [(DEBUG, "No mark-attaching anchors found; skipped")])
  else (super, log ctx).

(** [_pruneUnusedAnchors]. *)
Definition pruneUnusedAnchors (anchorPairs : list (string * string))
    (anchorLists : list (string * list NamedAnchor))
  : list (string * list NamedAnchor) :=
  let attachingAnchorNames := map fst anchorPairs ++ map snd anchorPairs in
  List.filter (fun ga => nonempty (snd ga))
    (map (fun ga =>
            (fst ga,
             List.filter
               (fun a => negb (negb (bool_decide (name a ∈ attachingAnchorNames))
                               && negb (String.eqb (key a) "")))
               (snd ga)))
         anchorLists).

(** The groups of [_groupMarkGlyphsByAnchor]: mark anchor name to the
    glyphs that carry it, each with its anchor, in glyph order. *)
Definition Groups : Type := list (string * list (string * NamedAnchor)).

Fixpoint group_anchors (markAnchorNames : list string) (glyphName : string)
    (anchors : list NamedAnchor) (groups : Groups) (glyphNames : list string)
  : result (Groups * list string) :=
  match anchors with
  | [] => Ok (groups, glyphNames)
  | anchor :: rest =>
      if bool_decide (name anchor ∈ markAnchorNames) then
        let group := default [] (assoc (name anchor) groups) in
        if has_key glyphName group then Raise (AssertionError glyphName)
        else
          group_anchors markAnchorNames glyphName rest
            (assoc_set (name anchor) (group ++ [(glyphName, anchor)]) groups)
            (if bool_decide (glyphName ∈ glyphNames) then glyphNames
             else glyphNames ++ [glyphName])
      else group_anchors markAnchorNames glyphName rest groups glyphNames
  end.

(** [_groupMarkGlyphsByAnchor]: the groups and [markGlyphNames]. *)
Fixpoint groupMarkGlyphsByAnchor (markAnchorNames : list string)
    (anchorLists : list (string * list NamedAnchor))
    (groups : Groups) (glyphNames : list string)
  : result (Groups * list string) :=
  match anchorLists with
  | [] => Ok (groups, glyphNames)
  | (glyphName, anchors) :: rest =>
      '(groups, glyphNames) ←
        group_anchors markAnchorNames glyphName anchors groups glyphNames;
      groupMarkGlyphsByAnchor markAnchorNames rest groups glyphNames
  end.

Definition name_le {V : Type} (a b : string * V) : bool :=
  String.leb (fst a) (fst b).

(** The inner loop of [_makeMarkClassDefinitions], over the glyphs of one
    mark anchor name. *)
Fixpoint define_group (astm : AstModule)
    (glyphAnchorPairs : list (string * NamedAnchor)) (className : string)
    (currentClasses : gmap string MarkClass)
    (allMarkClasses : list (string * string))
    (newDefs : list MarkClassDefinition) (log : Log)
  : result (gmap string MarkClass * list (string * string)
            * list MarkClassDefinition * Log) :=
  match glyphAnchorPairs with
  | [] => Ok (currentClasses, allMarkClasses, newDefs, log)
  | (glyphName, anchor) :: rest =>
      '(mcd, currentClasses, log) ←
        defineMarkClass astm glyphName (x anchor) (y anchor) className
          currentClasses log;
      let newDefs := match mcd with
                     | Some d => newDefs ++ [d]
                     | None => newDefs
                     end in
      let className := match mcd with
                       | Some d => mcd_markClass d
                       | None => className
                       end in
      match currentClasses !! className with
      | None => Raise (KeyError className)
      | Some _ =>
          define_group astm rest className currentClasses
            (assoc_set (key anchor) className allMarkClasses) newDefs log
      end
  end.

(** The outer loop of [_makeMarkClassDefinitions], over the sorted groups. *)
Fixpoint define_groups (astm : AstModule) (groups : Groups)
    (currentClasses : gmap string MarkClass)
    (allMarkClasses : list (string * string))
    (newDefs : list MarkClassDefinition) (log : Log)
  : result (gmap string MarkClass * list (string * string)
            * list MarkClassDefinition * Log) :=
  match groups with
  | [] => Ok (currentClasses, allMarkClasses, newDefs, log)
  | (markAnchorName, glyphAnchorPairs) :: rest =>
      let className := makeFeaClassName astm (markClassPrefix +:+ markAnchorName) in
      '(currentClasses, allMarkClasses, newDefs, log) ←
        define_group astm glyphAnchorPairs className currentClasses
          allMarkClasses newDefs log;
      define_groups astm rest currentClasses allMarkClasses newDefs log
  end.

(** [_makeMarkClassDefinitions]: the new definitions and the context after
    the call. *)
Definition makeMarkClassDefinitions (astm : AstModule) (ctx : Context)
  : result (list MarkClassDefinition * Context) :=
  let markAnchorNames := map snd (anchorPairs ctx) in
  '(markGlyphSets, glyphNames) ←
    groupMarkGlyphsByAnchor markAnchorNames (anchorLists ctx) [] [];
  '(currentClasses, allMarkClasses, newDefs, log') ←
    define_groups astm (sorted name_le markGlyphSets)
      (markClasses (feaFile ctx)) [] [] (log ctx);
  Ok (newDefs,
      mkContext (anchorLists ctx) (anchorPairs ctx) glyphNames allMarkClasses
        (mkFeaFile (statements (feaFile ctx)) currentClasses
           (glyphClassNames (feaFile ctx)))
        (todo ctx) log').

(** [_setBaseAnchorMarkClasses], for the anchors of one glyph. *)
Fixpoint set_mark_classes (markClasses : list (string * string))
    (anchors : list NamedAnchor) : result (list NamedAnchor) :=
  match anchors with
  | [] => Ok []
  | anchor :: rest =>
      anchor' ←
        (if isMark anchor || String.eqb (key anchor) "" then Ok anchor
         else match assoc (key anchor) markClasses with
              | Some c => Ok (set_markClass anchor (Some c))
              | None => Raise (KeyError (key anchor))
              end);
      rest' ← set_mark_classes markClasses rest;
      Ok (anchor' :: rest')
  end.

Fixpoint setBaseAnchorMarkClasses (markClasses : list (string * string))
    (anchorLists : list (string * list NamedAnchor))
  : result (list (string * list NamedAnchor)) :=
  match anchorLists with
  | [] => Ok []
  | (glyphName, anchors) :: rest =>
      anchors' ← set_mark_classes markClasses anchors;
      rest' ← setBaseAnchorMarkClasses markClasses rest;
      Ok ((glyphName, anchors') :: rest')
  end.

(** *** Attachments *)

(** [MarkToBasePos], [MarkToMarkPos] and [MarkToLigaPos]: a glyph name and
    its anchors, per ligature component for the last. *)
Inductive MarkPos : Type :=
| MarkToBasePos (glyph : string) (marks : list NamedAnchor)
| MarkToMarkPos (glyph : string) (marks : list NamedAnchor)
| MarkToLigaPos (glyph : string) (marks : list (list NamedAnchor)).

Definition pos_name (p : MarkPos) : string :=
  match p with
  | MarkToBasePos g _ | MarkToMarkPos g _ | MarkToLigaPos g _ => g
  end.

(** [AbstractMarkPos.filter] with [_filterMarks]. *)
Definition pos_filter (include : NamedAnchor -> bool) (p : MarkPos)
  : option MarkPos :=
  match p with
  | MarkToBasePos g marks =>
      let marks := List.filter include marks in
      if nonempty marks then Some (MarkToBasePos g marks) else None
  | MarkToMarkPos g marks =>
      let marks := List.filter include marks in
      if nonempty marks then Some (MarkToMarkPos g marks) else None
  | MarkToLigaPos g marks =>
      let marks := map (List.filter include) marks in
      if existsb nonempty marks then Some (MarkToLigaPos g marks) else None
  end.

Definition anchor_name_le (a b : NamedAnchor) : bool :=
  String.leb (name a) (name b).

(** [_marksAsAST] for one list of anchors. *)
Definition marksAsAST (marks : list NamedAnchor)
  : list (astAnchor * option string) :=
  map (fun anchor => (Anchor_xy (x anchor) (y anchor), markClass anchor))
      (sorted anchor_name_le marks).

Definition asAST (p : MarkPos) : PosStatement :=
  match p with
  | MarkToBasePos g marks => MarkBasePosStatement g (marksAsAST marks)
  | MarkToMarkPos g marks => MarkMarkPosStatement g (marksAsAST marks)
  | MarkToLigaPos g marks => MarkLigPosStatement g (map marksAsAST marks)
  end.

(** The anchors of a base glyph that go into its mark-to-base rule. *)
Fixpoint base_marks (anchors : list NamedAnchor) : result (list NamedAnchor) :=
  match anchors with
  | [] => Ok []
  | anchor :: rest =>
      match number anchor with
      | Some _ => base_marks rest
      | None =>
          if isMark anchor then Raise (AssertionError "not anchor.isMark")
          else match markClass anchor with
               | None => Raise (AssertionError "anchor.markClass is not None")
               | Some _ => l ← base_marks rest; Ok (anchor :: l)
               end
      end
  end.

(** [_makeMarkToBaseAttachments]. *)
Fixpoint makeMarkToBaseAttachments (markGlyphNames : list string)
    (anchorLists : list (string * list NamedAnchor)) : result (list MarkPos) :=
  match anchorLists with
  | [] => Ok []
  | (glyphName, anchors) :: rest =>
      if bool_decide (glyphName ∈ markGlyphNames)
      then makeMarkToBaseAttachments markGlyphNames rest
      else
        baseMarks ← base_marks anchors;
        result ← makeMarkToBaseAttachments markGlyphNames rest;
        if nonempty baseMarks then Ok (MarkToBasePos glyphName baseMarks :: result)
        else Ok result
  end.

(** [results.setdefault(key, []).append(pos)]. *)
Definition dict_append {V : Type} (k : string) (v : V)
    (d : list (string * list V)) : list (string * list V) :=
  assoc_set k (default [] (assoc k d) ++ [v]) d.

(** The loop of [_makeMarkToMarkAttachments] over the anchors of a mark
    glyph. *)
Fixpoint mark_to_mark_of_glyph (glyphName : string) (anchors : list NamedAnchor)
    (results : list (string * list MarkPos)) (log : Log)
  : result (list (string * list MarkPos) * Log) :=
  match anchors with
  | [] => Ok (results, log)
  | anchor :: rest =>
      if isMark anchor then mark_to_mark_of_glyph glyphName rest results log
      else
        match number anchor with
        | Some _ =>
            mark_to_mark_of_glyph glyphName rest results
              (log ++ [(WARNING, "invalid ligature anchor in mark glyph; skipped")])
        | None =>
            match markClass anchor with
            | None => Raise (AssertionError "anchor.markClass is not None")
            | Some _ =>
                mark_to_mark_of_glyph glyphName rest
                  (dict_append (key anchor) (MarkToMarkPos glyphName [anchor])
                     results)
                  log
            end
        end
  end.

(** [_makeMarkToMarkAttachments]. *)
Fixpoint makeMarkToMarkAttachments (markGlyphNames : list string)
    (anchorLists : list (string * list NamedAnchor))
    (results : list (string * list MarkPos)) (log : Log)
  : result (list (string * list MarkPos) * Log) :=
  match anchorLists with
  | [] => Ok (results, log)
  | (glyphName, anchors) :: rest =>
      if negb (bool_decide (glyphName ∈ markGlyphNames))
      then makeMarkToMarkAttachments markGlyphNames rest results log
      else
        '(results, log) ← mark_to_mark_of_glyph glyphName anchors results log;
        makeMarkToMarkAttachments markGlyphNames rest results log
  end.

(** The dict [componentAnchors] of [_makeMarkToLigaAttachments], filled
    from the anchors of one glyph. *)
Fixpoint component_anchors (anchors : list NamedAnchor)
    (componentAnchors : gmap Z (list NamedAnchor))
  : result (gmap Z (list NamedAnchor)) :=
  match anchors with
  | [] => Ok componentAnchors
  | anchor :: rest =>
      if isMark anchor then Raise (AssertionError "not anchor.isMark")
      else
        match number anchor with
        | None => component_anchors rest componentAnchors
        | Some number =>
            if String.eqb (key anchor) "" then
              component_anchors rest (<[number := []]> componentAnchors)
            else
              match markClass anchor with
              | None => Raise (AssertionError "anchor.markClass is not None")
              | Some _ =>
                  component_anchors rest
                    (<[number := default [] (componentAnchors !! number)
                                 ++ [anchor]]> componentAnchors)
              end
        end
  end.

(** [max(componentAnchors.keys())] of a dict that is not empty. *)
Definition max_key (componentAnchors : gmap Z (list NamedAnchor)) : Z :=
  match map fst (map_to_list componentAnchors) with
  | [] => 0
  | k :: ks => fold_right Z.max k ks
  end.

(** [range(1, n + 1)]. *)
Definition range_1_to (n : Z) : list Z :=
  map (fun i => Z.of_nat i) (seq 1 (Z.to_nat n)).

(** The list [ligatureMarks] of a glyph whose [componentAnchors] is not
    empty. *)
Definition ligature_marks (componentAnchors : gmap Z (list NamedAnchor))
  : list (list NamedAnchor) :=
  map (fun number => default [] (componentAnchors !! number))
      (range_1_to (max_key componentAnchors)).

(** [_makeMarkToLigaAttachments]. *)
Fixpoint makeMarkToLigaAttachments (markGlyphNames : list string)
    (anchorLists : list (string * list NamedAnchor)) : result (list MarkPos) :=
  match anchorLists with
  | [] => Ok []
  | (glyphName, anchors) :: rest =>
      if bool_decide (glyphName ∈ markGlyphNames)
      then makeMarkToLigaAttachments markGlyphNames rest
      else
        componentAnchors ← component_anchors anchors ∅;
        result ← makeMarkToLigaAttachments markGlyphNames rest;
        if bool_decide (componentAnchors = ∅) then Ok result
        else Ok (MarkToLigaPos glyphName (ligature_marks componentAnchors) :: result)
  end.

(** *** Lookups and features *)

(** [_iterAttachments]. *)
Definition iterAttachments (attachments : list MarkPos)
    (include : option (string -> bool))
    (marksFilter : option (NamedAnchor -> bool)) : list MarkPos :=
  omap (fun p =>
          if match include with
             | Some inc => negb (inc (pos_name p))
             | None => false
             end
          then None
          else match marksFilter with
               | Some f => pos_filter f p
               | None => Some p
               end)
       attachments.

(** [_makeMarkLookup]. *)
Definition makeMarkLookup (lookupName : string) (attachments : list MarkPos)
    (include : string -> bool) (marksFilter : option (NamedAnchor -> bool))
  : option LookupBlock :=
  let statements :=
    map (fun p => Pos (asAST p))
        (iterAttachments attachments (Some include) marksFilter) in
  if nonempty statements then Some (mkLookupBlock lookupName statements)
  else None.

(** [_makeMarkFilteringSetClass]; the class definition gets the name that
    [ast.makeGlyphClassDefinitions] gives it in the feature file. *)
Definition makeMarkFilteringSetClass (astm : AstModule) (fea : FeaFile)
    (lookupName : string) (attachments : list MarkPos) (markClass : MarkClass)
    (include : string -> bool) : string * list string :=
  let markGlyphs := List.filter include (map fst (glyphs markClass)) in
  let baseGlyphs :=
    List.filter (fun n => negb (has_key n (glyphs markClass)))
                (map pos_name attachments) in
  let members := markGlyphs ++ baseGlyphs in
  let className := "MFS_" +:+ lookupName in
  (makeFeaClassName_unique astm className (glyphClassNames fea), members).

(** [_makeMarkToMarkLookup]. *)
Definition makeMarkToMarkLookup (astm : AstModule) (ctx : Context)
    (anchorName : string) (attachments : list MarkPos)
    (include : string -> bool) (marksFilter : option (NamedAnchor -> bool))
    (featureTag : option string) : result (option LookupBlock) :=
  let attachments := iterAttachments attachments (Some include) marksFilter in
  if negb (nonempty attachments) then Ok None
  else
    let prefix := match featureTag with
                  | Some t => t +:+ "_"
                  | None => ""
                  end in
    let lookupName := prefix +:+ "mark2mark_" +:+ anchorName in
    match assoc anchorName (ctx_markClasses ctx) with
    | None => Raise (KeyError anchorName)
    | Some cname =>
        match markClasses (feaFile ctx) !! cname with
        | None => Raise (KeyError cname)
        | Some markClass =>
            let '(fname, members) :=
              makeMarkFilteringSetClass astm (feaFile ctx) lookupName
                attachments markClass include in
            Ok (Some (mkLookupBlock lookupName
                        (GlyphClassDefinition fname members
                         :: LookupFlag fname
                         :: map (fun p => Pos (asAST p)) attachments)))
        end
    end.

(** What [_makeFeatures] stores in the context before the features are
    built. *)
Record Attachments : Type := mkAttachments {
  markToBaseAttachments : list MarkPos;
  markToLigaAttachments : list MarkPos;
  markToMarkAttachments : list (string * list MarkPos)
}.

Definition opt_to_list {A : Type} (o : option A) : list A :=
  match o with Some a => [a] | None => [] end.

(** [_makeMarkFeature]. *)
Definition makeMarkFeature (atts : Attachments) (include : string -> bool)
  : option FeatureBlock :=
  let baseLkp := makeMarkLookup "mark2base" (markToBaseAttachments atts) include None in
  let ligaLkp := makeMarkLookup "mark2liga" (markToLigaAttachments atts) include None in
  match baseLkp, ligaLkp with
  | None, None => None
  | _, _ => Some (mkFeatureBlock "mark" (opt_to_list baseLkp ++ opt_to_list ligaLkp))
  end.

(** The loop over [sorted(markToMarkAttachments.items())] that [mkmk],
    [abvm] and [blwm] share. *)
Fixpoint mark_to_mark_lookups (astm : AstModule) (ctx : Context)
    (items : list (string * list MarkPos)) (include : string -> bool)
    (marksFilter : option (NamedAnchor -> bool)) (featureTag : option string)
  : result (list LookupBlock) :=
  match items with
  | [] => Ok []
  | (anchorName, attachments) :: rest =>
      lkp ← makeMarkToMarkLookup astm ctx anchorName attachments include
              marksFilter featureTag;
      lkps ← mark_to_mark_lookups astm ctx rest include marksFilter featureTag;
      Ok (opt_to_list lkp ++ lkps)
  end.

(** [_makeMkmkFeature]. *)
Definition makeMkmkFeature (astm : AstModule) (ctx : Context)
    (atts : Attachments) (include : string -> bool)
  : result (option FeatureBlock) :=
  lkps ← mark_to_mark_lookups astm ctx
           (sorted name_le (markToMarkAttachments atts)) include None None;
  if nonempty lkps then Ok (Some (mkFeatureBlock "mkmk" lkps)) else Ok None.

Definition abvmAnchorNames : list string :=
  ["top"; "topleft"; "topright"; "candra"; "bindu"; "candrabindu"].
Definition blwmAnchorNames : list string :=
  ["bottom"; "bottomleft"; "bottomright"; "nukta"].

(** [_isAboveMark] and [_isBelowMark]. *)
Definition isAboveMark (threshold : Z) (anchor : NamedAnchor) : bool :=
  if bool_decide (name anchor ∈ abvmAnchorNames) then true
  else if bool_decide (name anchor ∈ blwmAnchorNames) then false
  else threshold <=? y anchor.

Definition isBelowMark (threshold : Z) (anchor : NamedAnchor) : bool :=
  negb (isAboveMark threshold anchor).

(** [_makeAbvmOrBlwmFeature]. *)
Definition makeAbvmOrBlwmFeature (astm : AstModule) (ctx : Context)
    (atts : Attachments) (threshold : Z) (tag : string)
    (include : string -> bool) : result (option FeatureBlock) :=
  marksFilter ←
    (if String.eqb tag "abvm" then Ok (isAboveMark threshold)
     else if String.eqb tag "blwm" then Ok (isBelowMark threshold)
     else Raise (AssertionError tag));
  let baseLkp := makeMarkLookup (tag +:+ "_mark2base")
                   (markToBaseAttachments atts) include (Some marksFilter) in
  let ligaLkp := makeMarkLookup (tag +:+ "_mark2liga")
                   (markToLigaAttachments atts) include (Some marksFilter) in
  mkmkLookups ← mark_to_mark_lookups astm ctx
                  (sorted name_le (markToMarkAttachments atts)) include
                  (Some marksFilter) (Some tag);
  match baseLkp, ligaLkp, mkmkLookups with
  | None, None, [] => Ok None
  | _, _, _ =>
      Ok (Some (mkFeatureBlock tag
                  (opt_to_list baseLkp ++ opt_to_list ligaLkp ++ mkmkLookups)))
  end.

(** [features[tag] = feature] when the feature was made. *)
Definition add_feature (features : list (string * FeatureBlock)) (t : string)
    (f : option FeatureBlock) : list (string * FeatureBlock) :=
  match f with
  | Some fb => assoc_set t fb features
  | None => features
  end.

(** [_makeFeatures]; [indicGlyphs] is the result of [_getIndicGlyphs] and
    [unitsPerEm] is [font.info.unitsPerEm]. *)
Definition makeFeatures (astm : AstModule) (ctx : Context)
    (indicGlyphs : list string) (unitsPerEm : Z)
  : result (list (string * FeatureBlock) * Context) :=
  b ← makeMarkToBaseAttachments (markGlyphNames ctx) (anchorLists ctx);
  l ← makeMarkToLigaAttachments (markGlyphNames ctx) (anchorLists ctx);
  '(m, log') ← makeMarkToMarkAttachments (markGlyphNames ctx) (anchorLists ctx)
                 [] (log ctx);
  let ctx := mkContext (anchorLists ctx) (anchorPairs ctx) (markGlyphNames ctx)
               (ctx_markClasses ctx) (feaFile ctx) (todo ctx) log' in
  let atts := mkAttachments b l m in
  let isIndic glyphName := bool_decide (glyphName ∈ indicGlyphs) in
  let isNotIndic glyphName := negb (bool_decide (glyphName ∈ indicGlyphs)) in
  let has t := bool_decide (t ∈ todo ctx) in
  let features := [] in
  let features :=
    if has "mark" then add_feature features "mark" (makeMarkFeature atts isNotIndic)
    else features in
  features ←
    (if has "mkmk" then
       mkmk ← makeMkmkFeature astm ctx atts isNotIndic;
       Ok (add_feature features "mkmk" mkmk)
     else Ok features);
  features ←
    (if (has "abvm" || has "blwm") && nonempty indicGlyphs then
       let threshold := unitsPerEm / 2 in
       features ←
         (if has "abvm" then
            f ← makeAbvmOrBlwmFeature astm ctx atts threshold "abvm" isIndic;
            Ok (add_feature features "abvm" f)
          else Ok features);
       (if has "blwm" then
          f ← makeAbvmOrBlwmFeature astm ctx atts threshold "blwm" isIndic;
          Ok (add_feature features "blwm" f)
        else Ok features)
     else Ok features);
  Ok (features, ctx).

(** [_write]: whether features were written, and the context after. *)
Definition write (astm : AstModule) (ctx : Context)
    (indicGlyphs : list string) (unitsPerEm : Z) : result (bool * Context) :=
  let ctx := mkContext (pruneUnusedAnchors (anchorPairs ctx) (anchorLists ctx))
               (anchorPairs ctx) (markGlyphNames ctx) (ctx_markClasses ctx)
               (feaFile ctx) (todo ctx) (log ctx) in
  '(newClassDefs, ctx) ← makeMarkClassDefinitions astm ctx;
  anchorLists' ← setBaseAnchorMarkClasses (ctx_markClasses ctx) (anchorLists ctx);
  let ctx := mkContext anchorLists' (anchorPairs ctx) (markGlyphNames ctx)
               (ctx_markClasses ctx) (feaFile ctx) (todo ctx) (log ctx) in
  '(features, ctx) ← makeFeatures astm ctx indicGlyphs unitsPerEm;
  if negb (nonempty features) then Ok (false, ctx)
  else
    let fea := feaFile ctx in
    let statements' :=
      statements fea ++ map SMarkClassDefinition newClassDefs
      ++ [SComment ""]
      ++ map (fun tf => SFeatureBlock (snd tf)) (sorted name_le features) in
    Ok (true,
        mkContext (anchorLists ctx) (anchorPairs ctx) (markGlyphNames ctx)
          (ctx_markClasses ctx)
          (mkFeaFile statements' (markClasses fea) (glyphClassNames fea))
          (todo ctx) (log ctx)).

End MarkFeatureWriter.


(* ===================================================================== *)
(** ** propagateAnchors.py                                                *)
(* ===================================================================== *)

Module PropagateAnchors.

Definition VERTICAL_OPPOSITES : gmap string string :=
  list_to_map [
    ("top", "bottom");
    ("topleft", "bottomleft");
    ("topright", "bottomright");
    ("bottom", "top");
    ("bottomleft", "topleft");
    ("bottomright", "topright")
  ].

Definition HORIZONTAL_OPPOSITES : gmap string string :=
  list_to_map [
    ("bottomleft", "bottomright");
    ("bottomright", "bottomleft");
    ("topleft", "topright");
    ("topright", "topleft")
  ].

(** *** Data model *)

Record Anchor : Type := mkAnchor {
  name : string;
  x : Z;
  y : Z
}.

(** [fontTools.misc.transform.Transform]: the six entries of a 2x3 affine
    matrix; [t[0]] is [xx] and [t[3]] is [yy]. *)
Record Transform : Type := mkTransform {
  xx : Z; xy : Z; yx : Z; yy : Z; dx : Z; dy : Z
}.

Record Component : Type := mkComponent {
  baseGlyph : string;
  transformation : Transform
}.

(** A glyph is known by its key in the glyph set, which is its name. *)
Record Glyph : Type := mkGlyph {
  unicode : option Z;
  anchors : list Anchor;
  components : list Component
}.

Record Attachment : Type := mkAttachment {
  base : list string;
  mark : list string
}.

(** An [Attachment] object as the context holds it: Python compares
    attachments by identity, here their position in [ctx.attachments]. *)
Record AttachmentRef : Type := mkAttachmentRef {
  att_id : nat;
  att : Attachment
}.

(** The filter's options; [markRE] is the default ["^_"] throughout, and
    an empty [opt_attachments] is [attachments=None]. *)
Record Options : Type := mkOptions {
  vertical_opposites : gmap string string;
  horizontal_opposites : gmap string string;
  opt_attachments : list Attachment
}.

Definition default_options : Options :=
  mkOptions VERTICAL_OPPOSITES HORIZONTAL_OPPOSITES [].

(** What a run reads and never writes: the options, the font's
    [public.openTypeCategories], the attachments collected by
    [set_context], and [ufo2ft.util.unicodeInCategories] applied to
    [unicodeMarkCategories] (a code point is of category Mn or Me), which is
    a parameter of the model. *)
Record Context : Type := mkContext {
  options : Options;
  openTypeCategories : gmap string string;
  unicodeIsMark : Z -> bool;
  attachments : list Attachment
}.

(** What a run writes: the glyphs' anchors and the processed set. *)
Record State : Type := mkState {
  glyphSet : gmap string Glyph;
  processed : gset string
}.

(** The transient [SimpleNamespace(component, component_is_mark, anchor,
    attachment)]; the component is its index in [glyph.components]. *)
Record PropagatedAnchor : Type := mkPropagatedAnchor {
  component : nat;
  component_is_mark : bool;
  anchor : Anchor;
  attachment : option AttachmentRef
}.

#[global] Instance Anchor_eq_dec : EqDecision Anchor.
Proof. solve_decision. Defined.
#[global] Instance Attachment_eq_dec : EqDecision Attachment.
Proof. solve_decision. Defined.
#[global] Instance AttachmentRef_eq_dec : EqDecision AttachmentRef.
Proof. solve_decision. Defined.
#[global] Instance Transform_eq_dec : EqDecision Transform.
Proof. solve_decision. Defined.
#[global] Instance PropagatedAnchor_eq_dec : EqDecision PropagatedAnchor.
Proof. solve_decision. Defined.

(** [SimpleNamespace.__eq__]: field by field. *)
Definition pa_eqb (a b : PropagatedAnchor) : bool := bool_decide (a = b).

(** [pa1.attachment != pa2.attachment] and [==]: identity of the objects. *)
Definition same_attachment (a b : option AttachmentRef) : bool :=
  bool_decide (att_id <$> a = att_id <$> b).

Definition set_name (a : Anchor) (n : string) : Anchor :=
  mkAnchor n (x a) (y a).

Definition set_anchor (pa : PropagatedAnchor) (a : Anchor) : PropagatedAnchor :=
  mkPropagatedAnchor (component pa) (component_is_mark pa) a (attachment pa).

Definition set_anchors (g : Glyph) (l : list Anchor) : Glyph :=
  mkGlyph (unicode g) l (components g).

(** *** The attachment registry *)

(** [_mark_anchor_name]: [re.match("^_", anchorName)] as a truth value; the
    match, when there is one, is the one character ["_"]. *)
Definition mark_anchor_name (anchorName : string) : bool :=
  startswith anchorName "_".

(** [attachments_dict[key]] of a [defaultdict(Attachment)], followed by an
    update of the attachment found or created there. *)
Definition dict_update (d : list (string * Attachment)) (key : string)
    (f : Attachment -> Attachment) : list (string * Attachment) :=
  assoc_set key (f (default (mkAttachment [] []) (assoc key d))) d.

Definition add_mark (n : string) (a : Attachment) : Attachment :=
  if bool_decide (n ∈ mark a) then a else mkAttachment (base a) (mark a ++ [n]).

Definition add_base (n : string) (a : Attachment) : Attachment :=
  if bool_decide (n ∈ base a) then a else mkAttachment (base a ++ [n]) (mark a).

(** One round of the loop over [anchor_names]. *)
Definition classify_anchor_name (d : list (string * Attachment))
    (anchor_name : string) : list (string * Attachment) :=
  if mark_anchor_name anchor_name then
    let key := str (remove_first_char underscore (chars anchor_name)) in
    dict_update d key (add_mark anchor_name)
  else if 0 <? find_char underscore (chars anchor_name) then
    let key := rsplit1_head underscore anchor_name in
    dict_update d key (add_base anchor_name)
  else
    let key := anchor_name in
    dict_update d key (add_base anchor_name).

(** [_collect_attachments]; [anchor_names] is the set of the font's anchor
    names in the order Python happens to iterate it. *)
Definition collect_attachments (opts : Options) (anchor_names : list string)
  : list Attachment :=
  if nonempty (opt_attachments opts) then
    map (fun a => mkAttachment (base a) (mark a)) (opt_attachments opts)
  else
    let attachments_dict := fold_left classify_anchor_name anchor_names [] in
    List.filter (fun a => nonempty (base a) && nonempty (mark a))
                (map snd attachments_dict).

(** The anchor names of the font, once each. *)
Definition font_anchor_names (font : gmap string Glyph) : list string :=
  remove_dups
    (concat (map (fun kg => map name (anchors (snd kg))) (map_to_list font))).

Fixpoint find_attachment (i : nat) (l : list Attachment) (n : string)
  : option AttachmentRef :=
  match l with
  | [] => None
  | a :: t =>
      if bool_decide (n ∈ base a) || bool_decide (n ∈ mark a)
      then Some (mkAttachmentRef i a)
      else find_attachment (S i) t n
  end.

Definition get_anchor_attachment (ctx : Context) (n : string)
  : option AttachmentRef :=
  find_attachment 0 (attachments ctx) n.

(** [set_context]: a new processed set, and the attachments of the font. *)
Definition set_context (opts : Options) (categories : gmap string string)
    (isMark : Z -> bool) (font : gmap string Glyph) : Context * State :=
  (mkContext opts categories isMark
     (collect_attachments opts (font_anchor_names font)),
   mkState font ∅).

(** *** Categories *)

Definition has_mark_anchor (ctx : Context) (glyph : Glyph) : bool :=
  existsb (fun a =>
             match get_anchor_attachment ctx (name a) with
             | None => false
             | Some r => bool_decide (name a ∈ mark (att r))
             end) (anchors glyph).

(** The loop that fills [component_categories]: the categories of the
    components whose base glyph exists and has one. *)
Fixpoint component_categories
    (rec : string -> Glyph -> result (option string))
    (gs : gmap string Glyph) (comps : list Component)
  : result (list string) :=
  match comps with
  | [] => Ok []
  | c :: rest =>
      match gs !! baseGlyph c with
      | Some baseG =>
          baseCategory ← rec (baseGlyph c) baseG;
          cats ← component_categories rec gs rest;
          match baseCategory with
          | Some cat => if String.eqb cat "" then Ok cats else Ok (cat :: cats)
          | None => Ok cats
          end
      | None => component_categories rec gs rest
      end
  end.

(** The second half of [get_glyph_category]: mark anchors, then the
    components; [rec] is the recursive call. *)
Definition category_of_anchors_and_components
    (rec : string -> Glyph -> result (option string))
    (ctx : Context) (gs : gmap string Glyph) (glyph : Glyph)
  : result (option string) :=
  if has_mark_anchor ctx glyph then Ok (Some "mark")
  else if nonempty (components glyph) then
    cats ← component_categories rec gs (components glyph);
    if forallb (fun v => String.eqb v "mark") cats then Ok (Some "mark")
    else Ok None
  else Ok None.

(** [get_glyph_category]; [None] is Python's [None].  [glyph.unicode] is
    true when there is a code point other than 0. *)
Fixpoint get_glyph_category (fuel : nat) (ctx : Context)
    (gs : gmap string Glyph) (gname : string) (glyph : Glyph)
  : result (option string) :=
  match fuel with
  | O => OutOfFuel
  | S fuel' =>
      let category := openTypeCategories ctx !! gname in
      let explicit := match category with
                      | Some c => negb (String.eqb c "")
                      | None => false
                      end in
      if explicit then Ok category
      else
        let uv := default 0 (unicode glyph) in
        if negb (uv =? 0) then
          if unicodeIsMark ctx uv then Ok (Some "mark") else Ok (Some "base")
        else
          category_of_anchors_and_components
            (get_glyph_category fuel' ctx gs) ctx gs glyph
  end.

(** *** Collecting the components' anchors *)

Definition identity_transform : Transform := mkTransform 1 0 0 1 0 0.

(** [Transform.transformPoint] of fontTools. *)
Definition transformPoint (t : Transform) (p : Z * Z) : Z * Z :=
  let '(px, py) := p in
  (xx t * px + yx t * py + dx t, xy t * px + yy t * py + dy t).

(** The renaming of an anchor of a horizontally flipped component. *)
Definition rename_flipped_horizontally (opts : Options) (t : Transform)
    (anchor : Anchor) : Anchor :=
  if xx t <? 0 then
    match horizontal_opposites opts !! name anchor with
    | Some opposite => set_name anchor opposite
    | None => anchor
    end
  else anchor.

(** The statement under [# Vertically]: an expression statement, the
    opposite name is looked up and dropped. *)
Definition rename_flipped_vertically (opts : Options) (t : Transform)
    (anchor : Anchor) : Anchor :=
  if yy t <? 0 then
    match vertical_opposites opts !! name anchor with
    | Some _opposite => anchor
    | None => anchor
    end
  else anchor.

Definition transform_anchor (t : Transform) (anchor : Anchor) : Anchor :=
  if bool_decide (t ≠ identity_transform) then
    let '(px, py) := transformPoint t (x anchor, y anchor) in
    mkAnchor (name anchor) px py
  else anchor.

(** The body of the loop over [component_anchors], up to the transformed
    copy of the anchor. *)
Definition propagated_copy (opts : Options) (t : Transform) (a : Anchor)
  : Anchor :=
  let anchor := mkAnchor (name a) (x a) (y a) in
  let anchor := rename_flipped_horizontally opts t anchor in
  let anchor := rename_flipped_vertically opts t anchor in
  transform_anchor t anchor.

(** The propagated anchors of one component, [i] its index. *)
Definition component_propagated_anchors (ctx : Context) (i : nat)
    (c : Component) (component_is_mark : bool)
    (component_anchors : list Anchor) : list PropagatedAnchor :=
  map (fun a =>
         let anchor := propagated_copy (options ctx) (transformation c) a in
         mkPropagatedAnchor i component_is_mark anchor
           (get_anchor_attachment ctx (name anchor)))
      component_anchors.

Definition glyph_anchors (st : State) (gname : string) : list Anchor :=
  match glyphSet st !! gname with
  | Some g => anchors g
  | None => []
  end.

(** [_collect_components_anchors] from component [i] on; [rec] is
    [_propagate_glyph_anchors].  A component whose base glyph is missing is
    skipped (the [KeyError] is caught and logged). *)
Fixpoint collect_components_anchors
    (rec : State -> string -> result (State * list Anchor))
    (ctx : Context) (i : nat) (comps : list Component)
    (st : State) (propagated_anchors : list PropagatedAnchor)
  : result (State * list PropagatedAnchor) :=
  match comps with
  | [] => Ok (st, propagated_anchors)
  | c :: rest =>
      match glyphSet st !! baseGlyph c with
      | None => collect_components_anchors rec ctx (S i) rest st propagated_anchors
      | Some _ =>
          '(st', component_anchors) ← rec st (baseGlyph c);
          let component_is_mark :=
            existsb (fun a => mark_anchor_name (name a))
                    (glyph_anchors st' (baseGlyph c)) in
          collect_components_anchors rec ctx (S i) rest st'
            (propagated_anchors ++
             component_propagated_anchors ctx i c component_is_mark
               component_anchors)
      end
  end.

(** *** Pruning *)

(** [for pa in list(propagated_anchors): if cond(pa):
    propagated_anchors.remove(pa)]: the loop runs over a copy, [remove]
    works on the list itself. *)
Fixpoint prune_loop (cond : PropagatedAnchor -> result bool)
    (copy : list PropagatedAnchor) (propagated_anchors : list PropagatedAnchor)
  : result (list PropagatedAnchor) :=
  match copy with
  | [] => Ok propagated_anchors
  | pa :: rest =>
      b ← cond pa;
      if b : bool then
        l ← list_remove pa_eqb pa propagated_anchors;
        prune_loop cond rest l
      else prune_loop cond rest propagated_anchors
  end.

(** [pa.attachment.base] and [.mark]; [None] has no such attribute. *)
Definition attachment_of (pa : PropagatedAnchor) : result Attachment :=
  match attachment pa with
  | Some r => Ok (att r)
  | None => Raise (AttributeError "'NoneType' object has no attribute")
  end.

Definition _distance (pos1 pos2 : Z * Z) : Z :=
  let '(x1, y1) := pos1 in
  let '(x2, y2) := pos2 in
  (x1 - x2) ^ 2 + (y1 - y2) ^ 2.

Definition pos (pa : PropagatedAnchor) : Z * Z :=
  (x (anchor pa), y (anchor pa)).

(** The inner loop of [_prune_attached_anchors]: the closest base anchor of
    the mark anchor [pa1], with its distance. *)
Definition closest_base (pa1 : PropagatedAnchor) (a1 : Attachment)
    (propagated_anchors : list PropagatedAnchor)
  : option (Z * PropagatedAnchor) :=
  fold_left
    (fun matched pa2 =>
       if pa_eqb pa1 pa2 then matched
       else if negb (same_attachment (attachment pa1) (attachment pa2)) then matched
       else if negb (bool_decide (name (anchor pa2) ∈ base a1)) then matched
       else if Nat.eqb (component pa1) (component pa2) then matched
       else
         let distance := _distance (pos pa1) (pos pa2) in
         match matched with
         | None => Some (distance, pa2)
         | Some (matched_distance, _) =>
             if distance <? matched_distance then Some (distance, pa2)
             else matched
         end)
    propagated_anchors None.

Definition Match : Type := Z * PropagatedAnchor * PropagatedAnchor.

(** [matched_anchors.setdefault(name, []).append(m)]. *)
Fixpoint matched_append (d : list (string * list Match)) (n : string)
    (m : Match) : list (string * list Match) :=
  match d with
  | [] => [(n, [m])]
  | (k, l) :: t =>
      if String.eqb k n then (k, l ++ [m]) :: t
      else (k, l) :: matched_append t n m
  end.

(** The first loop of [_prune_attached_anchors]. *)
Fixpoint match_anchors (copy propagated_anchors : list PropagatedAnchor)
    (matched_anchors : list (string * list Match))
  : result (list (string * list Match)) :=
  match copy with
  | [] => Ok matched_anchors
  | pa1 :: rest =>
      a1 ← attachment_of pa1;
      if negb (bool_decide (name (anchor pa1) ∈ mark a1)) then
        match_anchors rest propagated_anchors matched_anchors
      else if negb (component_is_mark pa1) then
        match_anchors rest propagated_anchors matched_anchors
      else
        match closest_base pa1 a1 propagated_anchors with
        | Some (matched_distance, matched) =>
            match_anchors rest propagated_anchors
              (matched_append matched_anchors (name (anchor pa1))
                 (matched_distance, pa1, matched))
        | None => match_anchors rest propagated_anchors matched_anchors
        end
  end.

Definition match_le (a b : Match) : bool := fst (fst a) <=? fst (fst b).

(** The loop over [enumerate(sorted(matches))], from position [i]. *)
Fixpoint remove_matches (mode_mark : bool) (num : Z) (i : Z)
    (matches : list Match) (propagated_anchors : list PropagatedAnchor)
  : result (list PropagatedAnchor) :=
  match matches with
  | [] => Ok propagated_anchors
  | (_, pa1, pa2) :: rest =>
      if mode_mark && (i =? num) then Ok propagated_anchors
      else
        l ← list_remove pa_eqb pa1 propagated_anchors;
        l ← list_remove pa_eqb pa2 l;
        l ← prune_loop
              (fun pa =>
                 if Nat.eqb (component pa) (component pa2) then
                   a2 ← attachment_of pa2;
                   Ok (bool_decide (name (anchor pa) ∈ base a2))
                 else Ok false)
              l l;
        remove_matches mode_mark num (i + 1) rest l
  end.

Fixpoint remove_all_matches (mode_mark : bool)
    (matched_anchors : list (string * list Match))
    (propagated_anchors : list PropagatedAnchor)
  : result (list PropagatedAnchor) :=
  match matched_anchors with
  | [] => Ok propagated_anchors
  | (_, matches) :: rest =>
      let num := Z.of_nat (length matches) - 1 in
      l ← remove_matches mode_mark num 0 (sorted match_le matches)
            propagated_anchors;
      remove_all_matches mode_mark rest l
  end.

(** [_prune_attached_anchors]; [mode_mark] is [mode == "mark"]. *)
Definition prune_attached_anchors (mode_mark : bool)
    (propagated_anchors : list PropagatedAnchor)
  : result (list PropagatedAnchor) :=
  matched_anchors ← match_anchors propagated_anchors propagated_anchors [];
  remove_all_matches mode_mark matched_anchors propagated_anchors.

(** The set [opposites] of [_prune_opposite_mark_anchors]. *)
Definition opposites_of (opts : Options) (names : list string) : list string :=
  concat (map (fun n =>
                 match vertical_opposites opts !! n with
                 | Some o => [o] | None => []
                 end ++
                 match horizontal_opposites opts !! n with
                 | Some o => [o] | None => []
                 end) names).

Definition prune_opposite_mark_anchors (opts : Options) (glyph : Glyph)
    (propagated_anchors : list PropagatedAnchor)
  : result (list PropagatedAnchor) :=
  let glyph_anchor_names := map name (anchors glyph) in
  prune_loop
    (fun pa =>
       a ← attachment_of pa;
       Ok (existsb (fun o => bool_decide (o ∈ glyph_anchor_names))
                   (opposites_of opts (base a))))
    propagated_anchors propagated_anchors.

(** The loop of [_rename_composite_ligature_anchors]; the anchors are
    renamed in place, [anchor_names] holds the names before the loop. *)
Fixpoint rename_loop (anchor_names : list string) (counters : gmap string N)
    (l : list PropagatedAnchor) : list PropagatedAnchor :=
  match l with
  | [] => []
  | pa :: rest =>
      let n := name (anchor pa) in
      if bool_decide (n ∈ anchor_names) then
        let i := (default 0 (counters !! n) + 1)%N in
        set_anchor pa (set_name (anchor pa) (fmt_name_index n i))
          :: rename_loop anchor_names (<[n := i]> counters) rest
      else pa :: rename_loop anchor_names counters rest
  end.

Definition rename_composite_ligature_anchors
    (propagated_anchors : list PropagatedAnchor) : list PropagatedAnchor :=
  rename_loop (map (fun pa => name (anchor pa)) propagated_anchors) ∅
    propagated_anchors.

Definition prune_mark_anchors (propagated_anchors : list PropagatedAnchor)
  : result (list PropagatedAnchor) :=
  prune_loop
    (fun pa => a ← attachment_of pa; Ok (bool_decide (name (anchor pa) ∈ mark a)))
    propagated_anchors propagated_anchors.

(** The first pruning loop of [_propagate_glyph_anchors]: no attachment, or
    a name the glyph already has. *)
Definition prune_undefined_or_present (glyph : Glyph)
    (propagated_anchors : list PropagatedAnchor)
  : result (list PropagatedAnchor) :=
  let glyph_anchor_names := map name (anchors glyph) in
  prune_loop
    (fun pa =>
       match attachment pa with
       | None => Ok true
       | Some _ => Ok (bool_decide (name (anchor pa) ∈ glyph_anchor_names))
       end)
    propagated_anchors propagated_anchors.

(** The pruning chosen by the glyph's category. *)
Definition prune_by_category (opts : Options) (glyph : Glyph)
    (glyph_category : option string)
    (propagated_anchors : list PropagatedAnchor)
  : result (list PropagatedAnchor) :=
  let category_is c := bool_decide (glyph_category = Some c) in
  if category_is "base" then
    l ← prune_attached_anchors false propagated_anchors;
    prune_mark_anchors l
  else if category_is "mark" then
    l ← prune_opposite_mark_anchors opts glyph propagated_anchors;
    prune_attached_anchors true l
  else if category_is "ligature" then
    l ← prune_attached_anchors false propagated_anchors;
    l ← prune_mark_anchors l;
    Ok (rename_composite_ligature_anchors l)
  else
    prune_attached_anchors false propagated_anchors.

Definition anchor_key (pa : PropagatedAnchor) : string * Z * Z :=
  (name (anchor pa), x (anchor pa), y (anchor pa)).

Definition pa_le (a b : PropagatedAnchor) : bool :=
  tuple3_le (anchor_key a) (anchor_key b).

(** [glyph.appendAnchor] for each of [new], in order. *)
Definition append_anchors (st : State) (gname : string) (new : list Anchor)
  : State :=
  mkState (alter (fun g => set_anchors g (anchors g ++ new)) gname (glyphSet st))
          (processed st).

(** *** The propagation *)

(** [_propagate_glyph_anchors] on the glyph named [gname], which is in the
    glyph set. *)
Fixpoint propagate_glyph_anchors (fuel : nat) (ctx : Context) (st : State)
    (gname : string) : result (State * list Anchor) :=
  match fuel with
  | O => OutOfFuel
  | S fuel' =>
      match glyphSet st !! gname with
      | None => Raise (KeyError gname)
      | Some glyph =>
          if bool_decide (gname ∈ processed st) then Ok (st, anchors glyph)
          else
            let st := mkState (glyphSet st) ({[gname]} ∪ processed st) in
            if negb (nonempty (components glyph)) then Ok (st, anchors glyph)
            else
              '(st, propagated_anchors) ←
                collect_components_anchors (propagate_glyph_anchors fuel' ctx)
                  ctx 0 (components glyph) st [];
              match glyphSet st !! gname with
              | None => Raise (KeyError gname)
              | Some glyph =>
                  glyph_category ←
                    get_glyph_category fuel ctx (glyphSet st) gname glyph;
                  l ← prune_undefined_or_present glyph propagated_anchors;
                  l ← prune_by_category (options ctx) glyph glyph_category l;
                  let st := append_anchors st gname
                              (map anchor (sorted pa_le l)) in
                  Ok (st, glyph_anchors st gname)
              end
      end
  end.

(** [filter]: whether the glyph got new anchors. *)
Definition filter (fuel : nat) (ctx : Context) (st : State) (gname : string)
  : result (State * bool) :=
  match glyphSet st !! gname with
  | None => Raise (KeyError gname)
  | Some glyph =>
      if negb (nonempty (components glyph)) then Ok (st, false)
      else
        let before := length (anchors glyph) in
        '(st, l) ← propagate_glyph_anchors fuel ctx st gname;
        Ok (st, Nat.ltb before (length l))
  end.

End PropagateAnchors.

(* ===================================================================== *)
(** ** Predicates of the statements                                       *)
(* ===================================================================== *)

(** A non-empty string of digits. *)
Definition all_digits (ds : list ascii) : Prop :=
  ds <> [] /\ forallb is_digit ds = true.

Definition no_newline (p : list ascii) : Prop :=
  existsb (Ascii.eqb newline) p = false.

(** "Every mark-prefixed name that carries a ligature number is refused." *)
Definition numbered_mark_names_raise : Prop :=
  forall anchorName : string,
    startswith anchorName "_" = true ->
    snd (MarkFeatureWriter.ligature_number anchorName) <> None ->
    raises (MarkFeatureWriter.parseAnchorName anchorName) = true.

(** The key of an anchor name in [_collect_attachments] and whether the
    name is a mark name: the three branches of the loop. *)
Definition anchor_role (n : string) : bool * string :=
  if PropagateAnchors.mark_anchor_name n then
    (true, str (remove_first_char underscore (chars n)))
  else if 0 <? find_char underscore (chars n) then
    (false, rsplit1_head underscore n)
  else (false, n).

(** The members of the attachment of key [k] once the names [seen] have
    been classified: its base names are the names of [seen] that are base
    names of key [k], its mark names those that are mark names of key [k]. *)
Definition members_of (seen : list string) (k : string) (a : PropagateAnchors.Attachment) : Prop :=
  NoDup (PropagateAnchors.base a) /\ NoDup (PropagateAnchors.mark a)
  /\ (forall n, n ∈ PropagateAnchors.base a <-> n ∈ seen /\ anchor_role n = (false, k))
  /\ (forall n, n ∈ PropagateAnchors.mark a <-> n ∈ seen /\ anchor_role n = (true, k)).

Definition registry_inv (seen : list string) (d : list (string * PropagateAnchors.Attachment))
  : Prop :=
  NoDup (map fst d)
  /\ (forall k a, assoc k d = Some a -> members_of seen k a)
  /\ (forall k, k ∈ map fst d <-> exists n, n ∈ seen /\ snd (anchor_role n) = k).

(** The names of the example. *)
Definition seven_names : list string :=
  ["top"; "top_1"; "top_2"; "top_viet"; "_top"; "bottom"; "_bottom"].

(** "The stripped form of a mark name joins the mark set." *)
Definition stripped_form_joins_mark_set : Prop :=
  forall (names : list string) (n : string),
    n ∈ names -> PropagateAnchors.mark_anchor_name n = true ->
    exists a, a ∈ PropagateAnchors.collect_attachments
                    PropagateAnchors.default_options names
              /\ snd (anchor_role n) ∈ PropagateAnchors.mark a.

(** An anchor that [_makeMarkToLigaAttachments] takes without a failed
    assertion: it is no mark anchor, and it has a mark class when it is a
    named anchor of a ligature component. *)
Definition liga_ready (a : MarkFeatureWriter.NamedAnchor) : Prop :=
  MarkFeatureWriter.isMark a = false
  /\ (forall n, MarkFeatureWriter.number a = Some n ->
                MarkFeatureWriter.key a <> "" ->
                MarkFeatureWriter.markClass a <> None).

(** The anchor is the unnamed anchor of component [i] ([_1], [_2], ...). *)
Definition unnamed_of (i : Z) (a : MarkFeatureWriter.NamedAnchor) : Prop :=
  MarkFeatureWriter.number a = Some i /\ MarkFeatureWriter.key a = "".

(** The anchor belongs to ligature component [i]. *)
Definition numbered (i : Z) (a : MarkFeatureWriter.NamedAnchor) : bool :=
  bool_decide (MarkFeatureWriter.number a = Some i).

(** The dict [features]: each tag once, each feature under its own tag. *)
Definition features_wf
    (features : list (string * MarkFeatureWriter.FeatureBlock)) : Prop :=
  NoDup (map fst features)
  /\ Forall (fun tf => MarkFeatureWriter.tag (snd tf) = fst tf) features.

(** The prefix of the name of a mark-to-mark lookup. *)
Definition lookup_prefix (featureTag : option string) : string :=
  match featureTag with
  | Some t => t +:+ "_"
  | None => ""
  end.

(** Each group of [_groupMarkGlyphsByAnchor] has a glyph once. *)
Definition groups_nodup (groups : MarkFeatureWriter.Groups) : Prop :=
  forall k grp, assoc k groups = Some grp -> NoDup (map fst grp).

(** A glyph with further anchors appended. *)
Definition with_new_anchors (new : list PropagateAnchors.Anchor)
    (g : PropagateAnchors.Glyph) : PropagateAnchors.Glyph :=
  PropagateAnchors.set_anchors g (PropagateAnchors.anchors g ++ new).

(** What a run may do to the state: mark glyphs as processed, and append
    anchors to glyphs that were not processed yet. *)
Definition extends (st st' : PropagateAnchors.State) : Prop :=
  PropagateAnchors.processed st ⊆ PropagateAnchors.processed st'
  /\ (forall h, exists new,
        PropagateAnchors.glyphSet st' !! h
        = with_new_anchors new <$> PropagateAnchors.glyphSet st !! h)
  /\ (forall h, h ∈ PropagateAnchors.processed st ->
        PropagateAnchors.glyphSet st' !! h = PropagateAnchors.glyphSet st !! h).

(** "Running the filter a second time on the font changes no glyph": a run
    is [set_context] on the font as it is, then [filter] on the glyph. *)
Definition second_run_changes_nothing : Prop :=
  forall (opts : PropagateAnchors.Options) (categories : gmap string string)
         (isMark : Z -> bool) (font : gmap string PropagateAnchors.Glyph)
         (g : string) (fuel : nat)
         (st1 st2 : PropagateAnchors.State) (b1 b2 : bool),
    PropagateAnchors.filter fuel
      (fst (PropagateAnchors.set_context opts categories isMark font))
      (snd (PropagateAnchors.set_context opts categories isMark font)) g
    = Ok (st1, b1) ->
    PropagateAnchors.filter fuel
      (fst (PropagateAnchors.set_context opts categories isMark
              (PropagateAnchors.glyphSet st1)))
      (snd (PropagateAnchors.set_context opts categories isMark
              (PropagateAnchors.glyphSet st1))) g
    = Ok (st2, b2) ->
    PropagateAnchors.glyphSet st2 = PropagateAnchors.glyphSet st1.

(** A glyph that is a base glyph by its metadata: [base] in
    [public.openTypeCategories], or no category there and a Unicode value
    that is not of a mark category. *)
Definition base_by_metadata (ctx : PropagateAnchors.Context) (g : string)
    (glyph : PropagateAnchors.Glyph) : Prop :=
  PropagateAnchors.openTypeCategories ctx !! g = Some "base"
  \/ (PropagateAnchors.openTypeCategories ctx !! g = None
      /\ exists uv, PropagateAnchors.unicode glyph = Some uv /\ uv <> 0
                    /\ PropagateAnchors.unicodeIsMark ctx uv = false).

(** The propagated anchors of a composite of two components, a base with
    the one anchor [a1] and a mark with the one anchor [a2], both of the
    attachment [r]. *)
Definition from_base_component (a1 : PropagateAnchors.Anchor)
    (r : PropagateAnchors.AttachmentRef) : PropagateAnchors.PropagatedAnchor :=
  PropagateAnchors.mkPropagatedAnchor 0 false a1 (Some r).

Definition from_mark_component (a2 : PropagateAnchors.Anchor)
    (r : PropagateAnchors.AttachmentRef) : PropagateAnchors.PropagatedAnchor :=
  PropagateAnchors.mkPropagatedAnchor 1 true a2 (Some r).

(** "For every base glyph composed of a base component carrying anchor
    [top] and a mark component carrying anchor [_top], propagation adds
    neither [top] nor [_top] as a new anchor on the composite." *)
Definition attached_pair_adds_neither : Prop :=
  forall (ctx : PropagateAnchors.Context) (st st' : PropagateAnchors.State)
         (fuel : nat) (g : string) (glyph gb gm : PropagateAnchors.Glyph)
         (c1 c2 : PropagateAnchors.Component) (r : list PropagateAnchors.Anchor),
    PropagateAnchors.glyphSet st !! g = Some glyph ->
    base_by_metadata ctx g glyph ->
    PropagateAnchors.components glyph = [c1; c2] ->
    PropagateAnchors.glyphSet st !! PropagateAnchors.baseGlyph c1 = Some gb ->
    base_by_metadata ctx (PropagateAnchors.baseGlyph c1) gb ->
    "top" ∈ map PropagateAnchors.name (PropagateAnchors.anchors gb) ->
    PropagateAnchors.glyphSet st !! PropagateAnchors.baseGlyph c2 = Some gm ->
    PropagateAnchors.get_glyph_category fuel ctx (PropagateAnchors.glyphSet st)
      (PropagateAnchors.baseGlyph c2) gm = Ok (Some "mark") ->
    "_top" ∈ map PropagateAnchors.name (PropagateAnchors.anchors gm) ->
    PropagateAnchors.propagate_glyph_anchors fuel ctx st g = Ok (st', r) ->
    exists new,
      PropagateAnchors.glyphSet st' !! g = Some (with_new_anchors new glyph)
      /\ ("top" ∉ map PropagateAnchors.name new)
      /\ ("_top" ∉ map PropagateAnchors.name new).

(** "The members of each mark class are sorted by glyph name." *)
Definition mark_class_members_sorted : Prop :=
  forall (astm : MarkFeatureWriter.AstModule) (ctx ctx' : MarkFeatureWriter.Context)
         (newDefs : list MarkFeatureWriter.MarkClassDefinition),
    MarkFeatureWriter.makeMarkClassDefinitions astm ctx = Ok (newDefs, ctx') ->
    Sorted (le_prop String.leb) (map MarkFeatureWriter.mcd_glyph newDefs).

(** "A component with a negative vertical scale renames no anchor." *)
Definition vertical_flip_keeps_names : Prop :=
  forall (t : PropagateAnchors.Transform) (a : PropagateAnchors.Anchor),
    PropagateAnchors.yy t < 0 ->
    PropagateAnchors.name
      (PropagateAnchors.propagated_copy PropagateAnchors.default_options t a)
    = PropagateAnchors.name a.

(** A component counts for nothing in [component_categories] when its base
    glyph is missing or has no category. *)
Definition unclassified
    (rec : string -> PropagateAnchors.Glyph -> result (option string))
    (gs : gmap string PropagateAnchors.Glyph) (c : PropagateAnchors.Component)
  : Prop :=
  gs !! PropagateAnchors.baseGlyph c = None
  \/ exists g, gs !! PropagateAnchors.baseGlyph c = Some g
               /\ rec (PropagateAnchors.baseGlyph c) g = Ok None.


(* ===================================================================== *)
(** ** Predicates of the further properties                               *)
(* ===================================================================== *)

(** What a propagation may change: the processed set grows, and a glyph
    that is not as it was is a composite that the propagation has marked
    as processed. *)
Definition changes_new_composites_only (st st' : PropagateAnchors.State)
  : Prop :=
  PropagateAnchors.processed st ⊆ PropagateAnchors.processed st'
  /\ forall h,
       PropagateAnchors.glyphSet st' !! h = PropagateAnchors.glyphSet st !! h
       \/ (h ∈ PropagateAnchors.processed st'
           /\ (h ∉ PropagateAnchors.processed st)
           /\ exists glyph,
                PropagateAnchors.glyphSet st !! h = Some glyph
                /\ PropagateAnchors.components glyph <> []).

(** The sort key of the loop that appends the anchors. *)
Definition anchor_tuple (a : PropagateAnchors.Anchor) : string * Z * Z :=
  (PropagateAnchors.name a, PropagateAnchors.x a, PropagateAnchors.y a).


(** The tests of the inner loop of [_prune_attached_anchors]: [pa2] may be
    matched with the mark anchor [pa1], whose attachment is [a1]. *)
Definition base_candidate (pa1 : PropagateAnchors.PropagatedAnchor)
    (a1 : PropagateAnchors.Attachment)
    (pa2 : PropagateAnchors.PropagatedAnchor) : bool :=
  negb (PropagateAnchors.pa_eqb pa1 pa2)
  && PropagateAnchors.same_attachment (PropagateAnchors.attachment pa1)
       (PropagateAnchors.attachment pa2)
  && bool_decide (PropagateAnchors.name (PropagateAnchors.anchor pa2)
                    ∈ PropagateAnchors.base a1)
  && negb (Nat.eqb (PropagateAnchors.component pa1)
             (PropagateAnchors.component pa2)).

(** The squared distance between two propagated anchors. *)
Definition pa_distance (pa1 pa2 : PropagateAnchors.PropagatedAnchor) : Z :=
  PropagateAnchors._distance (PropagateAnchors.pos pa1)
    (PropagateAnchors.pos pa2).

(** A glyph that is a mark glyph by its metadata: [mark] in
    [public.openTypeCategories], or no category there and a Unicode value
    of a mark category. *)
Definition mark_by_metadata (ctx : PropagateAnchors.Context) (g : string)
    (glyph : PropagateAnchors.Glyph) : Prop :=
  PropagateAnchors.openTypeCategories ctx !! g = Some "mark"
  \/ (PropagateAnchors.openTypeCategories ctx !! g = None
      /\ exists uv, PropagateAnchors.unicode glyph = Some uv /\ uv <> 0
                    /\ PropagateAnchors.unicodeIsMark ctx uv = true).

(** The names of which [n] is the opposite, vertically or horizontally. *)
Definition opposite_of (opts : PropagateAnchors.Options) (n o : string)
  : Prop :=
  PropagateAnchors.vertical_opposites opts !! n = Some o
  \/ PropagateAnchors.horizontal_opposites opts !! n = Some o.


(** What the inner loop of [_prune_attached_anchors] holds in [matched]
    after the anchors [seen]: a nearest candidate, or nothing when there
    was no candidate. *)
Definition closest_so_far (pa1 : PropagateAnchors.PropagatedAnchor)
    (a1 : PropagateAnchors.Attachment)
    (seen : list PropagateAnchors.PropagatedAnchor)
    (matched : option (Z * PropagateAnchors.PropagatedAnchor)) : Prop :=
  match matched with
  | Some (d, pa2) =>
      pa2 ∈ seen /\ base_candidate pa1 a1 pa2 = true
      /\ d = pa_distance pa1 pa2
      /\ forall pa, pa ∈ seen -> base_candidate pa1 a1 pa = true ->
           d <= pa_distance pa1 pa
  | None => forall pa, pa ∈ seen -> base_candidate pa1 a1 pa = false
  end.


(** The propagated anchor of a third component, a mark with the one
    anchor [a3] of the attachment [r]. *)
Definition from_second_mark_component (a3 : PropagateAnchors.Anchor)
    (r : PropagateAnchors.AttachmentRef) : PropagateAnchors.PropagatedAnchor :=
  PropagateAnchors.mkPropagatedAnchor 2 true a3 (Some r).


(** How many of the first [k] propagated anchors have the name [n]. *)
Definition same_name_before (l : list PropagateAnchors.PropagatedAnchor)
    (k : nat) (n : string) : N :=
  N.of_nat
    (length
       (List.filter
          (fun pa => String.eqb
                       (PropagateAnchors.name (PropagateAnchors.anchor pa)) n)
          (take k l))).

(** A propagated anchor under another name. *)
Definition renamed (pa : PropagateAnchors.PropagatedAnchor) (n : string)
  : PropagateAnchors.PropagatedAnchor :=
  PropagateAnchors.set_anchor pa
    (PropagateAnchors.set_name (PropagateAnchors.anchor pa) n).


(** The anchor [a] was built from an anchor of the list [srcs] that has a
    name. *)
Definition built_from (srcs : list (string * Z * Z))
    (a : MarkFeatureWriter.NamedAnchor) : Prop :=
  MarkFeatureWriter.name a <> ""
  /\ (MarkFeatureWriter.name a, MarkFeatureWriter.x a, MarkFeatureWriter.y a)
     ∈ srcs
  /\ MarkFeatureWriter.NamedAnchor_init (MarkFeatureWriter.name a)
       (MarkFeatureWriter.x a) (MarkFeatureWriter.y a) None = Ok a.

(** All the anchors of the anchor lists. *)
Definition all_anchors
    (anchorLists : list (string * list MarkFeatureWriter.NamedAnchor))
  : list MarkFeatureWriter.NamedAnchor :=
  concat (map snd anchorLists).

(** A base anchor and a mark anchor that attach: the mark anchor has the
    name that the base anchor asks for. *)
Definition attaching_pair (a a' : MarkFeatureWriter.NamedAnchor) : Prop :=
  MarkFeatureWriter.isMark a = false /\ MarkFeatureWriter.isMark a' = true
  /\ MarkFeatureWriter.name a' = MarkFeatureWriter.markAnchorName a.

(** The anchor names that [_pruneUnusedAnchors] keeps for their name. *)
Definition attaching_names (anchorPairs : list (string * string))
  : list string :=
  map fst anchorPairs ++ map snd anchorPairs.


(** The entry of a glyph in the anchor lists: a list that is not empty,
    with one anchor of a name, all built from the anchors of the glyph. *)
Definition list_of_glyph (gs : list (string * list (string * Z * Z)))
    (g : string) (l : list MarkFeatureWriter.NamedAnchor) : Prop :=
  l <> [] /\ NoDup (map MarkFeatureWriter.name l)
  /\ exists srcs, (g, srcs) ∈ gs /\ forall a, a ∈ l -> built_from srcs a.


(** The test of [_pruneUnusedAnchors], as what is kept: an anchor whose
    name attaches, or an anchor without a key (the [_1], [_2], ... that
    stand for a ligature component without anchor). *)
Definition kept_anchor (anchorPairs : list (string * string))
    (a : MarkFeatureWriter.NamedAnchor) : bool :=
  bool_decide (MarkFeatureWriter.name a ∈ attaching_names anchorPairs)
  || String.eqb (MarkFeatureWriter.key a) "".


(** A lookup block with a statement, a feature block with a lookup. *)
Definition lookup_not_empty (lb : MarkFeatureWriter.LookupBlock) : Prop :=
  MarkFeatureWriter.lookup_statements lb <> [].

Definition feature_not_empty (fb : MarkFeatureWriter.FeatureBlock) : Prop :=
  MarkFeatureWriter.feature_statements fb <> []
  /\ Forall lookup_not_empty (MarkFeatureWriter.feature_statements fb).

(** A feature that [_makeFeatures] may store under the tag [t], for the
    features [todo] and the glyphs [indicGlyphs]. *)
Definition feature_asked (todo indicGlyphs : list string) (t : string)
    (fb : MarkFeatureWriter.FeatureBlock) : Prop :=
  MarkFeatureWriter.tag fb = t
  /\ t ∈ todo
  /\ (t = "mark" \/ t = "mkmk"
      \/ ((t = "abvm" \/ t = "blwm") /\ indicGlyphs <> []))
  /\ feature_not_empty fb.


(** The dict [features] holds features that were asked for. *)
Definition all_asked (todo indicGlyphs : list string)
    (features : list (string * MarkFeatureWriter.FeatureBlock)) : Prop :=
  Forall (fun tf => feature_asked todo indicGlyphs (fst tf) (snd tf)) features.


(** An anchor whose fields are those that its name parses to; an anchor
    without number has a key ([NamedAnchor.__init__] asserts it). *)
Definition anchor_ok (a : MarkFeatureWriter.NamedAnchor) : Prop :=
  MarkFeatureWriter.parseAnchorName (MarkFeatureWriter.name a)
  = Ok (MarkFeatureWriter.isMark a, MarkFeatureWriter.key a,
        MarkFeatureWriter.number a)
  /\ (MarkFeatureWriter.number a = None -> MarkFeatureWriter.key a <> "").

(** Anchor lists as [_getAnchorLists] makes them: one entry per glyph,
    one anchor of a name per glyph, anchors as their names parse. *)
Definition anchors_wf
    (anchorLists : list (string * list MarkFeatureWriter.NamedAnchor)) : Prop :=
  NoDup (map fst anchorLists)
  /\ forall g l, (g, l) ∈ anchorLists ->
       NoDup (map MarkFeatureWriter.name l)
       /\ forall a, a ∈ l -> anchor_ok a.

(** The mark classes of a feature file are held under their names. *)
Definition classes_wf (classes : gmap string MarkFeatureWriter.MarkClass)
  : Prop :=
  forall k mc, classes !! k = Some mc -> MarkFeatureWriter.mc_name mc = k.

(** Every mark anchor of the lists whose name is among [markAnchorNames]
    is in the group of its name, and its glyph is a mark glyph. *)
Definition groups_complete (markAnchorNames : list string)
    (anchorLists : list (string * list MarkFeatureWriter.NamedAnchor))
    (groups : MarkFeatureWriter.Groups) (glyphNames : list string) : Prop :=
  forall g l a,
    (g, l) ∈ anchorLists -> a ∈ l ->
    MarkFeatureWriter.name a ∈ markAnchorNames ->
    g ∈ glyphNames
    /\ exists grp, assoc (MarkFeatureWriter.name a) groups = Some grp
                   /\ (g, a) ∈ grp.

(** [ctx.markClasses] names mark classes of the feature file. *)
Definition mark_classes_exist (allMarkClasses : list (string * string))
    (classes : gmap string MarkFeatureWriter.MarkClass) : Prop :=
  forall k c, assoc k allMarkClasses = Some c -> is_Some (classes !! c).


(** An anchor that the attachments can be made of: without a number it has
    a key, and with a key, when it is no mark anchor, it has the mark class
    that [ctx.markClasses] holds for its key. *)
Definition anchor_ready (allMarkClasses : list (string * string))
    (a : MarkFeatureWriter.NamedAnchor) : Prop :=
  (MarkFeatureWriter.number a = None -> MarkFeatureWriter.key a <> "")
  /\ (MarkFeatureWriter.isMark a = false -> MarkFeatureWriter.key a <> "" ->
      exists c, MarkFeatureWriter.markClass a = Some c
                /\ assoc (MarkFeatureWriter.key a) allMarkClasses = Some c).

(** Anchor lists that the attachments can be made of: the anchors are
    ready, and a glyph that is no mark glyph has no mark anchor. *)
Definition lists_ready (allMarkClasses : list (string * string))
    (markGlyphNames : list string)
    (anchorLists : list (string * list MarkFeatureWriter.NamedAnchor)) : Prop :=
  forall g l a, (g, l) ∈ anchorLists -> a ∈ l ->
    anchor_ready allMarkClasses a
    /\ (g ∉ markGlyphNames -> MarkFeatureWriter.isMark a = false).


(** A glyph that [get_glyph_category] classifies by its components: it has
    no category in [public.openTypeCategories] (or an empty one), no
    Unicode value and no mark anchor. *)
Definition classified_by_components (ctx : PropagateAnchors.Context)
    (g : string) (glyph : PropagateAnchors.Glyph) : Prop :=
  (PropagateAnchors.openTypeCategories ctx !! g = None
   \/ PropagateAnchors.openTypeCategories ctx !! g = Some "")
  /\ default 0 (PropagateAnchors.unicode glyph) = 0
  /\ PropagateAnchors.has_mark_anchor ctx glyph = false.

(** Glyph names that lie on component cycles: each is a glyph classified
    by its components, one of which is again among the names. *)
Definition component_cycle (ctx : PropagateAnchors.Context)
    (gs : gmap string PropagateAnchors.Glyph) (cyc : string -> Prop) : Prop :=
  forall g, cyc g ->
    exists glyph c,
      gs !! g = Some glyph /\ classified_by_components ctx g glyph
      /\ c ∈ PropagateAnchors.components glyph
      /\ cyc (PropagateAnchors.baseGlyph c).

(** A rank of the glyph names that goes down from a glyph to the base
    glyphs of its components: the glyph set has no component cycle. *)
Definition component_rank (gs : gmap string PropagateAnchors.Glyph)
    (rank : string -> nat) : Prop :=
  map_Forall
    (fun g glyph =>
       Forall (fun c =>
                 is_Some (gs !! PropagateAnchors.baseGlyph c) ->
                 (rank (PropagateAnchors.baseGlyph c) < rank g)%nat)
              (PropagateAnchors.components glyph))
    gs.


(** The call came to an end: it returned or it raised. *)
Definition ended {A : Type} (m : Py.result A) : Prop := m <> Py.OutOfFuel.


(** The definition made for an entry of a group: for its glyph, at the
    position of its anchor. *)
Definition defined_from (ga : string * MarkFeatureWriter.NamedAnchor)
    (d : MarkFeatureWriter.MarkClassDefinition) : Prop :=
  MarkFeatureWriter.mcd_glyph d = fst ga
  /\ MarkFeatureWriter.mcd_anchor d
     = MarkFeatureWriter.Anchor_xy (MarkFeatureWriter.x (snd ga))
         (MarkFeatureWriter.y (snd ga)).

(** The line that [_defineMarkClass] logs when it makes no definition. *)
Definition already_defined : MarkFeatureWriter.LogLevel * string :=
  (MarkFeatureWriter.DEBUG, "Glyph already defined in markClass").


(* ===================================================================== *)
(** ** Fonts of the examples                                              *)
(* ===================================================================== *)

Module CategoryExample.
Import PropagateAnchors.

(** A composite of an empty glyph and of a glyph that does not exist. *)
Definition font : gmap string Glyph :=
  list_to_map [
    ("part", mkGlyph None [] []);
    ("composite", mkGlyph None []
       [mkComponent "part" identity_transform;
        mkComponent "nowhere" identity_transform])
  ].

Definition ctx : Context := fst (set_context default_options ∅ (fun _ => false) font).

Definition composite : Glyph :=
  mkGlyph None []
    [mkComponent "part" identity_transform;
     mkComponent "nowhere" identity_transform].

End CategoryExample.


Module WriterExample.
Import MarkFeatureWriter.

(** Three glyphs in the order of the glyph set: a base, and two marks whose
    names are not in alphabetical order. *)
Definition glyphSet : list (string * list (string * Z * Z)) :=
  [("a", [("top", 175, 300)]);
   ("zetacomb", [("_top", 0, 300); ("top", 0, 480)]);
   ("acutecomb", [("_top", 10, 300); ("top", 10, 480)])].

Definition empty_ctx : Context :=
  mkContext [] [] [] [] (mkFeaFile [] ∅ []) [] [].

Definition ctx : Context :=
  match setContext glyphSet (mkFeaFile [] ∅ []) ["mark"; "mkmk"] with
  | Ok c => c
  | _ => empty_ctx
  end.

Definition newDefs : list MarkClassDefinition :=
  [mkMarkClassDefinition "MC_top" (Anchor_xy 0 300) "zetacomb";
   mkMarkClassDefinition "MC_top" (Anchor_xy 10 300) "acutecomb"].

Definition written : Context :=
  match write ast_model ctx [] 1000 with
  | Ok (_, c) => c
  | _ => empty_ctx
  end.

(** The context after [_makeMarkClassDefinitions]. *)
Definition classified : Context :=
  match makeMarkClassDefinitions ast_model ctx with
  | Ok (_, c) => c
  | _ => empty_ctx
  end.

End WriterExample.

Module LigatureExample.
Import PropagateAnchors.

(** The glyphs [a], [dieresiscomb] and [a_a] of the repository's tests,
    and a mark below; [a_a] has the category [ligature]. *)
Definition font : gmap string Glyph :=
  list_to_map [
    ("a", mkGlyph (Some 97) [mkAnchor "top" 175 300; mkAnchor "bottom" 175 0] []);
    ("dieresiscomb",
       mkGlyph (Some 776) [mkAnchor "_top" 0 300; mkAnchor "top" 0 480] []);
    ("dotbelowcomb", mkGlyph (Some 803) [mkAnchor "_bottom" 0 0] []);
    ("a_a", mkGlyph None []
       [mkComponent "a" (mkTransform 1 0 0 1 0 0);
        mkComponent "a" (mkTransform 1 0 0 1 350 0)])
  ].

Definition categories : gmap string string := {[ "a_a" := "ligature" ]}.

(** Mn and Me, as far as the examples go: the combining diacritical marks. *)
Definition isMark (uv : Z) : bool := (768 <=? uv) && (uv <=? 879).

Definition run (font : gmap string Glyph) (g : string) : result (State * bool) :=
  let '(ctx, st) := set_context default_options categories isMark font in
  filter 5 ctx st g.

Definition empty_state : State := mkState ∅ ∅.

Definition after_first : State :=
  match run font "a_a" with
  | Ok (st, _) => st
  | _ => empty_state
  end.

Definition after_second : State :=
  match run (glyphSet after_first) "a_a" with
  | Ok (st, _) => st
  | _ => empty_state
  end.

Definition ctx : Context :=
  fst (set_context default_options categories isMark font).

Definition start : State :=
  snd (set_context default_options categories isMark font).

End LigatureExample.

Module DieresisExample.
Import PropagateAnchors.

(** The glyphs [a], [dieresiscomb] and [adieresis] of the repository's
    tests; and [o], [gravecomb], [ograve], where the mark has no anchor to
    stack on. *)
Definition font : gmap string Glyph :=
  list_to_map [
    ("a", mkGlyph (Some 97) [mkAnchor "top" 175 300; mkAnchor "bottom" 175 0] []);
    ("dieresiscomb",
       mkGlyph (Some 776) [mkAnchor "_top" 0 300; mkAnchor "top" 0 480] []);
    ("adieresis", mkGlyph (Some 228) []
       [mkComponent "a" (mkTransform 1 0 0 1 0 0);
        mkComponent "dieresiscomb" (mkTransform 1 0 0 1 175 0)]);
    ("o", mkGlyph (Some 111) [mkAnchor "top" 150 300] []);
    ("gravecomb", mkGlyph (Some 768) [mkAnchor "_top" 0 300] []);
    ("ograve", mkGlyph (Some 242) [mkAnchor "bottom" 150 0]
       [mkComponent "o" (mkTransform 1 0 0 1 0 0);
        mkComponent "gravecomb" (mkTransform 1 0 0 1 150 0)])
  ].

Definition isMark (uv : Z) : bool := (768 <=? uv) && (uv <=? 879).

Definition ctx : Context := fst (set_context default_options ∅ isMark font).

Definition start : State := snd (set_context default_options ∅ isMark font).

Definition empty_state : State := mkState ∅ ∅.

(** The state after the propagation on [g]. *)
Definition after (g : string) : State :=
  match propagate_glyph_anchors 5 ctx start g with
  | Ok (st, _) => st
  | _ => empty_state
  end.

End DieresisExample.

Module TwoMarksExample.
Import PropagateAnchors.

(** A base glyph with two marks that both attach to its [top], and none of
    the marks has an anchor for the next mark to stack on. *)
Definition font : gmap string Glyph :=
  list_to_map [
    ("o", mkGlyph (Some 111) [mkAnchor "top" 150 300] []);
    ("gravecomb", mkGlyph (Some 768) [mkAnchor "_top" 0 300] []);
    ("acutecomb", mkGlyph (Some 769) [mkAnchor "_top" 0 300] []);
    ("ograveacute", mkGlyph (Some 7891) []
       [mkComponent "o" (mkTransform 1 0 0 1 0 0);
        mkComponent "gravecomb" (mkTransform 1 0 0 1 100 0);
        mkComponent "acutecomb" (mkTransform 1 0 0 1 200 0)]);
    ("box", mkGlyph None [mkAnchor "top" 10 20]
       [mkComponent "missing" (mkTransform 1 0 0 1 0 0)])
  ].

Definition isMark (uv : Z) : bool := (768 <=? uv) && (uv <=? 879).

Definition ctx : Context := fst (set_context default_options ∅ isMark font).

Definition start : State := snd (set_context default_options ∅ isMark font).

End TwoMarksExample.

Module MarkExample.
Import PropagateAnchors.

(** Two mark composites of the repository's tests: [macronbelowcomb] has a
    [bottom] of its own, [macroncomb.alt] a [_top]. *)
Definition font : gmap string Glyph :=
  list_to_map [
    ("a", mkGlyph (Some 97) [mkAnchor "top" 175 300; mkAnchor "bottom" 175 0] []);
    ("macroncomb", mkGlyph (Some 772) [mkAnchor "_top" 0 300; mkAnchor "top" 0 480] []);
    ("macroncomb.alt", mkGlyph None [mkAnchor "_top" 0 340]
       [mkComponent "macroncomb" (mkTransform 1 0 0 1 0 (-30))]);
    ("macronbelowcomb",
       mkGlyph (Some 817) [mkAnchor "_bottom" 0 0; mkAnchor "bottom" 0 (-180)]
         [mkComponent "macroncomb" (mkTransform 1 0 0 1 0 (-430))])
  ].

Definition categories : gmap string string := {[ "macroncomb.alt" := "mark" ]}.

Definition isMark (uv : Z) : bool := (768 <=? uv) && (uv <=? 879).

Definition ctx : Context :=
  fst (set_context default_options categories isMark font).

Definition start : State :=
  snd (set_context default_options categories isMark font).

Definition empty_state : State := mkState ∅ ∅.

(** The state after the propagation on [g]. *)
Definition after (g : string) : State :=
  match propagate_glyph_anchors 5 ctx start g with
  | Ok (st, _) => st
  | _ => empty_state
  end.

End MarkExample.

Module CycleExample.
Import PropagateAnchors.

(** A glyph that has itself as a component, beside a glyph with an anchor. *)
Definition loop : Glyph :=
  mkGlyph None [] [mkComponent "a" identity_transform;
                   mkComponent "loop" identity_transform].

Definition font : gmap string Glyph :=
  {[ "a" := mkGlyph (Some 97) [mkAnchor "top" 175 300] [];
     "loop" := loop ]}.

Definition isMark (uv : Z) : bool := (768 <=? uv) && (uv <=? 879).

Definition ctx : Context := fst (set_context default_options ∅ isMark font).

Definition start : State := snd (set_context default_options ∅ isMark font).

End CycleExample.

Module MarkClassExample.
Import MarkFeatureWriter.

(** The mark class [MC_top] with [acutecomb] at (0, 500). *)
Definition d0 : MarkClassDefinition :=
  mkMarkClassDefinition "MC_top" (Anchor_xy 0 500) "acutecomb".

Definition mc0 : MarkClass := mkMarkClass "MC_top" [d0] [("acutecomb", d0)].

Definition classes : gmap string MarkClass := {[ "MC_top" := mc0 ]}.

(** The definition of [acutecomb] at (0, 520) and its class. *)
Definition d1 : MarkClassDefinition :=
  mkMarkClassDefinition "MC_top_1" (Anchor_xy 0 520) "acutecomb".

Definition mc1 : MarkClass := mkMarkClass "MC_top_1" [d1] [("acutecomb", d1)].

End MarkClassExample.
Example parse_top : MarkFeatureWriter.parseAnchorName "top" = Ok (false, "top", None).
Proof. reflexivity. Qed.
Example parse__top : MarkFeatureWriter.parseAnchorName "_top" = Ok (true, "top", None).
Proof. reflexivity. Qed.
Example parse_top_12 : MarkFeatureWriter.parseAnchorName "top_12" = Ok (false, "top", Some 12).
Proof. reflexivity. Qed.
Example parse_top12 : MarkFeatureWriter.parseAnchorName "top12" = Ok (false, "top12", None).
Proof. reflexivity. Qed.
Example parse__top_1 : raises (MarkFeatureWriter.parseAnchorName "_top_1") = true.
Proof. reflexivity. Qed.
Example parse__1 : MarkFeatureWriter.parseAnchorName "_1" = Ok (false, "", Some 1).
Proof. reflexivity. Qed.
Example parse__ : raises (MarkFeatureWriter.parseAnchorName "_") = true.
Proof. reflexivity. Qed.

(* ===================================================================== *)
(** ** Tactics                                                            *)
(* ===================================================================== *)

(** Inversion of [x ← m; k] in a hypothesis that the whole returned [Ok]:
    [m] returned some [a], which [E] records. *)
Tactic Notation "bind_ok" hyp(H) "as" ident(a) ident(E) :=
  match type of H with
  | mbind _ ?m = Ok _ =>
      destruct m as [a| |] eqn:E;
      [ cbn [mbind result_bind Py.bind] in H
      | discriminate H | discriminate H ]
  end.

(** Closed decidable goals, by evaluation. *)
Ltac by_compute := apply (bool_decide_unpack _); vm_compute; exact I.

(* ===================================================================== *)
(** ** Insertion-ordered dicts                                            *)
(* ===================================================================== *)

Section Dict.

Context {V : Type}.
Implicit Types (d : list (string * V)) (k : string) (v : V).

Lemma eqb_string_decide (a b : string) : String.eqb a b = bool_decide (a = b).
Proof.
  destruct (String.eqb_spec a b) as [->|Hne].
  - now rewrite bool_decide_eq_true_2.
  - now rewrite bool_decide_eq_false_2.
Qed.

Lemma assoc_set_eq d k v : assoc k (assoc_set k v d) = Some v.
Proof.
  induction d as [|[k' v'] d IH]; simpl.
  - now rewrite String.eqb_refl.
  - destruct (String.eqb k' k) eqn:E; simpl; rewrite E; [reflexivity | exact IH].
Qed.

Lemma assoc_set_ne d k k' v : k <> k' -> assoc k' (assoc_set k v d) = assoc k' d.
Proof.
  intros Hne. induction d as [|[k0 v0] d IH]; simpl.
  - destruct (String.eqb_spec k k'); [contradiction | reflexivity].
  - destruct (String.eqb_spec k0 k) as [->|Hk]; simpl.
    + destruct (String.eqb_spec k k'); [contradiction | reflexivity].
    + destruct (String.eqb k0 k'); [reflexivity | exact IH].
Qed.

Lemma assoc_None d k : assoc k d = None <-> k ∉ map fst d.
Proof.
  induction d as [|[k' v'] d IH]; simpl.
  - split; [intros _; apply not_elem_of_nil | reflexivity].
  - rewrite not_elem_of_cons. destruct (String.eqb_spec k' k) as [->|Hk].
    + split; [discriminate | intros [H _]; contradiction].
    + rewrite IH. split; [intros H; split; [congruence | exact H] | intros [_ H]; exact H].
Qed.

Lemma assoc_Some_in d k v : assoc k d = Some v -> (k, v) ∈ d.
Proof.
  induction d as [|[k' v'] d IH]; simpl; [discriminate|].
  destruct (String.eqb_spec k' k) as [->|Hk].
  - intros [= ->]. left.
  - intros H. right. now apply IH.
Qed.

Lemma in_assoc_Some d k v :
  NoDup (map fst d) -> (k, v) ∈ d -> assoc k d = Some v.
Proof.
  induction d as [|[k' v'] d IH]; simpl; intros Hnd Hin.
  - now apply elem_of_nil in Hin.
  - apply NoDup_cons in Hnd as [Hk' Hnd].
    apply elem_of_cons in Hin as [[= -> ->]|Hin].
    + now rewrite String.eqb_refl.
    + destruct (String.eqb_spec k' k) as [->|Hk]; [|now apply IH].
      exfalso. apply Hk'. apply list_elem_of_fmap. now exists (k, v).
Qed.

Lemma keys_assoc_set d k v :
  map fst (assoc_set k v d)
  = if has_key k d then map fst d else map fst d ++ [k].
Proof.
  unfold has_key. induction d as [|[k' v'] d IH]; simpl; [reflexivity|].
  destruct (String.eqb k' k) eqn:E; simpl; [reflexivity|].
  rewrite IH. now destruct (assoc k d).
Qed.

Lemma NoDup_assoc_set d k v :
  NoDup (map fst d) -> NoDup (map fst (assoc_set k v d)).
Proof.
  intros Hnd. rewrite keys_assoc_set. unfold has_key.
  destruct (assoc k d) eqn:E; [exact Hnd|].
  apply NoDup_app. split; [exact Hnd|]. split.
  - intros x Hx [->|[]%elem_of_nil]%elem_of_cons.
    now apply assoc_None in E.
  - apply NoDup_singleton.
Qed.

End Dict.

(* ===================================================================== *)
(** ** Strings as lists of characters                                     *)
(* ===================================================================== *)

Section StringFacts.

Lemma chars_str (l : list ascii) : chars (str l) = l.
Proof. apply list_ascii_of_string_of_list_ascii. Qed.

Lemma str_chars (s : string) : str (chars s) = s.
Proof. apply string_of_list_ascii_of_string. Qed.

Lemma chars_inj (s t : string) : chars s = chars t -> s = t.
Proof. intros H. rewrite <- (str_chars s), <- (str_chars t). now rewrite H. Qed.

Lemma chars_app (s t : string) : chars (s +:+ t) = chars s ++ chars t.
Proof.
  unfold chars. induction s as [|c s IH]; simpl; [reflexivity|].
  now rewrite IH.
Qed.

Lemma chars_nil (s : string) : chars s = [] <-> s = "".
Proof.
  split; [|intros ->; reflexivity].
  destruct s; [reflexivity | discriminate].
Qed.

Lemma eqb_empty (s : string) : String.eqb s "" = bool_decide (chars s = []).
Proof. destruct s; reflexivity. Qed.

Lemma take_while_app {A} (p : A -> bool) (l t : list A) :
  forallb p l = true ->
  take_while p (l ++ t) = l ++ take_while p t.
Proof.
  induction l as [|a l IH]; simpl; [reflexivity|].
  intros [Ha Hl]%andb_prop. rewrite Ha. now rewrite IH.
Qed.

Lemma drop_while_app {A} (p : A -> bool) (l t : list A) :
  forallb p l = true ->
  drop_while p (l ++ t) = drop_while p t.
Proof.
  induction l as [|a l IH]; simpl; [reflexivity|].
  intros [Ha Hl]%andb_prop. rewrite Ha. now apply IH.
Qed.

Lemma take_drop_while {A} (p : A -> bool) (l : list A) :
  l = take_while p l ++ drop_while p l.
Proof.
  induction l as [|a l IH]; simpl; [reflexivity|].
  destruct (p a); simpl; [now rewrite <- IH | reflexivity].
Qed.

Lemma take_while_all {A} (p : A -> bool) (l : list A) :
  forallb p (take_while p l) = true.
Proof.
  induction l as [|a l IH]; simpl; [reflexivity|].
  destruct (p a) eqn:E; simpl; [now rewrite E | reflexivity].
Qed.

Lemma drop_while_head {A} (p : A -> bool) (l : list A) a t :
  drop_while p l = a :: t -> p a = false.
Proof.
  induction l as [|b l IH]; simpl; [discriminate|].
  destruct (p b) eqn:E; [apply IH|]. intros [= -> _]. exact E.
Qed.

Lemma drop_while_stop {A} (p : A -> bool) (a : A) (t : list A) :
  p a = false -> drop_while p (a :: t) = a :: t.
Proof. intros H. simpl. now rewrite H. Qed.

Lemma prefix_chars (p s : string) :
  String.prefix p s = true <-> exists t, chars s = chars p ++ t.
Proof.
  revert s. induction p as [|c p IH]; intros s; simpl.
  - split; [intros _; now exists (chars s) | intros _; now destruct s].
  - destruct s as [|d s]; simpl.
    + split; [discriminate | intros [t Ht]; discriminate].
    + destruct (Ascii.ascii_dec c d) as [->|Hne].
      * rewrite IH. split; intros [t Ht]; exists t.
        -- unfold chars in *; simpl; now rewrite Ht.
        -- unfold chars in *; simpl in Ht; now injection Ht.
      * split; [discriminate|]. intros [t Ht].
        unfold chars in Ht; simpl in Ht. now injection Ht as -> _.
Qed.

Lemma existsb_rev {A} (f : A -> bool) (l : list A) :
  existsb f (rev l) = existsb f l.
Proof.
  induction l as [|a l IH]; simpl; [reflexivity|].
  rewrite existsb_app, IH. simpl. rewrite orb_false_r. apply orb_comm.
Qed.

Lemma forallb_rev {A} (f : A -> bool) (l : list A) :
  forallb f (rev l) = forallb f l.
Proof.
  induction l as [|a l IH]; simpl; [reflexivity|].
  rewrite forallb_app, IH. simpl. rewrite andb_true_r. apply andb_comm.
Qed.

Lemma rev_nil_inv {A} (l : list A) : rev l = [] -> l = [].
Proof.
  intros H. apply (f_equal (@rev A)) in H. now rewrite rev_involutive in H.
Qed.

End StringFacts.

(* ===================================================================== *)
(** ** Anchors of a transformed component                                 *)
(* ===================================================================== *)

Section ComponentTransform.

Import PropagateAnchors.

Lemma transformPoint_identity (p : Z * Z) :
  transformPoint identity_transform p = p.
Proof. destruct p as [px py]. unfold transformPoint. simpl. f_equal; lia. Qed.

Lemma transform_anchor_pos (t : Transform) (a : Anchor) :
  (x (transform_anchor t a), y (transform_anchor t a))
  = transformPoint t (x a, y a).
Proof.
  unfold transform_anchor. case_bool_decide as Ht.
  - destruct (transformPoint t (x a, y a)) as [px py]. reflexivity.
  - subst t. now rewrite transformPoint_identity.
Qed.

Lemma transform_anchor_name (t : Transform) (a : Anchor) :
  name (transform_anchor t a) = name a.
Proof.
  unfold transform_anchor. case_bool_decide; [|reflexivity].
  destruct (transformPoint t (x a, y a)). reflexivity.
Qed.

Lemma rename_flipped_vertically_id (opts : Options) (t : Transform) (a : Anchor) :
  rename_flipped_vertically opts t a = a.
Proof.
  unfold rename_flipped_vertically.
  destruct (yy t <? 0); [|reflexivity].
  destruct (vertical_opposites opts !! name a); reflexivity.
Qed.

Lemma rename_flipped_horizontally_pos (opts : Options) (t : Transform) (a : Anchor) :
  x (rename_flipped_horizontally opts t a) = x a
  /\ y (rename_flipped_horizontally opts t a) = y a.
Proof.
  unfold rename_flipped_horizontally.
  destruct (xx t <? 0); [|split; reflexivity].
  destruct (horizontal_opposites opts !! name a); split; reflexivity.
Qed.

(** The copy of an anchor: the name by the horizontal rule, the position by
    the transform. *)
Lemma propagated_copy_eq (opts : Options) (t : Transform) (a : Anchor) :
  propagated_copy opts t a =
  let '(px, py) := transformPoint t (x a, y a) in
  mkAnchor (name (rename_flipped_horizontally opts t a)) px py.
Proof.
  unfold propagated_copy. rewrite rename_flipped_vertically_id.
  replace (mkAnchor (name a) (x a) (y a)) with a by now destruct a.
  set (b := rename_flipped_horizontally opts t a).
  pose proof (transform_anchor_pos t b) as Hp.
  pose proof (transform_anchor_name t b) as Hn.
  destruct (rename_flipped_horizontally_pos opts t a) as [Hx Hy].
  fold b in Hx, Hy. rewrite Hx, Hy in Hp.
  destruct (transformPoint t (x a, y a)) as [px py].
  destruct (transform_anchor t b) as [n' x' y']. simpl in *.
  congruence.
Qed.

Lemma propagated_copy_pos (opts : Options) (t : Transform) (a : Anchor) :
  (x (propagated_copy opts t a), y (propagated_copy opts t a))
  = transformPoint t (x a, y a).
Proof.
  rewrite propagated_copy_eq.
  destruct (transformPoint t (x a, y a)). reflexivity.
Qed.

(** What [_collect_components_anchors] adds is, for each component that it
    does not skip, the copies of the anchors [rec] returned for its base
    glyph. *)
Lemma collect_components_anchors_spec
    (rec : State -> string -> result (State * list Anchor)) (ctx : Context) :
  forall comps i st acc st' out,
    collect_components_anchors rec ctx i comps st acc = Ok (st', out) ->
    exists new, out = acc ++ new /\
      Forall (fun pa =>
        exists c a st1 st2 l,
          comps !! (component pa - i)%nat = Some c
          /\ (i <= component pa)%nat
          /\ rec st1 (baseGlyph c) = Ok (st2, l)
          /\ In a l
          /\ anchor pa = propagated_copy (options ctx) (transformation c) a) new.
Proof.
  induction comps as [|c comps IH]; intros i st acc st' out H; simpl in H.
  - injection H as <- <-. exists []. split; [now rewrite app_nil_r | constructor].
  - destruct (glyphSet st !! baseGlyph c) eqn:Eg.
    + destruct (rec st (baseGlyph c)) as [[st1 l]| |] eqn:Er; try discriminate.
      simpl in H. apply IH in H as (new & -> & Hnew).
      eexists. split; [rewrite <- app_assoc; reflexivity|].
      apply List.Forall_app. split.
      * unfold component_propagated_anchors. apply List.Forall_forall.
        intros pa [a [<- Ha]]%in_map_iff. simpl.
        exists c, a, st, st1, l. rewrite Nat.sub_diag. simpl.
        repeat split; [lia | exact Er | exact Ha].
      * eapply List.Forall_impl; [|exact Hnew].
        intros pa (c' & a & s1 & s2 & l' & Hc & Hi & Hr & Ha & Hpa).
        exists c', a, s1, s2, l'. repeat split; try assumption; [|lia].
        replace (component pa - i)%nat with (S (component pa - S i)) by lia.
        exact Hc.
    + apply IH in H as (new & -> & Hnew). exists new. split; [reflexivity|].
      eapply List.Forall_impl; [|exact Hnew].
      intros pa (c' & a & s1 & s2 & l' & Hc & Hi & Hr & Ha & Hpa).
      exists c', a, s1, s2, l'. repeat split; try assumption; [|lia].
      replace (component pa - i)%nat with (S (component pa - S i)) by lia.
      exact Hc.
Qed.

(** C3: every anchor that [_collect_components_anchors] propagates from a
    component's base glyph is the copy of an anchor [(x, y)] of that glyph
    placed at the image of [(x, y)] under the component's affine transform;
    under [(1, 0, 0, 1, dx, dy)] that is [(x + dx, y + dy)]; and under a
    negative horizontal scale [topleft] and [topright], and [bottomleft] and
    [bottomright], are exchanged, the position being that of the transform
    all the same. *)
Theorem C3_component_transform :
  (forall rec ctx comps st st' out,
     collect_components_anchors rec ctx 0 comps st [] = Ok (st', out) ->
     Forall (fun pa =>
       exists c a st1 st2 l,
         comps !! component pa = Some c
         /\ rec st1 (baseGlyph c) = Ok (st2, l) /\ In a l
         /\ pos pa = transformPoint (transformation c) (x a, y a)) out)
  /\ (forall opts t a,
        (x (propagated_copy opts t a), y (propagated_copy opts t a))
        = transformPoint t (x a, y a))
  /\ (forall opts dx dy a,
        propagated_copy opts (mkTransform 1 0 0 1 dx dy) a
        = mkAnchor (name a) (x a + dx) (y a + dy))
  /\ (forall t px py n n',
        xx t < 0 ->
        In (n, n') [("topleft", "topright"); ("topright", "topleft");
                    ("bottomleft", "bottomright"); ("bottomright", "bottomleft")] ->
        propagated_copy default_options t (mkAnchor n px py)
        = mkAnchor n' (fst (transformPoint t (px, py)))
                      (snd (transformPoint t (px, py)))).
Proof.
  split; [|split; [|split]].
  - intros rec ctx comps st st' out H.
    apply collect_components_anchors_spec in H as (new & -> & Hnew).
    simpl. eapply List.Forall_impl; [|exact Hnew].
    intros pa (c & a & s1 & s2 & l & Hc & _ & Hr & Ha & Hpa).
    exists c, a, s1, s2, l. rewrite Nat.sub_0_r in Hc.
    repeat split; try assumption.
    unfold pos. rewrite Hpa. apply propagated_copy_pos.
  - apply propagated_copy_pos.
  - intros opts dx dy a. rewrite propagated_copy_eq.
    unfold transformPoint, rename_flipped_horizontally. simpl.
    f_equal; lia.
  - intros t px py n n' Hxx Hin. rewrite propagated_copy_eq.
    unfold rename_flipped_horizontally.
    replace (xx t <? 0) with true by (symmetry; now apply Z.ltb_lt).
    destruct (transformPoint t _) as [qx qy] eqn:Et. simpl.
    simpl in Hin.
    destruct Hin as [[= <- <-]|[[= <- <-]|[[= <- <-]|[[= <- <-]|[]]]]];
      reflexivity.
Qed.

(** C3 at the component [dieresiscomb@(1,0,0,1,175,0)] of [adieresis], and
    at a mirrored component. *)
Lemma C3_component_transform_witness :
  propagated_copy default_options (mkTransform 1 0 0 1 175 0)
    (mkAnchor "top" 0 480) = mkAnchor "top" 175 480
  /\ propagated_copy default_options (mkTransform (-1) 0 0 1 300 0)
       (mkAnchor "topleft" 100 500) = mkAnchor "topright" 200 500.
Proof.
  destruct C3_component_transform as (_ & _ & H3 & H4).
  split.
  - apply (H3 default_options 175 0 (mkAnchor "top" 0 480)).
  - apply (H4 (mkTransform (-1) 0 0 1 300 0) 100 500 "topleft" "topright").
    + simpl. lia.
    + simpl. left. reflexivity.
Defined.

(** C4, counterexample: under the half-turn [(-1, 0, 0, -1, 0, 280)] (the
    component of [caronbelowcomb] in the repository's tests) the vertical
    scale is negative and [topleft] is renamed, by the horizontal rule. *)
Lemma C4_counterexample_half_turn :
  ~ vertical_flip_keeps_names
  /\ name (propagated_copy default_options (mkTransform (-1) 0 0 (-1) 0 280)
             (mkAnchor "topleft" 10 20)) = "topright".
Proof.
  split; [|reflexivity].
  intros H.
  specialize (H (mkTransform (-1) 0 0 (-1) 0 280) (mkAnchor "topleft" 10 20)).
  simpl in H. assert (Hlt : -1 < 0) by lia. specialize (H Hlt).
  vm_compute in H. discriminate H.
Qed.

(** C4, as amended: under a negative vertical scale the statement of the
    vertical branch leaves the anchor as it is, whatever the options; the
    name of the propagated anchor is the one the horizontal rule gives, so
    it is the original name when the horizontal scale is not negative, and
    the horizontal opposite when it is and the name has one. *)
Theorem C4_vertical_flip_renames_nothing :
  forall (opts : Options) (t : Transform) (a : Anchor),
    yy t < 0 ->
    rename_flipped_vertically opts t a = a
    /\ name (propagated_copy opts t a)
       = name (rename_flipped_horizontally opts t a)
    /\ (0 <= xx t -> name (propagated_copy opts t a) = name a)
    /\ (xx t < 0 ->
        name (propagated_copy opts t a)
        = default (name a) (horizontal_opposites opts !! name a)).
Proof.
  intros opts t a _. split; [apply rename_flipped_vertically_id|].
  assert (Hn : name (propagated_copy opts t a)
               = name (rename_flipped_horizontally opts t a)).
  { rewrite propagated_copy_eq. destruct (transformPoint _ _). reflexivity. }
  split; [exact Hn|]. rewrite Hn. unfold rename_flipped_horizontally.
  split; intros Hx.
  - replace (xx t <? 0) with false by (symmetry; apply Z.ltb_ge; lia).
    reflexivity.
  - replace (xx t <? 0) with true by (symmetry; now apply Z.ltb_lt).
    destruct (horizontal_opposites opts !! name a); reflexivity.
Qed.

(** The amended claim at the component of [caroncomb] in the repository's
    tests, [circumflexcomb@(1, 0, 0, -1, 0, 760)]: [top] stays [top]. *)
Lemma C4_vertical_flip_renames_nothing_witness :
  name (propagated_copy default_options (mkTransform 1 0 0 (-1) 0 760)
          (mkAnchor "top" 0 480)) = "top".
Proof.
  refine (proj1 (proj2 (proj2
    (C4_vertical_flip_renames_nothing default_options
       (mkTransform 1 0 0 (-1) 0 760) (mkAnchor "top" 0 480) _))) _);
    simpl; lia.
Defined.

End ComponentTransform.

(* ===================================================================== *)
(** ** Sorting                                                            *)
(* ===================================================================== *)

Section Sorting.

Context {A : Type} (le : A -> A -> bool).

Hypothesis le_total : forall a b, le a b = true \/ le b a = true.

Lemma insert_sorted_perm (x : A) (l : list A) :
  Permutation (insert_sorted le x l) (x :: l).
Proof.
  induction l as [|y l IH]; simpl; [reflexivity|].
  destruct (le x y); [reflexivity|].
  rewrite IH. apply perm_swap.
Qed.

Lemma sorted_perm (l : list A) : Permutation (sorted le l) l.
Proof.
  induction l as [|x l IH]; simpl; [reflexivity|].
  now rewrite insert_sorted_perm, IH.
Qed.

Lemma insert_sorted_HdRel (a x : A) (l : list A) :
  le a x = true -> HdRel (le_prop le) a l -> HdRel (le_prop le) a (insert_sorted le x l).
Proof.
  intros Hax Hl. destruct l as [|y l]; simpl.
  - now constructor.
  - destruct (le x y); constructor; [exact Hax|].
    now inversion Hl.
Qed.

Lemma insert_sorted_Sorted (x : A) (l : list A) :
  Sorted (le_prop le) l -> Sorted (le_prop le) (insert_sorted le x l).
Proof.
  induction 1 as [|y l Hl IH Hhd]; simpl.
  - repeat constructor.
  - destruct (le x y) eqn:E.
    + constructor; [now constructor | now constructor].
    + constructor; [exact IH|].
      apply insert_sorted_HdRel; [|exact Hhd].
      destruct (le_total x y) as [H|H]; [congruence | exact H].
Qed.

Lemma sorted_Sorted (l : list A) : Sorted (le_prop le) (sorted le l).
Proof.
  induction l as [|x l IH]; simpl; [constructor|].
  now apply insert_sorted_Sorted.
Qed.

End Sorting.

Lemma Sorted_map_fst {A B : Type} (le : A -> A -> bool) (l : list (A * B)) :
  Sorted (le_prop (fun a b => le (fst a) (fst b))) l ->
  Sorted (le_prop le) (map fst l).
Proof.
  induction 1 as [|x l Hl IH Hhd]; simpl; constructor; [exact IH|].
  destruct Hhd; simpl; constructor. assumption.
Qed.

Lemma StronglySorted_sublist {A : Type} (R : A -> A -> Prop) (k l : list A) :
  k `sublist_of` l -> StronglySorted R l -> StronglySorted R k.
Proof.
  induction 1 as [|x k l Hs IH|x k l Hs IH]; intros Hl.
  - constructor.
  - apply StronglySorted_inv in Hl as [Hl Hx]. constructor; [now apply IH|].
    rewrite List.Forall_forall in *. intros y Hy. apply Hx.
    apply list_elem_of_In. eapply elem_of_sublist; [|exact Hs].
    now apply list_elem_of_In.
  - apply StronglySorted_inv in Hl as [Hl _]. now apply IH.
Qed.

(** *** The order of strings *)

Section StringOrder.

Lemma ascii_compare_N (a b : ascii) :
  Ascii.compare a b = N.compare (N_of_ascii a) (N_of_ascii b).
Proof. reflexivity. Qed.

Lemma ascii_compare_lt_trans (a b c : ascii) :
  Ascii.compare a b = Lt -> Ascii.compare b c = Lt -> Ascii.compare a c = Lt.
Proof.
  rewrite !ascii_compare_N, !N.compare_lt_iff. lia.
Qed.

Lemma ascii_compare_refl (a : ascii) : Ascii.compare a a = Eq.
Proof. rewrite ascii_compare_N. apply N.compare_refl. Qed.

Lemma string_compare_lt_trans (s t u : string) :
  String.compare s t = Lt -> String.compare t u = Lt -> String.compare s u = Lt.
Proof.
  revert t u. induction s as [|a s IH]; intros [|b t] [|c u]; simpl;
    try discriminate; try reflexivity.
  destruct (Ascii.compare a b) eqn:Eab; try discriminate.
  - apply Ascii.compare_eq_iff in Eab. subst b.
    destruct (Ascii.compare a c); try discriminate; [apply IH | reflexivity].
  - intros _. destruct (Ascii.compare b c) eqn:Ebc; try discriminate.
    + apply Ascii.compare_eq_iff in Ebc. subst c. now rewrite Eab.
    + now rewrite (ascii_compare_lt_trans a b c Eab Ebc).
Qed.

Lemma string_compare_refl (s : string) : String.compare s s = Eq.
Proof.
  induction s as [|a s IH]; simpl; [reflexivity|].
  now rewrite ascii_compare_refl.
Qed.

Lemma string_leb_trans (s t u : string) :
  String.leb s t = true -> String.leb t u = true -> String.leb s u = true.
Proof.
  unfold String.leb.
  destruct (String.compare s t) eqn:Est; try discriminate;
    destruct (String.compare t u) eqn:Etu; try discriminate; intros _ _.
  - apply String.compare_eq_iff in Est, Etu. subst. now rewrite string_compare_refl.
  - apply String.compare_eq_iff in Est. subst. now rewrite Etu.
  - apply String.compare_eq_iff in Etu. subst. now rewrite Est.
  - now rewrite (string_compare_lt_trans s t u Est Etu).
Qed.

(** A dict sorted by its items is sorted by its keys. *)
Lemma sorted_by_name_keys {V : Type} (d : list (string * V)) :
  StronglySorted (le_prop String.leb)
    (map fst (sorted MarkFeatureWriter.name_le d)).
Proof.
  apply Sorted_StronglySorted.
  - intros a b c. apply string_leb_trans.
  - apply (Sorted_map_fst String.leb). apply sorted_Sorted.
    intros a b. apply String.leb_total.
Qed.

End StringOrder.

(* ===================================================================== *)
(** ** The attachment registry                                            *)
(* ===================================================================== *)

Section AttachmentRegistry.

Import PropagateAnchors.

Implicit Types (d : list (string * Attachment)) (n k : string)
  (a : Attachment) (seen names : list string).

Lemma classify_anchor_name_role d n :
  classify_anchor_name d n
  = dict_update d (snd (anchor_role n))
      (if fst (anchor_role n) then add_mark n else add_base n).
Proof.
  unfold classify_anchor_name, anchor_role.
  destruct (mark_anchor_name n); [reflexivity|].
  destruct (0 <? find_char underscore (chars n)); reflexivity.
Qed.

Lemma members_of_default seen d k :
  registry_inv seen d ->
  members_of seen k (default (mkAttachment [] []) (assoc k d)).
Proof.
  intros (Hnd & Hmem & Hkeys).
  destruct (assoc k d) as [a|] eqn:E; simpl; [now apply Hmem|].
  apply assoc_None in E.
  assert (Hno : forall n m, n ∈ seen -> anchor_role n = (m, k) -> False).
  { intros n m Hn Hr. apply E, Hkeys. exists n. now rewrite Hr. }
  split; [apply NoDup_nil_2|]. split; [apply NoDup_nil_2|].
  split; intros n; simpl; (split; [intros []%elem_of_nil | intros [Hn Hr]]);
    exfalso; eauto.
Qed.

Lemma elem_of_snoc (l : list string) (n n' : string) :
  n' ∈ l ++ [n] <-> n' ∈ l \/ n' = n.
Proof. now rewrite elem_of_app, list_elem_of_singleton. Qed.

Lemma NoDup_snoc (l : list string) (n : string) :
  NoDup l -> n ∉ l -> NoDup (l ++ [n]).
Proof.
  intros Hl Hn. apply NoDup_app. split; [exact Hl|].
  split; [|apply NoDup_singleton].
  intros x Hx ->%list_elem_of_singleton. contradiction.
Qed.

(** Adding the name [n], of role [(m, k)], to the list of that role. *)
Lemma members_add (seen l : list string) (n k : string) (m : bool) :
  anchor_role n = (m, k) ->
  NoDup l ->
  (forall n', n' ∈ l <-> n' ∈ seen /\ anchor_role n' = (m, k)) ->
  let l' := if bool_decide (n ∈ l) then l else l ++ [n] in
  NoDup l'
  /\ (forall n', n' ∈ l' <-> n' ∈ seen ++ [n] /\ anchor_role n' = (m, k)).
Proof.
  intros Hr Hnd Hl. simpl. case_bool_decide as Hin.
  - split; [exact Hnd|]. intros n'. rewrite elem_of_snoc, Hl. split.
    + intros [? ?]. auto.
    + intros [[?| ->] ?]; [auto|]. now apply Hl.
  - split; [now apply NoDup_snoc|]. intros n'.
    rewrite !elem_of_snoc, Hl. split.
    + intros [[? ?]| ->]; auto.
    + intros [[?| ->] ?]; auto.
Qed.

(** The list of the other role is as it was. *)
Lemma members_keep (seen l : list string) (n k k' : string) (m m' : bool) :
  anchor_role n = (m', k') -> (m', k') <> (m, k) ->
  (forall n', n' ∈ l <-> n' ∈ seen /\ anchor_role n' = (m, k)) ->
  forall n', n' ∈ l <-> n' ∈ seen ++ [n] /\ anchor_role n' = (m, k).
Proof.
  intros Hr Hne Hl n'. rewrite elem_of_snoc, Hl. split.
  - intros [? ?]. auto.
  - intros [[?| ->] ?]; [auto|]. congruence.
Qed.

Lemma members_of_add_mark seen k a n :
  anchor_role n = (true, k) ->
  members_of seen k a -> members_of (seen ++ [n]) k (add_mark n a).
Proof.
  intros Hr (Hb & Hm & Hbase & Hmark).
  destruct (members_add seen (mark a) n k true Hr Hm Hmark) as [Hnd Hmem].
  pose proof (members_keep seen (base a) n k k false true Hr
                ltac:(congruence) Hbase) as Hbase'.
  unfold add_mark, members_of.
  destruct (bool_decide (n ∈ mark a)); simpl; auto.
Qed.

Lemma members_of_add_base seen k a n :
  anchor_role n = (false, k) ->
  members_of seen k a -> members_of (seen ++ [n]) k (add_base n a).
Proof.
  intros Hr (Hb & Hm & Hbase & Hmark).
  destruct (members_add seen (base a) n k false Hr Hb Hbase) as [Hnd Hmem].
  pose proof (members_keep seen (mark a) n k k true false Hr
                ltac:(congruence) Hmark) as Hmark'.
  unfold add_base, members_of.
  destruct (bool_decide (n ∈ base a)); simpl; auto.
Qed.

(** An attachment of another key is not touched by a new name. *)
Lemma members_of_other seen k a n :
  snd (anchor_role n) <> k ->
  members_of seen k a -> members_of (seen ++ [n]) k a.
Proof.
  intros Hne (Hb & Hm & Hbase & Hmark).
  destruct (anchor_role n) as [m' k'] eqn:Hr. simpl in Hne.
  split; [exact Hb|]. split; [exact Hm|]. split.
  - apply (members_keep seen (base a) n k k' false m' Hr); [congruence | exact Hbase].
  - apply (members_keep seen (mark a) n k k' true m' Hr); [congruence | exact Hmark].
Qed.

Lemma registry_inv_step seen d n :
  registry_inv seen d -> registry_inv (seen ++ [n]) (classify_anchor_name d n).
Proof.
  intros Hinv. pose proof Hinv as (Hnd & Hmem & Hkeys).
  rewrite classify_anchor_name_role. unfold dict_update.
  destruct (anchor_role n) as [m k0] eqn:Hr. simpl fst. simpl snd.
  pose proof (members_of_default seen d k0 Hinv) as Hdef.
  set (a0 := default (mkAttachment [] []) (assoc k0 d)) in *.
  split; [now apply NoDup_assoc_set|]. split.
  - intros k a Ha. destruct (decide (k0 = k)) as [<-|Hne].
    + rewrite assoc_set_eq in Ha. injection Ha as <-.
      destruct m; [now apply members_of_add_mark | now apply members_of_add_base].
    + rewrite assoc_set_ne in Ha by exact Hne.
      apply members_of_other; [now rewrite Hr | now apply Hmem].
  - intros k. rewrite keys_assoc_set.
    assert (Hk : k ∈ map fst d ++ [k0]
                 <-> exists n', n' ∈ seen ++ [n] /\ snd (anchor_role n') = k).
    { rewrite elem_of_app, list_elem_of_singleton, Hkeys. split.
      - intros [(n' & Hn' & Hk)| ->].
        + exists n'. rewrite elem_of_app. auto.
        + exists n. rewrite elem_of_app, list_elem_of_singleton, Hr. auto.
      - intros (n' & [Hn'| ->%list_elem_of_singleton]%elem_of_app & Hk).
        + left. eauto.
        + right. now rewrite Hr in Hk. }
    unfold has_key. destruct (assoc k0 d) as [a|] eqn:E; [|exact Hk].
    rewrite <- Hk, elem_of_app, list_elem_of_singleton.
    split; [auto | intros [H| ->]; [exact H|]].
    apply assoc_Some_in in E. apply list_elem_of_fmap. now exists (k0, a).
Qed.

Lemma registry_inv_fold names : forall seen d,
  registry_inv seen d ->
  registry_inv (seen ++ names) (fold_left classify_anchor_name names d).
Proof.
  induction names as [|n names IH]; intros seen d Hinv; simpl.
  - now rewrite app_nil_r.
  - replace (seen ++ n :: names) with ((seen ++ [n]) ++ names)
      by now rewrite <- app_assoc.
    apply IH. now apply registry_inv_step.
Qed.

Lemma registry_inv_nil : registry_inv [] [].
Proof.
  split; [apply NoDup_nil_2|]. split.
  - intros k a [=].
  - intros k. simpl. split; [intros []%elem_of_nil|].
    intros (n & []%elem_of_nil & _).
Qed.

Lemma filter_map_snd {A B} (p : B -> bool) (l : list (A * B)) :
  List.filter p (map snd l) = map snd (List.filter (fun ab => p (snd ab)) l).
Proof.
  induction l as [|[x y] l IH]; simpl; [reflexivity|].
  destruct (p y); simpl; now rewrite IH.
Qed.

Lemma NoDup_keys_filter {A B} `{EqDecision A} (p : A * B -> bool)
    (l : list (A * B)) :
  NoDup (map fst l) -> NoDup (map fst (List.filter p l)).
Proof.
  induction l as [|[x y] l IH]; simpl; intros Hnd; [exact Hnd|].
  apply NoDup_cons in Hnd as [Hx Hnd].
  destruct (p (x, y)); simpl; [|now apply IH].
  apply NoDup_cons. split; [|now apply IH].
  intros Hin. apply Hx. apply list_elem_of_fmap in Hin as ([x' y'] & -> & Hin).
  apply list_elem_of_In, filter_In in Hin as [Hin _].
  apply list_elem_of_fmap. exists (x', y'). split; [reflexivity|].
  now apply list_elem_of_In.
Qed.

Lemma nonempty_elem {A} (l : list A) : nonempty l = true <-> exists x, x ∈ l.
Proof.
  destruct l as [|x l]; simpl.
  - split; [discriminate | intros [x []%elem_of_nil]].
  - split; [intros _; exists x; left | reflexivity].
Qed.

(** The attachments collected from the names of a font, each with its key. *)
Lemma collect_attachments_keyed (opts : Options) names :
  opt_attachments opts = [] ->
  exists keyed : list (string * Attachment),
    collect_attachments opts names = map snd keyed
    /\ NoDup (map fst keyed)
    /\ (forall k, k ∈ map fst keyed <->
          (exists b, b ∈ names /\ anchor_role b = (false, k))
          /\ (exists m, m ∈ names /\ anchor_role m = (true, k)))
    /\ (forall k a, (k, a) ∈ keyed -> members_of names k a).
Proof.
  intros Hopt. unfold collect_attachments. rewrite Hopt. simpl nonempty.
  cbv iota.
  pose proof (registry_inv_fold names [] [] registry_inv_nil) as Hinv.
  simpl app in Hinv.
  set (d := fold_left classify_anchor_name names []) in *.
  destruct Hinv as (Hnd & Hmem & Hkeys).
  set (both := fun ka : string * Attachment =>
                 nonempty (base (snd ka)) && nonempty (mark (snd ka))).
  exists (List.filter both d).
  split; [apply (filter_map_snd (fun a => nonempty (base a) && nonempty (mark a)))|].
  split; [now apply NoDup_keys_filter|]. split.
  - intros k. split.
    + intros ([k' a] & -> & Hin)%list_elem_of_fmap. simpl.
      apply list_elem_of_In, filter_In in Hin as [Hin Hboth].
      apply list_elem_of_In, in_assoc_Some, Hmem in Hin; [|exact Hnd].
      destruct Hin as (_ & _ & Hb & Hm).
      unfold both in Hboth. simpl in Hboth.
      apply andb_prop in Hboth as [[b Hb']%nonempty_elem [m Hm']%nonempty_elem].
      split; [exists b; now apply Hb | exists m; now apply Hm].
    + intros [(b & Hb & Hrb) (m & Hm & Hrm)].
      assert (Hk : k ∈ map fst d)
        by (apply Hkeys; exists b; now rewrite Hrb).
      apply list_elem_of_fmap in Hk as ([k' a] & -> & Hin). simpl in *.
      apply list_elem_of_fmap. exists (k', a). split; [reflexivity|].
      apply list_elem_of_In, filter_In. split; [now apply list_elem_of_In|].
      apply in_assoc_Some, Hmem in Hin; [|exact Hnd].
      destruct Hin as (_ & _ & Hbase & Hmark).
      unfold both. simpl. apply andb_true_intro. split; apply nonempty_elem.
      * exists b. apply Hbase. auto.
      * exists m. apply Hmark. auto.
  - intros k a Hin. apply list_elem_of_In, filter_In in Hin as [Hin _].
    apply Hmem, in_assoc_Some; [exact Hnd | now apply list_elem_of_In].
Qed.

Lemma role_filter (l : list string) (r : bool * string) (n : string) :
  n ∈ l /\ anchor_role n = r
  <-> n ∈ List.filter (fun n => bool_decide (anchor_role n = r)) l.
Proof.
  rewrite (list_elem_of_In (List.filter _ _) n), filter_In, bool_decide_eq_true.
  now rewrite list_elem_of_In.
Qed.

Lemma members_same_set (l l' names : list string) (r : bool * string) :
  NoDup l -> NoDup l' ->
  (forall n, n ∈ l <-> n ∈ names /\ anchor_role n = r) ->
  (forall n, n ∈ l' <-> n ∈ names /\ anchor_role n = r) ->
  l ≡ₚ l'.
Proof.
  intros Hl Hl' H H'. apply NoDup_Permutation; [exact Hl | exact Hl' |].
  intros n. now rewrite H, H'.
Qed.

Lemma seven_names_members (names : list string) (r : bool * string) :
  (forall n, n ∈ names <-> n ∈ seven_names) ->
  forall n, n ∈ names /\ anchor_role n = r
            <-> n ∈ List.filter (fun n => bool_decide (anchor_role n = r))
                                seven_names.
Proof. intros H n. rewrite H. apply role_filter. Qed.

Lemma mark_role (n : string) :
  mark_anchor_name n = true -> anchor_role n = (true, drop_first 1 n).
Proof.
  intros H. unfold anchor_role. rewrite H. f_equal.
  apply prefix_chars in H as [t Ht]. simpl in Ht.
  unfold drop_first. rewrite Ht. simpl. reflexivity.
Qed.

(** C5, counterexample: of the names [top] and [_top] the one attachment
    made has the mark set [{_top}]; the stripped form [top] is not in it. *)
Lemma C5_counterexample_mark_member :
  ~ stripped_form_joins_mark_set
  /\ collect_attachments default_options ["top"; "_top"]
     = [mkAttachment ["top"] ["_top"]].
Proof.
  split; [|reflexivity].
  intros H. destruct (H ["top"; "_top"] "_top") as (a & Ha & Hm).
  - right. left.
  - reflexivity.
  - change (collect_attachments default_options ["top"; "_top"])
      with [mkAttachment ["top"] ["_top"]] in Ha.
    apply list_elem_of_singleton in Ha. subst a.
    change (snd (anchor_role "_top")) with "top" in Hm. simpl in Hm.
    apply list_elem_of_singleton in Hm. discriminate Hm.
Qed.

(** C5, as amended: with no explicit configuration the attachments
    collected from the anchor names of the font are, one for each key that
    has both a base name and a mark name among them, the base names and the
    mark names of that key; a name matching the mark prefix is a mark name,
    under the key that is its stripped form, and it is the name itself that
    joins the mark set; any other name is a base name, under what precedes
    its last separator when it has a separator after its first character,
    under itself otherwise.  For the names top, top_1, top_2, top_viet,
    _top, bottom and _bottom, in any order, the attachments are the two of
    the example. *)
Theorem C5_collect_attachments :
  (forall (opts : Options) (names : list string),
     opt_attachments opts = [] ->
     exists keyed : list (string * Attachment),
       collect_attachments opts names = map snd keyed
       /\ NoDup (map fst keyed)
       /\ (forall k, k ∈ map fst keyed <->
             (exists b, b ∈ names /\ anchor_role b = (false, k))
             /\ (exists m, m ∈ names /\ anchor_role m = (true, k)))
       /\ (forall k a, (k, a) ∈ keyed -> members_of names k a))
  /\ (forall n : string,
        mark_anchor_name n = true -> anchor_role n = (true, drop_first 1 n))
  /\ (forall names : list string,
        (forall n, n ∈ names <-> n ∈ seven_names) ->
        exists a_top a_bottom : Attachment,
          collect_attachments default_options names ≡ₚ [a_top; a_bottom]
          /\ base a_top ≡ₚ ["top"; "top_1"; "top_2"; "top_viet"]
          /\ mark a_top = ["_top"]
          /\ base a_bottom = ["bottom"]
          /\ mark a_bottom = ["_bottom"]).
Proof.
  split; [exact collect_attachments_keyed|]. split; [exact mark_role|].
  intros names Hnames.
  destruct (collect_attachments_keyed default_options names eq_refl)
    as (keyed & -> & Hnd & Hkeys & Hmem).
  (* the keys are top and bottom *)
  assert (Hperm : map fst keyed ≡ₚ ["top"; "bottom"]).
  { apply NoDup_Permutation; [exact Hnd | |].
    { apply NoDup_cons. split; [|apply NoDup_singleton].
      intros ?%list_elem_of_singleton. discriminate. }
    intros k. rewrite Hkeys. split.
    - intros [(b & Hb) _].
      apply (seven_names_members names (false, k) Hnames) in Hb.
      apply list_elem_of_In, filter_In in Hb as [Hb Hr].
      apply bool_decide_eq_true in Hr.
      simpl in Hb.
      destruct Hb as [<-|[<-|[<-|[<-|[<-|[<-|[<-|[]]]]]]]];
        vm_compute in Hr;
        first [ discriminate Hr
              | injection Hr as <-; first [ left | right; left ] ].
    - intros [->|[->|[]%elem_of_nil]%elem_of_cons]%elem_of_cons.
      + split; [exists "top" | exists "_top"];
          (split; [apply Hnames; by_compute | reflexivity]).
      + split; [exists "bottom" | exists "_bottom"];
          (split; [apply Hnames; by_compute | reflexivity]). }
  (* so there are two attachments *)
  assert (Hshape : exists a_top a_bottom,
             keyed ≡ₚ [("top", a_top); ("bottom", a_bottom)]).
  { destruct keyed as [|[k1 a1] [|[k2 a2] [|? ?]]];
      try (apply Permutation_length in Hperm; discriminate Hperm).
    simpl in Hperm. symmetry in Hperm.
    apply Permutation_length_2_inv in Hperm as [[= <- <-]|[= <- <-]].
    - exists a1, a2. reflexivity.
    - exists a2, a1. apply perm_swap. }
  destruct Hshape as (a_top & a_bottom & Hkeyed).
  assert (Htop : members_of names "top" a_top).
  { apply Hmem. rewrite Hkeyed. left. }
  assert (Hbottom : members_of names "bottom" a_bottom).
  { apply Hmem. rewrite Hkeyed. right. left. }
  exists a_top, a_bottom.
  split; [now rewrite Hkeyed|].
  destruct Htop as (Hb1 & Hm1 & Hbase1 & Hmark1).
  destruct Hbottom as (Hb2 & Hm2 & Hbase2 & Hmark2).
  assert (Hlist : forall (l : list string) (r : bool * string),
            NoDup l ->
            (forall n, n ∈ l <-> n ∈ names /\ anchor_role n = r) ->
            l ≡ₚ List.filter (fun n => bool_decide (anchor_role n = r))
                             seven_names).
  { intros l r Hl Hiff. apply NoDup_Permutation; [exact Hl | |].
    - apply NoDup_ListNoDup, List.NoDup_filter, NoDup_ListNoDup.
      by_compute.
    - intros n. rewrite Hiff. now apply seven_names_members. }
  split; [exact (Hlist _ _ Hb1 Hbase1)|].
  split; [apply Permutation_singleton_r; exact (Hlist _ _ Hm1 Hmark1)|].
  split; apply Permutation_singleton_r;
    [exact (Hlist _ _ Hb2 Hbase2) | exact (Hlist _ _ Hm2 Hmark2)].
Qed.

(** The amended claim at the names of the font of the repository's test
    [test_get_anchor_attachment], as [font_anchor_names] lists them. *)
Lemma C5_collect_attachments_witness :
  exists a_top a_bottom : Attachment,
    collect_attachments default_options
      ["bottom"; "_bottom"; "top_2"; "_top"; "top_viet"; "top"; "top_1"]
    ≡ₚ [a_top; a_bottom]
    /\ base a_top ≡ₚ ["top"; "top_1"; "top_2"; "top_viet"]
    /\ mark a_top = ["_top"]
    /\ base a_bottom = ["bottom"]
    /\ mark a_bottom = ["_bottom"].
Proof.
  apply (proj2 (proj2 C5_collect_attachments)).
  intros n. unfold seven_names. rewrite !elem_of_cons. tauto.
Defined.

End AttachmentRegistry.
(* ===================================================================== *)
(** ** The anchor-name parser                                             *)
(* ===================================================================== *)

Section ParseAnchorName.

Import MarkFeatureWriter.

Lemma digit_not_newline c : is_digit c = true -> Ascii.eqb c newline = false.
Proof.
  intros H. apply Ascii.eqb_neq. intros ->. discriminate H.
Qed.

(** A digit occurs in no string of non-digits, and a non-digit in no string
    of digits. *)
Lemma not_in_digits (c : ascii) (ds : list ascii) :
  is_digit c = false -> forallb is_digit ds = true ->
  existsb (Ascii.eqb c) ds = false.
Proof.
  intros Hc. induction ds as [|d ds IH]; simpl; [reflexivity|].
  intros [Hd Hds]%andb_prop. rewrite (IH Hds), orb_false_r.
  apply Ascii.eqb_neq. intros ->. congruence.
Qed.

Lemma in_digits_all (ds : list ascii) :
  forallb (fun c => existsb (Ascii.eqb c) ds) ds = true.
Proof.
  apply forallb_forall. intros c Hc. apply existsb_exists.
  exists c. split; [exact Hc | apply Ascii.eqb_refl].
Qed.

(** The regular expression on a name of the shape [p_ds]. *)
Lemma ligaNumRE_match_numbered (p ds : list ascii) :
  all_digits ds -> no_newline p ->
  ligaNumRE_match (str (p ++ underscore :: ds)) = Some (str ds).
Proof.
  intros [Hne Hds] Hp. unfold ligaNumRE_match.
  rewrite chars_str, rev_app_distr. simpl rev. rewrite <- app_assoc. simpl app.
  assert (Hrne : rev ds <> []) by (intros H; now apply rev_nil_inv in H).
  assert (Hrds : forallb is_digit (rev ds) = true) by now rewrite forallb_rev.
  set (r := rev ds ++ underscore :: rev p).
  assert (Hr : match r with
               | c :: t => if Ascii.eqb c newline then t else r
               | [] => r
               end = r).
  { subst r. destruct (rev ds) as [|d r']; [congruence|]. simpl.
    simpl in Hrds. apply andb_prop in Hrds as [Hd _].
    now rewrite (digit_not_newline d Hd). }
  rewrite Hr. subst r.
  rewrite (take_while_app _ _ _ Hrds), (drop_while_app _ _ _ Hrds).
  simpl take_while. simpl drop_while. rewrite app_nil_r.
  simpl existsb. unfold no_newline in Hp. rewrite existsb_rev, Hp. simpl.
  destruct (rev ds) as [|d r'] eqn:Er; [congruence|].
  change (rev r' ++ [d]) with (rev (d :: r')).
  now rewrite <- Er, rev_involutive.
Qed.

Lemma rstrip_numbered (p ds : list ascii) :
  forallb is_digit ds = true ->
  rstrip (str (p ++ underscore :: ds)) (str ds) = str (p ++ [underscore]).
Proof.
  intros Hds. unfold rstrip. rewrite !chars_str, rev_app_distr. simpl rev.
  rewrite <- app_assoc. simpl app.
  rewrite drop_while_app.
  - simpl drop_while. rewrite (not_in_digits underscore ds eq_refl Hds).
    now rewrite <- rev_unit, rev_involutive.
  - rewrite forallb_rev. apply in_digits_all.
Qed.

Lemma endswith_underscore (l : list ascii) :
  endswith (str l) "_" = true <-> exists p, l = p ++ [underscore].
Proof.
  unfold endswith. rewrite prefix_chars, !chars_str. simpl.
  split.
  - intros [t Ht]. exists (rev t).
    rewrite <- (rev_involutive l), Ht. reflexivity.
  - intros [p ->]. exists (rev p). now rewrite rev_unit.
Qed.

Lemma drop_last_unit (p : list ascii) :
  drop_last 1 (str (p ++ [underscore])) = str p.
Proof.
  unfold drop_last. rewrite chars_str, rev_unit.
  change (skipn 1 (underscore :: rev p)) with (rev p).
  now rewrite rev_involutive.
Qed.

(** What the parser does with a name of the shape [p_ds]. *)
Lemma parseAnchorName_numbered (p ds : list ascii) :
  all_digits ds -> no_newline p ->
  parseAnchorName (str (p ++ underscore :: ds)) =
    if startswith (str (p ++ underscore :: ds)) "_" && nonempty p
    then Raise (ValueError "mark anchor cannot be numbered")
    else Ok (false, str p, Some (int_of_digits ds)).
Proof.
  intros Hds Hp. unfold parseAnchorName, ligature_number.
  rewrite (ligaNumRE_match_numbered p ds Hds Hp).
  rewrite (rstrip_numbered p ds (proj2 Hds)).
  replace (endswith (str (p ++ [underscore])) "_") with true
    by (symmetry; apply endswith_underscore; now exists p).
  rewrite drop_last_unit, chars_str.
  rewrite eqb_empty, chars_str.
  destruct p; reflexivity.
Qed.

(** Conversely, a match of the regular expression whose number is cut off
    at a separator comes from a name of the shape [p_ds]. *)
Lemma ligaNumRE_match_inv (s number : string) :
  ligaNumRE_match s = Some number ->
  endswith (rstrip s number) "_" = true ->
  exists p ds, chars s = p ++ underscore :: ds /\ all_digits ds
               /\ no_newline p /\ number = str ds.
Proof.
  unfold ligaNumRE_match. intros Hm He.
  destruct (rev (chars s)) as [|c t] eqn:Er; [discriminate|].
  destruct (Ascii.eqb c newline) eqn:Ec.
  - (* a final newline: nothing is stripped, the name ends in no separator *)
    exfalso. apply Ascii.eqb_eq in Ec. subst c.
    destruct (take_while is_digit t) as [|d ds'] eqn:Et; [discriminate|].
    destruct (existsb _ _); [discriminate|]. injection Hm as <-.
    unfold rstrip in He. rewrite Er in He.
    rewrite drop_while_stop in He.
    2:{ cbv beta. rewrite chars_str.
        change (rev ds' ++ [d]) with (rev (d :: ds')). rewrite existsb_rev.
        apply not_in_digits; [reflexivity|].
        rewrite <- Et. apply take_while_all. }
    rewrite <- Er, rev_involutive, str_chars in He.
    unfold endswith in He. rewrite Er in He. discriminate He.
  - set (r := c :: t) in *.
    pose proof (take_drop_while is_digit r) as Hsplit.
    pose proof (take_while_all is_digit r) as Hall.
    destruct (take_while is_digit r) as [|d ds'] eqn:Et; [discriminate|].
    destruct (existsb (Ascii.eqb newline) (drop_while is_digit r)) eqn:Enl;
      [discriminate|].
    injection Hm as <-.
    change (rev ds' ++ [d]) with (rev (d :: ds')) in He.
    set (ds := d :: ds') in *. set (rest := drop_while is_digit r) in *.
    (* the digits are stripped, and nothing else *)
    assert (Hstrip : rstrip s (str (rev ds)) = str (rev rest)).
    { unfold rstrip. rewrite Er, chars_str. fold r. rewrite Hsplit.
      rewrite drop_while_app.
      - destruct rest as [|x rest'] eqn:Erest; [reflexivity|].
        rewrite drop_while_stop; [reflexivity|].
        cbv beta. rewrite existsb_rev. apply not_in_digits; [|exact Hall].
        apply (drop_while_head is_digit r x rest'). exact Erest.
      - apply forallb_forall. intros a Ha. rewrite existsb_rev.
        apply existsb_exists. exists a. split; [exact Ha | apply Ascii.eqb_refl]. }
    rewrite Hstrip in He. apply endswith_underscore in He as [p Hp].
    exists p, (rev ds). repeat split.
    + rewrite <- (rev_involutive (chars s)), Er. fold r. rewrite Hsplit.
      rewrite rev_app_distr, Hp, <- app_assoc. reflexivity.
    + intros H. apply rev_nil_inv in H. discriminate H.
    + now rewrite forallb_rev.
    + unfold no_newline.
      assert (H : existsb (Ascii.eqb newline) (rev rest) = false)
        by now rewrite existsb_rev.
      rewrite Hp, existsb_app in H. now apply orb_false_elim in H.
Qed.

(** The parser raises on the name ["_"], and on the names [_k_ds] with
    digits [ds], and on no other. *)
Lemma parseAnchorName_raises_iff (anchorName : string) :
  raises (parseAnchorName anchorName) = true <->
  anchorName = "_" \/
  exists k ds, all_digits ds /\ no_newline k
               /\ chars anchorName = underscore :: k ++ underscore :: ds.
Proof.
  split.
  - intros Hr.
    assert (Hplain :
      raises (if startswith anchorName "_" && negb (String.eqb anchorName "")
              then
                let key := drop_first 1 anchorName in
                if String.eqb key ""
                then Raise (ValueError "mark anchor key is nil")
                else Ok (true, key, @None Z)
              else Ok (false, anchorName, None)) = true ->
      anchorName = "_").
    { destruct (startswith anchorName "_") eqn:Es; [|discriminate].
      apply prefix_chars in Es as [t Ht]. simpl in Ht.
      assert (Hn : anchorName = str ("_"%char :: t))
        by (apply chars_inj; now rewrite chars_str).
      rewrite Hn. unfold drop_first. rewrite chars_str.
      destruct t; [reflexivity | discriminate]. }
    unfold parseAnchorName, ligature_number in Hr.
    destruct (ligaNumRE_match anchorName) as [number|] eqn:Em;
      [| left; now apply Hplain].
    destruct (endswith (rstrip anchorName number) "_") eqn:Ee;
      [| left; now apply Hplain].
    destruct (ligaNumRE_match_inv _ _ Em Ee) as (p & ds & Hs & Hds & Hp & ->).
    right.
    assert (Hn : anchorName = str (p ++ underscore :: ds))
      by (apply chars_inj; now rewrite chars_str).
    assert (Hr' : raises (parseAnchorName anchorName) = true)
      by (unfold parseAnchorName, ligature_number; rewrite Em, Ee; exact Hr).
    clear Hr. rename Hr' into Hr.
    rewrite Hn, (parseAnchorName_numbered p ds Hds Hp) in Hr.
    destruct p as [|c k]; [now rewrite andb_false_r in Hr|].
    clear Hplain. revert Hr.
    destruct (startswith (str ((c :: k) ++ underscore :: ds)) "_") eqn:Es;
      [intros _ | discriminate].
    unfold startswith in Es. apply prefix_chars in Es as [t Ht].
    rewrite chars_str in Ht. simpl in Ht. injection Ht as -> _.
    exists k, ds. repeat split; try apply Hds.
    + unfold no_newline in *. simpl in Hp. exact Hp.
    + exact Hs.
  - intros [->|(k & ds & Hds & Hk & Hs)]; [reflexivity|].
    assert (Hn : anchorName = str ((underscore :: k) ++ underscore :: ds))
      by (apply chars_inj; now rewrite chars_str).
    rewrite Hn, parseAnchorName_numbered; [| exact Hds | exact Hk].
    replace (startswith _ _) with true; [reflexivity|].
    symmetry. apply prefix_chars. rewrite chars_str. eexists. reflexivity.
Qed.

(** C6, counterexample: the name [_1] is mark-prefixed and carries the
    ligature number 1, and it is parsed without an exception, as the unnamed
    anchor of component 1 (the guard [and key] of [parseAnchorName]); a
    [NamedAnchor] of that name is constructed. *)
Lemma C6_counterexample_unnamed_numbered :
  ~ numbered_mark_names_raise
  /\ parseAnchorName "_1" = Ok (false, "", Some 1)
  /\ is_ok (NamedAnchor_init "_1" 0 0 None) = true.
Proof.
  split; [|split; reflexivity].
  intros H. specialize (H "_1" eq_refl). discriminate H. discriminate.
Qed.

(** C6, as amended: the parser raises on the mark-prefixed names that have
    a key of their own before a ligature number ([_k_ds], e.g. [_top_1]),
    and on the name that is the bare prefix ([_]), and on no other name; a
    prefix followed by digits only ([_1]) is the unnamed anchor of a
    ligature component and is parsed; constructing a [NamedAnchor] raises
    when the parser does, and also when the parsed component index is
    below 1 (e.g. [top_0]). *)
Theorem C6_anchor_name_violations :
  (forall k ds : list ascii, all_digits ds -> no_newline k ->
     parseAnchorName (str (underscore :: k ++ underscore :: ds))
     = Raise (ValueError "mark anchor cannot be numbered"))
  /\ (forall anchorName : string,
        parseAnchorName anchorName = Raise (ValueError "mark anchor key is nil")
        <-> anchorName = "_")
  /\ (forall anchorName : string,
        raises (parseAnchorName anchorName) = true <->
        anchorName = "_" \/
        exists k ds, all_digits ds /\ no_newline k
                     /\ chars anchorName = underscore :: k ++ underscore :: ds)
  /\ (forall ds : list ascii, all_digits ds ->
        parseAnchorName (str (underscore :: ds))
        = Ok (false, "", Some (int_of_digits ds)))
  /\ (forall (anchorName : string) (x y : Z) (mc : option string)
             (m : bool) (k : string) (n : Z),
        parseAnchorName anchorName = Ok (m, k, Some n) -> n < 1 ->
        NamedAnchor_init anchorName x y mc
        = Raise (ValueError "ligature component indexes must start from 1"))
  /\ (forall (anchorName : string) (x y : Z) (mc : option string),
        raises (parseAnchorName anchorName) = true ->
        raises (NamedAnchor_init anchorName x y mc) = true).
Proof.
  assert (Hnum : forall k ds : list ascii, all_digits ds -> no_newline k ->
     parseAnchorName (str (underscore :: k ++ underscore :: ds))
     = Raise (ValueError "mark anchor cannot be numbered")).
  { intros k ds Hds Hk.
    change (underscore :: k ++ underscore :: ds)
      with ((underscore :: k) ++ underscore :: ds).
    rewrite parseAnchorName_numbered; [| exact Hds | exact Hk].
    replace (startswith _ _) with true; [reflexivity|].
    symmetry. apply prefix_chars. rewrite chars_str. eexists. reflexivity. }
  repeat split.
  - exact Hnum.
  - intros Hr.
    assert (Hr' : raises (parseAnchorName anchorName) = true) by now rewrite Hr.
    apply parseAnchorName_raises_iff in Hr' as [->|(k & ds & Hds & Hk & Hs)];
      [reflexivity|].
    assert (Hn : anchorName = str (underscore :: k ++ underscore :: ds))
      by (apply chars_inj; now rewrite chars_str).
    rewrite Hn, (Hnum k ds Hds Hk) in Hr. discriminate Hr.
  - intros ->. reflexivity.
  - apply parseAnchorName_raises_iff.
  - apply parseAnchorName_raises_iff.
  - intros ds Hds.
    change (underscore :: ds) with ([] ++ underscore :: ds).
    rewrite parseAnchorName_numbered; [| exact Hds | reflexivity].
    now rewrite andb_false_r.
  - intros anchorName x y mc m k n Hp Hn. unfold NamedAnchor_init.
    rewrite Hp. simpl. destruct (n <? 1) eqn:E; [reflexivity | lia].
  - intros anchorName x y mc Hr. unfold NamedAnchor_init.
    destruct (parseAnchorName anchorName); [discriminate | reflexivity | discriminate].
Qed.

(** The amended claim at [_top_1], [_], [_1] and [top_0]. *)
Lemma C6_anchor_name_violations_witness :
  parseAnchorName "_top_1" = Raise (ValueError "mark anchor cannot be numbered")
  /\ parseAnchorName "_" = Raise (ValueError "mark anchor key is nil")
  /\ parseAnchorName "_1" = Ok (false, "", Some 1)
  /\ NamedAnchor_init "top_0" 10 20 None
     = Raise (ValueError "ligature component indexes must start from 1")
  /\ raises (NamedAnchor_init "_top_1" 10 20 None) = true.
Proof.
  destruct C6_anchor_name_violations as (H1 & H2 & _ & H4 & H5 & H6).
  split; [| split; [| split; [| split]]].
  - apply (H1 (chars "top") (chars "1")).
    + split; [discriminate | reflexivity].
    + reflexivity.
  - apply (proj2 (H2 "_")). reflexivity.
  - apply (H4 (chars "1")). split; [discriminate | reflexivity].
  - apply (H5 "top_0" 10 20 None false "top" 0); [reflexivity | lia].
  - apply (H6 "_top_1" 10 20 None). reflexivity.
Defined.

End ParseAnchorName.

(* ===================================================================== *)
(** ** Mark-to-ligature attachments                                       *)
(* ===================================================================== *)

Section MarkToLiga.

Import MarkFeatureWriter.

Implicit Types (anchors : list NamedAnchor) (ca : gmap Z (list NamedAnchor)).

(** [component_anchors] returns when no assertion fails. *)
Lemma component_anchors_ok anchors : forall ca0,
  Forall liga_ready anchors ->
  exists ca, component_anchors anchors ca0 = Ok ca.
Proof.
  induction anchors as [|a anchors IH]; intros ca0 Hall; simpl.
  - now exists ca0.
  - apply Forall_cons in Hall as [[Hm Hc] Hall]. rewrite Hm.
    destruct (number a) as [n|] eqn:En; [|now apply IH].
    destruct (String.eqb_spec (key a) "") as [Hk|Hk]; [now apply IH|].
    destruct (markClass a) eqn:Ec; [now apply IH|].
    now destruct (Hc n eq_refl Hk).
Qed.

(** The keys of [componentAnchors] are the numbers of the anchors. *)
Lemma component_anchors_dom anchors : forall ca0 ca (i : Z),
  component_anchors anchors ca0 = Ok ca ->
  is_Some (ca !! i) <->
  is_Some (ca0 !! i) \/ exists a, a ∈ anchors /\ number a = Some i.
Proof.
  induction anchors as [|a anchors IH]; intros ca0 ca i H; simpl in H.
  - injection H as <-. split; [auto|].
    intros [?|(a & []%elem_of_nil & _)]; assumption.
  - assert (Hskip : (exists a', a' ∈ anchors /\ number a' = Some i)
                    -> exists a', a' ∈ a :: anchors /\ number a' = Some i).
    { intros (a' & Ha' & Hn). exists a'. split; [now right | exact Hn]. }
    destruct (isMark a); [discriminate|].
    destruct (number a) as [n|] eqn:En.
    + assert (Hins : forall l, component_anchors anchors (<[n := l]> ca0) = Ok ca ->
                is_Some (ca !! i) <->
                is_Some (ca0 !! i) \/ exists a', a' ∈ a :: anchors /\ number a' = Some i).
      { intros l Hl. rewrite (IH _ _ i Hl). split.
        - intros [Hs|Hs]; [|auto].
          destruct (decide (n = i)) as [->|Hne].
          + right. exists a. split; [left | exact En].
          + rewrite lookup_insert_ne in Hs by exact Hne. auto.
        - intros [Hs|(a' & [->|Ha']%elem_of_cons & Hn)].
          + left. destruct (decide (n = i)) as [->|Hne].
            * rewrite lookup_insert_eq. eauto.
            * now rewrite lookup_insert_ne.
          + left. rewrite En in Hn. injection Hn as ->.
            rewrite lookup_insert_eq. eauto.
          + right. eauto. }
      destruct (String.eqb (key a) ""); [now apply Hins in H|].
      destruct (markClass a); [now apply Hins in H | discriminate].
    + rewrite (IH _ _ i H). split.
      * intros [?|?]; auto.
      * intros [?|(a' & [->|Ha']%elem_of_cons & Hn)]; [auto | congruence | eauto].
Qed.

(** When the anchors numbered [i] are all named, their slot holds them, in
    order. *)
Lemma component_anchors_slot anchors (i : Z) : forall ca0 ca,
  component_anchors anchors ca0 = Ok ca ->
  (forall a, a ∈ anchors -> ~ unnamed_of i a) ->
  default [] (ca !! i)
  = default [] (ca0 !! i) ++ List.filter (numbered i) anchors.
Proof.
  induction anchors as [|a anchors IH]; intros ca0 ca H Hnamed; simpl in H.
  - injection H as <-. simpl. now rewrite app_nil_r.
  - assert (Hnamed' : forall a', a' ∈ anchors -> ~ unnamed_of i a')
      by (intros a' Ha'; apply Hnamed; now right).
    destruct (isMark a); [discriminate|]. simpl. unfold numbered at 1.
    destruct (number a) as [n|] eqn:En.
    + destruct (String.eqb_spec (key a) "") as [Hk|Hk].
      * (* an unnamed anchor, of another component *)
        assert (Hne : n <> i).
        { intros ->. apply (Hnamed a); [left | now split]. }
        rewrite (IH _ _ H Hnamed'), lookup_insert_ne by exact Hne.
        rewrite bool_decide_eq_false_2 by congruence. reflexivity.
      * destruct (markClass a); [|discriminate].
        rewrite (IH _ _ H Hnamed').
        destruct (decide (n = i)) as [->|Hne].
        -- rewrite lookup_insert_eq, bool_decide_eq_true_2 by reflexivity.
           simpl. now rewrite <- app_assoc.
        -- rewrite lookup_insert_ne by exact Hne.
           rewrite bool_decide_eq_false_2 by congruence. reflexivity.
    + rewrite bool_decide_eq_false_2 by congruence. now apply IH.
Qed.

Lemma fold_right_max_spec (k : Z) (ks : list Z) :
  fold_right Z.max k ks ∈ k :: ks
  /\ forall i, i ∈ k :: ks -> i <= fold_right Z.max k ks.
Proof.
  induction ks as [|k' ks [Hin Hle]]; simpl.
  - split; [left|]. intros i ->%list_elem_of_singleton. lia.
  - split.
    + destruct (Z.max_spec k' (fold_right Z.max k ks)) as [[_ ->]|[_ ->]].
      * apply elem_of_cons in Hin as [->|Hin]; [left | right; now right].
      * right. left.
    + intros i [->|[->|Hi]%elem_of_cons]%elem_of_cons.
      * specialize (Hle k ltac:(left)). lia.
      * lia.
      * specialize (Hle i ltac:(now right)). lia.
Qed.

(** [max(componentAnchors.keys())] is a key, and the greatest. *)
Lemma max_key_spec ca :
  ca <> ∅ ->
  is_Some (ca !! max_key ca)
  /\ forall i, is_Some (ca !! i) -> i <= max_key ca.
Proof.
  intros Hne. unfold max_key.
  assert (Hkeys : forall i, i ∈ map fst (map_to_list ca) <-> is_Some (ca !! i)).
  { intros i. rewrite list_elem_of_fmap. split.
    - intros ([i' l] & -> & Hin). apply elem_of_map_to_list in Hin. eauto.
    - intros [l Hl]. exists (i, l). split; [reflexivity|].
      now apply elem_of_map_to_list. }
  destruct (map fst (map_to_list ca)) as [|k ks] eqn:E.
  - exfalso. apply Hne. apply map_to_list_empty_iff.
    destruct (map_to_list ca); [reflexivity | discriminate].
  - destruct (fold_right_max_spec k ks) as [Hin Hle]. split.
    + now apply Hkeys.
    + intros i Hi. apply Hle. now apply Hkeys.
Qed.

Lemma range_1_to_length (n : Z) : length (range_1_to n) = Z.to_nat n.
Proof. unfold range_1_to. now rewrite length_map, length_seq. Qed.

Lemma range_1_to_lookup (n i : Z) :
  1 <= i <= n -> range_1_to n !! (Z.to_nat i - 1)%nat = Some i.
Proof.
  intros Hi. unfold range_1_to.
  change (map (fun i0 : nat => Z.of_nat i0) (seq 1 (Z.to_nat n)))
    with ((fun i0 : nat => Z.of_nat i0) <$> seq 1 (Z.to_nat n)).
  rewrite list_lookup_fmap, lookup_seq_lt by lia. simpl. f_equal. lia.
Qed.

(** The slots of a ligature: as many as the greatest key, slot [i] being
    the list under the key [i], or empty. *)
Lemma ligature_marks_spec ca :
  length (ligature_marks ca) = Z.to_nat (max_key ca)
  /\ forall i, 1 <= i <= max_key ca ->
       ligature_marks ca !! (Z.to_nat i - 1)%nat = Some (default [] (ca !! i)).
Proof.
  unfold ligature_marks. split.
  - now rewrite length_map, range_1_to_length.
  - intros i Hi.
    change (map ?f ?l) with (f <$> l).
    now rewrite list_lookup_fmap, range_1_to_lookup.
Qed.

(** The rules made are those of the glyphs that are no mark glyphs and
    have a numbered anchor, in the order of [anchorLists]. *)
Lemma makeMarkToLigaAttachments_spec (markGlyphNames : list string)
    (anchorLists : list (string * list NamedAnchor)) :
  Forall (fun ga => fst ga ∉ markGlyphNames -> Forall liga_ready (snd ga))
         anchorLists ->
  exists out,
    makeMarkToLigaAttachments markGlyphNames anchorLists = Ok out
    /\ forall p, p ∈ out <->
         (exists g anchors ca,
            (g, anchors) ∈ anchorLists /\ (g ∉ markGlyphNames)
            /\ component_anchors anchors ∅ = Ok ca /\ ca <> ∅
            /\ p = MarkToLigaPos g (ligature_marks ca)).
Proof.
  induction anchorLists as [|[g anchors] rest IH]; intros Hall; simpl.
  - exists []. split; [reflexivity|]. intros p. split; [intros []%elem_of_nil|].
    intros (? & ? & ? & []%elem_of_nil & _).
  - apply Forall_cons in Hall as [Hg Hall]. simpl in Hg.
    destruct (IH Hall) as (out & Hout & Hspec). rewrite Hout.
    case_bool_decide as Hm.
    + exists out. split; [reflexivity|]. intros p. rewrite Hspec. split.
      * intros (g' & a' & ca & Hin & ?). exists g', a', ca.
        split; [now right | assumption].
      * intros (g' & a' & ca & [[= -> ->]|Hin]%elem_of_cons & Hnm & ?).
        -- contradiction.
        -- exists g', a', ca. auto.
    + destruct (component_anchors_ok anchors ∅ (Hg Hm)) as [ca Hca].
      rewrite Hca. simpl. case_bool_decide as He.
      * exists out. split; [reflexivity|]. intros p. rewrite Hspec. split.
        -- intros (g' & a' & ca' & Hin & ?). exists g', a', ca'.
           split; [now right | assumption].
        -- intros (g' & a' & ca' & [[= -> ->]|Hin]%elem_of_cons & Hnm & Hca' & Hne & ->).
           ++ congruence.
           ++ exists g', a', ca'. auto.
      * eexists. split; [reflexivity|]. intros p. rewrite elem_of_cons, Hspec.
        split.
        -- intros [->|(g' & a' & ca' & Hin & ?)].
           ++ exists g, anchors, ca. repeat split; try assumption. left.
           ++ exists g', a', ca'. split; [now right | assumption].
        -- intros (g' & a' & ca' & [[= -> ->]|Hin]%elem_of_cons & Hnm & Hca' & Hne & ->).
           ++ left. congruence.
           ++ right. exists g', a', ca'. auto.
Qed.

(** C7: for a glyph that is no mark glyph and has numbered anchors, the
    rule [_makeMarkToLigaAttachments] builds has as many component slots as
    the greatest anchor number [m], slot [i] standing for component [i],
    from 1 to [m]; a component no anchor is numbered for has the empty
    slot, and a component all of whose anchors are named has those anchors,
    in order.  With [top] anchors on components 1 and 3 only, the slots are
    three and the second is empty. *)
Theorem C7_ligature_slots :
  (forall (markGlyphNames : list string)
          (anchorLists : list (string * list NamedAnchor))
          (glyphName : string) (anchors : list NamedAnchor),
     Forall (fun ga => fst ga ∉ markGlyphNames -> Forall liga_ready (snd ga))
            anchorLists ->
     (glyphName, anchors) ∈ anchorLists ->
     glyphName ∉ markGlyphNames ->
     (exists a n, a ∈ anchors /\ number a = Some n) ->
     exists out ca m,
       makeMarkToLigaAttachments markGlyphNames anchorLists = Ok out
       /\ component_anchors anchors ∅ = Ok ca
       /\ MarkToLigaPos glyphName (ligature_marks ca) ∈ out
       /\ (exists a, a ∈ anchors /\ number a = Some m)
       /\ (forall a n, a ∈ anchors -> number a = Some n -> n <= m)
       /\ length (ligature_marks ca) = Z.to_nat m
       /\ forall i, 1 <= i <= m ->
            exists slot,
              ligature_marks ca !! (Z.to_nat i - 1)%nat = Some slot
              /\ ((forall a, a ∈ anchors -> number a <> Some i) -> slot = [])
              /\ ((forall a, a ∈ anchors -> ~ unnamed_of i a) ->
                  slot = List.filter (numbered i) anchors))
  /\ (forall (glyphName : string) (x1 y1 x3 y3 : Z) (c : string)
             (top_1 top_3 : NamedAnchor),
        NamedAnchor_init "top_1" x1 y1 (Some c) = Ok top_1 ->
        NamedAnchor_init "top_3" x3 y3 (Some c) = Ok top_3 ->
        makeMarkToLigaAttachments [] [(glyphName, [top_1; top_3])]
        = Ok [MarkToLigaPos glyphName [[top_1]; []; [top_3]]]).
Proof.
  split.
  - intros mgn anchorLists g anchors Hall Hin Hnm (a0 & n0 & Ha0 & Hn0).
    destruct (makeMarkToLigaAttachments_spec mgn anchorLists Hall)
      as (out & Hout & Hspec).
    assert (Hready : Forall liga_ready anchors).
    { rewrite Forall_forall in Hall. apply (Hall (g, anchors) Hin Hnm). }
    destruct (component_anchors_ok anchors ∅ Hready) as [ca Hca].
    pose proof (fun i => component_anchors_dom anchors ∅ ca i Hca) as Hdom.
    assert (Hdom' : forall i, is_Some (ca !! i)
                      <-> exists a, a ∈ anchors /\ number a = Some i).
    { intros i. rewrite Hdom, lookup_empty. split; [|auto].
      intros [[? [=]]|?]; assumption. }
    assert (Hne : ca <> ∅).
    { intros ->. assert (Hs : is_Some ((∅ : gmap Z (list NamedAnchor)) !! n0))
        by (apply Hdom'; eauto).
      rewrite lookup_empty in Hs. now destruct Hs. }
    destruct (max_key_spec ca Hne) as [Hmax Hle].
    destruct (ligature_marks_spec ca) as [Hlen Hslots].
    exists out, ca, (max_key ca).
    split; [exact Hout|]. split; [exact Hca|]. split.
    { apply Hspec. exists g, anchors, ca. auto. }
    split; [now apply Hdom'|]. split.
    { intros a n Ha Hn. apply Hle, Hdom'. eauto. }
    split; [exact Hlen|].
    intros i Hi. exists (default [] (ca !! i)).
    split; [now apply Hslots|]. split.
    + intros Hnone. destruct (ca !! i) as [l|] eqn:El; [|reflexivity].
      assert (Hs : is_Some (ca !! i)) by eauto.
      apply Hdom' in Hs as (a & Ha & Hn). now destruct (Hnone a Ha).
    + intros Hnamed.
      rewrite (component_anchors_slot anchors i ∅ ca Hca Hnamed).
      now rewrite lookup_empty.
  - intros g x1 y1 x3 y3 c top_1 top_3 H1 H3.
    vm_compute in H1, H3. injection H1 as <-. injection H3 as <-.
    vm_compute. reflexivity.
Qed.

(** C7 at a ligature of three components with [top] anchors on the first
    and the third. *)
Lemma C7_ligature_slots_witness :
  makeMarkToLigaAttachments [] [("f_f_i",
     [mkNamedAnchor "top_1" 100 500 false "top" (Some 1) (Some "MC_top");
      mkNamedAnchor "top_3" 700 500 false "top" (Some 3) (Some "MC_top")])]
  = Ok [MarkToLigaPos "f_f_i"
     [[mkNamedAnchor "top_1" 100 500 false "top" (Some 1) (Some "MC_top")];
      [];
      [mkNamedAnchor "top_3" 700 500 false "top" (Some 3) (Some "MC_top")]]].
Proof.
  apply (proj2 C7_ligature_slots "f_f_i" 100 500 700 500 "MC_top");
    reflexivity.
Defined.

End MarkToLiga.

(* ===================================================================== *)
(** ** The order of what the mark feature writer emits                    *)
(* ===================================================================== *)

Section WriterOrder.

Import MarkFeatureWriter.

Lemma Forall_assoc_set {V} (P : string * V -> Prop) (d : list (string * V))
    (k : string) (v : V) :
  Forall P d -> P (k, v) -> Forall P (assoc_set k v d).
Proof.
  intros Hd Hkv. induction Hd as [|[k' v'] d Hk' Hd IH]; simpl.
  - repeat constructor. exact Hkv.
  - destruct (String.eqb_spec k' k) as [->|Hne]; constructor; auto.
Qed.

Lemma add_feature_wf features t f :
  features_wf features ->
  (forall fb, f = Some fb -> tag fb = t) ->
  features_wf (add_feature features t f).
Proof.
  intros [Hnd Htags] Hf. unfold add_feature. destruct f as [fb|]; [|now split].
  split; [now apply NoDup_assoc_set|].
  apply Forall_assoc_set; [exact Htags|]. simpl. now apply Hf.
Qed.

Lemma makeMarkFeature_tag atts include fb :
  makeMarkFeature atts include = Some fb -> tag fb = "mark".
Proof.
  unfold makeMarkFeature. intros H.
  destruct (makeMarkLookup "mark2base" _ _ _), (makeMarkLookup "mark2liga" _ _ _);
    try discriminate H; injection H as <-; reflexivity.
Qed.

Lemma makeMkmkFeature_tag astm ctx atts include fb :
  makeMkmkFeature astm ctx atts include = Ok (Some fb) -> tag fb = "mkmk".
Proof.
  unfold makeMkmkFeature. intros H. bind_ok H as lkps E.
  destruct (nonempty lkps); [|discriminate H]. injection H as <-. reflexivity.
Qed.

Lemma makeAbvmOrBlwmFeature_tag astm ctx atts threshold t include fb :
  makeAbvmOrBlwmFeature astm ctx atts threshold t include = Ok (Some fb) ->
  tag fb = t.
Proof.
  unfold makeAbvmOrBlwmFeature. intros H.
  bind_ok H as marksFilter E. bind_ok H as mkmkLookups E'.
  destruct (makeMarkLookup (t +:+ "_mark2base") _ _ _),
           (makeMarkLookup (t +:+ "_mark2liga") _ _ _), mkmkLookups;
    try discriminate H; injection H as <-; reflexivity.
Qed.

(** One tag of [_makeFeatures]: the feature is made when the tag is to do,
    and stored when it was made. *)
Lemma feature_step_wf (b : bool) features t
    (make : result (option FeatureBlock)) features' :
  features_wf features ->
  (forall fb, make = Ok (Some fb) -> tag fb = t) ->
  (if b then f ← make; Ok (add_feature features t f) else Ok features)
  = Ok features' ->
  features_wf features'.
Proof.
  intros Hwf Htag H. destruct b; [|now injection H as <-].
  bind_ok H as f E. injection H as <-.
  apply add_feature_wf; [exact Hwf|]. intros fb ->. now apply Htag.
Qed.

(** The features [_makeFeatures] returns. *)
Lemma makeFeatures_wf astm ctx indicGlyphs unitsPerEm features ctx' :
  makeFeatures astm ctx indicGlyphs unitsPerEm = Ok (features, ctx') ->
  features_wf features /\ feaFile ctx' = feaFile ctx.
Proof.
  unfold makeFeatures. intros H.
  bind_ok H as b Eb. bind_ok H as l El. bind_ok H as ml Em.
  destruct ml as [m log'].
  assert (H0 : features_wf []) by (split; constructor).
  set (atts := mkAttachments b l m) in *.
  set (ctx1 := mkContext _ _ _ _ _ _ log') in *.
  match type of H with
  | context [add_feature [] "mark" ?x] =>
      set (f1 := if bool_decide ("mark" ∈ todo ctx1)
                 then add_feature [] "mark" x else []) in *
  end.
  assert (H1 : features_wf f1).
  { unfold f1. destruct (bool_decide ("mark" ∈ todo ctx1)); [|exact H0].
    apply add_feature_wf; [exact H0|]. apply makeMarkFeature_tag. }
  bind_ok H as f2 E2.
  assert (H2 : features_wf f2).
  { eapply feature_step_wf; [exact H1 | | exact E2].
    apply makeMkmkFeature_tag. }
  bind_ok H as f4 E4. injection H as <- <-. split; [|reflexivity].
  destruct (_ && nonempty indicGlyphs); [|now injection E4 as <-].
  bind_ok E4 as f3 E3.
  assert (H3 : features_wf f3).
  { eapply feature_step_wf; [exact H2 | | exact E3].
    apply makeAbvmOrBlwmFeature_tag. }
  eapply feature_step_wf; [exact H3 | | exact E4].
  apply makeAbvmOrBlwmFeature_tag.
Qed.

(** *** Mark-to-mark lookups *)

Lemma makeMarkToMarkLookup_name astm ctx anchorName attachments include
    marksFilter featureTag lkp :
  makeMarkToMarkLookup astm ctx anchorName attachments include marksFilter
    featureTag = Ok (Some lkp) ->
  lookup_name lkp = lookup_prefix featureTag +:+ "mark2mark_" +:+ anchorName.
Proof.
  unfold makeMarkToMarkLookup. intros H.
  destruct (negb (nonempty _)); [discriminate H|].
  destruct (assoc anchorName (ctx_markClasses ctx)); [|discriminate H].
  destruct (markClasses (feaFile ctx) !! _); [|discriminate H].
  destruct (makeMarkFilteringSetClass _ _ _ _ _ _). injection H as <-.
  reflexivity.
Qed.

(** The lookups made are named after keys of the items, in their order. *)
Lemma mark_to_mark_lookups_names astm ctx include marksFilter featureTag :
  forall items lkps,
    mark_to_mark_lookups astm ctx items include marksFilter featureTag
    = Ok lkps ->
    exists keys,
      keys `sublist_of` map fst items
      /\ map lookup_name lkps
         = map (fun k => lookup_prefix featureTag +:+ "mark2mark_" +:+ k) keys.
Proof.
  induction items as [|[anchorName attachments] items IH]; intros lkps H;
    simpl in H.
  - injection H as <-. exists []. split; [constructor | reflexivity].
  - bind_ok H as lkp E. bind_ok H as rest E'. injection H as <-.
    destruct (IH rest eq_refl) as (keys & Hsub & Hnames).
    destruct lkp as [lkp|]; simpl.
    + exists (anchorName :: keys). split; [now constructor|]. simpl.
      rewrite Hnames. f_equal.
      eapply makeMarkToMarkLookup_name. exact E.
    + exists keys. split; [now constructor | exact Hnames].
Qed.

Lemma sorted_lookups_names astm ctx include marksFilter featureTag
    (d : list (string * list MarkPos)) lkps :
  mark_to_mark_lookups astm ctx (sorted name_le d) include marksFilter
    featureTag = Ok lkps ->
  exists keys,
    StronglySorted (le_prop String.leb) keys
    /\ (forall k, k ∈ keys -> k ∈ map fst d)
    /\ map lookup_name lkps
       = map (fun k => lookup_prefix featureTag +:+ "mark2mark_" +:+ k) keys.
Proof.
  intros H. apply mark_to_mark_lookups_names in H as (keys & Hsub & Hnames).
  exists keys. split; [|split; [|exact Hnames]].
  - eapply StronglySorted_sublist; [exact Hsub|]. apply sorted_by_name_keys.
  - intros k Hk. eapply elem_of_sublist in Hk; [|exact Hsub].
    apply list_elem_of_In. apply list_elem_of_In in Hk.
    eapply Permutation_in; [|exact Hk].
    apply Permutation_map. apply sorted_perm.
Qed.

(** *** Mark class definitions *)

(** The glyphs of a group are in the order of [anchorLists].  The loop over
    the anchors of the glyph [g] adds [g] to a group at most once. *)
Lemma group_anchors_order markAnchorNames g : forall anchors groups names
    groups' names',
  group_anchors markAnchorNames g anchors groups names = Ok (groups', names') ->
  groups_nodup groups ->
  groups_nodup groups'
  /\ forall k grp', assoc k groups' = Some grp' ->
       exists extra, map fst grp'
                     = map fst (default [] (assoc k groups)) ++ extra
                     /\ extra `sublist_of` [g].
Proof.
  induction anchors as [|a anchors IH];
    intros groups names groups' names' H Hnd; simpl in H.
  - injection H as <- _. split; [exact Hnd|].
    intros k grp' Hk. exists []. rewrite Hk. simpl.
    split; [now rewrite app_nil_r | apply sublist_nil_l].
  - destruct (bool_decide (name a ∈ markAnchorNames)); [|now apply IH in H].
    set (group := default [] (assoc (name a) groups)) in *.
    destruct (has_key g group) eqn:Ekey; [discriminate H|].
    assert (Hg : g ∉ map fst group).
    { apply assoc_None. unfold has_key in Ekey.
      now destruct (assoc g group). }
    assert (Hgroup : NoDup (map fst group)).
    { unfold group. destruct (assoc (name a) groups) eqn:E; simpl;
        [now apply (Hnd _ _ E) | constructor]. }
    set (groups1 := assoc_set (name a) (group ++ [(g, a)]) groups) in *.
    assert (Hnd1 : groups_nodup groups1).
    { intros k grp Hk. unfold groups1 in Hk.
      destruct (decide (name a = k)) as [<-|Hne].
      - rewrite assoc_set_eq in Hk. injection Hk as <-.
        rewrite map_app. simpl. apply NoDup_app. split; [exact Hgroup|].
        split; [|apply NoDup_singleton].
        intros x Hx ->%list_elem_of_singleton. contradiction.
      - rewrite assoc_set_ne in Hk by exact Hne. now apply (Hnd _ _ Hk). }
    destruct (IH _ _ _ _ H Hnd1) as [Hnd' Hext]. split; [exact Hnd'|].
    intros k grp' Hk. destruct (Hext k grp' Hk) as (extra & Heq & Hsub).
    unfold groups1 in Heq. destruct (decide (name a = k)) as [<-|Hne].
    + rewrite assoc_set_eq in Heq. simpl in Heq.
      rewrite map_app in Heq. simpl in Heq. fold group.
      (* [g] is in the group already: nothing more can have been added *)
      assert (Hextra : extra = []).
      { destruct extra as [|e extra]; [reflexivity|]. exfalso.
        assert (He : e = g).
        { assert (Hin : e ∈ [g]) by (eapply elem_of_sublist; [left | exact Hsub]).
          now apply list_elem_of_singleton in Hin. }
        subst e. specialize (Hnd' _ _ Hk). rewrite Heq in Hnd'.
        rewrite <- app_assoc in Hnd'. apply NoDup_app in Hnd' as (_ & _ & Hnd').
        simpl in Hnd'. apply NoDup_cons in Hnd' as [Hnot _].
        apply Hnot. left. }
      subst extra. rewrite app_nil_r in Heq. exists [g].
      split; [exact Heq | reflexivity].
    + rewrite assoc_set_ne in Heq by exact Hne. exists extra. auto.
Qed.

Lemma groupMarkGlyphsByAnchor_order markAnchorNames : forall lists
    (seen : list string) groups names groups' names',
  groupMarkGlyphsByAnchor markAnchorNames lists groups names
  = Ok (groups', names') ->
  groups_nodup groups ->
  (forall k grp, assoc k groups = Some grp -> map fst grp `sublist_of` seen) ->
  forall k grp', assoc k groups' = Some grp' ->
    map fst grp' `sublist_of` seen ++ map fst lists.
Proof.
  induction lists as [|[g anchors] rest IH];
    intros seen groups names groups' names' H Hnd Hseen k grp' Hk; simpl in H.
  - injection H as <- _. rewrite app_nil_r. now apply (Hseen k).
  - bind_ok H as r E. destruct r as [groups1 names1].
    destruct (group_anchors_order _ _ _ _ _ _ _ E Hnd) as [Hnd1 Hext].
    simpl. replace (seen ++ g :: map fst rest)
      with ((seen ++ [g]) ++ map fst rest) by now rewrite <- app_assoc.
    apply (IH (seen ++ [g]) groups1 names1 groups' names' H Hnd1) with (k := k);
      [|exact Hk].
    intros k1 grp1 Hk1. destruct (Hext k1 grp1 Hk1) as (extra & -> & Hsub).
    apply sublist_app; [|exact Hsub].
    destruct (assoc k1 groups) as [grp0|] eqn:E0; simpl;
      [now apply (Hseen k1) | apply sublist_nil_l].
Qed.

Lemma group_anchors_keys markAnchorNames g : forall anchors groups names
    groups' names',
  group_anchors markAnchorNames g anchors groups names = Ok (groups', names') ->
  NoDup (map fst groups) -> NoDup (map fst groups').
Proof.
  induction anchors as [|a anchors IH];
    intros groups names groups' names' H Hnd; simpl in H.
  - now injection H as <- _.
  - destruct (bool_decide (name a ∈ markAnchorNames)); [|now apply IH in H].
    destruct (has_key g _); [discriminate H|].
    apply IH in H; [exact H|]. now apply NoDup_assoc_set.
Qed.

Lemma groupMarkGlyphsByAnchor_keys markAnchorNames : forall lists groups names
    groups' names',
  groupMarkGlyphsByAnchor markAnchorNames lists groups names
  = Ok (groups', names') ->
  NoDup (map fst groups) -> NoDup (map fst groups').
Proof.
  induction lists as [|[g anchors] rest IH];
    intros groups names groups' names' H Hnd; simpl in H.
  - now injection H as <- _.
  - bind_ok H as r E. destruct r as [groups1 names1].
    apply IH in H; [exact H|]. eapply group_anchors_keys; eassumption.
Qed.

(** C8, counterexample: with the glyph order a, zetacomb, acutecomb the
    class of [_top] gets its definitions in that order, zetacomb before
    acutecomb. *)
Lemma C8_counterexample_glyph_order :
  ~ mark_class_members_sorted
  /\ exists ctx',
       makeMarkClassDefinitions ast_model WriterExample.ctx
       = Ok (WriterExample.newDefs, ctx')
       /\ map mcd_glyph WriterExample.newDefs = ["zetacomb"; "acutecomb"].
Proof.
  assert (E : exists ctx',
             makeMarkClassDefinitions ast_model WriterExample.ctx
             = Ok (WriterExample.newDefs, ctx'))
    by (eexists; vm_compute; reflexivity).
  destruct E as [ctx' E]. split.
  - intros H. specialize (H _ _ _ _ E). simpl in H.
    apply Sorted_inv in H as [_ H]. apply HdRel_inv in H.
    discriminate H.
  - exists ctx'. split; [exact E | reflexivity].
Qed.

End WriterOrder.

(* ===================================================================== *)
(** ** Mark classes                                                       *)
(* ===================================================================== *)

Section MarkClasses.

Import MarkFeatureWriter.

(** [_anchorsAreEqual] is equality of anchors. *)
Lemma anchorsAreEqual_eq (a1 a2 : astAnchor) :
  anchorsAreEqual a1 a2 = true <-> a1 = a2.
Proof.
  unfold anchorsAreEqual. rewrite !andb_true_iff, !Z.eqb_eq, !bool_decide_eq_true.
  destruct a1, a2; simpl. split.
  - intros [[[[-> ->] ->] ->] ->]. reflexivity.
  - intros [= -> -> -> -> ->]. auto.
Qed.

End MarkClasses.

(* ===================================================================== *)
(** ** The category of a glyph                                            *)
(* ===================================================================== *)

Section GlyphCategory.

Import PropagateAnchors.

Lemma component_categories_unclassified rec gs comps :
  Forall (unclassified rec gs) comps ->
  component_categories rec gs comps = Ok [].
Proof.
  induction 1 as [|c comps Hc _ IH]; simpl; [reflexivity|].
  destruct Hc as [Hc | (g & Hg & Hr)].
  - now rewrite Hc.
  - rewrite Hg, Hr. simpl. now rewrite IH.
Qed.

(** C10: a composite glyph with no explicit category, no Unicode value and
    no mark anchor, all of whose components have a missing or uncategorised
    base glyph, is given the category [mark]: [component_categories] is
    empty and [all] of nothing is true. *)
Theorem C10_category_of_unclassified_components :
  forall (fuel : nat) (ctx : Context) (gs : gmap string Glyph)
         (gname : string) (glyph : Glyph),
    openTypeCategories ctx !! gname = None ->
    unicode glyph = None ->
    has_mark_anchor ctx glyph = false ->
    components glyph <> [] ->
    Forall (unclassified (get_glyph_category fuel ctx gs) gs) (components glyph) ->
    get_glyph_category (S fuel) ctx gs gname glyph = Ok (Some "mark").
Proof.
  intros fuel ctx gs gname glyph Hcat Huni Hmark Hcomps Hall.
  simpl. rewrite Hcat, Huni. simpl.
  unfold category_of_anchors_and_components. rewrite Hmark.
  destruct (components glyph) as [|c comps] eqn:Ec; [congruence|].
  cbn [nonempty]. rewrite (component_categories_unclassified _ _ _ Hall).
  reflexivity.
Qed.

End GlyphCategory.

(** C10 at the composite of an empty glyph and a missing one. *)
Lemma C10_category_of_unclassified_components_witness :
  PropagateAnchors.get_glyph_category 2 CategoryExample.ctx CategoryExample.font
    "composite" CategoryExample.composite = Ok (Some "mark").
Proof.
  apply (C10_category_of_unclassified_components 1 CategoryExample.ctx
           CategoryExample.font "composite" CategoryExample.composite).
  - reflexivity.
  - reflexivity.
  - reflexivity.
  - discriminate.
  - constructor; [|constructor; [|constructor]].
    + right. exists (PropagateAnchors.mkGlyph None [] []).
      split; vm_compute; reflexivity.
    + left. vm_compute. reflexivity.
Defined.

(* ===================================================================== *)
(** ** The propagation: what a run does to the state                      *)
(* ===================================================================== *)

(** Membership in a processed set that has grown by a name. *)
Ltac in_processed :=
  simpl in *;
  repeat match goal with
         | |- _ ⊆ _ => let x := fresh "x" in intros x ?
         | H : _ ⊆ _ |- _ ∈ _ => apply H
         end;
  rewrite ?elem_of_union, ?elem_of_singleton; auto.

Section PropagationFrame.

Import PropagateAnchors.

Lemma with_no_new_anchors (g : Glyph) : with_new_anchors [] g = g.
Proof.
  destruct g. unfold with_new_anchors, set_anchors. simpl.
  now rewrite app_nil_r.
Qed.

Lemma with_new_anchors_twice (l1 l2 : list Anchor) (g : Glyph) :
  with_new_anchors l2 (with_new_anchors l1 g) = with_new_anchors (l1 ++ l2) g.
Proof.
  unfold with_new_anchors, set_anchors. simpl. now rewrite app_assoc.
Qed.

Lemma extends_refl (st : State) : extends st st.
Proof.
  split; [reflexivity|]. split; [|reflexivity].
  intros h. exists []. destruct (glyphSet st !! h) as [g|]; simpl; [|reflexivity].
  now rewrite with_no_new_anchors.
Qed.

Lemma extends_trans (st1 st2 st3 : State) :
  extends st1 st2 -> extends st2 st3 -> extends st1 st3.
Proof.
  intros (Hp1 & Ha1 & Hk1) (Hp2 & Ha2 & Hk2).
  split; [etransitivity; eassumption|]. split.
  - intros h. destruct (Ha1 h) as [l1 H1]. destruct (Ha2 h) as [l2 H2].
    exists (l1 ++ l2). rewrite H2, H1.
    destruct (glyphSet st1 !! h); simpl; [|reflexivity].
    now rewrite with_new_anchors_twice.
  - intros h Hh. rewrite Hk2, Hk1; [reflexivity | exact Hh |].
    now apply Hp1.
Qed.

(** Marking a glyph as processed. *)
Lemma extends_processed (st : State) (g : string) :
  extends st (mkState (glyphSet st) ({[g]} ∪ processed st)).
Proof.
  split; [in_processed|]. split; [|reflexivity].
  intros h. exists []. simpl.
  destruct (glyphSet st !! h); simpl; [|reflexivity].
  now rewrite with_no_new_anchors.
Qed.

(** Appending anchors to a glyph that is not processed. *)
Lemma extends_append (st : State) (g : string) (new : list Anchor) :
  g ∉ processed st -> extends st (append_anchors st g new).
Proof.
  intros Hg. split; [reflexivity|]. split.
  - intros h. simpl. destruct (decide (g = h)) as [<-|Hne].
    + exists new. now rewrite lookup_alter_eq.
    + exists []. rewrite lookup_alter_ne by exact Hne.
      destruct (glyphSet st !! h); simpl; [|reflexivity].
      now rewrite with_no_new_anchors.
  - intros h Hh. simpl. apply lookup_alter_ne. congruence.
Qed.

(** The states of [_collect_components_anchors], when those of the
    recursive calls extend. *)
Lemma collect_extends
    (rec : State -> string -> result (State * list Anchor)) (ctx : Context) :
  (forall st g st' r, rec st g = Ok (st', r) -> extends st st') ->
  forall comps i st acc st' out,
    collect_components_anchors rec ctx i comps st acc = Ok (st', out) ->
    extends st st'.
Proof.
  intros Hrec. induction comps as [|c comps IH];
    intros i st acc st' out H; simpl in H.
  - injection H as <- _. apply extends_refl.
  - destruct (glyphSet st !! baseGlyph c); [|now apply IH in H].
    destruct (rec st (baseGlyph c)) as [[st1 l]| |] eqn:E; try discriminate H.
    simpl in H. apply IH in H. eapply extends_trans; [|exact H].
    eapply Hrec. exact E.
Qed.

(** [_propagate_glyph_anchors], one call deep. *)
Lemma propagate_unfold (fuel : nat) (ctx : Context) (st : State) (g : string) :
  propagate_glyph_anchors (S fuel) ctx st g =
  match glyphSet st !! g with
  | None => Raise (KeyError g)
  | Some glyph =>
      if bool_decide (g ∈ processed st) then Ok (st, anchors glyph)
      else
        let st := mkState (glyphSet st) ({[g]} ∪ processed st) in
        if negb (nonempty (components glyph)) then Ok (st, anchors glyph)
        else
          '(st, propagated_anchors) ←
            collect_components_anchors (propagate_glyph_anchors fuel ctx)
              ctx 0 (components glyph) st [];
          match glyphSet st !! g with
          | None => Raise (KeyError g)
          | Some glyph =>
              glyph_category ←
                get_glyph_category (S fuel) ctx (glyphSet st) g glyph;
              l ← prune_undefined_or_present glyph propagated_anchors;
              l ← prune_by_category (options ctx) glyph glyph_category l;
              let st := append_anchors st g (map anchor (sorted pa_le l)) in
              Ok (st, glyph_anchors st g)
          end
  end.
Proof. reflexivity. Qed.

(** What a call on a glyph that is not processed and has components goes
    through, when it returns. *)
Lemma propagate_composite_inv (fuel : nat) (ctx : Context) (st : State)
    (g : string) (glyph : Glyph) st' r :
  glyphSet st !! g = Some glyph ->
  g ∉ processed st ->
  components glyph <> [] ->
  propagate_glyph_anchors (S fuel) ctx st g = Ok (st', r) ->
  exists st1 propagated glyph1 category l1 l2,
    collect_components_anchors (propagate_glyph_anchors fuel ctx) ctx 0
      (components glyph) (mkState (glyphSet st) ({[g]} ∪ processed st)) []
    = Ok (st1, propagated)
    /\ glyphSet st1 !! g = Some glyph1
    /\ get_glyph_category (S fuel) ctx (glyphSet st1) g glyph1 = Ok category
    /\ prune_undefined_or_present glyph1 propagated = Ok l1
    /\ prune_by_category (options ctx) glyph1 category l1 = Ok l2
    /\ st' = append_anchors st1 g (map anchor (sorted pa_le l2))
    /\ r = glyph_anchors st' g.
Proof.
  intros Eg Hp Hc H. rewrite propagate_unfold, Eg in H.
  rewrite bool_decide_eq_false_2 in H by exact Hp.
  destruct (components glyph) as [|c comps] eqn:Ecomps; [congruence|].
  cbn [nonempty negb] in H. cbv zeta in H.
  bind_ok H as r1 Ec. destruct r1 as [st1 propagated].
  destruct (glyphSet st1 !! g) as [glyph1|] eqn:Eg1; [|discriminate H].
  bind_ok H as category Ecat. bind_ok H as l1 E1. bind_ok H as l2 E2.
  injection H as <- <-.
  exists st1, propagated, glyph1, category, l1, l2. auto 10.
Qed.

(** The invariant of [_propagate_glyph_anchors]: the state is extended, the
    glyph is processed afterwards, and the anchors returned are those the
    glyph then has. *)
Lemma propagate_extends (ctx : Context) : forall fuel st g st' r,
  propagate_glyph_anchors fuel ctx st g = Ok (st', r) ->
  extends st st' /\ g ∈ processed st' /\ r = glyph_anchors st' g.
Proof.
  induction fuel as [|fuel IH]; intros st g st' r H; [discriminate H|].
  destruct (glyphSet st !! g) as [glyph|] eqn:Eg;
    [|rewrite propagate_unfold, Eg in H; discriminate H].
  destruct (decide (g ∈ processed st)) as [Hp|Hp].
  { rewrite propagate_unfold, Eg, bool_decide_eq_true_2 in H by exact Hp.
    injection H as <- <-. split; [apply extends_refl|]. split; [exact Hp|].
    unfold glyph_anchors. now rewrite Eg. }
  set (st0 := mkState (glyphSet st) ({[g]} ∪ processed st)).
  assert (H0 : extends st st0) by apply extends_processed.
  destruct (components glyph) as [|c comps] eqn:Ecomps.
  { rewrite propagate_unfold, Eg, bool_decide_eq_false_2, Ecomps in H
      by exact Hp.
    injection H as <- <-. split; [exact H0|]. split; [in_processed|].
    unfold glyph_anchors. simpl. now rewrite Eg. }
  apply (propagate_composite_inv fuel ctx st g glyph) in H;
    [| exact Eg | exact Hp | congruence].
  destruct H as (st1 & propagated & glyph1 & category & l1 & l2
                 & Ec & Eg1 & _ & _ & _ & -> & ->).
  fold st0 in Ec.
  assert (H1 : extends st0 st1).
  { eapply collect_extends; [|exact Ec].
    intros s1 g1 s2 r1 Hr. now apply IH in Hr. }
  assert (Hg1 : g ∈ processed st1).
  { destruct H1 as [Hsub _]. apply Hsub. in_processed. }
  split; [|split; [exact Hg1 | reflexivity]].
  (* the glyph is processed in [st0], yet not in [st] *)
  destruct H1 as (Hp1 & Ha1 & Hk1).
  split; [intros x Hx; apply Hp1; in_processed|]. split.
  - intros h. destruct (Ha1 h) as [new1 Hnew1]. simpl in Hnew1. simpl.
    destruct (decide (g = h)) as [<-|Hne].
    + exists (new1 ++ map anchor (sorted pa_le l2)).
      rewrite lookup_alter_eq, Hnew1, Eg. simpl.
      now rewrite <- with_new_anchors_twice.
    + exists new1. now rewrite lookup_alter_ne.
  - intros h Hh. simpl. rewrite lookup_alter_ne by congruence.
    apply Hk1. in_processed.
Qed.

(** Memoization: a processed glyph is returned as it is. *)
Lemma propagate_memo (fuel : nat) (ctx : Context) (st : State) (g : string)
    (glyph : Glyph) :
  g ∈ processed st -> glyphSet st !! g = Some glyph ->
  propagate_glyph_anchors (S fuel) ctx st g = Ok (st, anchors glyph).
Proof.
  intros Hp Eg. rewrite propagate_unfold, Eg.
  now rewrite bool_decide_eq_true_2 by exact Hp.
Qed.

Lemma extends_lookup (st st' : State) (g : string) (glyph : Glyph) :
  extends st st' -> glyphSet st !! g = Some glyph ->
  exists new, glyphSet st' !! g = Some (with_new_anchors new glyph).
Proof.
  intros (_ & Ha & _) Eg. destruct (Ha g) as [new Hnew].
  exists new. now rewrite Hnew, Eg.
Qed.

Lemma propagate_in_glyphSet (fuel : nat) (ctx : Context) (st : State)
    (g : string) st' r :
  propagate_glyph_anchors fuel ctx st g = Ok (st', r) ->
  exists glyph, glyphSet st !! g = Some glyph.
Proof.
  destruct fuel; [discriminate|]. rewrite propagate_unfold.
  destruct (glyphSet st !! g) as [glyph|]; [eauto | discriminate].
Qed.

(** C1, counterexample: the ligature [a_a] of the repository's tests gets
    four anchors in the first run and the same four again in the second:
    each run starts from an empty processed set, and the renamed anchors
    [top_1], ... of the first run do not stop [top] from being propagated
    and renamed again. *)
Lemma C1_counterexample_ligature_second_run :
  ~ second_run_changes_nothing
  /\ map name (glyph_anchors LigatureExample.after_first "a_a")
     = ["bottom_1"; "bottom_2"; "top_1"; "top_2"]
  /\ map name (glyph_anchors LigatureExample.after_second "a_a")
     = ["bottom_1"; "bottom_2"; "top_1"; "top_2";
        "bottom_1"; "bottom_2"; "top_1"; "top_2"].
Proof.
  split; [|split; vm_compute; reflexivity].
  intros H.
  specialize (H default_options LigatureExample.categories
                LigatureExample.isMark LigatureExample.font "a_a" 5%nat
                LigatureExample.after_first LigatureExample.after_second
                true true).
  assert (H1 : glyphSet LigatureExample.after_second
               = glyphSet LigatureExample.after_first).
  { apply H; vm_compute; reflexivity. }
  apply (f_equal (fun m => length (match m !! "a_a" with
                                   | Some g => anchors g
                                   | None => []
                                   end))) in H1.
  vm_compute in H1. discriminate H1.
Qed.

(** C1, as amended: within one run, that is with one processed set, a
    second propagation of a glyph is a no-op: it returns, it returns the
    anchors the first one returned, and it leaves every glyph and the
    processed set as they are; so does the propagation of any glyph that is
    processed, and a second [filter] of the glyph reports no change.  (A
    second run starts from an empty processed set and may append again.) *)
Theorem C1_second_propagation_is_noop :
  forall (ctx : Context) (fuel : nat) (st : State) (g : string) (st' : State),
    (forall r : list Anchor,
       propagate_glyph_anchors fuel ctx st g = Ok (st', r) ->
       (forall fuel', propagate_glyph_anchors (S fuel') ctx st' g = Ok (st', r))
       /\ (forall fuel' h glyph,
             h ∈ processed st' -> glyphSet st' !! h = Some glyph ->
             propagate_glyph_anchors (S fuel') ctx st' h
             = Ok (st', anchors glyph)))
    /\ (forall b : bool,
          PropagateAnchors.filter fuel ctx st g = Ok (st', b) ->
          forall fuel',
            PropagateAnchors.filter (S fuel') ctx st' g = Ok (st', false)).
Proof.
  intros ctx fuel st g st'. split.
  - intros r H.
    destruct (propagate_in_glyphSet _ _ _ _ _ _ H) as [glyph Eg].
    destruct (propagate_extends ctx fuel st g st' r H) as (Hext & Hp & ->).
    destruct (extends_lookup st st' g glyph Hext Eg) as [new Eg'].
    split.
    + intros fuel'. rewrite (propagate_memo fuel' ctx st' g _ Hp Eg').
      unfold glyph_anchors. now rewrite Eg'.
    + intros fuel' h glyph' Hh Eh. now apply propagate_memo.
  - intros b H fuel'. unfold PropagateAnchors.filter in *.
    destruct (glyphSet st !! g) as [glyph|] eqn:Eg; [|discriminate H].
    destruct (nonempty (components glyph)) eqn:Ec; simpl in H.
    + bind_ok H as r E. destruct r as [st1 l]. injection H as <- _.
      destruct (propagate_extends ctx fuel st g st1 l E) as (Hext & Hp & ->).
      destruct (extends_lookup st st1 g glyph Hext Eg) as [new Eg'].
      rewrite Eg'.
      change (components (with_new_anchors new glyph)) with (components glyph).
      rewrite Ec. cbn [negb].
      rewrite (propagate_memo fuel' ctx st1 g _ Hp Eg').
      cbn [mbind result_bind Py.bind]. now rewrite Nat.ltb_irrefl.
    + injection H as <- _. now rewrite Eg, Ec.
Qed.

(** The amended claim at the ligature [a_a], propagated a second time in
    the run that propagated it. *)
Lemma C1_second_propagation_is_noop_witness :
  propagate_glyph_anchors 3 LigatureExample.ctx LigatureExample.after_first "a_a"
  = Ok (LigatureExample.after_first,
        [mkAnchor "bottom_1" 175 0; mkAnchor "bottom_2" 525 0;
         mkAnchor "top_1" 175 300; mkAnchor "top_2" 525 300]).
Proof.
  refine (proj1 (proj1 (C1_second_propagation_is_noop LigatureExample.ctx 5
                          LigatureExample.start "a_a"
                          LigatureExample.after_first) _ _) 2%nat).
  vm_compute. reflexivity.
Defined.

End PropagationFrame.

(* ===================================================================== *)
(** ** Pruning                                                            *)
(* ===================================================================== *)

Section Pruning.

Import PropagateAnchors.

Implicit Types (pa : PropagatedAnchor) (l P : list PropagatedAnchor).


Lemma pa_eqb_eq pa1 pa2 : pa_eqb pa1 pa2 = true <-> pa1 = pa2.
Proof. unfold pa_eqb. apply bool_decide_eq_true. Qed.

Lemma list_remove_sublist pa : forall P l,
  list_remove pa_eqb pa P = Ok l -> l `sublist_of` P.
Proof.
  induction P as [|y P IH]; intros l H; simpl in H; [discriminate H|].
  destruct (pa_eqb y pa).
  - injection H as <-. now apply sublist_cons.
  - unfold Py.bind in H.
    destruct (list_remove pa_eqb pa P) as [t| |]; try discriminate H.
    injection H as <-. apply sublist_skip. now apply IH.
Qed.

Lemma list_remove_count pa : forall P l,
  list_remove pa_eqb pa P = Ok l ->
  count_occ PropagatedAnchor_eq_dec P pa = S (count_occ PropagatedAnchor_eq_dec l pa)
  /\ forall y, y <> pa ->
       count_occ PropagatedAnchor_eq_dec l y
       = count_occ PropagatedAnchor_eq_dec P y.
Proof.
  induction P as [|y P IH]; intros l H; simpl in H; [discriminate H|].
  destruct (pa_eqb y pa) eqn:E.
  - apply pa_eqb_eq in E. subst y. injection H as <-. split.
    + now rewrite count_occ_cons_eq.
    + intros y Hy. now rewrite count_occ_cons_neq by congruence.
  - unfold Py.bind in H.
    destruct (list_remove pa_eqb pa P) as [t| |]; try discriminate H.
    injection H as <-. destruct (IH t eq_refl) as [Hpa Hother].
    assert (Hne : y <> pa).
    { intros ->. unfold pa_eqb in E. now rewrite bool_decide_eq_true_2 in E. }
    split.
    + now rewrite !count_occ_cons_neq by exact Hne.
    + intros z Hz. destruct (decide (y = z)) as [->|Hyz].
      * rewrite !count_occ_cons_eq by reflexivity. now rewrite Hother.
      * rewrite !count_occ_cons_neq by exact Hyz. now apply Hother.
Qed.

Lemma prune_loop_sublist cond : forall copy P l,
  prune_loop cond copy P = Ok l -> l `sublist_of` P.
Proof.
  induction copy as [|pa copy IH]; intros P l H; simpl in H.
  - now injection H as <-.
  - bind_ok H as b E. destruct b; [|now apply IH].
    bind_ok H as P' E'. apply IH in H. apply list_remove_sublist in E'.
    now transitivity P'.
Qed.

(** The condition was evaluated on every element of the copy. *)
Lemma prune_loop_defined cond : forall copy P l,
  prune_loop cond copy P = Ok l ->
  forall pa, pa ∈ copy -> exists b, cond pa = Ok b.
Proof.
  induction copy as [|x copy IH]; intros P l H pa Hin; simpl in H.
  - now apply elem_of_nil in Hin.
  - bind_ok H as b E. apply elem_of_cons in Hin as [->|Hin]; [eauto|].
    destruct b; [bind_ok H as P' E'|]; eapply IH; eassumption.
Qed.

(** No element that meets the condition more often in the copy than in
    the list survives. *)
Lemma prune_loop_count cond : forall copy P l,
  prune_loop cond copy P = Ok l ->
  (forall pa, cond pa = Ok true ->
     (count_occ PropagatedAnchor_eq_dec P pa
      <= count_occ PropagatedAnchor_eq_dec copy pa)%nat) ->
  forall pa, cond pa = Ok true -> count_occ PropagatedAnchor_eq_dec l pa = 0%nat.
Proof.
  induction copy as [|x copy IH]; intros P l H Hle pa Hpa; simpl in H.
  - injection H as <-. specialize (Hle pa Hpa). simpl in Hle. lia.
  - bind_ok H as b E. destruct b.
    + bind_ok H as P' E'. apply (IH _ _ H); [|exact Hpa].
      intros z Hz. specialize (Hle z Hz).
      destruct (list_remove_count _ _ _ E') as [Hx Hother].
      destruct (decide (z = x)) as [->|Hzx].
      * rewrite count_occ_cons_eq in Hle by reflexivity. lia.
      * rewrite count_occ_cons_neq in Hle by congruence.
        now rewrite Hother.
    + apply (IH _ _ H); [|exact Hpa].
      intros z Hz. specialize (Hle z Hz).
      rewrite count_occ_cons_neq in Hle by congruence. exact Hle.
Qed.

(** A pruning loop over the list itself: what is left is part of the list,
    and meets the condition nowhere. *)
Lemma prune_loop_spec cond P l :
  prune_loop cond P P = Ok l ->
  l `sublist_of` P /\ forall pa, pa ∈ l -> cond pa = Ok false.
Proof.
  intros H. split; [now apply prune_loop_sublist in H|].
  intros pa Hin.
  assert (HinP : pa ∈ P).
  { eapply elem_of_sublist; [exact Hin|]. now apply prune_loop_sublist in H. }
  destruct (prune_loop_defined _ _ _ _ H pa HinP) as [[|] Hb]; [|exact Hb].
  exfalso.
  assert (H0 : count_occ PropagatedAnchor_eq_dec l pa = 0%nat)
    by (apply (prune_loop_count _ _ _ _ H); [intros; lia | exact Hb]).
  apply list_elem_of_In, (count_occ_In PropagatedAnchor_eq_dec) in Hin. lia.
Qed.

(** Pruning the attached anchors only removes anchors. *)
Lemma remove_matches_sublist mode_mark num : forall matches i P l,
  remove_matches mode_mark num i matches P = Ok l -> l `sublist_of` P.
Proof.
  induction matches as [|[[d pa1] pa2] matches IH]; intros i P l H; simpl in H.
  - now injection H as <-.
  - destruct (mode_mark && (i =? num)); [now injection H as <-|].
    bind_ok H as l1 E1. bind_ok H as l2 E2. bind_ok H as l3 E3.
    apply IH in H. apply list_remove_sublist in E1, E2.
    apply prune_loop_sublist in E3.
    transitivity l3; [exact H|]. transitivity l2; [exact E3|].
    now transitivity l1.
Qed.

Lemma remove_all_matches_sublist mode_mark : forall matched P l,
  remove_all_matches mode_mark matched P = Ok l -> l `sublist_of` P.
Proof.
  induction matched as [|[n matches] matched IH]; intros P l H; simpl in H.
  - now injection H as <-.
  - bind_ok H as l1 E1. apply IH in H. apply remove_matches_sublist in E1.
    now transitivity l1.
Qed.

Lemma prune_attached_anchors_sublist mode_mark P l :
  prune_attached_anchors mode_mark P = Ok l -> l `sublist_of` P.
Proof.
  unfold prune_attached_anchors. intros H. bind_ok H as matched E.
  now apply remove_all_matches_sublist in H.
Qed.

(** What the pruning of a base glyph leaves: anchors with an attachment
    that are not mark anchors of it. *)
Lemma prune_mark_anchors_spec P l :
  prune_mark_anchors P = Ok l ->
  l `sublist_of` P
  /\ forall pa, pa ∈ l ->
       exists a, attachment_of pa = Ok a /\ name (anchor pa) ∉ mark a.
Proof.
  unfold prune_mark_anchors. intros H.
  apply prune_loop_spec in H as [Hsub Hcond]. split; [exact Hsub|].
  intros pa Hin. specialize (Hcond pa Hin). cbn beta in Hcond.
  bind_ok Hcond as a E. exists a. split; [reflexivity|].
  injection Hcond as Hb. now apply bool_decide_eq_false in Hb.
Qed.

Lemma prune_undefined_or_present_spec glyph P l :
  prune_undefined_or_present glyph P = Ok l ->
  l `sublist_of` P
  /\ forall pa, pa ∈ l ->
       attachment pa <> None
       /\ name (anchor pa) ∉ map name (anchors glyph).
Proof.
  unfold prune_undefined_or_present. intros H.
  apply prune_loop_spec in H as [Hsub Hcond]. split; [exact Hsub|].
  intros pa Hin. specialize (Hcond pa Hin). cbn beta in Hcond.
  destruct (attachment pa); [|discriminate Hcond].
  split; [discriminate|].
  injection Hcond as Hb. now apply bool_decide_eq_false in Hb.
Qed.

Lemma prune_by_category_base opts glyph P l :
  prune_by_category opts glyph (Some "base") P = Ok l ->
  l `sublist_of` P
  /\ forall pa, pa ∈ l ->
       exists a, attachment_of pa = Ok a /\ name (anchor pa) ∉ mark a.
Proof.
  unfold prune_by_category.
  rewrite (bool_decide_eq_true_2 (Some "base" = Some "base")) by reflexivity.
  intros H. bind_ok H as l1 E1.
  apply prune_attached_anchors_sublist in E1.
  apply prune_mark_anchors_spec in H as [Hsub Hl]. split; [|exact Hl].
  now transitivity l1.
Qed.

(** The category of a glyph that is a base glyph by its metadata. *)
Lemma get_glyph_category_base (fuel : nat) (ctx : Context)
    (gs : gmap string Glyph) (g : string) (glyph : Glyph) :
  base_by_metadata ctx g glyph ->
  get_glyph_category (S fuel) ctx gs g glyph = Ok (Some "base").
Proof.
  intros [Hc|(Hc & uv & Hu & Hnz & Hm)]; cbn [get_glyph_category]; rewrite Hc.
  - reflexivity.
  - rewrite Hu. cbn [default from_option id].
    destruct (Z.eqb_spec uv 0) as [->|_]; [now contradict Hnz|].
    cbn [negb]. now rewrite Hm.
Qed.

(** Every collected anchor has the attachment of its name. *)
Lemma collect_attachment
    (rec : State -> string -> result (State * list Anchor)) (ctx : Context) :
  forall comps i st acc st' out,
    collect_components_anchors rec ctx i comps st acc = Ok (st', out) ->
    (forall pa, pa ∈ acc ->
       attachment pa = get_anchor_attachment ctx (name (anchor pa))) ->
    forall pa, pa ∈ out ->
      attachment pa = get_anchor_attachment ctx (name (anchor pa)).
Proof.
  induction comps as [|c comps IH]; intros i st acc st' out H Hacc; simpl in H.
  - now injection H as _ <-.
  - destruct (glyphSet st !! baseGlyph c); [|now apply (IH _ _ _ _ _ H)].
    bind_ok H as p E. destruct p as [st1 ca].
    apply (IH _ _ _ _ _ H). intros pa Hin.
    apply elem_of_app in Hin as [Hin|Hin]; [now apply Hacc|].
    unfold component_propagated_anchors in Hin.
    apply list_elem_of_fmap in Hin as (a & -> & _). reflexivity.
Qed.

(** A base glyph gets no anchor whose name it has already, and no mark
    anchor. *)
Lemma propagate_base_new (fuel : nat) (ctx : Context) (st : State)
    (g : string) (glyph : Glyph) st' r :
  glyphSet st !! g = Some glyph ->
  base_by_metadata ctx g glyph ->
  propagate_glyph_anchors fuel ctx st g = Ok (st', r) ->
  exists new,
    glyphSet st' !! g = Some (with_new_anchors new glyph)
    /\ r = anchors glyph ++ new
    /\ forall a, a ∈ new ->
         (name a ∉ map name (anchors glyph))
         /\ exists ref, get_anchor_attachment ctx (name a) = Some ref
                        /\ name a ∉ mark (att ref).
Proof.
  intros Eg Hbase H.
  assert (Hnone : forall st1, glyphSet st1 = glyphSet st ->
            Ok (st1, anchors glyph) = Ok (st', r) ->
            exists new,
              glyphSet st' !! g = Some (with_new_anchors new glyph)
              /\ r = anchors glyph ++ new
              /\ forall a, a ∈ new ->
                   (name a ∉ map name (anchors glyph))
                   /\ exists ref, get_anchor_attachment ctx (name a) = Some ref
                                  /\ name a ∉ mark (att ref)).
  { intros st1 Hgs [= <- <-]. exists []. rewrite Hgs, Eg, with_no_new_anchors.
    split; [reflexivity|]. split; [now rewrite app_nil_r|].
    intros a Ha. now apply elem_of_nil in Ha. }
  destruct fuel as [|fuel]; [discriminate H|].
  destruct (decide (g ∈ processed st)) as [Hp|Hp].
  { rewrite (propagate_memo _ _ _ _ _ Hp Eg) in H. now apply (Hnone st). }
  destruct (components glyph) as [|c0 comps0] eqn:Ec.
  { rewrite propagate_unfold, Eg, bool_decide_eq_false_2, Ec in H by exact Hp.
    cbv zeta in H. cbn [nonempty negb] in H.
    exact (Hnone (mkState (glyphSet st) ({[g]} ∪ processed st)) eq_refl H). }
  assert (Hne : components glyph <> []) by (rewrite Ec; discriminate).
  destruct (propagate_composite_inv _ _ _ _ _ _ _ Eg Hp Hne H)
    as (st1 & propagated & glyph1 & category & l1 & l2
        & Hcol & Eg1 & Hcat & Hl1 & Hl2 & -> & ->).
  assert (Hext : extends (mkState (glyphSet st) ({[g]} ∪ processed st)) st1).
  { apply (collect_extends _ _ (fun s h s' r' Hr =>
             proj1 (propagate_extends ctx fuel s h s' r' Hr))) in Hcol.
    exact Hcol. }
  assert (glyph1 = glyph) as ->.
  { destruct Hext as (_ & _ & Hkeep).
    specialize (Hkeep g). cbn [processed glyphSet] in Hkeep.
    rewrite Hkeep, Eg in Eg1 by (apply elem_of_union_l, elem_of_singleton; reflexivity).
    now injection Eg1. }
  rewrite (get_glyph_category_base _ _ _ _ _ Hbase) in Hcat.
  injection Hcat as <-.
  apply prune_undefined_or_present_spec in Hl1 as [Hsub1 Hl1].
  apply prune_by_category_base in Hl2 as [Hsub2 Hl2].
  exists (map anchor (sorted pa_le l2)).
  assert (Elook : glyphSet (append_anchors st1 g (map anchor (sorted pa_le l2))) !! g
                  = Some (with_new_anchors (map anchor (sorted pa_le l2)) glyph)).
  { unfold append_anchors. cbn [glyphSet].
    now rewrite lookup_alter_eq, Eg1. }
  split; [exact Elook|].
  split; [unfold glyph_anchors; now rewrite Elook|].
  intros a Ha. apply list_elem_of_fmap in Ha as (pa & -> & Hin).
  assert (Hin2 : pa ∈ l2).
  { apply list_elem_of_In. apply list_elem_of_In in Hin.
    eapply Permutation_in; [apply sorted_perm|exact Hin]. }
  assert (Hin1 : pa ∈ l1) by (eapply elem_of_sublist; eassumption).
  assert (Hin0 : pa ∈ propagated) by (eapply elem_of_sublist; eassumption).
  destruct (Hl1 pa Hin1) as [_ Hfresh]. split; [exact Hfresh|].
  destruct (Hl2 pa Hin2) as (a & Ha & Hnm).
  assert (Hatt := collect_attachment _ _ _ _ _ _ _ _ Hcol
                    (fun p Hp' => False_rect _ (proj1 (elem_of_nil p) Hp')) pa Hin0).
  unfold attachment_of in Ha. rewrite Hatt in Ha.
  destruct (get_anchor_attachment ctx (name (anchor pa))) as [ref|]; [|discriminate Ha].
  injection Ha as <-. now exists ref.
Qed.

(** *** A base and a mark that attach to each other *)

Lemma propagate_leaf (fuel : nat) (ctx : Context) (st : State) (h : string)
    (gl : Glyph) :
  glyphSet st !! h = Some gl -> components gl = [] ->
  exists st', propagate_glyph_anchors (S fuel) ctx st h = Ok (st', anchors gl)
              /\ glyphSet st' = glyphSet st.
Proof.
  intros Eh Ec. rewrite propagate_unfold, Eh.
  destruct (bool_decide (h ∈ processed st)); [now exists st|].
  rewrite Ec. cbv zeta. cbn [nonempty negb]. eauto.
Qed.

Lemma propagated_copy_name (opts : Options) (t : Transform) (a : Anchor) :
  horizontal_opposites opts !! name a = None ->
  name (propagated_copy opts t a) = name a.
Proof.
  intros H. rewrite propagated_copy_eq.
  destruct (transformPoint t (x a, y a)) as [px py]. cbn [name].
  unfold rename_flipped_horizontally. rewrite H. now destruct (xx t <? 0).
Qed.

Lemma single_name (l : list Anchor) (n : string) :
  map name l = [n] -> exists a, l = [a] /\ name a = n.
Proof.
  destruct l as [|a [|b l]]; intros H; try discriminate H.
  injection H as H. now exists a.
Qed.

Lemma list_remove_head pa P : list_remove pa_eqb pa (pa :: P) = Ok P.
Proof.
  cbn [list_remove]. unfold pa_eqb at 1.
  now rewrite bool_decide_eq_true_2 by reflexivity.
Qed.

Lemma list_remove_skip pa pa' P :
  pa' <> pa ->
  list_remove pa_eqb pa (pa' :: P)
  = Py.bind (list_remove pa_eqb pa P) (fun t => Ok (pa' :: t)).
Proof.
  intros Hne. cbn [list_remove]. unfold pa_eqb at 1.
  now rewrite bool_decide_eq_false_2 by exact Hne.
Qed.

Lemma match_anchors_cons pa1 rest P (matched_anchors : list (string * list Match)) :
  match_anchors (pa1 :: rest) P matched_anchors =
  a1 ← attachment_of pa1;
  if negb (bool_decide (name (anchor pa1) ∈ mark a1)) then
    match_anchors rest P matched_anchors
  else if negb (component_is_mark pa1) then
    match_anchors rest P matched_anchors
  else
    match closest_base pa1 a1 P with
    | Some (matched_distance, matched) =>
        match_anchors rest P
          (matched_append matched_anchors (name (anchor pa1))
             (matched_distance, pa1, matched))
    | None => match_anchors rest P matched_anchors
    end.
Proof. reflexivity. Qed.

Section AttachedPair.

Variables (glyph : Glyph) (ref : AttachmentRef) (A1 A2 : Anchor).
Hypothesis name1 : name A1 = "top".
Hypothesis name2 : name A2 = "_top".
Hypothesis own : "_top" ∉ map name (anchors glyph).
Hypothesis top_base : "top" ∈ base (att ref).
Hypothesis top_mark : "_top" ∈ mark (att ref).

#[local] Abbreviation pa_b := (from_base_component A1 ref).
#[local] Abbreviation pa_m := (from_mark_component A2 ref).

Lemma pair_ne : pa_m <> pa_b.
Proof. intros [=]. Qed.

Lemma pair_after_own_names :
  prune_undefined_or_present glyph [pa_b; pa_m]
  = Ok (if bool_decide ("top" ∈ map name (anchors glyph)) then [pa_m]
        else [pa_b; pa_m]).
Proof.
  unfold prune_undefined_or_present.
  cbn [prune_loop attachment anchor from_base_component
       from_mark_component mbind result_bind Py.bind].
  rewrite name1, name2, (bool_decide_eq_false_2 _ own).
  destruct (bool_decide ("top" ∈ map name (anchors glyph))); [|reflexivity].
  now rewrite list_remove_head.
Qed.

Lemma closest_base_pair :
  closest_base pa_m (att ref) [pa_b; pa_m]
  = Some (_distance (pos pa_m) (pos pa_b), pa_b).
Proof.
  unfold closest_base. cbn [fold_left].
  unfold pa_eqb.
  rewrite (bool_decide_eq_false_2 _ pair_ne).
  rewrite (bool_decide_eq_true_2 (pa_m = pa_m)) by reflexivity.
  unfold same_attachment.
  rewrite (bool_decide_eq_true_2
             (att_id <$> attachment pa_m
              = att_id <$> attachment pa_b))
    by reflexivity.
  cbn [negb anchor from_base_component]. rewrite name1.
  rewrite (bool_decide_eq_true_2 _ top_base). reflexivity.
Qed.

Lemma closest_base_alone :
  closest_base pa_m (att ref) [pa_m] = None.
Proof.
  unfold closest_base. cbn [fold_left]. unfold pa_eqb.
  now rewrite (bool_decide_eq_true_2 (pa_m = pa_m)) by reflexivity.
Qed.

Lemma match_anchors_pair :
  match_anchors [pa_b; pa_m] [pa_b; pa_m] []
  = Ok [("_top", [(_distance (pos pa_m) (pos pa_b), pa_m, pa_b)])].
Proof.
  rewrite match_anchors_cons.
  change (attachment_of pa_b) with (Ok (att ref)).
  change (component_is_mark pa_b) with false.
  cbn [mbind result_bind Py.bind negb].
  destruct (negb (bool_decide (name (anchor pa_b) ∈ mark (att ref))));
    rewrite match_anchors_cons;
    change (attachment_of pa_m) with (Ok (att ref));
    change (component_is_mark pa_m) with true;
    change (name (anchor pa_m)) with (name A2);
    cbn [mbind result_bind Py.bind];
    rewrite name2, (bool_decide_eq_true_2 _ top_mark), closest_base_pair;
    reflexivity.
Qed.

Lemma match_anchors_alone : match_anchors [pa_m] [pa_m] [] = Ok [].
Proof.
  rewrite match_anchors_cons.
  change (attachment_of pa_m) with (Ok (att ref)).
  change (component_is_mark pa_m) with true.
  change (name (anchor pa_m)) with (name A2).
  cbn [mbind result_bind Py.bind].
  now rewrite name2, (bool_decide_eq_true_2 _ top_mark), closest_base_alone.
Qed.

Lemma pair_pruned (opts : Options) :
  prune_by_category opts glyph (Some "base") [pa_b; pa_m] = Ok [].
Proof.
  unfold prune_by_category.
  rewrite (bool_decide_eq_true_2 (Some "base" = Some "base")) by reflexivity.
  unfold prune_attached_anchors. rewrite match_anchors_pair.
  cbn [mbind result_bind Py.bind remove_all_matches length sorted
       insert_sorted remove_matches andb].
  rewrite (list_remove_skip pa_m pa_b) by (intros E; now apply pair_ne).
  rewrite !list_remove_head.
  cbn [mbind result_bind Py.bind]. rewrite list_remove_head.
  reflexivity.
Qed.

Lemma mark_alone_pruned (opts : Options) :
  prune_by_category opts glyph (Some "base") [pa_m] = Ok [].
Proof.
  unfold prune_by_category.
  rewrite (bool_decide_eq_true_2 (Some "base" = Some "base")) by reflexivity.
  unfold prune_attached_anchors. rewrite match_anchors_alone.
  cbn [mbind result_bind Py.bind remove_all_matches].
  unfold prune_mark_anchors. cbn [prune_loop].
  change (attachment_of pa_m) with (Ok (att ref)).
  change (name (anchor pa_m)) with (name A2).
  cbn [mbind result_bind Py.bind].
  rewrite name2, (bool_decide_eq_true_2 _ top_mark), list_remove_head.
  reflexivity.
Qed.

(** Whatever names the glyph has itself, nothing of the pair is left. *)
Lemma pair_adds_nothing (opts : Options) :
  exists l, prune_undefined_or_present glyph [pa_b; pa_m] = Ok l
            /\ prune_by_category opts glyph (Some "base") l = Ok [].
Proof.
  rewrite pair_after_own_names.
  destruct (bool_decide ("top" ∈ map name (anchors glyph)));
    eexists; (split; [reflexivity|]);
    [apply mark_alone_pruned | apply pair_pruned].
Qed.

End AttachedPair.

(** The anchors collected from a base with the one anchor [top] and a mark
    with the one anchor [_top]; the glyphs are left as they are. *)
Lemma collect_pair (n : nat) (ctx : Context) (st : State) (c1 c2 : Component)
    (gb gm : Glyph) (a1 a2 : Anchor) (ref : AttachmentRef) :
  glyphSet st !! baseGlyph c1 = Some gb -> components gb = [] ->
  anchors gb = [a1] -> name a1 = "top" ->
  glyphSet st !! baseGlyph c2 = Some gm -> components gm = [] ->
  anchors gm = [a2] -> name a2 = "_top" ->
  get_anchor_attachment ctx "top" = Some ref ->
  get_anchor_attachment ctx "_top" = Some ref ->
  horizontal_opposites (options ctx) !! "top" = None ->
  horizontal_opposites (options ctx) !! "_top" = None ->
  exists st1 A1 A2,
    collect_components_anchors (propagate_glyph_anchors (S n) ctx) ctx 0
      [c1; c2] st []
    = Ok (st1, [from_base_component A1 ref; from_mark_component A2 ref])
    /\ glyphSet st1 = glyphSet st /\ processed st ⊆ processed st1
    /\ name A1 = "top" /\ name A2 = "_top".
Proof.
  intros Eb Ecb Eab Hn1 Em Ecm Eam Hn2 Hatt1 Hatt2 Hh1 Hh2.
  destruct (propagate_leaf n ctx st _ gb Eb Ecb) as (sb & Hpb & Hgb).
  assert (Em' : glyphSet sb !! baseGlyph c2 = Some gm) by now rewrite Hgb.
  destruct (propagate_leaf n ctx sb _ gm Em' Ecm) as (sm & Hpm & Hgm).
  assert (Hc1 : name (propagated_copy (options ctx) (transformation c1) a1) = "top").
  { rewrite propagated_copy_name; rewrite Hn1; [reflexivity|exact Hh1]. }
  assert (Hc2 : name (propagated_copy (options ctx) (transformation c2) a2) = "_top").
  { rewrite propagated_copy_name; rewrite Hn2; [reflexivity|exact Hh2]. }
  exists sm, (propagated_copy (options ctx) (transformation c1) a1),
         (propagated_copy (options ctx) (transformation c2) a2).
  split; [|split; [congruence|split; [|split; assumption]]].
  - cbn [collect_components_anchors]. rewrite Eb, Hpb.
    cbn [mbind result_bind Py.bind]. rewrite Em', Hpm.
    cbn [mbind result_bind Py.bind].
    unfold glyph_anchors. rewrite Hgm, Em', Hgb, Eb, Eab, Eam.
    cbn [existsb]. rewrite Hn1, Hn2.
    change (mark_anchor_name "top") with false.
    change (mark_anchor_name "_top") with true.
    unfold component_propagated_anchors. cbn [map app orb].
    rewrite Hc1, Hc2, Hatt1, Hatt2. reflexivity.
  - apply propagate_extends in Hpb as ((Hs1 & _) & _).
    apply propagate_extends in Hpm as ((Hs2 & _) & _).
    now transitivity (processed sb).
Qed.

(** The whole propagation on such a composite: it returns, and no glyph
    has changed. *)
Lemma propagate_attached_pair (n : nat) (ctx : Context) (st : State)
    (g : string) (glyph : Glyph) (c1 c2 : Component) (gb gm : Glyph)
    (ref : AttachmentRef) :
  glyphSet st !! g = Some glyph ->
  base_by_metadata ctx g glyph ->
  components glyph = [c1; c2] ->
  "_top" ∉ map name (anchors glyph) ->
  glyphSet st !! baseGlyph c1 = Some gb -> components gb = [] ->
  map name (anchors gb) = ["top"] ->
  glyphSet st !! baseGlyph c2 = Some gm -> components gm = [] ->
  map name (anchors gm) = ["_top"] ->
  get_anchor_attachment ctx "top" = Some ref ->
  get_anchor_attachment ctx "_top" = Some ref ->
  "top" ∈ base (att ref) -> "_top" ∈ mark (att ref) ->
  horizontal_opposites (options ctx) !! "top" = None ->
  horizontal_opposites (options ctx) !! "_top" = None ->
  exists st',
    propagate_glyph_anchors (S (S n)) ctx st g = Ok (st', anchors glyph)
    /\ glyphSet st' = glyphSet st.
Proof.
  intros Eg Hbase Ec Hown Eb Ecb Hab Em Ecm Ham Hatt1 Hatt2 Hbs Hmk Hh1 Hh2.
  destruct (decide (g ∈ processed st)) as [Hp|Hp].
  { exists st. now rewrite (propagate_memo _ _ _ _ _ Hp Eg). }
  apply single_name in Hab as (a1 & Eab & Hn1).
  apply single_name in Ham as (a2 & Eam & Hn2).
  destruct (collect_pair n ctx (mkState (glyphSet st) ({[g]} ∪ processed st))
              c1 c2 gb gm a1 a2 ref Eb Ecb Eab Hn1 Em Ecm Eam Hn2
              Hatt1 Hatt2 Hh1 Hh2)
    as (st1 & A1 & A2 & Hcol & Hgs & _ & HA1 & HA2).
  cbn [glyphSet] in Hgs.
  destruct (pair_adds_nothing glyph ref A1 A2 HA1 HA2 Hown Hbs Hmk (options ctx))
    as (l & Hl1 & Hl2).
  exists (append_anchors st1 g []).
  rewrite propagate_unfold, Eg, (bool_decide_eq_false_2 _ Hp), Ec.
  cbv zeta. cbn [nonempty negb]. rewrite Hcol.
  cbn [mbind result_bind Py.bind]. rewrite Hgs, Eg.
  rewrite (get_glyph_category_base _ _ _ _ _ Hbase).
  cbn [mbind result_bind Py.bind]. rewrite Hl1.
  cbn [mbind result_bind Py.bind]. rewrite Hl2.
  cbn [mbind result_bind Py.bind sorted map].
  assert (Hsame : glyphSet (append_anchors st1 g []) = glyphSet st).
  { unfold append_anchors. cbn [glyphSet]. rewrite Hgs.
    apply map_eq. intros h. destruct (decide (h = g)) as [->|Hne].
    - rewrite lookup_alter_eq, Eg. cbn [fmap option_fmap option_map].
      f_equal. apply with_no_new_anchors.
    - now rewrite lookup_alter_ne by congruence. }
  split; [|exact Hsame].
  unfold glyph_anchors. now rewrite Hsame, Eg.
Qed.

End Pruning.

(** Claim C2, as stated, fails on the composite [adieresis] of the
    repository's tests: [a] carries [top], the mark [dieresiscomb] carries
    [_top] and, for stacking, [top]; the pair [top] of [a] and [_top] is
    pruned, and the [top] of the mark is appended to the composite at
    (175, 480). *)
Lemma C2_counterexample_mark_with_top :
  ~ attached_pair_adds_neither
  /\ PropagateAnchors.propagate_glyph_anchors 5 DieresisExample.ctx
       DieresisExample.start "adieresis"
     = Ok (DieresisExample.after "adieresis",
           [PropagateAnchors.mkAnchor "top" 175 480]).
Proof.
  assert (Hrun : PropagateAnchors.propagate_glyph_anchors 5 DieresisExample.ctx
                   DieresisExample.start "adieresis"
                 = Ok (DieresisExample.after "adieresis",
                       [PropagateAnchors.mkAnchor "top" 175 480]))
    by (vm_compute; reflexivity).
  split; [|exact Hrun].
  intros H.
  destruct (H DieresisExample.ctx DieresisExample.start
              (DieresisExample.after "adieresis") 5%nat "adieresis"
              (PropagateAnchors.mkGlyph (Some 228) []
                 [PropagateAnchors.mkComponent "a"
                    (PropagateAnchors.mkTransform 1 0 0 1 0 0);
                  PropagateAnchors.mkComponent "dieresiscomb"
                    (PropagateAnchors.mkTransform 1 0 0 1 175 0)])
              (PropagateAnchors.mkGlyph (Some 97)
                 [PropagateAnchors.mkAnchor "top" 175 300;
                  PropagateAnchors.mkAnchor "bottom" 175 0] [])
              (PropagateAnchors.mkGlyph (Some 776)
                 [PropagateAnchors.mkAnchor "_top" 0 300;
                  PropagateAnchors.mkAnchor "top" 0 480] [])
              (PropagateAnchors.mkComponent "a"
                 (PropagateAnchors.mkTransform 1 0 0 1 0 0))
              (PropagateAnchors.mkComponent "dieresiscomb"
                 (PropagateAnchors.mkTransform 1 0 0 1 175 0))
              [PropagateAnchors.mkAnchor "top" 175 480])
    as (new & Hnew & Htop & _).
  - vm_compute; reflexivity.
  - right. split; [reflexivity|]. exists 228.
    split; [reflexivity|]. split; [discriminate|reflexivity].
  - reflexivity.
  - vm_compute; reflexivity.
  - right. split; [reflexivity|]. exists 97.
    split; [reflexivity|]. split; [discriminate|reflexivity].
  - by_compute.
  - vm_compute; reflexivity.
  - vm_compute; reflexivity.
  - by_compute.
  - exact Hrun.
  - vm_compute in Hnew. injection Hnew as <-.
    apply Htop. by_compute.
Qed.

(** Claim C2, amended.  Propagation on a glyph only appends: every glyph
    of the font is afterwards the glyph it was, with further anchors at
    the end.  On a base glyph, no appended anchor has a name the glyph had
    already, and none is a mark anchor of its attachment, so a [_top] that
    attaches to [top] is never added.  And where the base component
    carries only [top] and the mark component only [_top], of one
    attachment, and the composite has no [_top] of its own, the
    propagation returns and leaves every glyph as it was: the two are
    pruned as an attached pair. *)
Theorem C2_propagation_only_appends :
  forall (ctx : PropagateAnchors.Context) (st : PropagateAnchors.State)
         (g : string) (glyph : PropagateAnchors.Glyph),
    PropagateAnchors.glyphSet st !! g = Some glyph ->
    (forall fuel st' r,
       PropagateAnchors.propagate_glyph_anchors fuel ctx st g = Ok (st', r) ->
       (forall h, exists new,
          PropagateAnchors.glyphSet st' !! h
          = with_new_anchors new <$> PropagateAnchors.glyphSet st !! h)
       /\ (base_by_metadata ctx g glyph ->
           exists new,
             PropagateAnchors.glyphSet st' !! g = Some (with_new_anchors new glyph)
             /\ r = PropagateAnchors.anchors glyph ++ new
             /\ forall a, a ∈ new ->
                  (PropagateAnchors.name a
                     ∉ map PropagateAnchors.name (PropagateAnchors.anchors glyph))
                  /\ exists ref,
                       PropagateAnchors.get_anchor_attachment ctx
                         (PropagateAnchors.name a) = Some ref
                       /\ PropagateAnchors.name a
                            ∉ PropagateAnchors.mark (PropagateAnchors.att ref)))
    /\ (forall (c1 c2 : PropagateAnchors.Component)
               (gb gm : PropagateAnchors.Glyph)
               (ref : PropagateAnchors.AttachmentRef) (n : nat),
          base_by_metadata ctx g glyph ->
          PropagateAnchors.components glyph = [c1; c2] ->
          "_top" ∉ map PropagateAnchors.name (PropagateAnchors.anchors glyph) ->
          PropagateAnchors.glyphSet st !! PropagateAnchors.baseGlyph c1 = Some gb ->
          PropagateAnchors.components gb = [] ->
          map PropagateAnchors.name (PropagateAnchors.anchors gb) = ["top"] ->
          PropagateAnchors.glyphSet st !! PropagateAnchors.baseGlyph c2 = Some gm ->
          PropagateAnchors.components gm = [] ->
          map PropagateAnchors.name (PropagateAnchors.anchors gm) = ["_top"] ->
          PropagateAnchors.get_anchor_attachment ctx "top" = Some ref ->
          PropagateAnchors.get_anchor_attachment ctx "_top" = Some ref ->
          "top" ∈ PropagateAnchors.base (PropagateAnchors.att ref) ->
          "_top" ∈ PropagateAnchors.mark (PropagateAnchors.att ref) ->
          PropagateAnchors.horizontal_opposites (PropagateAnchors.options ctx)
            !! "top" = None ->
          PropagateAnchors.horizontal_opposites (PropagateAnchors.options ctx)
            !! "_top" = None ->
          exists st',
            PropagateAnchors.propagate_glyph_anchors (S (S n)) ctx st g
            = Ok (st', PropagateAnchors.anchors glyph)
            /\ PropagateAnchors.glyphSet st' = PropagateAnchors.glyphSet st).
Proof.
  intros ctx st g glyph Eg. split.
  - intros fuel st' r H. split.
    + intros h. apply propagate_extends in H as ((_ & Hframe & _) & _).
      apply Hframe.
    + intros Hbase. now apply (propagate_base_new fuel ctx st g glyph st' r).
  - intros c1 c2 gb gm ref n Hbase Ec Hown Eb Ecb Hab Em Ecm Ham
           Hatt1 Hatt2 Hbs Hmk Hh1 Hh2.
    now apply (propagate_attached_pair n ctx st g glyph c1 c2 gb gm ref).
Qed.

Lemma C2_propagation_only_appends_witness :
  exists st',
    PropagateAnchors.propagate_glyph_anchors 2 DieresisExample.ctx
      DieresisExample.start "ograve"
    = Ok (st', [PropagateAnchors.mkAnchor "bottom" 150 0])
    /\ PropagateAnchors.glyphSet st'
       = PropagateAnchors.glyphSet DieresisExample.start.
Proof.
  refine (proj2 (C2_propagation_only_appends DieresisExample.ctx
                   DieresisExample.start "ograve"
                   (PropagateAnchors.mkGlyph (Some 242)
                      [PropagateAnchors.mkAnchor "bottom" 150 0]
                      [PropagateAnchors.mkComponent "o"
                         (PropagateAnchors.mkTransform 1 0 0 1 0 0);
                       PropagateAnchors.mkComponent "gravecomb"
                         (PropagateAnchors.mkTransform 1 0 0 1 150 0)]) _)
            (PropagateAnchors.mkComponent "o"
               (PropagateAnchors.mkTransform 1 0 0 1 0 0))
            (PropagateAnchors.mkComponent "gravecomb"
               (PropagateAnchors.mkTransform 1 0 0 1 150 0))
            (PropagateAnchors.mkGlyph (Some 111)
               [PropagateAnchors.mkAnchor "top" 150 300] [])
            (PropagateAnchors.mkGlyph (Some 768)
               [PropagateAnchors.mkAnchor "_top" 0 300] [])
            (PropagateAnchors.mkAttachmentRef 0
               (PropagateAnchors.mkAttachment ["top"] ["_top"]))
            0%nat _ _ _ _ _ _ _ _ _ _ _ _ _ _ _).
  - vm_compute; reflexivity.
  - right. split; [reflexivity|]. exists 242.
    split; [reflexivity|]. split; [discriminate|reflexivity].
  - reflexivity.
  - by_compute.
  - vm_compute; reflexivity.
  - reflexivity.
  - reflexivity.
  - vm_compute; reflexivity.
  - reflexivity.
  - reflexivity.
  - vm_compute; reflexivity.
  - vm_compute; reflexivity.
  - by_compute.
  - by_compute.
  - vm_compute; reflexivity.
  - vm_compute; reflexivity.
Defined.

(* ===================================================================== *)
(** ** The propagation: what it changes, and in which order               *)
(* ===================================================================== *)

Section PropagationOutcome.

Import PropagateAnchors.

(** The two ways a call on a glyph of the glyph set returns: nothing to
    do, or the anchors that survive the pruning are appended in sorted
    order. *)
Lemma propagate_outcome (fuel : nat) (ctx : Context) (st : State)
    (g : string) (glyph : Glyph) st' r :
  glyphSet st !! g = Some glyph ->
  propagate_glyph_anchors fuel ctx st g = Ok (st', r) ->
  (glyphSet st' = glyphSet st /\ r = anchors glyph
   /\ (g ∈ processed st \/ components glyph = []))
  \/ exists fuel' st1 propagated category l1 l2,
       fuel = S fuel' /\ (g ∉ processed st) /\ components glyph <> []
       /\ collect_components_anchors (propagate_glyph_anchors fuel' ctx) ctx 0
            (components glyph) (mkState (glyphSet st) ({[g]} ∪ processed st)) []
          = Ok (st1, propagated)
       /\ glyphSet st1 !! g = Some glyph
       /\ get_glyph_category (S fuel') ctx (glyphSet st1) g glyph = Ok category
       /\ prune_undefined_or_present glyph propagated = Ok l1
       /\ prune_by_category (options ctx) glyph category l1 = Ok l2
       /\ st' = append_anchors st1 g (map anchor (sorted pa_le l2))
       /\ r = anchors glyph ++ map anchor (sorted pa_le l2).
Proof.
  intros Eg H. destruct fuel as [|fuel]; [discriminate H|].
  destruct (decide (g ∈ processed st)) as [Hp|Hp].
  { rewrite (propagate_memo _ _ _ _ _ Hp Eg) in H. injection H as <- <-.
    left. auto. }
  destruct (components glyph) as [|c0 comps0] eqn:Ec.
  { rewrite propagate_unfold, Eg, bool_decide_eq_false_2, Ec in H by exact Hp.
    cbv zeta in H. cbn [nonempty negb] in H. injection H as <- <-.
    left. auto. }
  right.
  assert (Hne : components glyph <> []) by (rewrite Ec; discriminate).
  destruct (propagate_composite_inv _ _ _ _ _ _ _ Eg Hp Hne H)
    as (st1 & propagated & glyph1 & category & l1 & l2
        & Hcol & Eg1 & Hcat & Hl1 & Hl2 & -> & ->).
  assert (Hext : extends (mkState (glyphSet st) ({[g]} ∪ processed st)) st1).
  { apply (collect_extends _ _ (fun s h s' r' Hr =>
             proj1 (propagate_extends ctx fuel s h s' r' Hr))) in Hcol.
    exact Hcol. }
  assert (glyph1 = glyph) as ->.
  { destruct Hext as (_ & _ & Hkeep).
    specialize (Hkeep g). cbn [processed glyphSet] in Hkeep.
    rewrite Hkeep, Eg in Eg1
      by (apply elem_of_union_l, elem_of_singleton; reflexivity).
    now injection Eg1. }
  exists fuel, st1, propagated, category, l1, l2.
  rewrite <- Ec. repeat (split; [assumption || reflexivity|]).
  unfold glyph_anchors, append_anchors. cbn [glyphSet].
  now rewrite lookup_alter_eq, Eg1.
Qed.

Lemma append_anchors_lookup (st : State) (g : string) (glyph : Glyph)
    (new : list Anchor) :
  glyphSet st !! g = Some glyph ->
  glyphSet (append_anchors st g new) !! g = Some (with_new_anchors new glyph).
Proof.
  intros Eg. unfold append_anchors. cbn [glyphSet].
  now rewrite lookup_alter_eq, Eg.
Qed.

Lemma append_anchors_other (st : State) (g h : string) (new : list Anchor) :
  h <> g -> glyphSet (append_anchors st g new) !! h = glyphSet st !! h.
Proof.
  intros Hne. unfold append_anchors. cbn [glyphSet].
  now rewrite lookup_alter_ne by congruence.
Qed.

(** *** Which glyphs a propagation may change *)

Lemma changes_refl (st : State) : changes_new_composites_only st st.
Proof. split; [reflexivity|]. intros h. now left. Qed.

Lemma changes_trans (st1 st2 st3 : State) :
  changes_new_composites_only st1 st2 ->
  changes_new_composites_only st2 st3 ->
  changes_new_composites_only st1 st3.
Proof.
  intros [Hp1 H1] [Hp2 H2]. split; [now transitivity (processed st2)|].
  intros h. destruct (H1 h) as [E1|(Hin & Hout & Hc)].
  - destruct (H2 h) as [E2|(Hin & Hout & glyph & Eg & Hc)].
    + left. congruence.
    + right. split; [exact Hin|]. split; [intros Hh; apply Hout, Hp1, Hh|].
      exists glyph. split; [congruence|exact Hc].
  - right. split; [apply Hp2, Hin|]. split; assumption.
Qed.

Lemma collect_changes
    (rec : State -> string -> result (State * list Anchor)) (ctx : Context) :
  (forall st g st' r, rec st g = Ok (st', r) ->
     changes_new_composites_only st st') ->
  forall comps i st acc st' out,
    collect_components_anchors rec ctx i comps st acc = Ok (st', out) ->
    changes_new_composites_only st st'.
Proof.
  intros Hrec. induction comps as [|c comps IH];
    intros i st acc st' out H; simpl in H.
  - injection H as <- _. apply changes_refl.
  - destruct (glyphSet st !! baseGlyph c); [|now apply IH in H].
    destruct (rec st (baseGlyph c)) as [[st1 l]| |] eqn:E; try discriminate H.
    simpl in H. apply IH in H. eapply changes_trans; [|exact H].
    eapply Hrec. exact E.
Qed.

Lemma propagate_changes (ctx : Context) : forall fuel st g st' r,
  propagate_glyph_anchors fuel ctx st g = Ok (st', r) ->
  changes_new_composites_only st st'.
Proof.
  induction fuel as [|fuel IH]; intros st g st' r H; [discriminate H|].
  destruct (propagate_in_glyphSet _ _ _ _ _ _ H) as [glyph Eg].
  destruct (decide (g ∈ processed st)) as [Hp|Hp].
  { rewrite (propagate_memo _ _ _ _ _ Hp Eg) in H. injection H as <- <-.
    apply changes_refl. }
  destruct (components glyph) as [|c0 comps0] eqn:Ec.
  { rewrite propagate_unfold, Eg, bool_decide_eq_false_2, Ec in H by exact Hp.
    cbv zeta in H. cbn [nonempty negb] in H. injection H as <- <-.
    split; [cbn [processed]; apply union_subseteq_r|]. intros h. now left. }
  assert (Hne : components glyph <> []) by (rewrite Ec; discriminate).
  destruct (propagate_composite_inv _ _ _ _ _ _ _ Eg Hp Hne H)
    as (st1 & propagated & glyph1 & category & l1 & l2
        & Hcol & Eg1 & _ & _ & _ & -> & ->).
  apply (collect_changes _ _ (IH)) in Hcol. destruct Hcol as [Hsub Hch].
  cbn [processed glyphSet] in Hsub, Hch.
  split.
  { cbn [append_anchors processed]. intros h Hh. apply Hsub.
    now apply elem_of_union_r. }
  intros h. destruct (decide (h = g)) as [->|Hhg].
  - right. split; [|split; [exact Hp|]].
    + cbn [append_anchors processed]. apply Hsub.
      apply elem_of_union_l, elem_of_singleton. reflexivity.
    + exists glyph. split; [exact Eg|exact Hne].
  - rewrite append_anchors_other by exact Hhg.
    destruct (Hch h) as [E|(Hin & Hout & Hc)]; [now left|].
    right. split; [exact Hin|]. split; [|exact Hc].
    intros Hh. apply Hout. now apply elem_of_union_r.
Qed.

(** *** The order of the appended anchors *)

Lemma tuple3_le_spec (a b : string * Z * Z) :
  tuple3_le a b = true <->
  String.compare (fst (fst a)) (fst (fst b)) = Lt
  \/ (fst (fst a) = fst (fst b)
      /\ (snd (fst a) < snd (fst b)
          \/ (snd (fst a) = snd (fst b) /\ snd a <= snd b))).
Proof.
  destruct a as [[n1 x1] y1], b as [[n2 x2] y2]. cbn [tuple3_le fst snd].
  destruct (String.compare n1 n2) eqn:E.
  - apply String.compare_eq_iff in E. subst n2.
    destruct (Z.ltb_spec x1 x2); [|destruct (Z.ltb_spec x2 x1)];
      [| |rewrite Z.leb_le]; split; intros H'; try discriminate; try lia;
      try (right; split; [reflexivity|lia]);
      destruct H' as [H'|[_ H']]; try discriminate; try lia; reflexivity.
  - split; [now left|reflexivity].
  - split; [discriminate|]. intros [H'|[-> _]]; [discriminate|].
    now rewrite string_compare_refl in E.
Qed.

Lemma tuple3_le_total (a b : string * Z * Z) :
  tuple3_le a b = true \/ tuple3_le b a = true.
Proof.
  rewrite !tuple3_le_spec.
  destruct (String.compare (fst (fst a)) (fst (fst b))) eqn:E.
  - apply String.compare_eq_iff in E.
    destruct (Z.lt_total (snd (fst a)) (snd (fst b))) as [Hx|[Hx|Hx]];
      [left|destruct (Z.le_ge_cases (snd a) (snd b)); [left|right]|right];
      right; (split; [congruence|]); lia.
  - left. now left.
  - right. left. rewrite String.compare_antisym, E. reflexivity.
Qed.

Lemma tuple3_le_trans (a b c : string * Z * Z) :
  tuple3_le a b = true -> tuple3_le b c = true -> tuple3_le a c = true.
Proof.
  rewrite !tuple3_le_spec.
  intros [H1|[E1 H1]] [H2|[E2 H2]].
  - left. eapply string_compare_lt_trans; eassumption.
  - left. now rewrite <- E2.
  - left. now rewrite E1.
  - right. split; [congruence|]. lia.
Qed.

Lemma Sorted_map_key {A B : Type} (f : A -> B) (le : B -> B -> bool)
    (l : list A) :
  Sorted (le_prop (fun a b => le (f a) (f b))) l ->
  Sorted (le_prop le) (map f l).
Proof.
  induction 1 as [|a l Hs IH Hd]; cbn [map]; constructor; [exact IH|].
  destruct Hd; cbn [map]; constructor. assumption.
Qed.

Lemma appended_sorted (l : list PropagatedAnchor) :
  StronglySorted (le_prop tuple3_le)
    (map anchor_tuple (map anchor (sorted pa_le l))).
Proof.
  apply Sorted_StronglySorted.
  { intros a b c. apply tuple3_le_trans. }
  rewrite map_map.
  apply (Sorted_map_key (fun pa => anchor_tuple (anchor pa)) tuple3_le).
  apply (sorted_Sorted pa_le).
  intros a b. apply tuple3_le_total.
Qed.

End PropagationOutcome.

(** The anchors that a propagation gives a glyph come after the glyph's
    own anchors, in the order of their name, then x, then y: the loop
    appends [sorted(propagated_anchors, key=(name, x, y))]. *)
Theorem appended_anchors_sorted :
  forall (ctx : PropagateAnchors.Context) (fuel : nat)
         (st : PropagateAnchors.State) (g : string)
         (glyph : PropagateAnchors.Glyph) (st' : PropagateAnchors.State)
         (r : list PropagateAnchors.Anchor),
    PropagateAnchors.glyphSet st !! g = Some glyph ->
    PropagateAnchors.propagate_glyph_anchors fuel ctx st g = Ok (st', r) ->
    exists new,
      PropagateAnchors.glyphSet st' !! g = Some (with_new_anchors new glyph)
      /\ r = PropagateAnchors.anchors glyph ++ new
      /\ StronglySorted (le_prop tuple3_le) (map anchor_tuple new).
Proof.
  intros ctx fuel st g glyph st' r Eg H.
  destruct (propagate_outcome _ _ _ _ _ _ _ Eg H)
    as [(Hgs & -> & _)
       |(fuel' & st1 & propagated & category & l1 & l2 & _ & _ & _ & _
         & Eg1 & _ & _ & _ & -> & ->)].
  - exists []. rewrite Hgs, Eg, with_no_new_anchors, app_nil_r.
    repeat split. constructor.
  - exists (map PropagateAnchors.anchor (sorted PropagateAnchors.pa_le l2)).
    split; [now apply append_anchors_lookup|].
    split; [reflexivity|apply appended_sorted].
Qed.

Lemma appended_anchors_sorted_witness :
  exists new,
    PropagateAnchors.glyphSet LigatureExample.after_first !! "a_a"
    = Some (with_new_anchors new
              (PropagateAnchors.mkGlyph None []
                 [PropagateAnchors.mkComponent "a"
                    (PropagateAnchors.mkTransform 1 0 0 1 0 0);
                  PropagateAnchors.mkComponent "a"
                    (PropagateAnchors.mkTransform 1 0 0 1 350 0)]))
    /\ PropagateAnchors.glyph_anchors LigatureExample.after_first "a_a"
       = [] ++ new
    /\ StronglySorted (le_prop tuple3_le) (map anchor_tuple new).
Proof.
  apply (appended_anchors_sorted LigatureExample.ctx 5
           LigatureExample.start "a_a"
           (PropagateAnchors.mkGlyph None []
              [PropagateAnchors.mkComponent "a"
                 (PropagateAnchors.mkTransform 1 0 0 1 0 0);
               PropagateAnchors.mkComponent "a"
                 (PropagateAnchors.mkTransform 1 0 0 1 350 0)])
           LigatureExample.after_first
           (PropagateAnchors.glyph_anchors LigatureExample.after_first "a_a")).
  - vm_compute. reflexivity.
  - vm_compute. reflexivity.
Defined.

(** [filter] answers whether anchors were appended: its result is true
    exactly when the glyph has got at least one new anchor; and a glyph
    without components is left out altogether, the state is as before
    (it is not even marked as processed). *)
Theorem filter_reports_appended_anchors :
  forall (ctx : PropagateAnchors.Context) (fuel : nat)
         (st : PropagateAnchors.State) (g : string)
         (st' : PropagateAnchors.State) (b : bool),
    PropagateAnchors.filter fuel ctx st g = Ok (st', b) ->
    exists glyph new,
      PropagateAnchors.glyphSet st !! g = Some glyph
      /\ PropagateAnchors.glyphSet st' !! g = Some (with_new_anchors new glyph)
      /\ b = nonempty new
      /\ (PropagateAnchors.components glyph = [] -> st' = st /\ b = false).
Proof.
  intros ctx fuel st g st' b H. unfold PropagateAnchors.filter in H.
  destruct (PropagateAnchors.glyphSet st !! g) as [glyph|] eqn:Eg;
    [|discriminate H].
  exists glyph.
  destruct (PropagateAnchors.components glyph) as [|c comps] eqn:Ec.
  { cbn [nonempty negb] in H. injection H as <- <-. exists [].
    rewrite Eg, with_no_new_anchors. auto. }
  cbn [nonempty negb] in H. cbv zeta in H.
  bind_ok H as p Ep. destruct p as [st1 l]. injection H as <- <-.
  destruct (propagate_outcome _ _ _ _ _ _ _ Eg Ep)
    as [(Hgs & -> & _)
       |(fuel' & st0 & propagated & category & l1 & l2 & _ & _ & _ & _
         & Eg1 & _ & _ & _ & -> & ->)].
  - exists []. rewrite Hgs, Eg, with_no_new_anchors, Nat.ltb_irrefl.
    repeat split; discriminate.
  - exists (map PropagateAnchors.anchor (sorted PropagateAnchors.pa_le l2)).
    split; [reflexivity|]. split; [now apply append_anchors_lookup|].
    split; [|discriminate].
    rewrite length_app.
    destruct (map PropagateAnchors.anchor (sorted PropagateAnchors.pa_le l2));
      cbn [length nonempty].
    + rewrite Nat.add_0_r. apply Nat.ltb_irrefl.
    + apply Nat.ltb_lt. lia.
Qed.

Lemma filter_reports_appended_anchors_witness :
  exists glyph new,
    PropagateAnchors.glyphSet DieresisExample.start !! "adieresis" = Some glyph
    /\ PropagateAnchors.glyphSet (DieresisExample.after "adieresis")
         !! "adieresis" = Some (with_new_anchors new glyph)
    /\ true = nonempty new
    /\ (PropagateAnchors.components glyph = [] ->
        DieresisExample.after "adieresis" = DieresisExample.start
        /\ true = false).
Proof.
  apply (filter_reports_appended_anchors DieresisExample.ctx 5
           DieresisExample.start "adieresis"
           (DieresisExample.after "adieresis") true).
  vm_compute. reflexivity.
Defined.

(** What a propagation may change.  It creates and deletes no glyph.  A
    glyph that was there is still there, with its Unicode value, its
    components and its anchors, and with the anchors it was given after
    them.  It is given none when it has no components, when it was
    processed before the call or when it is not processed after it: only
    composites that this call marks as processed are given anchors.  The
    processed set only grows. *)
Theorem propagation_changes_only_new_composites :
  forall (ctx : PropagateAnchors.Context) (fuel : nat)
         (st : PropagateAnchors.State) (g : string)
         (st' : PropagateAnchors.State) (r : list PropagateAnchors.Anchor),
    PropagateAnchors.propagate_glyph_anchors fuel ctx st g = Ok (st', r) ->
    PropagateAnchors.processed st ⊆ PropagateAnchors.processed st'
    /\ forall h,
         (PropagateAnchors.glyphSet st !! h = None ->
          PropagateAnchors.glyphSet st' !! h = None)
         /\ (forall glyph,
               PropagateAnchors.glyphSet st !! h = Some glyph ->
               (exists new,
                  PropagateAnchors.glyphSet st' !! h
                  = Some (with_new_anchors new glyph))
               /\ (PropagateAnchors.components glyph = []
                   \/ h ∈ PropagateAnchors.processed st
                   \/ h ∉ PropagateAnchors.processed st' ->
                   PropagateAnchors.glyphSet st' !! h = Some glyph)).
Proof.
  intros ctx fuel st g st' r H.
  destruct (propagate_changes _ _ _ _ _ _ H) as [Hsub Hch].
  destruct (propagate_extends _ _ _ _ _ _ H) as (Hext & _ & _).
  split; [exact Hsub|]. intros h.
  destruct (Hch h) as [E|(Hin & Hout & glyph' & Eg' & Hc)].
  - split; [intros; congruence|]. intros glyph Eg.
    split; [|intros; congruence].
    exists []. rewrite with_no_new_anchors. congruence.
  - split; [congruence|].
    intros glyph Eg. split; [now apply (extends_lookup st st')|].
    intros [Hleaf|[Hp|Hp]]; [|contradiction|contradiction].
    congruence.
Qed.

Lemma propagation_changes_only_new_composites_witness :
  PropagateAnchors.processed DieresisExample.start
  ⊆ PropagateAnchors.processed (DieresisExample.after "adieresis")
  /\ forall h,
       (PropagateAnchors.glyphSet DieresisExample.start !! h = None ->
        PropagateAnchors.glyphSet (DieresisExample.after "adieresis") !! h
        = None)
       /\ (forall glyph,
             PropagateAnchors.glyphSet DieresisExample.start !! h = Some glyph ->
             (exists new,
                PropagateAnchors.glyphSet (DieresisExample.after "adieresis")
                  !! h
                = Some (with_new_anchors new glyph))
             /\ (PropagateAnchors.components glyph = []
                 \/ h ∈ PropagateAnchors.processed DieresisExample.start
                 \/ h ∉ PropagateAnchors.processed
                         (DieresisExample.after "adieresis") ->
                 PropagateAnchors.glyphSet (DieresisExample.after "adieresis")
                   !! h
                 = Some glyph)).
Proof.
  apply (propagation_changes_only_new_composites DieresisExample.ctx 5
           DieresisExample.start "adieresis"
           (DieresisExample.after "adieresis")
           [PropagateAnchors.mkAnchor "top" 175 480]).
  vm_compute. reflexivity.
Defined.

(* ===================================================================== *)
(** ** Looking an anchor name up in the attachments                       *)
(* ===================================================================== *)

Section AttachmentLookup.

Import PropagateAnchors.

(** A name is listed by an attachment, as base or as mark. *)
Lemma lists_name_decide (a : Attachment) (n : string) :
  bool_decide (n ∈ base a) || bool_decide (n ∈ mark a) = true
  <-> n ∈ base a \/ n ∈ mark a.
Proof.
  rewrite orb_true_iff, !bool_decide_eq_true. reflexivity.
Qed.

Lemma find_attachment_Some (n : string) : forall l i r,
  find_attachment i l n = Some r ->
  (i <= att_id r)%nat
  /\ l !! (att_id r - i)%nat = Some (att r)
  /\ (n ∈ base (att r) \/ n ∈ mark (att r))
  /\ forall j a, (j < att_id r - i)%nat -> l !! j = Some a ->
       (n ∉ base a) /\ (n ∉ mark a).
Proof.
  induction l as [|a l IH]; intros i r H; cbn [find_attachment] in H;
    [discriminate H|].
  destruct (bool_decide (n ∈ base a) || bool_decide (n ∈ mark a)) eqn:E.
  - injection H as <-. cbn [att_id att]. rewrite Nat.sub_diag.
    split; [lia|]. split; [reflexivity|].
    split; [now apply lists_name_decide|]. intros j b Hj. lia.
  - destruct (IH _ _ H) as (Hle & Hl & Hn & Hfirst).
    split; [lia|].
    replace (att_id r - i)%nat with (S (att_id r - S i)) by lia.
    split; [exact Hl|]. split; [exact Hn|].
    intros [|j] b Hj Hb.
    + injection Hb as <-.
      apply orb_false_iff in E as [E1 E2].
      now apply bool_decide_eq_false in E1, E2.
    + apply (Hfirst j b); [lia|exact Hb].
Qed.

Lemma find_attachment_None (n : string) : forall l i,
  find_attachment i l n = None <->
  forall a, a ∈ l -> (n ∉ base a) /\ (n ∉ mark a).
Proof.
  induction l as [|a l IH]; intros i; cbn [find_attachment].
  - split; [|reflexivity]. intros _ a Ha. now apply elem_of_nil in Ha.
  - destruct (bool_decide (n ∈ base a) || bool_decide (n ∈ mark a)) eqn:E.
    + split; [discriminate|]. intros H.
      apply lists_name_decide in E. destruct (H a) as [H1 H2]; [left|tauto].
    + rewrite IH. apply orb_false_iff in E as [E1 E2].
      apply bool_decide_eq_false in E1, E2.
      split.
      * intros H b Hb. apply elem_of_cons in Hb as [->|Hb]; [tauto|now apply H].
      * intros H b Hb. apply H. now right.
Qed.

(** In the attachments collected from the anchor names of a font, a name
    is listed once: by one attachment, in one role. *)
Lemma collected_once (opts : Options) (names : list string)
    (i j : nat) (a b : Attachment) (n : string) :
  opt_attachments opts = [] ->
  collect_attachments opts names !! i = Some a ->
  collect_attachments opts names !! j = Some b ->
  n ∈ base a \/ n ∈ mark a ->
  n ∈ base b \/ n ∈ mark b ->
  i = j.
Proof.
  intros Hopts Ha Hb Hna Hnb.
  destruct (collect_attachments_keyed opts names Hopts)
    as (keyed & E & Hnd & _ & Hmem).
  rewrite E in Ha, Hb. rewrite list_lookup_fmap in Ha, Hb.
  destruct (keyed !! i) as [[ka a']|] eqn:Ei; [|discriminate Ha].
  destruct (keyed !! j) as [[kb b']|] eqn:Ej; [|discriminate Hb].
  cbn in Ha, Hb. injection Ha as ->. injection Hb as ->.
  assert (Hka : snd (anchor_role n) = ka).
  { destruct (Hmem ka a) as (_ & _ & Hbase & Hmark);
      [eapply list_elem_of_lookup_2; exact Ei|].
    destruct Hna as [Hn|Hn]; [apply Hbase in Hn|apply Hmark in Hn];
      destruct Hn as [_ ->]; reflexivity. }
  assert (Hkb : snd (anchor_role n) = kb).
  { destruct (Hmem kb b) as (_ & _ & Hbase & Hmark);
      [eapply list_elem_of_lookup_2; exact Ej|].
    destruct Hnb as [Hn|Hn]; [apply Hbase in Hn|apply Hmark in Hn];
      destruct Hn as [_ ->]; reflexivity. }
  apply (NoDup_lookup (map fst keyed) i j ka); [exact Hnd| |].
  - now rewrite list_lookup_fmap, Ei.
  - rewrite list_lookup_fmap, Ej. cbn. congruence.
Qed.

End AttachmentLookup.

(** [get_anchor_attachment] returns the first attachment of the context
    that lists the name, as a base name or as a mark name, and [None]
    exactly when no attachment lists it. *)
Theorem get_anchor_attachment_first_listing :
  forall (ctx : PropagateAnchors.Context) (n : string),
    match PropagateAnchors.get_anchor_attachment ctx n with
    | Some r =>
        PropagateAnchors.attachments ctx !! PropagateAnchors.att_id r
        = Some (PropagateAnchors.att r)
        /\ (n ∈ PropagateAnchors.base (PropagateAnchors.att r)
            \/ n ∈ PropagateAnchors.mark (PropagateAnchors.att r))
        /\ forall j a, (j < PropagateAnchors.att_id r)%nat ->
             PropagateAnchors.attachments ctx !! j = Some a ->
             (n ∉ PropagateAnchors.base a) /\ (n ∉ PropagateAnchors.mark a)
    | None =>
        forall a, a ∈ PropagateAnchors.attachments ctx ->
          (n ∉ PropagateAnchors.base a) /\ (n ∉ PropagateAnchors.mark a)
    end.
Proof.
  intros ctx n. unfold PropagateAnchors.get_anchor_attachment.
  destruct (PropagateAnchors.find_attachment 0
              (PropagateAnchors.attachments ctx) n) as [r|] eqn:E.
  - apply find_attachment_Some in E as (_ & Hl & Hn & Hfirst).
    rewrite Nat.sub_0_r in Hl, Hfirst. auto.
  - exact (proj1 (find_attachment_None n _ 0%nat) E).
Qed.

(** Without an [attachments] option, the attachments collected from the
    font's anchor names list only names of the font, list a name in one
    role only, and no two of them list the same name; so the attachment
    that [get_anchor_attachment] finds for a name does not depend on the
    order in which Python iterates the set of attachments. *)
Theorem collected_attachments_list_a_name_once :
  forall (opts : PropagateAnchors.Options) (names : list string),
    PropagateAnchors.opt_attachments opts = [] ->
    (forall (i : nat) (a : PropagateAnchors.Attachment) (n : string),
       PropagateAnchors.collect_attachments opts names !! i = Some a ->
       n ∈ PropagateAnchors.base a \/ n ∈ PropagateAnchors.mark a ->
       n ∈ names
       /\ ~ (n ∈ PropagateAnchors.base a /\ n ∈ PropagateAnchors.mark a)
       /\ forall j b,
            PropagateAnchors.collect_attachments opts names !! j = Some b ->
            n ∈ PropagateAnchors.base b \/ n ∈ PropagateAnchors.mark b ->
            j = i)
    /\ (forall (l : list PropagateAnchors.Attachment) (n : string),
          l ≡ₚ PropagateAnchors.collect_attachments opts names ->
          PropagateAnchors.att <$> PropagateAnchors.find_attachment 0 l n
          = PropagateAnchors.att
              <$> PropagateAnchors.find_attachment 0
                    (PropagateAnchors.collect_attachments opts names) n).
Proof.
  intros opts names Hopts.
  assert (Hone : forall (i : nat) (a : PropagateAnchors.Attachment) (n : string),
       PropagateAnchors.collect_attachments opts names !! i = Some a ->
       n ∈ PropagateAnchors.base a \/ n ∈ PropagateAnchors.mark a ->
       n ∈ names
       /\ ~ (n ∈ PropagateAnchors.base a /\ n ∈ PropagateAnchors.mark a)
       /\ forall j b,
            PropagateAnchors.collect_attachments opts names !! j = Some b ->
            n ∈ PropagateAnchors.base b \/ n ∈ PropagateAnchors.mark b ->
            j = i).
  { intros i a n Ha Hn.
    destruct (collect_attachments_keyed opts names Hopts)
      as (keyed & E & _ & _ & Hmem).
    assert (Hin : a ∈ map snd keyed)
      by (rewrite <- E; eapply list_elem_of_lookup_2; exact Ha).
    apply list_elem_of_fmap in Hin as ([k a'] & -> & Hk). cbn [snd] in *.
    destruct (Hmem k a' Hk) as (_ & _ & Hbase & Hmark).
    split; [|split].
    - destruct Hn as [Hn|Hn]; [apply Hbase in Hn|apply Hmark in Hn]; tauto.
    - intros [H1 H2]. apply Hbase in H1 as [_ H1].
      apply Hmark in H2 as [_ H2]. congruence.
    - intros j b Hb Hnb.
      exact (collected_once opts names j i b a' n Hopts Hb Ha Hnb Hn). }
  split; [exact Hone|].
  intros l n Hperm.
  destruct (PropagateAnchors.find_attachment 0 l n) as [r|] eqn:E1;
    destruct (PropagateAnchors.find_attachment 0
                (PropagateAnchors.collect_attachments opts names) n)
      as [r'|] eqn:E2; cbn [fmap option_fmap option_map].
  - apply find_attachment_Some in E1 as (_ & Hl & Hn & _).
    apply find_attachment_Some in E2 as (_ & Hl' & Hn' & _).
    assert (Hin : PropagateAnchors.att r
                  ∈ PropagateAnchors.collect_attachments opts names).
    { rewrite <- Hperm. eapply list_elem_of_lookup_2. exact Hl. }
    apply list_elem_of_lookup_1 in Hin as [j Hj].
    destruct (Hone _ _ n Hl' Hn') as (_ & _ & Huniq).
    specialize (Huniq j _ Hj Hn). subst j. congruence.
  - apply find_attachment_Some in E1 as (_ & Hl & Hn & _).
    rewrite find_attachment_None in E2.
    destruct (E2 (PropagateAnchors.att r)); [|tauto].
    rewrite <- Hperm. eapply list_elem_of_lookup_2. exact Hl.
  - apply find_attachment_Some in E2 as (_ & Hl & Hn & _).
    rewrite find_attachment_None in E1.
    destruct (E1 (PropagateAnchors.att r')); [|tauto].
    rewrite Hperm. eapply list_elem_of_lookup_2. exact Hl.
  - reflexivity.
Qed.

Lemma collected_attachments_list_a_name_once_witness :
  PropagateAnchors.att
    <$> PropagateAnchors.find_attachment 0
          [PropagateAnchors.mkAttachment ["bottom"] ["_bottom"];
           PropagateAnchors.mkAttachment ["top"; "top_1"] ["_top"]] "top_1"
  = PropagateAnchors.att
      <$> PropagateAnchors.find_attachment 0
            (PropagateAnchors.collect_attachments
               PropagateAnchors.default_options
               ["top"; "_top"; "bottom"; "top_1"; "_bottom"]) "top_1".
Proof.
  apply (proj2 (collected_attachments_list_a_name_once
                  PropagateAnchors.default_options
                  ["top"; "_top"; "bottom"; "top_1"; "_bottom"] eq_refl)).
  vm_compute. apply perm_swap.
Defined.

(* ===================================================================== *)
(** ** Matching mark anchors with base anchors                            *)
(* ===================================================================== *)

Section Matching.

Import PropagateAnchors.

Implicit Types (pa : PropagatedAnchor) (P : list PropagatedAnchor).

(** One round of the inner loop, by [base_candidate]. *)
Lemma closest_base_step pa1 a1 (matched : option (Z * PropagatedAnchor)) pa2 :
  (if pa_eqb pa1 pa2 then matched
   else if negb (same_attachment (attachment pa1) (attachment pa2)) then matched
   else if negb (bool_decide (name (anchor pa2) ∈ base a1)) then matched
   else if Nat.eqb (component pa1) (component pa2) then matched
   else
     let distance := _distance (pos pa1) (pos pa2) in
     match matched with
     | None => Some (distance, pa2)
     | Some (matched_distance, _) =>
         if distance <? matched_distance then Some (distance, pa2)
         else matched
     end)
  = if base_candidate pa1 a1 pa2 then
      match matched with
      | None => Some (pa_distance pa1 pa2, pa2)
      | Some (matched_distance, _) =>
          if pa_distance pa1 pa2 <? matched_distance
          then Some (pa_distance pa1 pa2, pa2)
          else matched
      end
    else matched.
Proof.
  unfold base_candidate, pa_distance.
  destruct (pa_eqb pa1 pa2); [reflexivity|].
  destruct (same_attachment (attachment pa1) (attachment pa2)); [|reflexivity].
  destruct (bool_decide (name (anchor pa2) ∈ base a1)); [|reflexivity].
  destruct (Nat.eqb (component pa1) (component pa2)); reflexivity.
Qed.

Lemma closest_base_fold pa1 a1 : forall P seen matched,
  closest_so_far pa1 a1 seen matched ->
  closest_so_far pa1 a1 (seen ++ P)
    (fold_left
       (fun matched pa2 =>
          if pa_eqb pa1 pa2 then matched
          else if negb (same_attachment (attachment pa1) (attachment pa2))
          then matched
          else if negb (bool_decide (name (anchor pa2) ∈ base a1)) then matched
          else if Nat.eqb (component pa1) (component pa2) then matched
          else
            let distance := _distance (pos pa1) (pos pa2) in
            match matched with
            | None => Some (distance, pa2)
            | Some (matched_distance, _) =>
                if distance <? matched_distance then Some (distance, pa2)
                else matched
            end)
       P matched).
Proof.
  induction P as [|pa2 P IH]; intros seen matched Hinv; cbn [fold_left].
  - now rewrite app_nil_r.
  - rewrite closest_base_step.
    replace (seen ++ pa2 :: P) with ((seen ++ [pa2]) ++ P)
      by now rewrite <- app_assoc.
    apply IH.
    destruct (base_candidate pa1 a1 pa2) eqn:Ec.
    + destruct matched as [[d m]|].
      * destruct Hinv as (Hin & Hc & Hd & Hmin).
        destruct (Z.ltb_spec (pa_distance pa1 pa2) d) as [Hlt|Hge].
        -- split; [apply elem_of_app; right; now left|].
           split; [exact Ec|]. split; [reflexivity|].
           intros pa Hpa Hcand. apply elem_of_app in Hpa as [Hpa|Hpa].
           ++ specialize (Hmin pa Hpa Hcand). lia.
           ++ apply list_elem_of_singleton in Hpa as ->. lia.
        -- split; [apply elem_of_app; now left|].
           split; [exact Hc|]. split; [exact Hd|].
           intros pa Hpa Hcand. apply elem_of_app in Hpa as [Hpa|Hpa].
           ++ now apply Hmin.
           ++ apply list_elem_of_singleton in Hpa as ->. exact Hge.
      * split; [apply elem_of_app; right; now left|].
        split; [exact Ec|]. split; [reflexivity|].
        intros pa Hpa Hcand. apply elem_of_app in Hpa as [Hpa|Hpa].
        -- rewrite (Hinv pa Hpa) in Hcand. discriminate Hcand.
        -- apply list_elem_of_singleton in Hpa as ->. lia.
    + destruct matched as [[d m]|].
      * destruct Hinv as (Hin & Hc & Hd & Hmin).
        split; [apply elem_of_app; now left|].
        split; [exact Hc|]. split; [exact Hd|].
        intros pa Hpa Hcand. apply elem_of_app in Hpa as [Hpa|Hpa].
        -- now apply Hmin.
        -- apply list_elem_of_singleton in Hpa as ->. congruence.
      * intros pa Hpa. apply elem_of_app in Hpa as [Hpa|Hpa].
        -- now apply Hinv.
        -- now apply list_elem_of_singleton in Hpa as ->.
Qed.

End Matching.

(** The inner loop of [_prune_attached_anchors] finds, for a mark anchor,
    a closest base anchor: an anchor of the list that is another anchor,
    of the same attachment, listed as a base name, from another
    component, at the least squared distance of all such anchors; and
    none exactly when the list has no such anchor. *)
Theorem closest_base_is_nearest_candidate :
  forall (pa1 : PropagateAnchors.PropagatedAnchor)
         (a1 : PropagateAnchors.Attachment)
         (P : list PropagateAnchors.PropagatedAnchor),
    match PropagateAnchors.closest_base pa1 a1 P with
    | Some (d, pa2) =>
        pa2 ∈ P /\ base_candidate pa1 a1 pa2 = true
        /\ d = pa_distance pa1 pa2
        /\ forall pa, pa ∈ P -> base_candidate pa1 a1 pa = true ->
             d <= pa_distance pa1 pa
    | None => forall pa, pa ∈ P -> base_candidate pa1 a1 pa = false
    end.
Proof.
  intros pa1 a1 P.
  apply (closest_base_fold pa1 a1 P [] None).
  intros pa Hpa. now apply elem_of_nil in Hpa.
Qed.

(* ===================================================================== *)
(** ** Composites: marks, missing components, processed components        *)
(* ===================================================================== *)

Section Composites.

Import PropagateAnchors.

Implicit Types (pa : PropagatedAnchor) (P l : list PropagatedAnchor).

(** *** Mark composites *)

Lemma get_glyph_category_mark (fuel : nat) (ctx : Context)
    (gs : gmap string Glyph) (g : string) (glyph : Glyph) :
  mark_by_metadata ctx g glyph ->
  get_glyph_category (S fuel) ctx gs g glyph = Ok (Some "mark").
Proof.
  intros [Hc|(Hc & uv & Hu & Hnz & Hm)]; cbn [get_glyph_category]; rewrite Hc.
  - reflexivity.
  - rewrite Hu. cbn [default from_option id].
    destruct (Z.eqb_spec uv 0) as [->|_]; [now contradict Hnz|].
    cbn [negb]. now rewrite Hm.
Qed.

Lemma elem_of_opposites_of (opts : Options) (names : list string) (o : string) :
  o ∈ opposites_of opts names <->
  exists n, n ∈ names /\ opposite_of opts n o.
Proof.
  unfold opposites_of, opposite_of.
  induction names as [|n names IH]; cbn [map concat].
  - split; [intros H; now apply elem_of_nil in H|].
    intros (n & Hn & _). now apply elem_of_nil in Hn.
  - rewrite !elem_of_app, IH. split.
    + intros [[H|H]|(n' & Hn' & Ho)].
      * exists n. split; [now left|]. left.
        destruct (vertical_opposites opts !! n) as [v|];
          [apply list_elem_of_singleton in H; now subst|now apply elem_of_nil in H].
      * exists n. split; [now left|]. right.
        destruct (horizontal_opposites opts !! n) as [v|];
          [apply list_elem_of_singleton in H; now subst|now apply elem_of_nil in H].
      * exists n'. split; [now right|exact Ho].
    + intros (n' & Hn' & Ho). apply elem_of_cons in Hn' as [->|Hn'].
      * left. destruct Ho as [Ho|Ho]; rewrite Ho; [left|right]; now left.
      * right. eauto.
Qed.

Lemma prune_opposite_mark_anchors_spec (opts : Options) (glyph : Glyph) P l :
  prune_opposite_mark_anchors opts glyph P = Ok l ->
  l `sublist_of` P
  /\ forall pa, pa ∈ l ->
       exists a, attachment_of pa = Ok a
                 /\ forall n o, n ∈ base a -> opposite_of opts n o ->
                      o ∉ map name (anchors glyph).
Proof.
  unfold prune_opposite_mark_anchors. intros H.
  apply prune_loop_spec in H as [Hsub Hcond]. split; [exact Hsub|].
  intros pa Hin. specialize (Hcond pa Hin). cbn beta in Hcond.
  bind_ok Hcond as a E. exists a. split; [reflexivity|].
  injection Hcond as Hb. intros n o Hn Ho Hown.
  apply not_true_iff_false in Hb. apply Hb.
  apply existsb_exists. exists o. split.
  - apply list_elem_of_In, elem_of_opposites_of. eauto.
  - now apply bool_decide_eq_true.
Qed.

Lemma prune_by_category_mark (opts : Options) (glyph : Glyph) P l :
  prune_by_category opts glyph (Some "mark") P = Ok l ->
  l `sublist_of` P
  /\ forall pa, pa ∈ l ->
       exists a, attachment_of pa = Ok a
                 /\ forall n o, n ∈ base a -> opposite_of opts n o ->
                      o ∉ map name (anchors glyph).
Proof.
  unfold prune_by_category.
  rewrite (bool_decide_eq_false_2 (Some "mark" = Some "base")) by discriminate.
  rewrite (bool_decide_eq_true_2 (Some "mark" = Some "mark")) by reflexivity.
  intros H. bind_ok H as l1 E1.
  apply prune_opposite_mark_anchors_spec in E1 as [Hsub1 Hl1].
  apply prune_attached_anchors_sublist in H.
  split; [now transitivity l1|].
  intros pa Hin. apply Hl1. eapply elem_of_sublist; eassumption.
Qed.

(** *** Components that are not in the glyph set *)

Lemma collect_missing
    (rec : State -> string -> result (State * list Anchor)) (ctx : Context) :
  forall comps i st acc,
    (forall c, c ∈ comps -> glyphSet st !! baseGlyph c = None) ->
    collect_components_anchors rec ctx i comps st acc = Ok (st, acc).
Proof.
  induction comps as [|c comps IH]; intros i st acc Hmiss;
    cbn [collect_components_anchors]; [reflexivity|].
  rewrite (Hmiss c) by now left.
  apply IH. intros c' Hc'. apply Hmiss. now right.
Qed.

Lemma category_of_missing_components (fuel : nat) (ctx : Context)
    (gs : gmap string Glyph) (g : string) (glyph : Glyph) :
  (forall c, c ∈ components glyph -> gs !! baseGlyph c = None) ->
  exists category, get_glyph_category (S fuel) ctx gs g glyph = Ok category.
Proof.
  intros Hmiss. cbn [get_glyph_category]. cbv zeta.
  destruct (match openTypeCategories ctx !! g with
            | Some c => negb (String.eqb c "")
            | None => false
            end); [eauto|].
  destruct (negb (default 0 (unicode glyph) =? 0)).
  { destruct (unicodeIsMark ctx (default 0 (unicode glyph))); eauto. }
  unfold category_of_anchors_and_components.
  destruct (has_mark_anchor ctx glyph); [eauto|].
  destruct (nonempty (components glyph)); [|eauto].
  rewrite component_categories_unclassified; [cbn; eauto|].
  apply List.Forall_forall. intros c Hc. left.
  apply Hmiss. now apply list_elem_of_In.
Qed.

Lemma prune_nothing (opts : Options) (glyph : Glyph)
    (category : option string) :
  prune_by_category opts glyph category [] = Ok [].
Proof.
  unfold prune_by_category.
  repeat match goal with
         | |- context [bool_decide ?p] => destruct (bool_decide p)
         end; reflexivity.
Qed.

Lemma append_no_anchors (st : State) (g : string) :
  glyphSet (append_anchors st g []) = glyphSet st.
Proof.
  unfold append_anchors. cbn [glyphSet]. apply map_eq. intros h.
  destruct (decide (h = g)) as [->|Hne].
  - rewrite lookup_alter_eq. destruct (glyphSet st !! g) as [glyph|]; [|reflexivity].
    cbn [fmap option_fmap option_map]. f_equal. apply with_no_new_anchors.
  - now rewrite lookup_alter_ne by congruence.
Qed.

(** *** The components of a processed composite *)

Lemma collect_processes
    (rec : State -> string -> result (State * list Anchor)) (ctx : Context) :
  (forall st h st' r, rec st h = Ok (st', r) ->
     extends st st' /\ h ∈ processed st') ->
  forall comps i st acc st' out,
    collect_components_anchors rec ctx i comps st acc = Ok (st', out) ->
    extends st st'
    /\ forall c, c ∈ comps -> is_Some (glyphSet st !! baseGlyph c) ->
         baseGlyph c ∈ processed st'.
Proof.
  intros Hrec. induction comps as [|c comps IH];
    intros i st acc st' out H; cbn [collect_components_anchors] in H.
  - injection H as <- _. split; [apply extends_refl|].
    intros c Hc. now apply elem_of_nil in Hc.
  - destruct (glyphSet st !! baseGlyph c) as [gc|] eqn:Egc.
    + bind_ok H as p Ep. destruct p as [st1 ca].
      destruct (Hrec _ _ _ _ Ep) as [Hext1 Hin1].
      destruct (IH _ _ _ _ _ H) as [Hext2 Hall].
      split; [eapply extends_trans; eassumption|].
      intros c' Hc' Hsome. apply elem_of_cons in Hc' as [->|Hc'].
      * destruct Hext2 as (Hsub & _). now apply Hsub.
      * apply Hall; [exact Hc'|].
        destruct Hext1 as (_ & Hframe & _).
        destruct (Hframe (baseGlyph c')) as [new Hnew]. rewrite Hnew.
        destruct Hsome as [gl ->]. cbn. eauto.
    + destruct (IH _ _ _ _ _ H) as [Hext Hall]. split; [exact Hext|].
      intros c' Hc' Hsome. apply elem_of_cons in Hc' as [->|Hc'].
      * rewrite Egc in Hsome. now destruct Hsome.
      * now apply Hall.
Qed.

End Composites.

(** A mark glyph (by its category or its Unicode value) gets from its
    components no anchor whose name it has already, and no anchor of an
    attachment one of whose base names has its opposite among the glyph's
    own anchors: a mark with a [bottom] of its own gets neither [top] nor
    [_top]. *)
Theorem mark_composite_gets_no_opposite_anchor :
  forall (ctx : PropagateAnchors.Context) (fuel : nat)
         (st : PropagateAnchors.State) (g : string)
         (glyph : PropagateAnchors.Glyph) (st' : PropagateAnchors.State)
         (r : list PropagateAnchors.Anchor),
    PropagateAnchors.glyphSet st !! g = Some glyph ->
    mark_by_metadata ctx g glyph ->
    PropagateAnchors.propagate_glyph_anchors fuel ctx st g = Ok (st', r) ->
    exists new,
      PropagateAnchors.glyphSet st' !! g = Some (with_new_anchors new glyph)
      /\ forall a, a ∈ new ->
           (PropagateAnchors.name a
              ∉ map PropagateAnchors.name (PropagateAnchors.anchors glyph))
           /\ exists ref,
                PropagateAnchors.get_anchor_attachment ctx
                  (PropagateAnchors.name a) = Some ref
                /\ forall n o,
                     n ∈ PropagateAnchors.base (PropagateAnchors.att ref) ->
                     opposite_of (PropagateAnchors.options ctx) n o ->
                     o ∉ map PropagateAnchors.name
                           (PropagateAnchors.anchors glyph).
Proof.
  intros ctx fuel st g glyph st' r Eg Hmark H.
  destruct (propagate_outcome _ _ _ _ _ _ _ Eg H)
    as [(Hgs & -> & _)
       |(fuel' & st1 & propagated & category & l1 & l2 & _ & _ & _ & Hcol
         & Eg1 & Hcat & Hl1 & Hl2 & -> & ->)].
  { exists []. rewrite Hgs, Eg, with_no_new_anchors. split; [reflexivity|].
    intros a Ha. now apply elem_of_nil in Ha. }
  rewrite (get_glyph_category_mark _ _ _ _ _ Hmark) in Hcat.
  injection Hcat as <-.
  apply prune_undefined_or_present_spec in Hl1 as [Hsub1 Hl1].
  apply prune_by_category_mark in Hl2 as [Hsub2 Hl2].
  exists (map PropagateAnchors.anchor (sorted PropagateAnchors.pa_le l2)).
  split; [now apply append_anchors_lookup|].
  intros a Ha. apply list_elem_of_fmap in Ha as (pa & -> & Hin).
  assert (Hin2 : pa ∈ l2).
  { apply list_elem_of_In. apply list_elem_of_In in Hin.
    eapply Permutation_in; [apply sorted_perm|exact Hin]. }
  assert (Hin1 : pa ∈ l1) by (eapply elem_of_sublist; eassumption).
  assert (Hin0 : pa ∈ propagated) by (eapply elem_of_sublist; eassumption).
  destruct (Hl1 pa Hin1) as [_ Hfresh]. split; [exact Hfresh|].
  destruct (Hl2 pa Hin2) as (a & Ha & Hopp).
  assert (Hatt := collect_attachment _ _ _ _ _ _ _ _ Hcol
                    (fun p Hp' => False_rect _ (proj1 (elem_of_nil p) Hp')) pa Hin0).
  unfold PropagateAnchors.attachment_of in Ha. rewrite Hatt in Ha.
  destruct (PropagateAnchors.get_anchor_attachment ctx
              (PropagateAnchors.name (PropagateAnchors.anchor pa)))
    as [ref|]; [|discriminate Ha].
  injection Ha as <-. now exists ref.
Qed.

Lemma mark_composite_gets_no_opposite_anchor_witness :
  exists new,
    PropagateAnchors.glyphSet (MarkExample.after "macroncomb.alt")
      !! "macroncomb.alt"
    = Some (with_new_anchors new
              (PropagateAnchors.mkGlyph None
                 [PropagateAnchors.mkAnchor "_top" 0 340]
                 [PropagateAnchors.mkComponent "macroncomb"
                    (PropagateAnchors.mkTransform 1 0 0 1 0 (-30))]))
    /\ forall a, a ∈ new ->
         (PropagateAnchors.name a ∉ ["_top"])
         /\ exists ref,
              PropagateAnchors.get_anchor_attachment MarkExample.ctx
                (PropagateAnchors.name a) = Some ref
              /\ forall n o,
                   n ∈ PropagateAnchors.base (PropagateAnchors.att ref) ->
                   opposite_of PropagateAnchors.default_options n o ->
                   o ∉ ["_top"].
Proof.
  apply (mark_composite_gets_no_opposite_anchor MarkExample.ctx 5
           MarkExample.start "macroncomb.alt"
           (PropagateAnchors.mkGlyph None
              [PropagateAnchors.mkAnchor "_top" 0 340]
              [PropagateAnchors.mkComponent "macroncomb"
                 (PropagateAnchors.mkTransform 1 0 0 1 0 (-30))])
           (MarkExample.after "macroncomb.alt")
           [PropagateAnchors.mkAnchor "_top" 0 340;
            PropagateAnchors.mkAnchor "top" 0 450]).
  - vm_compute. reflexivity.
  - left. vm_compute. reflexivity.
  - vm_compute. reflexivity.
Defined.

(** A component whose base glyph is not in the glyph set is skipped: a
    composite all of whose components are missing is marked as processed
    and keeps its anchors, and the propagation does not fail. *)
Theorem missing_components_are_skipped :
  forall (ctx : PropagateAnchors.Context) (st : PropagateAnchors.State)
         (g : string) (glyph : PropagateAnchors.Glyph) (fuel : nat),
    PropagateAnchors.glyphSet st !! g = Some glyph ->
    g ∉ PropagateAnchors.processed st ->
    (forall c, c ∈ PropagateAnchors.components glyph ->
       PropagateAnchors.glyphSet st !! PropagateAnchors.baseGlyph c = None) ->
    exists st',
      PropagateAnchors.propagate_glyph_anchors (S fuel) ctx st g
      = Ok (st', PropagateAnchors.anchors glyph)
      /\ PropagateAnchors.glyphSet st' = PropagateAnchors.glyphSet st
      /\ PropagateAnchors.processed st'
         = {[g]} ∪ PropagateAnchors.processed st.
Proof.
  intros ctx st g glyph fuel Eg Hp Hmiss.
  rewrite propagate_unfold, Eg, (bool_decide_eq_false_2 _ Hp). cbv zeta.
  destruct (negb (nonempty (PropagateAnchors.components glyph))).
  { eexists. split; [reflexivity|]. split; reflexivity. }
  rewrite collect_missing by exact Hmiss.
  cbn [mbind result_bind Py.bind PropagateAnchors.glyphSet]. rewrite Eg.
  destruct (category_of_missing_components fuel ctx
              (PropagateAnchors.glyphSet st) g glyph Hmiss) as [category Hcat].
  rewrite Hcat. cbn [mbind result_bind Py.bind].
  change (PropagateAnchors.prune_undefined_or_present glyph [])
    with (Ok (@nil PropagateAnchors.PropagatedAnchor)).
  cbn [mbind result_bind Py.bind]. rewrite prune_nothing.
  cbn [mbind result_bind Py.bind sorted map].
  exists (PropagateAnchors.append_anchors
            (PropagateAnchors.mkState (PropagateAnchors.glyphSet st)
               ({[g]} ∪ PropagateAnchors.processed st)) g []).
  split; [|split; [now rewrite append_no_anchors|reflexivity]].
  unfold PropagateAnchors.glyph_anchors.
  rewrite append_no_anchors. cbn [PropagateAnchors.glyphSet].
  now rewrite Eg.
Qed.

Lemma missing_components_are_skipped_witness :
  exists st',
    PropagateAnchors.propagate_glyph_anchors 1 TwoMarksExample.ctx
      TwoMarksExample.start "box"
    = Ok (st', [PropagateAnchors.mkAnchor "top" 10 20])
    /\ PropagateAnchors.glyphSet st'
       = PropagateAnchors.glyphSet TwoMarksExample.start
    /\ PropagateAnchors.processed st'
       = {["box"]} ∪ PropagateAnchors.processed TwoMarksExample.start.
Proof.
  apply (missing_components_are_skipped TwoMarksExample.ctx
           TwoMarksExample.start "box"
           (PropagateAnchors.mkGlyph None
              [PropagateAnchors.mkAnchor "top" 10 20]
              [PropagateAnchors.mkComponent "missing"
                 (PropagateAnchors.mkTransform 1 0 0 1 0 0)]) 0%nat).
  - vm_compute. reflexivity.
  - by_compute.
  - intros c Hc. apply list_elem_of_singleton in Hc as ->.
    vm_compute. reflexivity.
Defined.

(** The processed set after a propagation: it has grown, it holds the
    glyph, and, when the glyph was not processed before, each of its
    components that is in the glyph set; propagating such a component
    again changes nothing and returns its anchors. *)
Theorem propagation_processes_components :
  forall (ctx : PropagateAnchors.Context) (fuel : nat)
         (st : PropagateAnchors.State) (g : string)
         (glyph : PropagateAnchors.Glyph) (st' : PropagateAnchors.State)
         (r : list PropagateAnchors.Anchor),
    PropagateAnchors.glyphSet st !! g = Some glyph ->
    PropagateAnchors.propagate_glyph_anchors fuel ctx st g = Ok (st', r) ->
    PropagateAnchors.processed st ⊆ PropagateAnchors.processed st'
    /\ g ∈ PropagateAnchors.processed st'
    /\ (g ∉ PropagateAnchors.processed st ->
        forall c gc,
          c ∈ PropagateAnchors.components glyph ->
          PropagateAnchors.glyphSet st !! PropagateAnchors.baseGlyph c
          = Some gc ->
          PropagateAnchors.baseGlyph c ∈ PropagateAnchors.processed st'
          /\ exists gc',
               PropagateAnchors.glyphSet st' !! PropagateAnchors.baseGlyph c
               = Some gc'
               /\ forall fuel',
                    PropagateAnchors.propagate_glyph_anchors (S fuel') ctx st'
                      (PropagateAnchors.baseGlyph c)
                    = Ok (st', PropagateAnchors.anchors gc')).
Proof.
  intros ctx fuel st g glyph st' r Eg H.
  destruct (propagate_extends _ _ _ _ _ _ H) as ((Hsub & Hframe & _) & Hg & _).
  split; [exact Hsub|]. split; [exact Hg|].
  intros Hp c gc Hc Egc.
  assert (Hin : PropagateAnchors.baseGlyph c ∈ PropagateAnchors.processed st').
  { destruct (propagate_outcome _ _ _ _ _ _ _ Eg H)
      as [(_ & _ & [Hp'|Hleaf])
         |(fuel' & st1 & propagated & category & l1 & l2 & _ & _ & _ & Hcol
           & _ & _ & _ & _ & -> & _)].
    - contradiction.
    - rewrite Hleaf in Hc. now apply elem_of_nil in Hc.
    - apply (collect_processes _ _
               (fun s h s' r' Hr =>
                  conj (proj1 (propagate_extends ctx fuel' s h s' r' Hr))
                       (proj1 (proj2 (propagate_extends ctx fuel' s h s' r' Hr)))))
        in Hcol as [_ Hall].
      cbn [PropagateAnchors.append_anchors PropagateAnchors.processed].
      apply (Hall c Hc). cbn [PropagateAnchors.glyphSet]. rewrite Egc. eauto. }
  split; [exact Hin|].
  destruct (Hframe (PropagateAnchors.baseGlyph c)) as [new Hnew].
  rewrite Egc in Hnew. cbn in Hnew. eexists. split; [exact Hnew|].
  intros fuel'. now apply propagate_memo.
Qed.

Lemma propagation_processes_components_witness :
  "dieresiscomb" ∈ PropagateAnchors.processed (DieresisExample.after "adieresis").
Proof.
  refine (proj1 (proj2 (proj2
            (propagation_processes_components DieresisExample.ctx 5
               DieresisExample.start "adieresis"
               (PropagateAnchors.mkGlyph (Some 228) []
                  [PropagateAnchors.mkComponent "a"
                     (PropagateAnchors.mkTransform 1 0 0 1 0 0);
                   PropagateAnchors.mkComponent "dieresiscomb"
                     (PropagateAnchors.mkTransform 1 0 0 1 175 0)])
               (DieresisExample.after "adieresis")
               [PropagateAnchors.mkAnchor "top" 175 480] _ _)) _
            (PropagateAnchors.mkComponent "dieresiscomb"
               (PropagateAnchors.mkTransform 1 0 0 1 175 0))
            (PropagateAnchors.mkGlyph (Some 776)
               [PropagateAnchors.mkAnchor "_top" 0 300;
                PropagateAnchors.mkAnchor "top" 0 480] []) _ _)).
  - vm_compute. reflexivity.
  - vm_compute. reflexivity.
  - by_compute.
  - cbn [PropagateAnchors.components]. rewrite !elem_of_cons. auto.
  - vm_compute. reflexivity.
Defined.

(* ===================================================================== *)
(** ** Two marks that attach to one base anchor                           *)
(* ===================================================================== *)

Section TwoMarks.

Import PropagateAnchors.

Implicit Types (pa : PropagatedAnchor) (P : list PropagatedAnchor).

(** The anchors of a component without components of its own are
    collected as they are, and no glyph changes. *)
Lemma collect_leaf_step (n : nat) (ctx : Context) (i : nat) (c : Component)
    (rest : list Component) (st : State) (acc : list PropagatedAnchor)
    (gl : Glyph) :
  glyphSet st !! baseGlyph c = Some gl -> components gl = [] ->
  exists st1,
    glyphSet st1 = glyphSet st
    /\ collect_components_anchors (propagate_glyph_anchors (S n) ctx) ctx i
         (c :: rest) st acc
       = collect_components_anchors (propagate_glyph_anchors (S n) ctx) ctx
           (S i) rest st1
           (acc ++ component_propagated_anchors ctx i c
                     (existsb (fun a => mark_anchor_name (name a)) (anchors gl))
                     (anchors gl)).
Proof.
  intros Egl Ec.
  destruct (propagate_leaf n ctx st _ gl Egl Ec) as (st1 & Hp & Hgs).
  exists st1. split; [exact Hgs|].
  cbn [collect_components_anchors]. rewrite Egl, Hp.
  cbn [mbind result_bind Py.bind].
  unfold glyph_anchors. now rewrite Hgs, Egl.
Qed.

Lemma base_candidate_self pa (a : Attachment) : base_candidate pa a pa = false.
Proof.
  unfold base_candidate, pa_eqb.
  now rewrite (bool_decide_eq_true_2 (pa = pa)) by reflexivity.
Qed.

Lemma base_candidate_not_base pa1 (a1 : Attachment) pa2 :
  name (anchor pa2) ∉ base a1 -> base_candidate pa1 a1 pa2 = false.
Proof.
  intros H. unfold base_candidate.
  rewrite (bool_decide_eq_false_2 _ H). cbn [andb]. now rewrite andb_false_r.
Qed.

Lemma base_candidate_other pa1 (a1 : Attachment) pa2 :
  component pa1 <> component pa2 ->
  attachment pa1 = attachment pa2 ->
  name (anchor pa2) ∈ base a1 ->
  base_candidate pa1 a1 pa2 = true.
Proof.
  intros Hc Ha Hn. unfold base_candidate, pa_eqb, same_attachment.
  rewrite (bool_decide_eq_false_2 (pa1 = pa2)) by (intros ->; now apply Hc).
  rewrite Ha, (bool_decide_eq_true_2 (att_id <$> attachment pa2
                                      = att_id <$> attachment pa2))
    by reflexivity.
  rewrite (bool_decide_eq_true_2 _ Hn).
  apply Nat.eqb_neq in Hc. now rewrite Hc.
Qed.

Lemma closest_base_candidates pa1 (a1 : Attachment) P :
  closest_base pa1 a1 P
  = fold_left
      (fun matched pa2 =>
         if base_candidate pa1 a1 pa2 then
           match matched with
           | None => Some (pa_distance pa1 pa2, pa2)
           | Some (matched_distance, _) =>
               if pa_distance pa1 pa2 <? matched_distance
               then Some (pa_distance pa1 pa2, pa2)
               else matched
           end
         else matched)
      P None.
Proof.
  unfold closest_base. generalize (@None (Z * PropagatedAnchor)).
  induction P as [|pa2 P IH]; intros matched; cbn [fold_left]; [reflexivity|].
  now rewrite closest_base_step, IH.
Qed.

Variables (glyph : Glyph) (ref : AttachmentRef) (A1 A2 A3 : Anchor).
Hypothesis name1 : name A1 = "top".
Hypothesis name2 : name A2 = "_top".
Hypothesis name3 : name A3 = "_top".
Hypothesis own_top : "top" ∉ map name (anchors glyph).
Hypothesis own_mark : "_top" ∉ map name (anchors glyph).
Hypothesis top_base : "top" ∈ base (att ref).
Hypothesis top_mark : "_top" ∈ mark (att ref).
Hypothesis mark_not_base : "_top" ∉ base (att ref).

#[local] Abbreviation pa_b := (from_base_component A1 ref).
#[local] Abbreviation pa_m1 := (from_mark_component A2 ref).
#[local] Abbreviation pa_m2 := (from_second_mark_component A3 ref).

Lemma three_kept :
  prune_undefined_or_present glyph [pa_b; pa_m1; pa_m2]
  = Ok [pa_b; pa_m1; pa_m2].
Proof.
  unfold prune_undefined_or_present.
  cbn [prune_loop attachment anchor from_base_component from_mark_component
       from_second_mark_component mbind result_bind Py.bind].
  rewrite name1, name2, name3.
  now rewrite (bool_decide_eq_false_2 _ own_top),
    (bool_decide_eq_false_2 _ own_mark).
Qed.

Lemma closest_of_first :
  closest_base pa_m1 (att ref) [pa_b; pa_m1; pa_m2]
  = Some (pa_distance pa_m1 pa_b, pa_b).
Proof.
  rewrite closest_base_candidates. cbn [fold_left].
  rewrite (base_candidate_other pa_m1 (att ref) pa_b);
    [|discriminate|reflexivity|cbn; now rewrite name1].
  rewrite base_candidate_self.
  rewrite (base_candidate_not_base pa_m1 (att ref) pa_m2);
    [reflexivity|cbn; now rewrite name3].
Qed.

Lemma closest_of_second :
  closest_base pa_m2 (att ref) [pa_b; pa_m1; pa_m2]
  = Some (pa_distance pa_m2 pa_b, pa_b).
Proof.
  rewrite closest_base_candidates. cbn [fold_left].
  rewrite (base_candidate_other pa_m2 (att ref) pa_b);
    [|discriminate|reflexivity|cbn; now rewrite name1].
  rewrite (base_candidate_not_base pa_m2 (att ref) pa_m1);
    [|cbn; now rewrite name2].
  now rewrite base_candidate_self.
Qed.

Lemma match_anchors_two_marks :
  match_anchors [pa_b; pa_m1; pa_m2] [pa_b; pa_m1; pa_m2] []
  = Ok [("_top", [(pa_distance pa_m1 pa_b, pa_m1, pa_b);
                  (pa_distance pa_m2 pa_b, pa_m2, pa_b)])].
Proof.
  rewrite match_anchors_cons.
  change (attachment_of pa_b) with (Ok (att ref)).
  change (component_is_mark pa_b) with false.
  cbn [mbind result_bind Py.bind negb].
  assert (Hskip : (if negb (bool_decide (name (anchor pa_b) ∈ mark (att ref)))
                   then match_anchors [pa_m1; pa_m2] [pa_b; pa_m1; pa_m2] []
                   else match_anchors [pa_m1; pa_m2] [pa_b; pa_m1; pa_m2] [])
                  = match_anchors [pa_m1; pa_m2] [pa_b; pa_m1; pa_m2] [])
    by now destruct (negb (bool_decide (name (anchor pa_b) ∈ mark (att ref)))).
  rewrite Hskip. clear Hskip.
  rewrite match_anchors_cons.
  change (attachment_of pa_m1) with (Ok (att ref)).
  change (component_is_mark pa_m1) with true.
  change (name (anchor pa_m1)) with (name A2).
  cbn [mbind result_bind Py.bind].
  rewrite name2, (bool_decide_eq_true_2 _ top_mark), closest_of_first.
  cbn [negb matched_append].
  rewrite match_anchors_cons.
  change (attachment_of pa_m2) with (Ok (att ref)).
  change (component_is_mark pa_m2) with true.
  change (name (anchor pa_m2)) with (name A3).
  cbn [mbind result_bind Py.bind].
  rewrite name3, (bool_decide_eq_true_2 _ top_mark), closest_of_second.
  reflexivity.
Qed.

(** The second match finds its base anchor gone. *)
Lemma two_marks_raise (opts : Options) :
  prune_by_category opts glyph (Some "base") [pa_b; pa_m1; pa_m2]
  = Raise (ValueError "list.remove(x): x not in list").
Proof.
  unfold prune_by_category.
  rewrite (bool_decide_eq_true_2 (Some "base" = Some "base")) by reflexivity.
  unfold prune_attached_anchors. rewrite match_anchors_two_marks.
  cbn [mbind result_bind Py.bind remove_all_matches length sorted
       insert_sorted].
  destruct (match_le (pa_distance pa_m1 pa_b, pa_m1, pa_b)
                     (pa_distance pa_m2 pa_b, pa_m2, pa_b));
    cbn [remove_matches andb];
    repeat first
      [ rewrite list_remove_head
      | rewrite list_remove_skip by discriminate
      | progress cbn [mbind result_bind Py.bind prune_loop component
                      from_base_component from_mark_component
                      from_second_mark_component Nat.eqb] ];
    reflexivity.
Qed.

End TwoMarks.

(** A base glyph composed of a base component that carries only [top] and
    two mark components that carry only [_top]: both marks are matched
    with the one [top], the first match removes it, and the second
    [propagated_anchors.remove] of it fails.  The propagation raises
    [ValueError], whatever the positions of the anchors. *)
Theorem two_marks_on_one_base_anchor_raise :
  forall (ctx : PropagateAnchors.Context) (st : PropagateAnchors.State)
         (g : string) (glyph : PropagateAnchors.Glyph)
         (c1 c2 c3 : PropagateAnchors.Component)
         (gb gm1 gm2 : PropagateAnchors.Glyph)
         (ref : PropagateAnchors.AttachmentRef) (n : nat),
    PropagateAnchors.glyphSet st !! g = Some glyph ->
    g ∉ PropagateAnchors.processed st ->
    base_by_metadata ctx g glyph ->
    PropagateAnchors.components glyph = [c1; c2; c3] ->
    "top" ∉ map PropagateAnchors.name (PropagateAnchors.anchors glyph) ->
    "_top" ∉ map PropagateAnchors.name (PropagateAnchors.anchors glyph) ->
    PropagateAnchors.glyphSet st !! PropagateAnchors.baseGlyph c1 = Some gb ->
    PropagateAnchors.components gb = [] ->
    map PropagateAnchors.name (PropagateAnchors.anchors gb) = ["top"] ->
    PropagateAnchors.glyphSet st !! PropagateAnchors.baseGlyph c2 = Some gm1 ->
    PropagateAnchors.components gm1 = [] ->
    map PropagateAnchors.name (PropagateAnchors.anchors gm1) = ["_top"] ->
    PropagateAnchors.glyphSet st !! PropagateAnchors.baseGlyph c3 = Some gm2 ->
    PropagateAnchors.components gm2 = [] ->
    map PropagateAnchors.name (PropagateAnchors.anchors gm2) = ["_top"] ->
    PropagateAnchors.get_anchor_attachment ctx "top" = Some ref ->
    PropagateAnchors.get_anchor_attachment ctx "_top" = Some ref ->
    "top" ∈ PropagateAnchors.base (PropagateAnchors.att ref) ->
    "_top" ∈ PropagateAnchors.mark (PropagateAnchors.att ref) ->
    "_top" ∉ PropagateAnchors.base (PropagateAnchors.att ref) ->
    PropagateAnchors.horizontal_opposites (PropagateAnchors.options ctx)
      !! "top" = None ->
    PropagateAnchors.horizontal_opposites (PropagateAnchors.options ctx)
      !! "_top" = None ->
    PropagateAnchors.propagate_glyph_anchors (S (S n)) ctx st g
    = Raise (ValueError "list.remove(x): x not in list").
Proof.
  intros ctx st g glyph c1 c2 c3 gb gm1 gm2 ref n Eg Hp Hbase Ec Hown1 Hown2
         Eb Ecb Hab Em1 Ecm1 Ham1 Em2 Ecm2 Ham2 Hatt1 Hatt2 Hbs Hmk Hnb Hh1 Hh2.
  apply single_name in Hab as (a1 & Eab & Hn1).
  apply single_name in Ham1 as (a2 & Eam1 & Hn2).
  apply single_name in Ham2 as (a3 & Eam2 & Hn3).
  assert (Hc1 : PropagateAnchors.name
                  (PropagateAnchors.propagated_copy (PropagateAnchors.options ctx)
                     (PropagateAnchors.transformation c1) a1) = "top").
  { rewrite propagated_copy_name; rewrite Hn1; [reflexivity|exact Hh1]. }
  assert (Hc2 : PropagateAnchors.name
                  (PropagateAnchors.propagated_copy (PropagateAnchors.options ctx)
                     (PropagateAnchors.transformation c2) a2) = "_top").
  { rewrite propagated_copy_name; rewrite Hn2; [reflexivity|exact Hh2]. }
  assert (Hc3 : PropagateAnchors.name
                  (PropagateAnchors.propagated_copy (PropagateAnchors.options ctx)
                     (PropagateAnchors.transformation c3) a3) = "_top").
  { rewrite propagated_copy_name; rewrite Hn3; [reflexivity|exact Hh2]. }
  rewrite propagate_unfold, Eg, (bool_decide_eq_false_2 _ Hp), Ec.
  cbv zeta. cbn [nonempty negb].
  destruct (collect_leaf_step n ctx 0 c1 [c2; c3]
              (PropagateAnchors.mkState (PropagateAnchors.glyphSet st)
                 ({[g]} ∪ PropagateAnchors.processed st)) [] gb Eb Ecb)
    as (s1 & Hs1 & ->).
  cbn [PropagateAnchors.glyphSet] in Hs1.
  destruct (collect_leaf_step n ctx 1 c2 [c3] s1
              ([] ++ PropagateAnchors.component_propagated_anchors ctx 0 c1
                       (existsb (fun a => PropagateAnchors.mark_anchor_name
                                            (PropagateAnchors.name a))
                                (PropagateAnchors.anchors gb))
                       (PropagateAnchors.anchors gb))
              gm1 ltac:(now rewrite Hs1) Ecm1)
    as (s2 & Hs2 & ->).
  destruct (collect_leaf_step n ctx 2 c3 [] s2
              (([] ++ PropagateAnchors.component_propagated_anchors ctx 0 c1
                        (existsb (fun a => PropagateAnchors.mark_anchor_name
                                             (PropagateAnchors.name a))
                                 (PropagateAnchors.anchors gb))
                        (PropagateAnchors.anchors gb))
               ++ PropagateAnchors.component_propagated_anchors ctx 1 c2
                    (existsb (fun a => PropagateAnchors.mark_anchor_name
                                         (PropagateAnchors.name a))
                             (PropagateAnchors.anchors gm1))
                    (PropagateAnchors.anchors gm1))
              gm2 ltac:(now rewrite Hs2, Hs1) Ecm2)
    as (s3 & Hs3 & ->).
  cbn [PropagateAnchors.collect_components_anchors mbind result_bind Py.bind].
  rewrite Hs3, Hs2, Hs1, Eg.
  rewrite (get_glyph_category_base _ _ _ _ _ Hbase).
  cbn [mbind result_bind Py.bind].
  rewrite Eab, Eam1, Eam2. cbn [existsb]. rewrite Hn1, Hn2, Hn3.
  change (PropagateAnchors.mark_anchor_name "top") with false.
  change (PropagateAnchors.mark_anchor_name "_top") with true.
  unfold PropagateAnchors.component_propagated_anchors. cbn [map app orb].
  rewrite Hc1, Hc2, Hc3, Hatt1, Hatt2.
  pose proof (three_kept glyph ref _ _ _ Hc1 Hc2 Hc3 Hown1 Hown2) as Hkept.
  pose proof (two_marks_raise glyph ref _ _ _ Hc1 Hc2 Hc3 Hbs Hmk Hnb
                (PropagateAnchors.options ctx)) as Hraise.
  unfold from_base_component, from_mark_component,
    from_second_mark_component in Hkept, Hraise.
  rewrite Hkept. cbn [mbind result_bind Py.bind]. rewrite Hraise.
  reflexivity.
Qed.

Lemma two_marks_on_one_base_anchor_raise_witness :
  PropagateAnchors.propagate_glyph_anchors 2 TwoMarksExample.ctx
    TwoMarksExample.start "ograveacute"
  = Raise (ValueError "list.remove(x): x not in list").
Proof.
  apply (two_marks_on_one_base_anchor_raise TwoMarksExample.ctx
           TwoMarksExample.start "ograveacute"
           (PropagateAnchors.mkGlyph (Some 7891) []
              [PropagateAnchors.mkComponent "o"
                 (PropagateAnchors.mkTransform 1 0 0 1 0 0);
               PropagateAnchors.mkComponent "gravecomb"
                 (PropagateAnchors.mkTransform 1 0 0 1 100 0);
               PropagateAnchors.mkComponent "acutecomb"
                 (PropagateAnchors.mkTransform 1 0 0 1 200 0)])
           (PropagateAnchors.mkComponent "o"
              (PropagateAnchors.mkTransform 1 0 0 1 0 0))
           (PropagateAnchors.mkComponent "gravecomb"
              (PropagateAnchors.mkTransform 1 0 0 1 100 0))
           (PropagateAnchors.mkComponent "acutecomb"
              (PropagateAnchors.mkTransform 1 0 0 1 200 0))
           (PropagateAnchors.mkGlyph (Some 111)
              [PropagateAnchors.mkAnchor "top" 150 300] [])
           (PropagateAnchors.mkGlyph (Some 768)
              [PropagateAnchors.mkAnchor "_top" 0 300] [])
           (PropagateAnchors.mkGlyph (Some 769)
              [PropagateAnchors.mkAnchor "_top" 0 300] [])
           (PropagateAnchors.mkAttachmentRef 0
              (PropagateAnchors.mkAttachment ["top"] ["_top"]))
           0%nat).
  - vm_compute. reflexivity.
  - by_compute.
  - right. split; [reflexivity|]. exists 7891.
    split; [reflexivity|]. split; [discriminate|reflexivity].
  - reflexivity.
  - by_compute.
  - by_compute.
  - vm_compute. reflexivity.
  - reflexivity.
  - reflexivity.
  - vm_compute. reflexivity.
  - reflexivity.
  - reflexivity.
  - vm_compute. reflexivity.
  - reflexivity.
  - reflexivity.
  - vm_compute. reflexivity.
  - vm_compute. reflexivity.
  - by_compute.
  - by_compute.
  - by_compute.
  - vm_compute. reflexivity.
  - vm_compute. reflexivity.
Defined.

(* ===================================================================== *)
(** ** The names of composite ligature anchors                            *)
(* ===================================================================== *)

Section DecimalNumbers.

(** ["%d" % i]: the decimal digits of [i]. *)

Lemma pretty_N_char_digit (d : N) : is_digit (pretty_N_char d) = true.
Proof.
  unfold pretty_N_char.
  repeat match goal with
         | |- context [match ?x with _ => _ end] => destruct x
         end; reflexivity.
Qed.

Lemma pretty_N_char_value (d : N) :
  (d < 10)%N -> digit_value (pretty_N_char d) = Z.of_N d.
Proof.
  intros Hd.
  assert (d = 0 \/ d = 1 \/ d = 2 \/ d = 3 \/ d = 4 \/ d = 5 \/ d = 6
          \/ d = 7 \/ d = 8 \/ d = 9)%N as H by lia.
  repeat (destruct H as [->|H]; [reflexivity|]). now subst.
Qed.

Lemma pretty_N_go_digits (x : N) : forall s,
  forallb is_digit (chars s) = true ->
  forallb is_digit (chars (pretty_N_go x s)) = true.
Proof.
  induction (N.lt_wf_0 x) as [x _ IH]; intros s Hs.
  destruct (N.eq_0_gt_0_cases x) as [->|Hx]; [now rewrite pretty_N_go_0|].
  rewrite pretty_N_go_step by exact Hx.
  apply IH; [now apply N.div_lt|].
  cbn. now rewrite pretty_N_char_digit.
Qed.

Lemma pretty_N_go_nonempty (x : N) : forall s,
  s <> "" -> pretty_N_go x s <> "".
Proof.
  induction (N.lt_wf_0 x) as [x _ IH]; intros s Hs.
  destruct (N.eq_0_gt_0_cases x) as [->|Hx]; [now rewrite pretty_N_go_0|].
  rewrite pretty_N_go_step by exact Hx.
  apply IH; [now apply N.div_lt|discriminate].
Qed.

Lemma pretty_N_go_value (x : N) : forall s,
  int_of_digits (chars (pretty_N_go x s))
  = fold_left (fun acc c => 10 * acc + digit_value c) (chars s) (Z.of_N x).
Proof.
  induction (N.lt_wf_0 x) as [x _ IH]; intros s.
  destruct (N.eq_0_gt_0_cases x) as [->|Hx]; [now rewrite pretty_N_go_0|].
  rewrite pretty_N_go_step by exact Hx.
  rewrite IH by now apply N.div_lt.
  cbn [chars list_ascii_of_string fold_left].
  rewrite pretty_N_char_value by now apply N.mod_lt.
  f_equal. rewrite N2Z.inj_div, N2Z.inj_mod.
  change (Z.of_N 10) with 10. pose proof (Z.div_mod (Z.of_N x) 10). lia.
Qed.

Lemma pretty_N_all_digits (i : N) : all_digits (chars (pretty i)).
Proof.
  unfold pretty, pretty_N. destruct (decide (i = 0%N)) as [->|Hi].
  - split; [discriminate|reflexivity].
  - split.
    + intros H. apply chars_nil in H.
      destruct (N.eq_0_gt_0_cases i) as [->|Hx]; [congruence|].
      rewrite pretty_N_go_step in H by exact Hx.
      revert H. now apply pretty_N_go_nonempty.
    + now apply pretty_N_go_digits.
Qed.

Lemma pretty_N_value (i : N) : int_of_digits (chars (pretty i)) = Z.of_N i.
Proof.
  unfold pretty, pretty_N. destruct (decide (i = 0%N)) as [->|Hi].
  - reflexivity.
  - now rewrite pretty_N_go_value.
Qed.

Lemma fmt_name_index_chars (n : string) (i : N) :
  chars (fmt_name_index n i) = chars n ++ underscore :: chars (pretty i).
Proof. unfold fmt_name_index. now rewrite !chars_app. Qed.

(** A name and a number are read off the formatted name. *)
Lemma fmt_name_index_inj (n n' : string) (i i' : N) :
  fmt_name_index n i = fmt_name_index n' i' -> n = n' /\ i = i'.
Proof.
  intros H. apply (f_equal chars) in H. rewrite !fmt_name_index_chars in H.
  apply (f_equal (@rev ascii)) in H.
  rewrite !rev_app_distr in H. cbn [rev] in H. rewrite <- !app_assoc in H.
  cbn [app] in H.
  assert (Hd : forall j : N, forallb is_digit (rev (chars (pretty j))) = true).
  { intros j. rewrite forallb_rev. apply pretty_N_all_digits. }
  assert (Ht := f_equal (take_while is_digit) H).
  rewrite !take_while_app in Ht by apply Hd.
  cbn [take_while] in Ht. change (is_digit underscore) with false in Ht.
  cbn iota in Ht. rewrite !app_nil_r in Ht.
  apply (f_equal (@rev ascii)) in Ht. rewrite !rev_involutive in Ht.
  apply chars_inj in Ht. apply (inj pretty) in Ht. subst i'.
  split; [|reflexivity].
  apply app_inv_head in H. injection H as H.
  apply (f_equal (@rev ascii)) in H. rewrite !rev_involutive in H.
  now apply chars_inj.
Qed.

End DecimalNumbers.

Section LigatureNames.

Import PropagateAnchors.

Lemma same_name_before_0 (l : list PropagatedAnchor) (n : string) :
  same_name_before l 0 n = 0%N.
Proof. reflexivity. Qed.

Lemma same_name_before_S (pa : PropagatedAnchor) (l : list PropagatedAnchor)
    (k : nat) (n : string) :
  same_name_before (pa :: l) (S k) n
  = ((if String.eqb (name (anchor pa)) n then 1 else 0)
     + same_name_before l k n)%N.
Proof.
  unfold same_name_before. cbn [take List.filter].
  destruct (String.eqb (name (anchor pa)) n); cbn [length]; lia.
Qed.

Lemma rename_loop_lookup (names : list string) :
  forall (l : list PropagatedAnchor) (counters : gmap string N)
         (k : nat) (pa : PropagatedAnchor),
    (forall pa', pa' ∈ l -> name (anchor pa') ∈ names) ->
    l !! k = Some pa ->
    rename_loop names counters l !! k
    = Some (renamed pa
              (fmt_name_index (name (anchor pa))
                 (default 0 (counters !! name (anchor pa)) + 1
                  + same_name_before l k (name (anchor pa)))%N)).
Proof.
  induction l as [|pa0 l IH]; intros counters k pa Hall Hk;
    [discriminate Hk|].
  cbn [rename_loop].
  rewrite (bool_decide_eq_true_2 (name (anchor pa0) ∈ names))
    by (apply Hall; now left).
  destruct k as [|k].
  - injection Hk as ->. cbn [lookup list_lookup].
    rewrite same_name_before_0, N.add_0_r. reflexivity.
  - cbn [lookup list_lookup] in Hk |- *.
    change (rename_loop names ?c l !! k) with (rename_loop names c l !! k).
    rewrite (IH _ k pa) by (try (intros pa' Hpa'; apply Hall; now right);
                            exact Hk).
    rewrite same_name_before_S. do 3 f_equal.
    destruct (String.eqb_spec (name (anchor pa0)) (name (anchor pa)))
      as [Heq|Hne].
    + rewrite Heq, lookup_insert_eq. cbn [default from_option id]. lia.
    + rewrite lookup_insert_ne by exact Hne. lia.
Qed.

Lemma rename_loop_length (names : list string) :
  forall (l : list PropagatedAnchor) (counters : gmap string N),
    length (rename_loop names counters l) = length l.
Proof.
  induction l as [|pa l IH]; intros counters; cbn [rename_loop];
    [reflexivity|].
  destruct (bool_decide (name (anchor pa) ∈ names)); cbn [length];
    now rewrite IH.
Qed.

Lemma rename_lookup (l : list PropagatedAnchor) (k : nat)
    (pa : PropagatedAnchor) :
  l !! k = Some pa ->
  rename_composite_ligature_anchors l !! k
  = Some (renamed pa
            (fmt_name_index (name (anchor pa))
               (1 + same_name_before l k (name (anchor pa))))).
Proof.
  intros Hk. unfold rename_composite_ligature_anchors.
  rewrite (rename_loop_lookup _ l ∅ k pa); [| |exact Hk].
  - rewrite lookup_empty. cbn [default from_option id]. reflexivity.
  - intros pa' Hpa'. apply list_elem_of_fmap. eauto.
Qed.

(** Anchors of one name: a later one has more of them before it. *)
Lemma same_name_before_lt (l : list PropagatedAnchor) (i j : nat)
    (pa : PropagatedAnchor) (n : string) :
  (i < j)%nat -> l !! i = Some pa -> name (anchor pa) = n ->
  (same_name_before l i n < same_name_before l j n)%N.
Proof.
  revert i j. induction l as [|pa0 l IH]; intros i j Hij Hi Hn;
    [discriminate Hi|].
  destruct j as [|j]; [lia|]. destruct i as [|i].
  - injection Hi as ->. rewrite same_name_before_0, same_name_before_S.
    rewrite Hn, String.eqb_refl. lia.
  - rewrite !same_name_before_S.
    specialize (IH i j ltac:(lia) Hi Hn). lia.
Qed.

End LigatureNames.

(** [_rename_composite_ligature_anchors] renames every propagated anchor
    and changes nothing else: the anchor at position [k], named [n],
    becomes [n_i], where [i] counts the anchors named [n] up to and
    including it (so [i] starts from 1 for each name). *)
Theorem ligature_anchors_are_numbered_by_name :
  forall (l : list PropagateAnchors.PropagatedAnchor),
    length (PropagateAnchors.rename_composite_ligature_anchors l) = length l
    /\ forall (k : nat) (pa : PropagateAnchors.PropagatedAnchor),
         l !! k = Some pa ->
         PropagateAnchors.rename_composite_ligature_anchors l !! k
         = Some (renamed pa
                   (fmt_name_index
                      (PropagateAnchors.name (PropagateAnchors.anchor pa))
                      (1 + same_name_before l k
                             (PropagateAnchors.name
                                (PropagateAnchors.anchor pa))))).
Proof.
  intros l. split.
  - apply rename_loop_length.
  - intros k pa. apply rename_lookup.
Qed.

(** After the renaming no two propagated anchors have the same name,
    whatever names they had. *)
Theorem ligature_anchor_names_are_distinct :
  forall (l : list PropagateAnchors.PropagatedAnchor),
    NoDup (map (fun pa => PropagateAnchors.name (PropagateAnchors.anchor pa))
               (PropagateAnchors.rename_composite_ligature_anchors l)).
Proof.
  intros l. apply NoDup_alt. intros i j x Hi Hj.
  rewrite list_lookup_fmap in Hi, Hj.
  assert (Hlt : forall k y,
            (fun pa => PropagateAnchors.name (PropagateAnchors.anchor pa))
              <$> PropagateAnchors.rename_composite_ligature_anchors l !! k
            = Some y ->
            exists pa, l !! k = Some pa
              /\ y = fmt_name_index
                       (PropagateAnchors.name (PropagateAnchors.anchor pa))
                       (1 + same_name_before l k
                              (PropagateAnchors.name
                                 (PropagateAnchors.anchor pa)))).
  { intros k y Hk.
    destruct (l !! k) as [pa|] eqn:Ek.
    - rewrite (rename_lookup l k pa Ek) in Hk. injection Hk as <-. eauto.
    - apply lookup_ge_None in Ek.
      rewrite (proj2 (lookup_ge_None _ _)) in Hk; [discriminate Hk|].
      unfold PropagateAnchors.rename_composite_ligature_anchors.
      now rewrite rename_loop_length. }
  destruct (Hlt i x Hi) as (pa & Ei & ->).
  destruct (Hlt j _ Hj) as (pb & Ej & Heq).
  apply fmt_name_index_inj in Heq as [Hn Hr].
  destruct (Nat.lt_trichotomy i j) as [Hij|[->|Hji]]; [|reflexivity|].
  - pose proof (same_name_before_lt l i j pa _ Hij Ei eq_refl) as Hlt'.
    rewrite <- Hn in Hr. lia.
  - pose proof (same_name_before_lt l j i pb _ Hji Ej eq_refl) as Hlt'.
    rewrite <- Hn in Hr, Hlt'. lia.
Qed.

(** The names that the filter gives the anchors of a composite ligature
    are names that the mark feature writer reads as anchors of ligature
    components: [n_i] parses to the key [n] and the component number [i],
    and is accepted as a [NamedAnchor] when [i] is at least 1; [n] is a
    name that does not start with [_] and has no line break. *)
Theorem ligature_anchor_name_parses_back :
  forall (n : string) (i : N),
    PropagateAnchors.mark_anchor_name n = false ->
    no_newline (chars n) ->
    MarkFeatureWriter.parseAnchorName (fmt_name_index n i)
    = Ok (false, n, Some (Z.of_N i))
    /\ forall (x y : Z) (mc : option string),
         (1 <= i)%N ->
         MarkFeatureWriter.NamedAnchor_init (fmt_name_index n i) x y mc
         = Ok (MarkFeatureWriter.mkNamedAnchor (fmt_name_index n i) x y
                 false n (Some (Z.of_N i)) mc).
Proof.
  intros n i Hmark Hnl.
  assert (Hparse : MarkFeatureWriter.parseAnchorName (fmt_name_index n i)
                   = Ok (false, n, Some (Z.of_N i))).
  { rewrite <- (str_chars (fmt_name_index n i)), fmt_name_index_chars.
    rewrite (parseAnchorName_numbered (chars n) (chars (pretty i))
               (pretty_N_all_digits i) Hnl).
    rewrite str_chars, pretty_N_value.
    assert (Hs : startswith (str (chars n ++ underscore :: chars (pretty i))) "_"
                 && nonempty (chars n) = false).
    { apply not_true_iff_false. intros Hboth.
      apply andb_true_iff in Hboth as [Hpre Hne].
      unfold startswith in Hpre. apply prefix_chars in Hpre as [t Ht].
      rewrite chars_str in Ht.
      destruct (chars n) as [|c r] eqn:En; [discriminate Hne|].
      cbn in Ht. injection Ht as -> _.
      unfold PropagateAnchors.mark_anchor_name, startswith in Hmark.
      apply not_true_iff_false in Hmark. apply Hmark.
      apply prefix_chars. exists r. exact En. }
    now rewrite Hs. }
  split; [exact Hparse|].
  intros x y mc Hi. unfold MarkFeatureWriter.NamedAnchor_init.
  rewrite Hparse. cbn [mbind result_bind Py.bind].
  destruct (Z.ltb_spec (Z.of_N i) 1); [lia|reflexivity].
Qed.

Lemma ligature_anchor_name_parses_back_witness :
  MarkFeatureWriter.parseAnchorName (fmt_name_index "top" 2)
  = Ok (false, "top", Some 2).
Proof.
  apply (proj1 (ligature_anchor_name_parses_back "top" 2 eq_refl eq_refl)).
Defined.

(* ===================================================================== *)
(** ** Named anchors, anchor lists and anchor pairs                       *)
(* ===================================================================== *)

Section NamedAnchors.

Import MarkFeatureWriter.

(** The two results of the first half of [parseAnchorName]. *)
Lemma ligature_number_cases (s k : string) (num : option Z) :
  ligature_number s = (k, num) ->
  (num = None /\ k = s)
  \/ exists p ds, chars s = p ++ underscore :: ds /\ all_digits ds
                  /\ no_newline p /\ k = str p
                  /\ num = Some (int_of_digits ds).
Proof.
  unfold ligature_number.
  destruct (ligaNumRE_match s) as [number|] eqn:Em.
  - destruct (endswith (rstrip s number) "_") eqn:Ee.
    + intros [= <- <-]. right.
      destruct (ligaNumRE_match_inv s number Em Ee)
        as (p & ds & Hs & Hds & Hp & ->).
      exists p, ds. repeat (split; [assumption|]).
      rewrite chars_str. split; [|reflexivity].
      rewrite <- (str_chars s), Hs, rstrip_numbered by apply Hds.
      apply drop_last_unit.
    + intros [= <- <-]. now left.
  - intros [= <- <-]. now left.
Qed.

Lemma startswith_underscore (s : string) :
  startswith s "_" = true -> s = "_" +:+ drop_first 1 s.
Proof.
  unfold startswith. intros H. apply prefix_chars in H as [t Ht].
  apply chars_inj. rewrite chars_app. unfold drop_first.
  rewrite chars_str, Ht. reflexivity.
Qed.

(** What [parseAnchorName] returns, by the kind of the anchor. *)
Lemma parseAnchorName_cases (s k : string) (m : bool) (num : option Z) :
  parseAnchorName s = Ok (m, k, num) ->
  (m = true /\ num = None /\ s = "_" +:+ k /\ k <> "")
  \/ (m = false /\ num = None /\ k = s
      /\ (s = "" \/ startswith s "_" = false))
  \/ (m = false
      /\ exists p ds, chars s = p ++ underscore :: ds /\ all_digits ds
                      /\ no_newline p /\ k = str p
                      /\ num = Some (int_of_digits ds)).
Proof.
  unfold parseAnchorName.
  destruct (ligature_number s) as [k0 num0] eqn:El.
  apply ligature_number_cases in El.
  destruct (startswith s "_" && negb (String.eqb k0 "")) eqn:Eb.
  - destruct num0 as [i|]; [discriminate|].
    destruct El as [[_ ->]|(p & ds & _ & _ & _ & _ & Hnum)];
      [|discriminate Hnum].
    destruct (String.eqb (drop_first 1 s) "") eqn:Ek; [discriminate|].
    intros [= <- <- <-]. left.
    apply andb_true_iff in Eb as [Hpre _].
    split; [reflexivity|]. split; [reflexivity|].
    split; [now apply startswith_underscore|].
    now apply String.eqb_neq in Ek.
  - intros [= <- <- <-]. right.
    destruct El as [[-> ->]|Hnumbered].
    + left. repeat (split; [reflexivity|]).
      apply andb_false_iff in Eb as [Hpre|Hk]; [now right|].
      left. apply negb_false_iff in Hk. now apply String.eqb_eq in Hk.
    + right. split; [reflexivity|exact Hnumbered].
Qed.

(** The fields of a [NamedAnchor] that was built, by its kind. *)
Lemma NamedAnchor_init_inv :
  forall (n : string) (x y : Z) (mc : option string)
         (a : MarkFeatureWriter.NamedAnchor),
    MarkFeatureWriter.NamedAnchor_init n x y mc = Ok a ->
    MarkFeatureWriter.name a = n /\ MarkFeatureWriter.x a = x
    /\ MarkFeatureWriter.y a = y /\ MarkFeatureWriter.markClass a = mc
    /\ ((MarkFeatureWriter.isMark a = true
         /\ MarkFeatureWriter.number a = None
         /\ n = "_" +:+ MarkFeatureWriter.key a
         /\ MarkFeatureWriter.key a <> ""
         /\ MarkFeatureWriter.markAnchorName a = n)
        \/ (MarkFeatureWriter.isMark a = false
            /\ MarkFeatureWriter.number a = None
            /\ MarkFeatureWriter.key a = n /\ n <> ""
            /\ startswith n "_" = false)
        \/ (MarkFeatureWriter.isMark a = false
            /\ exists ds i,
                 all_digits ds
                 /\ chars n = chars (MarkFeatureWriter.key a)
                              ++ underscore :: ds
                 /\ i = int_of_digits ds /\ 1 <= i
                 /\ MarkFeatureWriter.number a = Some i)).
Proof.
  intros n x y mc a H. unfold MarkFeatureWriter.NamedAnchor_init in H.
  bind_ok H as r Er. destruct r as [[m k] num].
  apply parseAnchorName_cases in Er.
  destruct num as [i|].
  - destruct (Z.ltb_spec i 1) as [Hlt|Hge]; [discriminate H|].
    injection H as <-. cbn. repeat (split; [reflexivity|]).
    destruct Er as [(_ & Hn & _)|[(_ & Hn & _)|(-> & p & ds & Hs & Hds & _ & -> & Hi)]];
      try discriminate Hn.
    right. right. split; [reflexivity|].
    injection Hi as ->. exists ds, (int_of_digits ds).
    rewrite chars_str. auto.
  - destruct (String.eqb k "") eqn:Ek; [discriminate H|].
    apply String.eqb_neq in Ek.
    injection H as <-. cbn. repeat (split; [reflexivity|]).
    destruct Er as [(-> & _ & -> & Hk)
                   |[(-> & _ & -> & Hpre)|(_ & p & ds & _ & _ & _ & _ & Hi)]];
      [| |discriminate Hi].
    + left. unfold MarkFeatureWriter.markAnchorName. cbn. auto.
    + right. left. repeat (split; [reflexivity|]). split; [exact Ek|].
      destruct Hpre as [->|Hpre]; [congruence|exact Hpre].
Qed.

End NamedAnchors.

(** What a [NamedAnchor] is once it is built.  A mark anchor is named
    [_key], its key is not empty, it has no number, and its
    [markAnchorName] is its own name.  An anchor without a number that is
    no mark anchor has its name as its key, and the name does not start
    with [_].  An anchor with a number is no mark anchor, its name is
    [key_digits], and the number is the value of the digits and at
    least 1.  The fields [isMark], [key] and [number] are a function of
    the name: building an anchor again from the name, the position and
    the mark class of an anchor gives the same anchor. *)
Theorem named_anchor_invariant :
  forall (n : string) (x y : Z) (mc : option string)
         (a : MarkFeatureWriter.NamedAnchor),
    MarkFeatureWriter.NamedAnchor_init n x y mc = Ok a ->
    MarkFeatureWriter.name a = n /\ MarkFeatureWriter.x a = x
    /\ MarkFeatureWriter.y a = y /\ MarkFeatureWriter.markClass a = mc
    /\ MarkFeatureWriter.NamedAnchor_init (MarkFeatureWriter.name a)
         (MarkFeatureWriter.x a) (MarkFeatureWriter.y a)
         (MarkFeatureWriter.markClass a) = Ok a
    /\ ((MarkFeatureWriter.isMark a = true
         /\ MarkFeatureWriter.number a = None
         /\ n = "_" +:+ MarkFeatureWriter.key a
         /\ MarkFeatureWriter.key a <> ""
         /\ MarkFeatureWriter.markAnchorName a = n)
        \/ (MarkFeatureWriter.isMark a = false
            /\ MarkFeatureWriter.number a = None
            /\ MarkFeatureWriter.key a = n /\ n <> ""
            /\ startswith n "_" = false)
        \/ (MarkFeatureWriter.isMark a = false
            /\ exists ds i,
                 all_digits ds
                 /\ chars n = chars (MarkFeatureWriter.key a)
                              ++ underscore :: ds
                 /\ i = int_of_digits ds /\ 1 <= i
                 /\ MarkFeatureWriter.number a = Some i)).
Proof.
  intros n x y mc a H.
  destruct (NamedAnchor_init_inv n x y mc a H) as (En & Ex & Ey & Emc & Hkind).
  repeat (split; [assumption|]).
  split; [|exact Hkind].
  now rewrite En, Ex, Ey, Emc.
Qed.

Lemma named_anchor_invariant_witness :
  let a := MarkFeatureWriter.mkNamedAnchor "top_2" 10 20 false "top" (Some 2)
             None in
  MarkFeatureWriter.name a = "top_2" /\ MarkFeatureWriter.x a = 10
  /\ MarkFeatureWriter.y a = 20 /\ MarkFeatureWriter.markClass a = None
  /\ MarkFeatureWriter.NamedAnchor_init (MarkFeatureWriter.name a)
       (MarkFeatureWriter.x a) (MarkFeatureWriter.y a)
       (MarkFeatureWriter.markClass a) = Ok a
  /\ ((MarkFeatureWriter.isMark a = true
       /\ MarkFeatureWriter.number a = None
       /\ "top_2" = "_" +:+ MarkFeatureWriter.key a
       /\ MarkFeatureWriter.key a <> ""
       /\ MarkFeatureWriter.markAnchorName a = "top_2")
      \/ (MarkFeatureWriter.isMark a = false
          /\ MarkFeatureWriter.number a = None
          /\ MarkFeatureWriter.key a = "top_2" /\ "top_2" <> ""
          /\ startswith "top_2" "_" = false)
      \/ (MarkFeatureWriter.isMark a = false
          /\ exists ds i,
               all_digits ds
               /\ chars "top_2" = chars (MarkFeatureWriter.key a)
                                  ++ underscore :: ds
               /\ i = int_of_digits ds /\ 1 <= i
               /\ MarkFeatureWriter.number a = Some i)).
Proof.
  apply (named_anchor_invariant "top_2" 10 20 None).
  vm_compute. reflexivity.
Defined.

(* ===================================================================== *)
(** ** The anchor lists of the writer's context                           *)
(* ===================================================================== *)

Section AnchorLists.

Import MarkFeatureWriter.

Lemma elem_of_assoc_set {V : Type} (d : list (string * V)) (k0 : string)
    (v0 : V) (k : string) (v : V) :
  (k, v) ∈ assoc_set k0 v0 d -> (k, v) = (k0, v0) \/ (k, v) ∈ d.
Proof.
  induction d as [|[k' v'] d IH]; cbn [assoc_set]; intros H.
  - apply list_elem_of_singleton in H. now left.
  - destruct (String.eqb_spec k' k0) as [->|Hne].
    + apply elem_of_cons in H as [H|H]; [now left|right; now right].
    + apply elem_of_cons in H as [H|H]; [injection H as -> ->; right; now left|].
      destruct (IH H) as [E|E]; [now left|right; now right].
Qed.

Lemma assoc_set_keeps_keys {V : Type} (d : list (string * V)) (k0 : string)
    (v0 : V) (k : string) :
  k ∈ map fst d -> k ∈ map fst (assoc_set k0 v0 d).
Proof.
  rewrite keys_assoc_set. destruct (has_key k0 d); [auto|].
  intros H. apply elem_of_app. now left.
Qed.

Lemma assoc_set_has_key {V : Type} (d : list (string * V)) (k0 : string)
    (v0 : V) :
  k0 ∈ map fst (assoc_set k0 v0 d).
Proof.
  apply dec_stable. intros H. apply assoc_None in H.
  now rewrite assoc_set_eq in H.
Qed.

Lemma NamedAnchor_init_built (srcs : list (string * Z * Z)) (n : string)
    (px py : Z) (a : NamedAnchor) :
  n <> "" -> (n, px, py) ∈ srcs ->
  NamedAnchor_init n px py None = Ok a ->
  name a = n /\ built_from srcs a.
Proof.
  intros Hn Hin H.
  destruct (NamedAnchor_init_inv _ _ _ _ _ H) as (En & Ex & Ey & _).
  split; [exact En|]. unfold built_from. rewrite En, Ex, Ey. auto.
Qed.

Lemma built_from_more (srcs more : list (string * Z * Z)) (a : NamedAnchor) :
  built_from srcs a -> built_from (more ++ srcs) a.
Proof.
  intros (H1 & H2 & H3). split; [exact H1|]. split; [|exact H3].
  apply elem_of_app. now right.
Qed.

(** The dict of one glyph. *)
Lemma anchor_dict_spec : forall (srcs : list (string * Z * Z))
    (d : list (string * NamedAnchor)) (log0 : Log) d' log',
  anchor_dict srcs d log0 = Ok (d', log') ->
  NoDup (map fst d) ->
  NoDup (map fst d')
  /\ (forall k a, (k, a) ∈ d' ->
        (k, a) ∈ d \/ (k = name a /\ built_from srcs a))
  /\ (forall k, k ∈ map fst d -> k ∈ map fst d')
  /\ (forall n px py, (n, px, py) ∈ srcs -> n <> "" -> n ∈ map fst d').
Proof.
  induction srcs as [|[[n px] py] srcs IH]; intros d log0 d' log' H Hnd;
    cbn [anchor_dict] in H.
  - injection H as <- <-. split; [exact Hnd|]. split; [auto|]. split; [auto|].
    intros n px py Hin. now apply elem_of_nil in Hin.
  - destruct (String.eqb_spec n "") as [->|Hn].
    + destruct (IH _ _ _ _ H Hnd) as (Hnd' & Hfrom & Hkeys & Hall).
      split; [exact Hnd'|]. split; [|split; [exact Hkeys|]].
      * intros k a Hka. destruct (Hfrom k a Hka) as [Hd|[-> Hb]]; [now left|].
        right. split; [reflexivity|].
        now apply (built_from_more srcs [("", px, py)]).
      * intros n' px' py' Hin Hn'. apply elem_of_cons in Hin as [[= -> _ _]|Hin];
          [congruence|]. eapply Hall; eassumption.
    + bind_ok H as a Ea.
      destruct (NamedAnchor_init_built ((n, px, py) :: srcs) n px py a Hn
                  ltac:(now left) Ea) as [Ena Hb].
      destruct (IH _ _ _ _ H (NoDup_assoc_set _ _ _ Hnd))
        as (Hnd' & Hfrom & Hkeys & Hall).
      split; [exact Hnd'|]. split; [|split].
      * intros k a' Hka. destruct (Hfrom k a' Hka) as [Hd|[-> Hb']].
        -- apply elem_of_assoc_set in Hd as [[= -> ->]|Hd]; [|now left].
           right. split; [now rewrite Ena|exact Hb].
        -- right. split; [reflexivity|].
           now apply (built_from_more srcs [(n, px, py)]).
      * intros k Hk. now apply Hkeys, assoc_set_keeps_keys.
      * intros n' px' py' Hin Hn'. apply elem_of_cons in Hin as [[= -> _ _]|Hin].
        -- apply Hkeys, assoc_set_has_key.
        -- eapply Hall; eassumption.
Qed.

Lemma map_snd_names (d : list (string * NamedAnchor)) :
  (forall k a, (k, a) ∈ d -> k = name a) ->
  map name (map snd d) = map fst d.
Proof.
  induction d as [|[k a] d IH]; intros H; cbn [map]; [reflexivity|].
  cbn [fst snd]. rewrite IH by (intros k' a' Hin; apply H; now right).
  f_equal. symmetry. apply H. now left.
Qed.

Lemma getAnchorLists_spec : forall (gs : list (string * list (string * Z * Z)))
    (res : list (string * list NamedAnchor)) (log0 : Log) lists log',
  getAnchorLists gs res log0 = Ok (lists, log') ->
  NoDup (map fst res) ->
  NoDup (map fst lists)
  /\ (forall g l, (g, l) ∈ lists -> (g, l) ∈ res \/ list_of_glyph gs g l)
  /\ (forall g, g ∉ map fst gs -> assoc g lists = assoc g res)
  /\ (NoDup (map fst gs) ->
      forall g srcs n px py,
        (g, srcs) ∈ gs -> (n, px, py) ∈ srcs -> n <> "" ->
        exists l a, assoc g lists = Some l /\ a ∈ l /\ name a = n).
Proof.
  induction gs as [|[g0 srcs0] gs IH]; intros res log0 lists log' H Hnd;
    cbn [getAnchorLists] in H.
  - injection H as <- <-. split; [exact Hnd|]. split; [auto|]. split; [auto|].
    intros _ g srcs n px py Hin. now apply elem_of_nil in Hin.
  - bind_ok H as p Ep. destruct p as [dict log1].
    destruct (anchor_dict_spec _ _ _ _ _ Ep (NoDup_nil_2))
      as (Hndd & Hfrom & _ & Hall).
    assert (Hname : forall k a, (k, a) ∈ dict -> k = name a /\ built_from srcs0 a).
    { intros k a Hka. destruct (Hfrom k a Hka) as [Hd|Hd]; [|exact Hd].
      now apply elem_of_nil in Hd. }
    set (res' := if nonempty dict then assoc_set g0 (map snd dict) res else res)
      in H.
    assert (Hnd' : NoDup (map fst res')).
    { unfold res'. destruct (nonempty dict); [now apply NoDup_assoc_set|exact Hnd]. }
    destruct (IH _ _ _ _ H Hnd') as (Hndl & Hent & Hout & Hcomplete).
    split; [exact Hndl|]. split; [|split].
    + intros g l Hgl. destruct (Hent g l Hgl) as [Hres|(Hne & Hndn & srcs & Hin & Hb)].
      * unfold res' in Hres. destruct (nonempty dict) eqn:Ed; [|now left].
        apply elem_of_assoc_set in Hres as [[= -> ->]|Hres]; [|now left].
        right. split; [|split].
        -- destruct dict; [discriminate Ed|discriminate].
        -- rewrite map_snd_names; [exact Hndd|]. intros k a Hka.
           now apply Hname.
        -- exists srcs0. split; [now left|]. intros a Ha.
           apply list_elem_of_fmap in Ha as ([k a'] & -> & Hka).
           now apply (Hname k a').
      * right. split; [exact Hne|]. split; [exact Hndn|].
        exists srcs. split; [now right|exact Hb].
    + intros g Hg. cbn [map fst] in Hg. apply not_elem_of_cons in Hg as [Hg0 Hg].
      rewrite (Hout g Hg). unfold res'.
      destruct (nonempty dict); [|reflexivity].
      now rewrite assoc_set_ne by congruence.
    + intros Hndg g srcs n px py Hin Hn Hne.
      cbn [map fst] in Hndg. apply NoDup_cons in Hndg as [Hg0 Hndg].
      apply elem_of_cons in Hin as [[= -> ->]|Hin].
      * rewrite (Hout g0 Hg0).
        assert (Hkey : n ∈ map fst dict) by (eapply Hall; eassumption).
        apply list_elem_of_fmap in Hkey as ([k a] & -> & Hka). cbn [fst] in *.
        unfold res'. destruct dict as [|e dict']; [now apply elem_of_nil in Hka|].
        cbn [nonempty]. rewrite assoc_set_eq.
        exists (map snd (e :: dict')), a. split; [reflexivity|].
        split; [apply list_elem_of_fmap; exists (k, a); auto|].
        symmetry. now apply (Hname k a).
      * eapply Hcomplete; eassumption.
Qed.

End AnchorLists.

Section AnchorPairs.

Import MarkFeatureWriter.

Lemma elem_of_mark_names (all : list NamedAnchor) (m : string) :
  m ∈ map name (List.filter isMark all) <->
  exists a', a' ∈ all /\ isMark a' = true /\ name a' = m.
Proof.
  rewrite list_elem_of_fmap. split.
  - intros (a' & -> & Hin). apply list_elem_of_In, filter_In in Hin as [Hin Hm].
    exists a'. split; [now apply list_elem_of_In|auto].
  - intros (a' & Hin & Hm & <-). exists a'. split; [reflexivity|].
    apply list_elem_of_In, filter_In. split; [now apply list_elem_of_In|exact Hm].
Qed.

Lemma is_Some_assoc_set {V : Type} (d : list (string * V)) (k0 : string)
    (v0 : V) (k : string) :
  is_Some (assoc k d) -> is_Some (assoc k (assoc_set k0 v0 d)).
Proof.
  intros H. destruct (decide (k0 = k)) as [->|Hne].
  - rewrite assoc_set_eq. eauto.
  - now rewrite assoc_set_ne.
Qed.

Lemma anchor_pairs_fold (marks : list string) :
  forall (l : list NamedAnchor) (acc : list (string * string)),
    NoDup (map fst acc) ->
    NoDup (map fst
             (fold_left
                (fun anchorPairs anchor =>
                   if isMark anchor then anchorPairs
                   else if bool_decide (markAnchorName anchor ∈ marks)
                   then assoc_set (name anchor) (markAnchorName anchor) anchorPairs
                   else anchorPairs) l acc))
    /\ (forall b m,
          assoc b (fold_left
                     (fun anchorPairs anchor =>
                        if isMark anchor then anchorPairs
                        else if bool_decide (markAnchorName anchor ∈ marks)
                        then assoc_set (name anchor) (markAnchorName anchor)
                               anchorPairs
                        else anchorPairs) l acc) = Some m ->
          assoc b acc = Some m
          \/ exists a, a ∈ l /\ isMark a = false /\ name a = b
                       /\ markAnchorName a = m /\ m ∈ marks)
    /\ (forall b, is_Some (assoc b acc) ->
          is_Some (assoc b (fold_left
                     (fun anchorPairs anchor =>
                        if isMark anchor then anchorPairs
                        else if bool_decide (markAnchorName anchor ∈ marks)
                        then assoc_set (name anchor) (markAnchorName anchor)
                               anchorPairs
                        else anchorPairs) l acc)))
    /\ (forall a, a ∈ l -> isMark a = false -> markAnchorName a ∈ marks ->
          is_Some (assoc (name a) (fold_left
                     (fun anchorPairs anchor =>
                        if isMark anchor then anchorPairs
                        else if bool_decide (markAnchorName anchor ∈ marks)
                        then assoc_set (name anchor) (markAnchorName anchor)
                               anchorPairs
                        else anchorPairs) l acc))).
Proof.
  induction l as [|a0 l IH]; intros acc Hnd; cbn [fold_left].
  - split; [exact Hnd|]. split; [auto|]. split; [auto|].
    intros a Ha. now apply elem_of_nil in Ha.
  - set (acc1 := if isMark a0 then acc
                 else if bool_decide (markAnchorName a0 ∈ marks)
                 then assoc_set (name a0) (markAnchorName a0) acc else acc).
    assert (Hnd1 : NoDup (map fst acc1)).
    { unfold acc1. destruct (isMark a0); [exact Hnd|].
      destruct (bool_decide _); [now apply NoDup_assoc_set|exact Hnd]. }
    destruct (IH acc1 Hnd1) as (Hnd' & Hfrom & Hkeep & Hall).
    split; [exact Hnd'|]. split; [|split].
    + intros b m Hbm. destruct (Hfrom b m Hbm) as [H1|(a & Ha & Hrest)].
      * unfold acc1 in H1. destruct (isMark a0) eqn:Em; [now left|].
        destruct (bool_decide (markAnchorName a0 ∈ marks)) eqn:Eb; [|now left].
        apply bool_decide_eq_true in Eb.
        destruct (decide (name a0 = b)) as [<-|Hne].
        -- rewrite assoc_set_eq in H1. injection H1 as <-.
           right. exists a0. split; [now left|]. auto.
        -- rewrite assoc_set_ne in H1 by exact Hne. now left.
      * right. exists a. split; [now right|exact Hrest].
    + intros b Hb. apply Hkeep. unfold acc1.
      destruct (isMark a0); [exact Hb|].
      destruct (bool_decide _); [now apply is_Some_assoc_set|exact Hb].
    + intros a Ha Hm Hin. apply elem_of_cons in Ha as [->|Ha].
      * apply Hkeep. unfold acc1. rewrite Hm, (bool_decide_eq_true_2 _ Hin).
        rewrite assoc_set_eq. eauto.
      * now apply Hall.
Qed.

Lemma getAnchorPairs_spec (lists : list (string * list NamedAnchor)) :
  NoDup (map fst (getAnchorPairs lists))
  /\ (forall b m, assoc b (getAnchorPairs lists) = Some m ->
        exists a a', a ∈ all_anchors lists /\ a' ∈ all_anchors lists
                     /\ attaching_pair a a' /\ name a = b /\ name a' = m)
  /\ (forall a a', a ∈ all_anchors lists -> a' ∈ all_anchors lists ->
        attaching_pair a a' -> is_Some (assoc (name a) (getAnchorPairs lists))).
Proof.
  unfold getAnchorPairs. cbv zeta.
  destruct (anchor_pairs_fold
              (map name (List.filter isMark (concat (map snd lists))))
              (concat (map snd lists)) [] (NoDup_nil_2))
    as (Hnd & Hfrom & _ & Hall).
  split; [exact Hnd|]. split.
  - intros b m Hbm. destruct (Hfrom b m Hbm) as [H|(a & Ha & Hm & Hn & Hma & Hin)];
      [discriminate H|].
    apply elem_of_mark_names in Hin as (a' & Ha' & Hm' & Hn').
    exists a, a'. unfold all_anchors, attaching_pair.
    split; [exact Ha|]. split; [exact Ha'|].
    split; [split; [exact Hm|split; [exact Hm'|congruence]]|].
    split; [exact Hn|exact Hn'].
  - intros a a' Ha Ha' (Hm & Hm' & Hn). apply Hall; [exact Ha|exact Hm|].
    apply elem_of_mark_names. exists a'. auto.
Qed.

End AnchorPairs.

Section Pruning.

Import MarkFeatureWriter.

Lemma kept_anchor_test (pairs : list (string * string)) (a : NamedAnchor) :
  negb (negb (bool_decide
                (name a ∈ map fst pairs ++ map snd pairs))
        && negb (String.eqb (key a) ""))
  = kept_anchor pairs a.
Proof.
  unfold kept_anchor, attaching_names.
  destruct (bool_decide _), (String.eqb (key a) ""); reflexivity.
Qed.

Lemma pruneUnusedAnchors_eq (pairs : list (string * string))
    (lists : list (string * list NamedAnchor)) :
  pruneUnusedAnchors pairs lists
  = List.filter (fun ga => nonempty (snd ga))
      (map (fun ga => (fst ga, List.filter (kept_anchor pairs) (snd ga)))
           lists).
Proof.
  unfold pruneUnusedAnchors. cbv zeta. f_equal.
  apply map_ext. intros [g l]. cbn [fst snd]. f_equal.
  apply filter_ext. intros a. apply kept_anchor_test.
Qed.

Lemma filter_filter_same {A : Type} (p : A -> bool) (l : list A) :
  List.filter p (List.filter p l) = List.filter p l.
Proof.
  induction l as [|x l IH]; cbn [List.filter]; [reflexivity|].
  destruct (p x) eqn:E; cbn [List.filter]; [rewrite E|]; now rewrite IH.
Qed.

Lemma elem_of_pruned (pairs : list (string * string))
    (lists : list (string * list NamedAnchor)) (g : string)
    (l : list NamedAnchor) :
  (g, l) ∈ pruneUnusedAnchors pairs lists <->
  l <> [] /\ exists l0, (g, l0) ∈ lists /\ l = List.filter (kept_anchor pairs) l0.
Proof.
  rewrite pruneUnusedAnchors_eq, list_elem_of_In, filter_In, in_map_iff.
  cbn [snd]. split.
  - intros [([g0 l0] & [= <- <-] & Hin) Hne]. cbn [fst snd] in *.
    split; [now destruct (List.filter _ l0)|].
    exists l0. split; [now apply list_elem_of_In|reflexivity].
  - intros (Hne & l0 & Hin & ->). split.
    + exists (g, l0). split; [reflexivity|now apply list_elem_of_In].
    + now destruct (List.filter _ l0).
Qed.

Lemma pruneUnusedAnchors_again (pairs : list (string * string))
    (lists : list (string * list NamedAnchor)) :
  pruneUnusedAnchors pairs (pruneUnusedAnchors pairs lists)
  = pruneUnusedAnchors pairs lists.
Proof.
  rewrite !pruneUnusedAnchors_eq.
  set (F := List.filter (kept_anchor pairs)).
  induction lists as [|[g l] lists IH]; [reflexivity|].
  cbn [map List.filter fst snd].
  destruct (F l) as [|a k] eqn:E; cbn [nonempty]; [exact IH|].
  cbn [map List.filter fst snd].
  assert (Hk : F (a :: k) = a :: k)
    by (rewrite <- E; apply filter_filter_same).
  rewrite Hk. cbn [nonempty]. f_equal. exact IH.
Qed.

Lemma pruned_keys_sublist (pairs : list (string * string))
    (lists : list (string * list NamedAnchor)) :
  map fst (pruneUnusedAnchors pairs lists) `sublist_of` map fst lists.
Proof.
  rewrite pruneUnusedAnchors_eq.
  induction lists as [|[g l] lists IH]; [constructor|].
  cbn [map List.filter fst snd].
  destruct (nonempty (List.filter (kept_anchor pairs) l)); cbn [map fst].
  - now apply sublist_skip.
  - now apply sublist_cons.
Qed.

End Pruning.

(** [_getAnchorLists] on a glyph set with one entry per glyph name.  When
    it returns, every named anchor of every glyph has been accepted as a
    [NamedAnchor]; a glyph is listed when it has a named anchor, its list
    is not empty and has one anchor of a name, each built from an anchor
    of that glyph; and no named anchor is lost: there is an anchor of its
    name in the list of its glyph. *)
Theorem anchor_lists_hold_the_named_anchors :
  forall (glyphSet : list (string * list (string * Z * Z)))
         (log : MarkFeatureWriter.Log)
         (lists : list (string * list MarkFeatureWriter.NamedAnchor))
         (log' : MarkFeatureWriter.Log),
    NoDup (map fst glyphSet) ->
    MarkFeatureWriter.getAnchorLists glyphSet [] log = Ok (lists, log') ->
    NoDup (map fst lists)
    /\ (forall g l, (g, l) ∈ lists -> list_of_glyph glyphSet g l)
    /\ (forall g srcs n px py,
          (g, srcs) ∈ glyphSet -> (n, px, py) ∈ srcs -> n <> "" ->
          exists l a, (g, l) ∈ lists /\ a ∈ l
                      /\ MarkFeatureWriter.name a = n).
Proof.
  intros glyphSet log lists log' Hnd H.
  destruct (getAnchorLists_spec _ _ _ _ _ H (NoDup_nil_2))
    as (Hndl & Hent & _ & Hcomplete).
  split; [exact Hndl|]. split.
  - intros g l Hgl. destruct (Hent g l Hgl) as [Hnil|Hl]; [|exact Hl].
    now apply elem_of_nil in Hnil.
  - intros g srcs n px py Hg Hn Hne.
    destruct (Hcomplete Hnd g srcs n px py Hg Hn Hne) as (l & a & Hl & Ha & Hna).
    exists l, a. split; [now apply assoc_Some_in|auto].
Qed.

Lemma anchor_lists_hold_the_named_anchors_witness :
  NoDup (map fst (MarkFeatureWriter.anchorLists WriterExample.ctx))
  /\ (forall g l, (g, l) ∈ MarkFeatureWriter.anchorLists WriterExample.ctx ->
        list_of_glyph WriterExample.glyphSet g l)
  /\ (forall g srcs n px py,
        (g, srcs) ∈ WriterExample.glyphSet -> (n, px, py) ∈ srcs -> n <> "" ->
        exists l a, (g, l) ∈ MarkFeatureWriter.anchorLists WriterExample.ctx
                    /\ a ∈ l /\ MarkFeatureWriter.name a = n).
Proof.
  apply (anchor_lists_hold_the_named_anchors WriterExample.glyphSet []
           (MarkFeatureWriter.anchorLists WriterExample.ctx) []).
  - by_compute.
  - vm_compute. reflexivity.
Defined.

(** [_getAnchorPairs] and [shouldContinue].  The pairs map the name of a
    base anchor to the name of the mark anchor it asks for
    ([markAnchorName]), and only when some glyph has a mark anchor of
    that name; every base anchor with such a mark anchor is in the pairs.
    The writer goes on exactly when there is such a pair of anchors and
    the base class agrees. *)
Theorem anchor_pairs_are_the_attaching_anchors :
  forall (lists : list (string * list MarkFeatureWriter.NamedAnchor)),
    NoDup (map fst (MarkFeatureWriter.getAnchorPairs lists))
    /\ (forall b m,
          assoc b (MarkFeatureWriter.getAnchorPairs lists) = Some m ->
          exists a a', a ∈ all_anchors lists /\ a' ∈ all_anchors lists
                       /\ attaching_pair a a'
                       /\ MarkFeatureWriter.name a = b
                       /\ MarkFeatureWriter.name a' = m)
    /\ (forall a a', a ∈ all_anchors lists -> a' ∈ all_anchors lists ->
          attaching_pair a a' ->
          is_Some (assoc (MarkFeatureWriter.name a)
                     (MarkFeatureWriter.getAnchorPairs lists)))
    /\ (forall (super : bool) (ctx : MarkFeatureWriter.Context),
          MarkFeatureWriter.anchorLists ctx = lists ->
          MarkFeatureWriter.anchorPairs ctx
          = MarkFeatureWriter.getAnchorPairs lists ->
          (fst (MarkFeatureWriter.shouldContinue super ctx) = true <->
           super = true
           /\ exists a a', a ∈ all_anchors lists /\ a' ∈ all_anchors lists
                           /\ attaching_pair a a')).
Proof.
  intros lists. destruct (getAnchorPairs_spec lists) as (Hnd & Hfrom & Hall).
  split; [exact Hnd|]. split; [exact Hfrom|]. split; [exact Hall|].
  intros super ctx _ Hpairs. unfold MarkFeatureWriter.shouldContinue.
  rewrite Hpairs.
  destruct (MarkFeatureWriter.getAnchorPairs lists) as [|[b m] pairs] eqn:E;
    cbn [nonempty negb fst].
  - split; [discriminate|]. intros (_ & a & a' & Ha & Ha' & Hp).
    destruct (Hall a a' Ha Ha' Hp) as [v Hv]. discriminate Hv.
  - split; [|tauto]. intros ->. split; [reflexivity|].
    destruct (Hfrom b m) as (a & a' & Ha & Ha' & Hp & _);
      [cbn [assoc]; now rewrite String.eqb_refl|].
    eauto.
Qed.

Lemma anchor_pairs_are_the_attaching_anchors_witness :
  fst (MarkFeatureWriter.shouldContinue true WriterExample.ctx) = true <->
  true = true
  /\ exists a a',
       a ∈ all_anchors (MarkFeatureWriter.anchorLists WriterExample.ctx)
       /\ a' ∈ all_anchors (MarkFeatureWriter.anchorLists WriterExample.ctx)
       /\ attaching_pair a a'.
Proof.
  apply (proj2 (proj2 (proj2
           (anchor_pairs_are_the_attaching_anchors
              (MarkFeatureWriter.anchorLists WriterExample.ctx))))
           true WriterExample.ctx).
  - reflexivity.
  - vm_compute. reflexivity.
Defined.

(** [_pruneUnusedAnchors] keeps, in their order, the anchors whose name
    is a base name or a mark name of the anchor pairs and the anchors
    without a key, drops the glyphs that are left without anchor, and
    changes nothing when it is applied again. *)
Theorem prune_unused_anchors_keeps_the_attaching :
  forall (pairs : list (string * string))
         (lists : list (string * list MarkFeatureWriter.NamedAnchor)),
    (forall g l,
       (g, l) ∈ MarkFeatureWriter.pruneUnusedAnchors pairs lists <->
       l <> [] /\ exists l0, (g, l0) ∈ lists
                             /\ l = List.filter (kept_anchor pairs) l0)
    /\ map fst (MarkFeatureWriter.pruneUnusedAnchors pairs lists)
       `sublist_of` map fst lists
    /\ MarkFeatureWriter.pruneUnusedAnchors pairs
         (MarkFeatureWriter.pruneUnusedAnchors pairs lists)
       = MarkFeatureWriter.pruneUnusedAnchors pairs lists.
Proof.
  intros pairs lists. split; [|split].
  - intros g l. apply elem_of_pruned.
  - apply pruned_keys_sublist.
  - apply pruneUnusedAnchors_again.
Qed.

(* ===================================================================== *)
(** ** The features that are written                                      *)
(* ===================================================================== *)

Section Features.

Import MarkFeatureWriter.

Lemma makeMarkLookup_not_empty lookupName attachments include marksFilter lb :
  makeMarkLookup lookupName attachments include marksFilter = Some lb ->
  lookup_not_empty lb.
Proof.
  unfold makeMarkLookup. cbv zeta.
  destruct (map _ _) as [|s l] eqn:E; cbn [nonempty]; [discriminate|].
  intros [= <-]. unfold lookup_not_empty. cbn. discriminate.
Qed.

Lemma makeMarkToMarkLookup_not_empty astm ctx anchorName attachments include
    marksFilter featureTag lb :
  makeMarkToMarkLookup astm ctx anchorName attachments include marksFilter
    featureTag = Ok (Some lb) ->
  lookup_not_empty lb.
Proof.
  unfold makeMarkToMarkLookup. cbv zeta.
  destruct (negb (nonempty _)); [discriminate|].
  destruct (assoc anchorName (ctx_markClasses ctx)) as [cname|]; [|discriminate].
  destruct (markClasses (feaFile ctx) !! cname) as [mc|]; [|discriminate].
  destruct (makeMarkFilteringSetClass _ _ _ _ _ _) as [fname members].
  intros [= <-]. unfold lookup_not_empty. cbn. discriminate.
Qed.

Lemma mark_to_mark_lookups_not_empty astm ctx include marksFilter featureTag :
  forall items lkps,
    mark_to_mark_lookups astm ctx items include marksFilter featureTag
    = Ok lkps ->
    Forall lookup_not_empty lkps.
Proof.
  induction items as [|[anchorName attachments] items IH]; intros lkps H;
    cbn [mark_to_mark_lookups] in H.
  - injection H as <-. constructor.
  - bind_ok H as lkp E. bind_ok H as rest E'. injection H as <-.
    apply List.Forall_app. split; [|now apply IH].
    destruct lkp as [lb|]; cbn [opt_to_list]; [|constructor].
    constructor; [|constructor].
    eapply makeMarkToMarkLookup_not_empty. exact E.
Qed.

Lemma opt_lookup_not_empty (o : option LookupBlock) :
  (forall lb, o = Some lb -> lookup_not_empty lb) ->
  Forall lookup_not_empty (opt_to_list o).
Proof.
  intros H. destruct o as [lb|]; cbn [opt_to_list]; [|constructor].
  constructor; [now apply H|constructor].
Qed.

Ltac split_lookups :=
  cbn [opt_to_list app] in *;
  repeat match goal with
         | H : Forall _ (_ :: _) |- _ => apply List.Forall_cons_iff in H as [? ?]
         end;
  repeat (constructor; try assumption).

Lemma makeMarkFeature_not_empty atts include fb :
  makeMarkFeature atts include = Some fb -> feature_not_empty fb.
Proof.
  unfold makeMarkFeature. cbv zeta. intros H.
  pose proof (opt_lookup_not_empty _
                (makeMarkLookup_not_empty "mark2base"
                   (markToBaseAttachments atts) include None)) as Hb.
  pose proof (opt_lookup_not_empty _
                (makeMarkLookup_not_empty "mark2liga"
                   (markToLigaAttachments atts) include None)) as Hl.
  destruct (makeMarkLookup "mark2base" _ _ _) as [b|],
           (makeMarkLookup "mark2liga" _ _ _) as [l|];
    try discriminate H; injection H as <-; split; cbn [feature_statements];
    try discriminate; split_lookups.
Qed.

Lemma makeMkmkFeature_not_empty astm ctx atts include fb :
  makeMkmkFeature astm ctx atts include = Ok (Some fb) -> feature_not_empty fb.
Proof.
  unfold makeMkmkFeature. intros H. bind_ok H as lkps E.
  destruct lkps as [|lb lkps]; cbn [nonempty] in H; [discriminate H|].
  injection H as <-. split; cbn [feature_statements]; [discriminate|].
  eapply mark_to_mark_lookups_not_empty. exact E.
Qed.

Lemma makeAbvmOrBlwmFeature_not_empty astm ctx atts threshold t include fb :
  makeAbvmOrBlwmFeature astm ctx atts threshold t include = Ok (Some fb) ->
  feature_not_empty fb.
Proof.
  unfold makeAbvmOrBlwmFeature. intros H.
  bind_ok H as marksFilter E. cbv zeta in H. bind_ok H as mkmkLookups E'.
  apply mark_to_mark_lookups_not_empty in E'.
  pose proof (opt_lookup_not_empty _
                (makeMarkLookup_not_empty (t +:+ "_mark2base")
                   (markToBaseAttachments atts) include (Some marksFilter)))
    as Hb.
  pose proof (opt_lookup_not_empty _
                (makeMarkLookup_not_empty (t +:+ "_mark2liga")
                   (markToLigaAttachments atts) include (Some marksFilter)))
    as Hl.
  destruct (makeMarkLookup (t +:+ "_mark2base") _ _ _) as [b|],
           (makeMarkLookup (t +:+ "_mark2liga") _ _ _) as [l|],
           mkmkLookups as [|lb lkps];
    try discriminate H; injection H as <-; split; cbn [feature_statements];
    try discriminate; split_lookups.
Qed.

Lemma add_feature_asked todo indicGlyphs features t f :
  all_asked todo indicGlyphs features ->
  (forall fb, f = Some fb -> feature_asked todo indicGlyphs t fb) ->
  all_asked todo indicGlyphs (add_feature features t f).
Proof.
  intros Hall Hf. unfold add_feature. destruct f as [fb|]; [|exact Hall].
  apply Forall_assoc_set; [exact Hall|]. cbn [fst snd]. now apply Hf.
Qed.

Lemma feature_step_asked (b : bool) todo indicGlyphs features t
    (make : result (option FeatureBlock)) features' :
  all_asked todo indicGlyphs features ->
  (b = true -> forall fb, make = Ok (Some fb) ->
     feature_asked todo indicGlyphs t fb) ->
  (if b then f ← make; Ok (add_feature features t f) else Ok features)
  = Ok features' ->
  all_asked todo indicGlyphs features'.
Proof.
  intros Hall Hmake H. destruct b; [|now injection H as <-].
  bind_ok H as f E. injection H as <-.
  apply add_feature_asked; [exact Hall|]. intros fb ->. now apply Hmake.
Qed.

(** The features [_makeFeatures] returns were asked for. *)
Lemma makeFeatures_asked astm ctx indicGlyphs unitsPerEm features ctx' :
  makeFeatures astm ctx indicGlyphs unitsPerEm = Ok (features, ctx') ->
  all_asked (todo ctx) indicGlyphs features.
Proof.
  unfold makeFeatures. intros H.
  bind_ok H as b Eb. bind_ok H as l El. bind_ok H as ml Em.
  destruct ml as [m log'].
  assert (H0 : all_asked (todo ctx) indicGlyphs []) by constructor.
  set (atts := mkAttachments b l m) in *.
  set (ctx1 := mkContext _ _ _ _ _ _ log') in *.
  change (todo ctx1) with (todo ctx) in H.
  match type of H with
  | context [add_feature [] "mark" ?x] =>
      set (f1 := if bool_decide ("mark" ∈ todo ctx)
                 then add_feature [] "mark" x else []) in *
  end.
  assert (H1 : all_asked (todo ctx) indicGlyphs f1).
  { unfold f1. destruct (bool_decide ("mark" ∈ todo ctx)) eqn:Et; [|exact H0].
    apply bool_decide_eq_true in Et.
    apply add_feature_asked; [exact H0|]. intros fb Hfb.
    split; [now apply makeMarkFeature_tag in Hfb|]. split; [exact Et|].
    split; [now left|]. eapply makeMarkFeature_not_empty. exact Hfb. }
  bind_ok H as f2 E2.
  assert (H2 : all_asked (todo ctx) indicGlyphs f2).
  { eapply feature_step_asked; [exact H1| |exact E2].
    intros Et fb Hfb. apply bool_decide_eq_true in Et.
    split; [now apply makeMkmkFeature_tag in Hfb|]. split; [exact Et|].
    split; [right; now left|]. eapply makeMkmkFeature_not_empty. exact Hfb. }
  bind_ok H as f4 E4. injection H as <- _.
  destruct (_ && nonempty indicGlyphs) eqn:Ei; [|now injection E4 as <-].
  apply andb_true_iff in Ei as [_ Hindic].
  assert (Hne : indicGlyphs <> []) by (now destruct indicGlyphs).
  bind_ok E4 as f3 E3.
  assert (H3 : all_asked (todo ctx) indicGlyphs f3).
  { eapply feature_step_asked; [exact H2| |exact E3].
    intros Et fb Hfb. apply bool_decide_eq_true in Et.
    split; [now apply makeAbvmOrBlwmFeature_tag in Hfb|]. split; [exact Et|].
    split; [right; right; split; [now left|exact Hne]|].
    eapply makeAbvmOrBlwmFeature_not_empty. exact Hfb. }
  eapply feature_step_asked; [exact H3| |exact E4].
  intros Et fb Hfb. apply bool_decide_eq_true in Et.
  split; [now apply makeAbvmOrBlwmFeature_tag in Hfb|]. split; [exact Et|].
  split; [right; right; split; [now right|exact Hne]|].
  eapply makeAbvmOrBlwmFeature_not_empty. exact Hfb.
Qed.

End Features.

(** [_write] adds to the statements of the feature file and removes none.
    It returns False exactly when no feature was made, and then the
    statements are as they were (mark classes may still have been
    defined in the file's [markClasses]).  Every feature block it writes
    is one that was asked for in [todo], [abvm] and [blwm] only when
    there are Indic glyphs, and none is empty: a feature block has a
    lookup, a lookup has a statement. *)
Theorem write_adds_only_features_asked_for :
  forall (astm : MarkFeatureWriter.AstModule) (ctx : MarkFeatureWriter.Context)
         (indicGlyphs : list string) (unitsPerEm : Z) (b : bool)
         (ctx' : MarkFeatureWriter.Context),
    MarkFeatureWriter.write astm ctx indicGlyphs unitsPerEm = Ok (b, ctx') ->
    exists newDefs features,
      MarkFeatureWriter.statements (MarkFeatureWriter.feaFile ctx')
      = MarkFeatureWriter.statements (MarkFeatureWriter.feaFile ctx)
        ++ (if b
            then map MarkFeatureWriter.SMarkClassDefinition newDefs
                 ++ [MarkFeatureWriter.SComment ""]
                 ++ map (fun tf => MarkFeatureWriter.SFeatureBlock (snd tf))
                        features
            else [])
      /\ b = nonempty features
      /\ all_asked (MarkFeatureWriter.todo ctx) indicGlyphs features
      /\ MarkFeatureWriter.glyphClassNames (MarkFeatureWriter.feaFile ctx')
         = MarkFeatureWriter.glyphClassNames (MarkFeatureWriter.feaFile ctx).
Proof.
  intros astm ctx indicGlyphs unitsPerEm b ctx' H.
  unfold MarkFeatureWriter.write in H. cbv zeta in H.
  bind_ok H as p1 E1. destruct p1 as [newDefs ctx1].
  bind_ok H as lists E2. bind_ok H as p3 E3. destruct p3 as [features ctx3].
  unfold MarkFeatureWriter.makeMarkClassDefinitions in E1. cbv zeta in E1.
  bind_ok E1 as g Eg. destruct g as [groups names].
  bind_ok E1 as d Ed. destruct d as [[[classes allc] defs] log1].
  injection E1 as <- <-.
  pose proof (makeFeatures_asked _ _ _ _ _ _ E3) as Hasked.
  destruct (makeFeatures_wf _ _ _ _ _ _ E3) as [_ Hfea].
  cbn [MarkFeatureWriter.todo MarkFeatureWriter.feaFile] in Hasked, Hfea.
  exists defs, (sorted MarkFeatureWriter.name_le features).
  assert (Hperm : sorted MarkFeatureWriter.name_le features ≡ₚ features)
    by apply sorted_perm.
  assert (Hne : nonempty (sorted MarkFeatureWriter.name_le features)
                = nonempty features).
  { destruct features as [|f fs]; [reflexivity|].
    destruct (sorted MarkFeatureWriter.name_le (f :: fs)) eqn:Es;
      [|reflexivity].
    apply Permutation_nil in Hperm. discriminate Hperm. }
  assert (Hall : all_asked (MarkFeatureWriter.todo ctx) indicGlyphs
                   (sorted MarkFeatureWriter.name_le features)).
  { unfold all_asked. rewrite Hperm. exact Hasked. }
  destruct (nonempty features) eqn:En; cbn [negb] in H; injection H as <- <-.
  - cbn [MarkFeatureWriter.feaFile MarkFeatureWriter.statements
         MarkFeatureWriter.glyphClassNames].
    rewrite Hfea. cbn. auto.
  - rewrite Hfea. cbn. rewrite app_nil_r. auto.
Qed.

Lemma write_adds_only_features_asked_for_witness :
  exists newDefs features,
    MarkFeatureWriter.statements
      (MarkFeatureWriter.feaFile WriterExample.written)
    = MarkFeatureWriter.statements
        (MarkFeatureWriter.feaFile WriterExample.ctx)
      ++ (map MarkFeatureWriter.SMarkClassDefinition newDefs
          ++ [MarkFeatureWriter.SComment ""]
          ++ map (fun tf => MarkFeatureWriter.SFeatureBlock (snd tf)) features)
    /\ true = nonempty features
    /\ all_asked (MarkFeatureWriter.todo WriterExample.ctx) [] features
    /\ MarkFeatureWriter.glyphClassNames
         (MarkFeatureWriter.feaFile WriterExample.written)
       = MarkFeatureWriter.glyphClassNames
           (MarkFeatureWriter.feaFile WriterExample.ctx).
Proof.
  apply (write_adds_only_features_asked_for MarkFeatureWriter.ast_model
           WriterExample.ctx [] 1000 true WriterExample.written).
  vm_compute. reflexivity.
Defined.

Section RuleOrder.

Import MarkFeatureWriter.

Lemma string_leb_total (s t : string) :
  String.leb s t = true \/ String.leb t s = true.
Proof.
  unfold String.leb. rewrite (String.compare_antisym s t).
  destruct (String.compare t s); cbn; auto.
Qed.

Lemma marksAsAST_sorted (marks : list NamedAnchor) :
  exists l,
    l ≡ₚ marks
    /\ StronglySorted (fun a b => String.leb (name a) (name b) = true) l
    /\ marksAsAST marks
       = map (fun a => (Anchor_xy (x a) (y a), markClass a)) l.
Proof.
  exists (sorted anchor_name_le marks). split; [apply sorted_perm|].
  split; [|reflexivity].
  apply Sorted_StronglySorted.
  { intros a b c. apply string_leb_trans. }
  apply (sorted_Sorted anchor_name_le).
  intros a b. apply string_leb_total.
Qed.

End RuleOrder.

(** The marks of a positioning rule are its anchors in the order of their
    names, each with its position and its mark class: none is lost, none
    is added.  A mark-to-ligature rule keeps its components in their
    order and sorts the anchors within each component. *)
Theorem rule_marks_are_sorted_by_anchor_name :
  forall (p : MarkFeatureWriter.MarkPos),
    match p, MarkFeatureWriter.asAST p with
    | MarkFeatureWriter.MarkToBasePos g marks,
      MarkFeatureWriter.MarkBasePosStatement g' marks'
    | MarkFeatureWriter.MarkToMarkPos g marks,
      MarkFeatureWriter.MarkMarkPosStatement g' marks' =>
        g' = g
        /\ exists l,
             l ≡ₚ marks
             /\ StronglySorted
                  (fun a b => String.leb (MarkFeatureWriter.name a)
                                         (MarkFeatureWriter.name b) = true) l
             /\ marks'
                = map (fun a =>
                         (MarkFeatureWriter.Anchor_xy (MarkFeatureWriter.x a)
                            (MarkFeatureWriter.y a),
                          MarkFeatureWriter.markClass a)) l
    | MarkFeatureWriter.MarkToLigaPos g comps,
      MarkFeatureWriter.MarkLigPosStatement g' comps' =>
        g' = g
        /\ Forall2
             (fun marks marks' =>
                exists l,
                  l ≡ₚ marks
                  /\ StronglySorted
                       (fun a b => String.leb (MarkFeatureWriter.name a)
                                              (MarkFeatureWriter.name b) = true)
                       l
                  /\ marks'
                     = map (fun a =>
                              (MarkFeatureWriter.Anchor_xy
                                 (MarkFeatureWriter.x a)
                                 (MarkFeatureWriter.y a),
                               MarkFeatureWriter.markClass a)) l)
             comps comps'
    | _, _ => False
    end.
Proof.
  intros [g marks|g marks|g comps]; cbn [MarkFeatureWriter.asAST].
  - split; [reflexivity|apply marksAsAST_sorted].
  - split; [reflexivity|apply marksAsAST_sorted].
  - split; [reflexivity|].
    induction comps as [|c comps IH]; cbn [map]; constructor;
      [apply marksAsAST_sorted|exact IH].
Qed.

(* ===================================================================== *)
(** ** The writer does not fail: groups and mark classes                  *)
(* ===================================================================== *)

Section Groups.

Import MarkFeatureWriter.

Lemma has_key_elem {V : Type} (k : string) (d : list (string * V)) :
  has_key k d = true <-> k ∈ map fst d.
Proof.
  unfold has_key. destruct (assoc k d) as [v|] eqn:E.
  - split; [|reflexivity]. intros _. apply dec_stable. intros H.
    apply assoc_None in H. congruence.
  - split; [discriminate|]. intros H. apply assoc_None in E. contradiction.
Qed.

(** The loop over the anchors of the glyph [g]: no group has [g] for the
    name of an anchor that is still to come. *)
Lemma group_anchors_total (M : list string) (g : string) :
  forall (rest : list NamedAnchor) (groups : Groups) (names : list string),
    NoDup (map name rest) ->
    (forall n grp, assoc n groups = Some grp -> g ∈ map fst grp ->
       n ∉ map name rest) ->
    exists groups' names',
      group_anchors M g rest groups names = Ok (groups', names')
      /\ (forall n grp g', assoc n groups' = Some grp -> g' ∈ map fst grp ->
            g' = g \/ exists grp0, assoc n groups = Some grp0
                                   /\ g' ∈ map fst grp0)
      /\ (forall n grp0 e, assoc n groups = Some grp0 -> e ∈ grp0 ->
            exists grp, assoc n groups' = Some grp /\ e ∈ grp)
      /\ (forall x, x ∈ names -> x ∈ names')
      /\ (forall a, a ∈ rest -> name a ∈ M ->
            g ∈ names'
            /\ exists grp, assoc (name a) groups' = Some grp /\ (g, a) ∈ grp).
Proof.
  induction rest as [|a rest IH]; intros groups names Hnd Hfresh;
    cbn [group_anchors].
  - exists groups, names. split; [reflexivity|].
    split; [eauto|]. split; [eauto|]. split; [auto|].
    intros a Ha. now apply elem_of_nil in Ha.
  - cbn [map] in Hnd. apply NoDup_cons in Hnd as [Hna Hnd].
    destruct (bool_decide (name a ∈ M)) eqn:Em.
    + cbv zeta.
      set (group := default [] (assoc (name a) groups)).
      assert (Hkey : has_key g group = false).
      { apply not_true_iff_false. intros Hk. apply has_key_elem in Hk.
        unfold group in Hk. destruct (assoc (name a) groups) as [grp|] eqn:Eg;
          cbn [default from_option id] in Hk; [|now apply elem_of_nil in Hk].
        apply (Hfresh _ _ Eg Hk). cbn [map]. now left. }
      rewrite Hkey.
      set (groups1 := assoc_set (name a) (group ++ [(g, a)]) groups).
      set (names1 := if bool_decide (g ∈ names) then names else names ++ [g]).
      destruct (IH groups1 names1 Hnd) as (groups' & names' & Hrun & Hsrc & Hmono & Hnames & Hall).
      { intros n grp Hn Hin. unfold groups1 in Hn.
        destruct (decide (name a = n)) as [<-|Hne]; [exact Hna|].
        rewrite assoc_set_ne in Hn by exact Hne.
        intros Hrest. apply (Hfresh _ _ Hn Hin). cbn [map]. now right. }
      exists groups', names'. split; [exact Hrun|].
      assert (Hg1 : assoc (name a) groups1 = Some (group ++ [(g, a)]))
        by apply assoc_set_eq.
      split; [|split; [|split]].
      * intros n grp g' Hn Hin.
        destruct (Hsrc n grp g' Hn Hin) as [->|(grp0 & Hn0 & Hin0)]; [now left|].
        unfold groups1 in Hn0.
        destruct (decide (name a = n)) as [<-|Hne].
        -- rewrite assoc_set_eq in Hn0. injection Hn0 as <-.
           rewrite map_app in Hin0. apply elem_of_app in Hin0 as [Hin0|Hin0].
           ++ unfold group in Hin0.
              destruct (assoc (name a) groups) as [grp1|] eqn:Eg;
                cbn [default from_option id] in Hin0;
                [|now apply elem_of_nil in Hin0].
              right. eauto.
           ++ cbn in Hin0. apply list_elem_of_singleton in Hin0. now left.
        -- rewrite assoc_set_ne in Hn0 by exact Hne. right. eauto.
      * intros n grp0 e Hn He.
        destruct (decide (name a = n)) as [<-|Hne].
        -- apply (Hmono (name a) (group ++ [(g, a)]) e Hg1).
           apply elem_of_app. left. unfold group. now rewrite Hn.
        -- apply (Hmono n grp0 e); [|exact He].
           unfold groups1. now rewrite assoc_set_ne.
      * intros x Hx. apply Hnames. unfold names1.
        destruct (bool_decide (g ∈ names)); [exact Hx|].
        apply elem_of_app. now left.
      * intros a' Ha' Hm. apply elem_of_cons in Ha' as [->|Ha'];
          [|now apply Hall].
        split.
        -- apply Hnames. unfold names1.
           destruct (bool_decide (g ∈ names)) eqn:Eg;
             [now apply bool_decide_eq_true in Eg|].
           apply elem_of_app. right. now left.
        -- apply (Hmono (name a) (group ++ [(g, a)]) (g, a) Hg1).
           apply elem_of_app. right. now left.
    + destruct (IH groups names Hnd) as (groups' & names' & Hrun & Hsrc & Hmono & Hnames & Hall).
      { intros n grp Hn Hin Hrest. apply (Hfresh _ _ Hn Hin).
        cbn [map]. now right. }
      exists groups', names'. split; [exact Hrun|].
      split; [exact Hsrc|]. split; [exact Hmono|]. split; [exact Hnames|].
      intros a' Ha' Hm. apply elem_of_cons in Ha' as [->|Ha'];
        [|now apply Hall].
      apply bool_decide_eq_false in Em. contradiction.
Qed.

(** The loop over the glyphs: the groups hold only glyphs that were seen. *)
Lemma groupMarkGlyphsByAnchor_total (M : list string) :
  forall (lists : list (string * list NamedAnchor)) (seen : list string)
         (groups : Groups) (names : list string),
    anchors_wf lists ->
    (forall g, g ∈ map fst lists -> g ∉ seen) ->
    (forall n grp g', assoc n groups = Some grp -> g' ∈ map fst grp ->
       g' ∈ seen) ->
    exists groups' names',
      groupMarkGlyphsByAnchor M lists groups names = Ok (groups', names')
      /\ (forall n grp0 e, assoc n groups = Some grp0 -> e ∈ grp0 ->
            exists grp, assoc n groups' = Some grp /\ e ∈ grp)
      /\ (forall x, x ∈ names -> x ∈ names')
      /\ groups_complete M lists groups' names'.
Proof.
  induction lists as [|[g l] lists IH]; intros seen groups names Hwf Hseen Hinv;
    cbn [groupMarkGlyphsByAnchor].
  - exists groups, names. split; [reflexivity|]. split; [eauto|].
    split; [auto|]. intros g l a Hgl. now apply elem_of_nil in Hgl.
  - destruct Hwf as [Hndk Hwf]. cbn [map fst] in Hndk.
    apply NoDup_cons in Hndk as [Hg Hndk].
    destruct (Hwf g l ltac:(now left)) as [Hndl _].
    destruct (group_anchors_total M g l groups names Hndl)
      as (groups1 & names1 & Hrun1 & Hsrc1 & Hmono1 & Hnames1 & Hall1).
    { intros n grp Hn Hin. exfalso.
      apply (Hseen g); [cbn; now left|]. eapply Hinv; eassumption. }
    rewrite Hrun1. cbn [mbind result_bind Py.bind].
    destruct (IH (g :: seen) groups1 names1) as (groups' & names' & Hrun & Hmono & Hnames & Hall).
    { split; [exact Hndk|]. intros g' l' Hgl'. apply (Hwf g' l'). now right. }
    { intros g' Hg' Hin. apply elem_of_cons in Hin as [->|Hin]; [contradiction|].
      apply (Hseen g'); [cbn; now right|exact Hin]. }
    { intros n grp g' Hn Hin.
      destruct (Hsrc1 n grp g' Hn Hin) as [->|(grp0 & Hn0 & Hin0)]; [now left|].
      right. eapply Hinv; eassumption. }
    exists groups', names'. split; [exact Hrun|].
    split; [|split].
    + intros n grp0 e Hn He.
      destruct (Hmono1 n grp0 e Hn He) as (grp1 & Hn1 & He1).
      now apply (Hmono n grp1 e).
    + intros x Hx. now apply Hnames, Hnames1.
    + intros g' l' a Hgl' Ha Hm. apply elem_of_cons in Hgl' as [[= -> ->]|Hgl'].
      * destruct (Hall1 a Ha Hm) as (Hgn & grp1 & Hn1 & He1).
        split; [now apply Hnames|]. now apply (Hmono _ grp1).
      * now apply (Hall g' l' a).
Qed.

End Groups.

Section Classes.

Import MarkFeatureWriter.

Lemma classes_wf_insert (classes : gmap string MarkClass) (k : string)
    (mc : MarkClass) :
  classes_wf classes -> mc_name mc = k -> classes_wf (<[k := mc]> classes).
Proof.
  intros Hwf Hk k' mc' H. destruct (decide (k = k')) as [<-|Hne].
  - rewrite lookup_insert_eq in H. now injection H as <-.
  - rewrite lookup_insert_ne in H by exact Hne. now apply Hwf.
Qed.

Lemma is_Some_insert_keeps (classes : gmap string MarkClass) (k k' : string)
    (mc : MarkClass) :
  is_Some (classes !! k') -> is_Some (<[k := mc]> classes !! k').
Proof.
  intros H. destruct (decide (k = k')) as [<-|Hne].
  - rewrite lookup_insert_eq. eauto.
  - now rewrite lookup_insert_ne.
Qed.

(** [_defineMarkClass] returns: [addDefinition] is asked only for a glyph
    that the class does not have; the class of the definition, or the
    class asked for when no definition is made, is in the feature file
    afterwards. *)
Lemma defineMarkClass_total astm g px py cn (classes : gmap string MarkClass)
    (log0 : Log) :
  classes_wf classes ->
  exists mcd classes' log',
    defineMarkClass astm g px py cn classes log0 = Ok (mcd, classes', log')
    /\ classes_wf classes'
    /\ (forall k, is_Some (classes !! k) -> is_Some (classes' !! k))
    /\ is_Some (classes' !! match mcd with
                            | Some d => mcd_markClass d
                            | None => cn
                            end).
Proof.
  intros Hwf. unfold defineMarkClass. cbv zeta.
  destruct (classes !! cn) as [mc|] eqn:Ec.
  - destruct (assoc g (glyphs mc)) as [mcdef|] eqn:Eg.
    + destruct (anchorsAreEqual (Anchor_xy px py) (mcd_anchor mcdef)).
      * eexists None, classes, _. split; [reflexivity|].
        split; [exact Hwf|]. split; [auto|]. rewrite Ec. eauto.
      * set (nn := makeFeaClassName_unique astm cn (class_names classes)).
        unfold addDefinition. cbn [glyphs mcd_glyph has_key assoc mc_name
          definitions mbind result_bind Py.bind app].
        eexists (Some _), _, _. split; [reflexivity|].
        split; [|split].
        -- apply classes_wf_insert; [|reflexivity].
           now apply classes_wf_insert.
        -- intros k Hk. now do 2 apply is_Some_insert_keeps.
        -- cbn [mcd_markClass]. rewrite lookup_insert_eq. eauto.
    + unfold addDefinition. cbn [mcd_glyph]. unfold has_key. rewrite Eg.
      cbn [mbind result_bind Py.bind].
      eexists (Some _), _, _. split; [reflexivity|].
      pose proof (Hwf _ _ Ec) as Hname.
      split; [|split].
      * now apply classes_wf_insert.
      * intros k Hk. now apply is_Some_insert_keeps.
      * cbn [mcd_markClass]. rewrite Hname, lookup_insert_eq. eauto.
  - unfold addDefinition. cbn [glyphs mcd_glyph has_key assoc mc_name
      definitions mbind result_bind Py.bind app].
    eexists (Some _), _, _. split; [reflexivity|].
    split; [|split].
    + apply classes_wf_insert; [|reflexivity]. now apply classes_wf_insert.
    + intros k Hk. now do 2 apply is_Some_insert_keeps.
    + cbn [mcd_markClass]. rewrite lookup_insert_eq. eauto.
Qed.

Lemma mark_classes_exist_set (allc : list (string * string))
    (classes classes' : gmap string MarkClass) (k c : string) :
  mark_classes_exist allc classes ->
  (forall k, is_Some (classes !! k) -> is_Some (classes' !! k)) ->
  is_Some (classes' !! c) ->
  mark_classes_exist (assoc_set k c allc) classes'.
Proof.
  intros Hex Hmono Hc k' c' H. destruct (decide (k = k')) as [<-|Hne].
  - rewrite assoc_set_eq in H. now injection H as <-.
  - rewrite assoc_set_ne in H by exact Hne. eapply Hmono, Hex, H.
Qed.

(** The loop over the glyphs of one mark anchor name returns; every key of
    an anchor of the group has its mark class afterwards. *)
Lemma define_group_total astm :
  forall (pairs : list (string * NamedAnchor)) (cn : string)
         (classes : gmap string MarkClass) (allc : list (string * string))
         (defs : list MarkClassDefinition) (log0 : Log),
    classes_wf classes -> mark_classes_exist allc classes ->
    exists classes' allc' defs' log',
      define_group astm pairs cn classes allc defs log0
      = Ok (classes', allc', defs', log')
      /\ classes_wf classes' /\ mark_classes_exist allc' classes'
      /\ (forall k, is_Some (assoc k allc) -> is_Some (assoc k allc'))
      /\ (forall g a, (g, a) ∈ pairs -> is_Some (assoc (key a) allc')).
Proof.
  induction pairs as [|[g a] pairs IH]; intros cn classes allc defs log0 Hwf Hex;
    cbn [define_group].
  - exists classes, allc, defs, log0. split; [reflexivity|].
    split; [exact Hwf|]. split; [exact Hex|]. split; [auto|].
    intros g a H. now apply elem_of_nil in H.
  - destruct (defineMarkClass_total astm g (x a) (y a) cn classes log0 Hwf)
      as (mcd & classes1 & log1 & Hrun & Hwf1 & Hmono & [mc Hcn]).
    rewrite Hrun. cbn [mbind result_bind Py.bind]. cbv zeta.
    set (cn' := match mcd with Some d => mcd_markClass d | None => cn end)
      in *.
    rewrite Hcn.
    destruct (IH cn' classes1 (assoc_set (key a) cn' allc)
                (match mcd with Some d => defs ++ [d] | None => defs end)
                log1 Hwf1)
      as (classes' & allc' & defs' & log' & Hrun' & Hwf' & Hex' & Hk & Hall).
    { apply (mark_classes_exist_set allc classes); [exact Hex|exact Hmono|].
      rewrite Hcn. eauto. }
    exists classes', allc', defs', log'. split; [exact Hrun'|].
    split; [exact Hwf'|]. split; [exact Hex'|]. split.
    + intros k H. now apply Hk, is_Some_assoc_set.
    + intros g' a' H. apply elem_of_cons in H as [[= -> ->]|H];
        [|now apply (Hall g')].
      apply Hk. rewrite assoc_set_eq. eauto.
Qed.

(** The loop over the groups returns. *)
Lemma define_groups_total astm :
  forall (groups : Groups) (classes : gmap string MarkClass)
         (allc : list (string * string))
         (defs : list MarkClassDefinition) (log0 : Log),
    classes_wf classes -> mark_classes_exist allc classes ->
    exists classes' allc' defs' log',
      define_groups astm groups classes allc defs log0
      = Ok (classes', allc', defs', log')
      /\ classes_wf classes' /\ mark_classes_exist allc' classes'
      /\ (forall k, is_Some (assoc k allc) -> is_Some (assoc k allc'))
      /\ (forall n grp g a, (n, grp) ∈ groups -> (g, a) ∈ grp ->
            is_Some (assoc (key a) allc')).
Proof.
  induction groups as [|[n grp] groups IH]; intros classes allc defs log0 Hwf Hex;
    cbn [define_groups].
  - exists classes, allc, defs, log0. split; [reflexivity|].
    split; [exact Hwf|]. split; [exact Hex|]. split; [auto|].
    intros n grp g a H. now apply elem_of_nil in H.
  - cbv zeta.
    destruct (define_group_total astm grp
                (makeFeaClassName astm (markClassPrefix +:+ n))
                classes allc defs log0 Hwf Hex)
      as (classes1 & allc1 & defs1 & log1 & Hrun1 & Hwf1 & Hex1 & Hk1 & Hall1).
    rewrite Hrun1. cbn [mbind result_bind Py.bind].
    destruct (IH classes1 allc1 defs1 log1 Hwf1 Hex1)
      as (classes' & allc' & defs' & log' & Hrun' & Hwf' & Hex' & Hk & Hall).
    exists classes', allc', defs', log'. split; [exact Hrun'|].
    split; [exact Hwf'|]. split; [exact Hex'|]. split.
    + intros k H. now apply Hk, Hk1.
    + intros n' grp' g a H Hga. apply elem_of_cons in H as [[= -> ->]|H].
      * apply Hk. now apply (Hall1 g).
      * now apply (Hall n' grp' g).
Qed.

(** [_makeMarkClassDefinitions] returns: every glyph with a mark anchor
    that attaches is a mark glyph, the key of such an anchor has its mark
    class, and the mark classes kept in the context are in the feature
    file. *)
Lemma makeMarkClassDefinitions_total astm (ctx : Context) :
  anchors_wf (anchorLists ctx) ->
  classes_wf (markClasses (feaFile ctx)) ->
  exists defs ctx',
    makeMarkClassDefinitions astm ctx = Ok (defs, ctx')
    /\ anchorLists ctx' = anchorLists ctx
    /\ anchorPairs ctx' = anchorPairs ctx
    /\ todo ctx' = todo ctx
    /\ classes_wf (markClasses (feaFile ctx'))
    /\ mark_classes_exist (ctx_markClasses ctx') (markClasses (feaFile ctx'))
    /\ (forall g l a, (g, l) ∈ anchorLists ctx -> a ∈ l ->
          name a ∈ map snd (anchorPairs ctx) ->
          g ∈ markGlyphNames ctx'
          /\ is_Some (assoc (key a) (ctx_markClasses ctx'))).
Proof.
  intros Hwf Hcl. unfold makeMarkClassDefinitions. cbv zeta.
  destruct (groupMarkGlyphsByAnchor_total (map snd (anchorPairs ctx))
              (anchorLists ctx) [] [] [] Hwf)
    as (groups & names & Hrun & _ & _ & Hcomplete).
  { intros g _ H. now apply elem_of_nil in H. }
  { intros n grp g' H. discriminate H. }
  rewrite Hrun. cbn [mbind result_bind Py.bind].
  destruct (define_groups_total astm (sorted name_le groups)
              (markClasses (feaFile ctx)) [] [] (log ctx) Hcl)
    as (classes' & allc' & defs' & log' & Hrun' & Hwf' & Hex' & _ & Hall).
  { intros k c H. discriminate H. }
  rewrite Hrun'. cbn [mbind result_bind Py.bind].
  eexists _, _. split; [reflexivity|]. cbn.
  repeat (split; [first [reflexivity|assumption]|]).
  intros g l a Hgl Ha Hm.
  destruct (Hcomplete g l a Hgl Ha Hm) as (Hg & grp & Hgrp & Hin).
  split; [exact Hg|].
  apply (Hall (name a) grp g a); [|exact Hin].
  apply assoc_Some_in in Hgrp.
  apply list_elem_of_In.
  apply (Permutation_in _ (Permutation_sym (sorted_perm _ _))).
  now apply list_elem_of_In.
Qed.

End Classes.

(* ===================================================================== *)
(** ** The writer does not fail: anchors, attachments and features        *)
(* ===================================================================== *)

Section Anchors.

Import MarkFeatureWriter.

Lemma NamedAnchor_init_ok n px py mc (a : NamedAnchor) :
  NamedAnchor_init n px py mc = Ok a -> name a = n /\ anchor_ok a.
Proof.
  unfold NamedAnchor_init. intros H. bind_ok H as r Er.
  destruct r as [[m k] num]. destruct num as [i|].
  - destruct (i <? 1); [discriminate H|]. injection H as <-.
    split; [reflexivity|]. split; [exact Er|]. cbn. discriminate.
  - destruct (String.eqb k "") eqn:Ek; [discriminate H|]. injection H as <-.
    split; [reflexivity|]. split; [exact Er|]. cbn. intros _.
    now apply String.eqb_neq.
Qed.

Lemma getAnchorLists_wf gs (log0 : Log) lists log' :
  getAnchorLists gs [] log0 = Ok (lists, log') -> anchors_wf lists.
Proof.
  intros H.
  destruct (getAnchorLists_spec gs [] log0 lists log' H) as (Hnd & Hl & _).
  { constructor. }
  split; [exact Hnd|]. intros g l Hgl.
  destruct (Hl g l Hgl) as [Hin|(_ & Hndl & srcs & _ & Hb)];
    [now apply elem_of_nil in Hin|].
  split; [exact Hndl|]. intros a Ha. destruct (Hb a Ha) as (_ & _ & Hinit).
  now apply NamedAnchor_init_ok in Hinit.
Qed.

Lemma anchor_ok_same_name (a b : NamedAnchor) :
  anchor_ok a -> anchor_ok b -> name a = name b ->
  isMark a = isMark b /\ key a = key b /\ number a = number b.
Proof.
  intros [Ha _] [Hb _] E. rewrite E in Ha. rewrite Ha in Hb.
  injection Hb as E1 E2 E3. auto.
Qed.

Lemma anchor_ok_mark (a : NamedAnchor) :
  anchor_ok a -> isMark a = true -> name a = "_" +:+ key a /\ key a <> "".
Proof.
  intros [H _] Hm. apply parseAnchorName_cases in H.
  destruct H as [(_ & _ & H & Hk)|[(H & _)|(H & _)]]; [auto|congruence..].
Qed.

Lemma elem_of_all_anchors (lists : list (string * list NamedAnchor))
    (a : NamedAnchor) :
  a ∈ all_anchors lists <-> exists g l, (g, l) ∈ lists /\ a ∈ l.
Proof.
  unfold all_anchors. induction lists as [|[g l] lists IH]; cbn [map concat snd].
  - split; [intros H; now apply elem_of_nil in H|].
    intros (g & l & H & _). now apply elem_of_nil in H.
  - rewrite elem_of_app, IH. split.
    + intros [H|(g' & l' & H & Ha)].
      * exists g, l. split; [now left|exact H].
      * exists g', l'. split; [now right|exact Ha].
    + intros (g' & l' & H & Ha). apply elem_of_cons in H as [[= -> ->]|H];
        [now left|]. right. eauto.
Qed.

Lemma NoDup_map_filter {A B : Type} (f : A -> B) (p : A -> bool) (l : list A) :
  NoDup (map f l) -> NoDup (map f (List.filter p l)).
Proof.
  induction l as [|a l IH]; cbn [map List.filter]; [auto|].
  intros H. apply NoDup_cons in H as [Hn H].
  destruct (p a); cbn [map]; [|now apply IH].
  apply NoDup_cons. split; [|now apply IH].
  intros Hin. apply Hn. apply list_elem_of_In, in_map_iff in Hin
    as (a' & <- & Hin). apply filter_In in Hin as [Hin _].
  apply list_elem_of_In, in_map_iff. eauto.
Qed.

Lemma pruned_wf (pairs : list (string * string))
    (lists : list (string * list NamedAnchor)) :
  anchors_wf lists -> anchors_wf (pruneUnusedAnchors pairs lists).
Proof.
  intros [Hnd Hl]. split.
  - exact (sublist_NoDup _ _ Hnd (pruned_keys_sublist pairs lists)).
  - intros g l Hgl. apply elem_of_pruned in Hgl as (_ & l0 & Hgl0 & ->).
    destruct (Hl g l0 Hgl0) as [Hndl Hok]. split.
    + now apply NoDup_map_filter.
    + intros a Ha. apply list_elem_of_In, filter_In in Ha as [Ha _].
      now apply Hok, list_elem_of_In.
Qed.

(** *** The anchor pairs of well-formed anchor lists *)

Section Pairs.

Variable lists : list (string * list NamedAnchor).
Hypothesis Hwf : anchors_wf lists.

Lemma all_anchors_ok (a : NamedAnchor) : a ∈ all_anchors lists -> anchor_ok a.
Proof.
  intros H. apply elem_of_all_anchors in H as (g & l & Hgl & Ha).
  now apply (proj2 Hwf g l Hgl).
Qed.

Lemma pairs_value_is_mark (m : string) :
  m ∈ map snd (getAnchorPairs lists) ->
  exists a', a' ∈ all_anchors lists /\ isMark a' = true /\ name a' = m.
Proof.
  intros H. apply list_elem_of_In, in_map_iff in H as ([b m'] & Hm & Hin).
  cbn in Hm. subst m'.
  destruct (getAnchorPairs_spec lists) as (Hnd & Hsound & _).
  apply list_elem_of_In, (in_assoc_Some _ _ _ Hnd) in Hin.
  destruct (Hsound b m Hin) as (a & a' & _ & Ha' & (_ & Hmark & _) & _ & Hn).
  eauto.
Qed.

Lemma pairs_key_is_base (b : string) :
  b ∈ map fst (getAnchorPairs lists) ->
  exists a a', a ∈ all_anchors lists /\ a' ∈ all_anchors lists
               /\ attaching_pair a a' /\ name a = b
               /\ name a' ∈ map snd (getAnchorPairs lists).
Proof.
  intros H. destruct (assoc b (getAnchorPairs lists)) as [m|] eqn:E;
    [|now apply assoc_None in E].
  destruct (getAnchorPairs_spec lists) as (_ & Hsound & _).
  destruct (Hsound b m E) as (a & a' & Ha & Ha' & Hpair & Hb & Hm).
  exists a, a'. repeat (split; [assumption|]).
  apply assoc_Some_in in E. rewrite Hm.
  apply list_elem_of_In, in_map_iff. exists (b, m).
  split; [reflexivity|now apply list_elem_of_In].
Qed.

Lemma attaching_name_is_mark (a : NamedAnchor) :
  anchor_ok a -> name a ∈ map snd (getAnchorPairs lists) -> isMark a = true.
Proof.
  intros Hok H. destruct (pairs_value_is_mark _ H) as (a' & Ha' & Hm & Hn).
  destruct (anchor_ok_same_name a a' Hok (all_anchors_ok a' Ha') (eq_sym Hn))
    as [-> _]. exact Hm.
Qed.

(** A mark anchor that is kept attaches. *)
Lemma kept_mark_attaches (a : NamedAnchor) :
  anchor_ok a -> kept_anchor (getAnchorPairs lists) a = true ->
  isMark a = true -> name a ∈ map snd (getAnchorPairs lists).
Proof.
  intros Hok Hkept Hmark. unfold kept_anchor, attaching_names in Hkept.
  apply orb_true_iff in Hkept as [Hin|Hk].
  - apply bool_decide_eq_true in Hin. apply elem_of_app in Hin as [Hin|Hin];
      [|exact Hin].
    destruct (pairs_key_is_base _ Hin) as (a0 & _ & Ha0 & _ & (Hb & _) & Hn & _).
    destruct (anchor_ok_same_name a a0 Hok (all_anchors_ok a0 Ha0) (eq_sym Hn))
      as [E _]. congruence.
  - apply String.eqb_eq in Hk. now destruct (anchor_ok_mark a Hok Hmark).
Qed.

(** A base anchor with a key that is kept has its mark anchor among the
    anchors that are kept. *)
Lemma kept_base_has_mark (a : NamedAnchor) :
  anchor_ok a -> kept_anchor (getAnchorPairs lists) a = true ->
  isMark a = false -> key a <> "" ->
  exists g l m,
    (g, l) ∈ pruneUnusedAnchors (getAnchorPairs lists) lists /\ m ∈ l
    /\ name m ∈ map snd (getAnchorPairs lists) /\ key m = key a.
Proof.
  intros Hok Hkept Hbase Hkey. unfold kept_anchor, attaching_names in Hkept.
  apply orb_true_iff in Hkept as [Hin|Hk];
    [|now apply String.eqb_eq in Hk].
  apply bool_decide_eq_true in Hin. apply elem_of_app in Hin as [Hin|Hin].
  - destruct (pairs_key_is_base _ Hin)
      as (a0 & m & Ha0 & Hm & (_ & Hmark & Hname) & Hn & Hval).
    destruct (anchor_ok_same_name a a0 Hok (all_anchors_ok a0 Ha0) (eq_sym Hn))
      as (_ & Ek & _).
    destruct (anchor_ok_mark m (all_anchors_ok m Hm) Hmark) as [Hmn _].
    unfold markAnchorName in Hname. rewrite Hmn in Hname.
    cbn in Hname. injection Hname as Hkm.
    apply elem_of_all_anchors in Hm as (g & l0 & Hgl0 & Hml0).
    assert (Hmk : m ∈ List.filter (kept_anchor (getAnchorPairs lists)) l0).
    { apply list_elem_of_In, filter_In. split; [now apply list_elem_of_In|].
      unfold kept_anchor, attaching_names. apply orb_true_iff. left.
      apply bool_decide_eq_true, elem_of_app. now right. }
    exists g, (List.filter (kept_anchor (getAnchorPairs lists)) l0), m.
    split; [|split; [exact Hmk|split; [exact Hval|]]].
    2:{ change (key m = key a0) in Hkm. congruence. }
    apply elem_of_pruned. split; [|eauto].
    intros E. rewrite E in Hmk. now apply elem_of_nil in Hmk.
  - rewrite (attaching_name_is_mark a Hok Hin) in Hbase. discriminate.
Qed.

End Pairs.

(** *** Setting the mark classes of the base anchors *)

Lemma set_mark_classes_total (allc : list (string * string)) :
  forall l : list NamedAnchor,
    (forall a, a ∈ l -> anchor_ok a) ->
    (forall a, a ∈ l -> isMark a = false -> key a <> "" ->
       is_Some (assoc (key a) allc)) ->
    exists l', set_mark_classes allc l = Ok l'
      /\ forall a', a' ∈ l' ->
           exists a, a ∈ l /\ isMark a' = isMark a /\ name a' = name a
                     /\ anchor_ready allc a'.
Proof.
  induction l as [|a l IH]; intros Hok Hcls; cbn [set_mark_classes].
  - exists []. split; [reflexivity|]. intros a' H. now apply elem_of_nil in H.
  - destruct IH as (l' & Hrun & Hl').
    { intros b Hb. apply Hok. now right. }
    { intros b Hb. apply Hcls. now right. }
    destruct (Hok a ltac:(now left)) as [_ Hnum].
    destruct (isMark a || String.eqb (key a) "") eqn:Eskip.
    + cbn [mbind result_bind Py.bind]. rewrite Hrun.
      cbn [mbind result_bind Py.bind]. eexists. split; [reflexivity|].
      intros a' Ha'. apply elem_of_cons in Ha' as [->|Ha'].
      * exists a. split; [now left|]. repeat (split; [reflexivity|]).
        split; [exact Hnum|]. intros Hb Hk.
        apply orb_true_iff in Eskip as [E|E]; [congruence|].
        now apply String.eqb_eq in E.
      * destruct (Hl' a' Ha') as (b & Hb & H). exists b.
        split; [now right|exact H].
    + apply orb_false_iff in Eskip as [Hb Hk]. apply String.eqb_neq in Hk.
      destruct (Hcls a ltac:(now left) Hb Hk) as [c Hc]. rewrite Hc.
      cbn [mbind result_bind Py.bind]. rewrite Hrun.
      cbn [mbind result_bind Py.bind]. eexists. split; [reflexivity|].
      intros a' Ha'. apply elem_of_cons in Ha' as [->|Ha'].
      * exists a. split; [now left|]. repeat (split; [reflexivity|]).
        split; [exact Hnum|]. intros _ _. exists c. cbn. auto.
      * destruct (Hl' a' Ha') as (b & Hb' & H). exists b.
        split; [now right|exact H].
Qed.

Lemma setBaseAnchorMarkClasses_total (allc : list (string * string)) :
  forall lists : list (string * list NamedAnchor),
    (forall g l a, (g, l) ∈ lists -> a ∈ l ->
       anchor_ok a
       /\ (isMark a = false -> key a <> "" -> is_Some (assoc (key a) allc))) ->
    exists lists', setBaseAnchorMarkClasses allc lists = Ok lists'
      /\ forall g l' a', (g, l') ∈ lists' -> a' ∈ l' ->
           exists l a, (g, l) ∈ lists /\ a ∈ l /\ isMark a' = isMark a
                       /\ name a' = name a /\ anchor_ready allc a'.
Proof.
  induction lists as [|[g l] lists IH]; intros H;
    cbn [setBaseAnchorMarkClasses].
  - exists []. split; [reflexivity|]. intros g l' a' Hin.
    now apply elem_of_nil in Hin.
  - destruct (set_mark_classes_total allc l) as (l' & Hrun & Hl').
    { intros a Ha. now apply (H g l a); [left|]. }
    { intros a Ha. now apply (H g l a); [left|]. }
    destruct IH as (lists' & Hrun' & Hlists').
    { intros g0 l0 a0 Hgl Ha0. apply (H g0 l0 a0); [now right|exact Ha0]. }
    rewrite Hrun. cbn [mbind result_bind Py.bind]. rewrite Hrun'.
    cbn [mbind result_bind Py.bind]. eexists. split; [reflexivity|].
    intros g0 l0 a' Hin Ha'. apply elem_of_cons in Hin as [[= -> ->]|Hin].
    + destruct (Hl' a' Ha') as (a & Ha & Hrest). exists l, a.
      split; [now left|]. auto.
    + destruct (Hlists' g0 l0 a' Hin Ha') as (l1 & a & Hgl & Hrest).
      exists l1, a. split; [now right|exact Hrest].
Qed.

End Anchors.

Section Attachments.

Import MarkFeatureWriter.

Variable allc : list (string * string).

Lemma lists_ready_tail (names : list string) (g : string)
    (l : list NamedAnchor) (lists : list (string * list NamedAnchor)) :
  lists_ready allc names ((g, l) :: lists) -> lists_ready allc names lists.
Proof. intros H g' l' a Hgl. apply H. now right. Qed.

Lemma base_marks_total : forall l : list NamedAnchor,
  (forall a, a ∈ l -> anchor_ready allc a /\ isMark a = false) ->
  exists r, base_marks l = Ok r.
Proof.
  induction l as [|a l IH]; intros H; cbn [base_marks]; [eauto|].
  destruct IH as [r Hr]. { intros b Hb. apply H. now right. }
  destruct (H a ltac:(now left)) as [[Hnum Hcls] Hbase].
  destruct (number a) as [i|]; [eauto|].
  rewrite Hbase. destruct (Hcls Hbase (Hnum eq_refl)) as (c & -> & _).
  rewrite Hr. cbn [mbind result_bind Py.bind]. eauto.
Qed.

Lemma makeMarkToBaseAttachments_total (names : list string) :
  forall lists : list (string * list NamedAnchor),
    lists_ready allc names lists ->
    exists r, makeMarkToBaseAttachments names lists = Ok r.
Proof.
  induction lists as [|[g l] lists IH]; intros H;
    cbn [makeMarkToBaseAttachments]; [eauto|].
  destruct (IH (lists_ready_tail _ _ _ _ H)) as [r Hr].
  destruct (bool_decide (g ∈ names)) eqn:Eg; [eauto|].
  apply bool_decide_eq_false in Eg.
  destruct (base_marks_total l) as [b Hb].
  { intros a Ha. destruct (H g l a ltac:(now left) Ha) as [Hready Hbase].
    auto. }
  rewrite Hb, Hr. cbn [mbind result_bind Py.bind].
  destruct (nonempty b); eauto.
Qed.

Lemma component_anchors_total : forall (l : list NamedAnchor)
    (acc : gmap Z (list NamedAnchor)),
  (forall a, a ∈ l -> anchor_ready allc a /\ isMark a = false) ->
  exists r, component_anchors l acc = Ok r.
Proof.
  induction l as [|a l IH]; intros acc H; cbn [component_anchors]; [eauto|].
  assert (Hl : forall b, b ∈ l -> anchor_ready allc b /\ isMark b = false).
  { intros b Hb. apply H. now right. }
  destruct (H a ltac:(now left)) as [[Hnum Hcls] Hbase].
  rewrite Hbase. destruct (number a) as [i|]; [|now apply IH].
  destruct (String.eqb (key a) "") eqn:Ek; [now apply IH|].
  apply String.eqb_neq in Ek. destruct (Hcls Hbase Ek) as (c & -> & _).
  now apply IH.
Qed.

Lemma makeMarkToLigaAttachments_total (names : list string) :
  forall lists : list (string * list NamedAnchor),
    lists_ready allc names lists ->
    exists r, makeMarkToLigaAttachments names lists = Ok r.
Proof.
  induction lists as [|[g l] lists IH]; intros H;
    cbn [makeMarkToLigaAttachments]; [eauto|].
  destruct (IH (lists_ready_tail _ _ _ _ H)) as [r Hr].
  destruct (bool_decide (g ∈ names)) eqn:Eg; [eauto|].
  apply bool_decide_eq_false in Eg.
  destruct (component_anchors_total l ∅) as [c Hc].
  { intros a Ha. destruct (H g l a ltac:(now left) Ha) as [Hready Hbase].
    auto. }
  rewrite Hc, Hr. cbn [mbind result_bind Py.bind].
  destruct (bool_decide (c = ∅)); eauto.
Qed.

Lemma dict_append_keys {V : Type} (k0 : string) (v : V)
    (d : list (string * list V)) (k : string) :
  k ∈ map fst (dict_append k0 v d) -> k = k0 \/ k ∈ map fst d.
Proof.
  unfold dict_append. rewrite keys_assoc_set.
  destruct (has_key k0 d); [now right|].
  intros H. apply elem_of_app in H as [H|H]; [now right|].
  apply list_elem_of_singleton in H. now left.
Qed.

Lemma mark_to_mark_of_glyph_total (g : string) :
  forall (l : list NamedAnchor) (results : list (string * list MarkPos))
         (log0 : Log),
    (forall a, a ∈ l -> anchor_ready allc a) ->
    (forall k, k ∈ map fst results -> is_Some (assoc k allc)) ->
    exists results' log',
      mark_to_mark_of_glyph g l results log0 = Ok (results', log')
      /\ forall k, k ∈ map fst results' -> is_Some (assoc k allc).
Proof.
  induction l as [|a l IH]; intros results log0 H Hkeys;
    cbn [mark_to_mark_of_glyph]; [eauto|].
  assert (Hl : forall b, b ∈ l -> anchor_ready allc b).
  { intros b Hb. apply H. now right. }
  destruct (H a ltac:(now left)) as [Hnum Hcls].
  destruct (isMark a) eqn:Em; [now apply IH|].
  destruct (number a) as [i|]; [now apply IH|].
  destruct (Hcls eq_refl (Hnum eq_refl)) as (c & -> & Hc).
  apply IH; [exact Hl|].
  intros k Hk. apply dict_append_keys in Hk as [->|Hk]; [|now apply Hkeys].
  rewrite Hc. eauto.
Qed.

Lemma makeMarkToMarkAttachments_total (names : list string) :
  forall (lists : list (string * list NamedAnchor))
         (results : list (string * list MarkPos)) (log0 : Log),
    lists_ready allc names lists ->
    (forall k, k ∈ map fst results -> is_Some (assoc k allc)) ->
    exists results' log',
      makeMarkToMarkAttachments names lists results log0 = Ok (results', log')
      /\ forall k, k ∈ map fst results' -> is_Some (assoc k allc).
Proof.
  induction lists as [|[g l] lists IH]; intros results log0 H Hkeys;
    cbn [makeMarkToMarkAttachments]; [eauto|].
  pose proof (lists_ready_tail _ _ _ _ H) as Ht.
  destruct (negb (bool_decide (g ∈ names))); [now apply IH|].
  destruct (mark_to_mark_of_glyph_total g l results log0)
    as (results1 & log1 & Hrun & Hkeys1); [|exact Hkeys|].
  { intros a Ha. now apply (H g l a); [left|]. }
  rewrite Hrun. cbn [mbind result_bind Py.bind]. now apply IH.
Qed.

End Attachments.

Section Features.

Import MarkFeatureWriter.

Variable astm : AstModule.
Variable ctx : Context.
Hypothesis Hex :
  mark_classes_exist (ctx_markClasses ctx) (markClasses (feaFile ctx)).

Lemma makeMarkToMarkLookup_total (n : string) (atts : list MarkPos)
    (include : string -> bool) (marksFilter : option (NamedAnchor -> bool))
    (featureTag : option string) :
  is_Some (assoc n (ctx_markClasses ctx)) ->
  exists r, makeMarkToMarkLookup astm ctx n atts include marksFilter featureTag
            = Ok r.
Proof.
  intros [c Hc]. unfold makeMarkToMarkLookup. cbv zeta.
  destruct (negb (nonempty _)); [eauto|].
  rewrite Hc. destruct (Hex n c Hc) as [mc ->].
  destruct (makeMarkFilteringSetClass _ _ _ _ _ _). eauto.
Qed.

Lemma mark_to_mark_lookups_total (include : string -> bool)
    (marksFilter : option (NamedAnchor -> bool)) (featureTag : option string) :
  forall items : list (string * list MarkPos),
    (forall k, k ∈ map fst items -> is_Some (assoc k (ctx_markClasses ctx))) ->
    exists r, mark_to_mark_lookups astm ctx items include marksFilter featureTag
              = Ok r.
Proof.
  induction items as [|[n atts] items IH]; intros H;
    cbn [mark_to_mark_lookups]; [eauto|].
  destruct (makeMarkToMarkLookup_total n atts include marksFilter featureTag)
    as [r Hr]. { apply H. cbn. now left. }
  destruct IH as [rs Hrs]. { intros k Hk. apply H. cbn. now right. }
  rewrite Hr. cbn [mbind result_bind Py.bind]. rewrite Hrs.
  cbn [mbind result_bind Py.bind]. eauto.
Qed.

Lemma sorted_items_keys (m : list (string * list MarkPos)) :
  (forall k, k ∈ map fst m -> is_Some (assoc k (ctx_markClasses ctx))) ->
  forall k, k ∈ map fst (sorted name_le m) ->
            is_Some (assoc k (ctx_markClasses ctx)).
Proof.
  intros H k Hk. apply H. apply list_elem_of_In.
  apply (Permutation_in _ (Permutation_map fst (sorted_perm name_le m))).
  now apply list_elem_of_In.
Qed.

Lemma makeMkmkFeature_total (atts : Attachments) (include : string -> bool) :
  (forall k, k ∈ map fst (markToMarkAttachments atts) ->
             is_Some (assoc k (ctx_markClasses ctx))) ->
  exists r, makeMkmkFeature astm ctx atts include = Ok r.
Proof.
  intros H. unfold makeMkmkFeature.
  destruct (mark_to_mark_lookups_total include None None
              (sorted name_le (markToMarkAttachments atts))) as [r ->];
    [now apply sorted_items_keys|].
  cbn [mbind result_bind Py.bind]. destruct (nonempty r); eauto.
Qed.

Lemma makeAbvmOrBlwmFeature_total (atts : Attachments) (threshold : Z)
    (t : string) (include : string -> bool) :
  t = "abvm" \/ t = "blwm" ->
  (forall k, k ∈ map fst (markToMarkAttachments atts) ->
             is_Some (assoc k (ctx_markClasses ctx))) ->
  exists r, makeAbvmOrBlwmFeature astm ctx atts threshold t include = Ok r.
Proof.
  intros Ht H. unfold makeAbvmOrBlwmFeature.
  assert (Hf : exists f,
             (if String.eqb t "abvm" then Ok (isAboveMark threshold)
              else if String.eqb t "blwm" then Ok (isBelowMark threshold)
              else Raise (AssertionError t)) = Ok f).
  { destruct Ht as [->| ->]; cbn; eauto. }
  destruct Hf as [f ->]. cbn [mbind result_bind Py.bind]. cbv zeta.
  destruct (mark_to_mark_lookups_total include (Some f) (Some t)
              (sorted name_le (markToMarkAttachments atts))) as [r ->];
    [now apply sorted_items_keys|].
  cbn [mbind result_bind Py.bind].
  destruct (makeMarkLookup _ _ _ _), (makeMarkLookup _ _ _ _), r; eauto.
Qed.

End Features.

Section Write.

Import MarkFeatureWriter.

Lemma feature_step_total (b : bool) (features : list (string * FeatureBlock))
    (t : string) (make : result (option FeatureBlock)) :
  (exists r, make = Ok r) ->
  exists features',
    (if b then f ← make; Ok (add_feature features t f) else Ok features)
    = Ok features'.
Proof.
  intros [r ->]. destruct b; cbn [mbind result_bind Py.bind]; eauto.
Qed.

(** [_makeFeatures] returns on anchor lists that are ready; only the log
    of the context changes. *)
Lemma makeFeatures_total astm (ctx : Context) (indicGlyphs : list string)
    (unitsPerEm : Z) :
  lists_ready (ctx_markClasses ctx) (markGlyphNames ctx) (anchorLists ctx) ->
  mark_classes_exist (ctx_markClasses ctx) (markClasses (feaFile ctx)) ->
  exists features log',
    makeFeatures astm ctx indicGlyphs unitsPerEm
    = Ok (features,
          mkContext (anchorLists ctx) (anchorPairs ctx) (markGlyphNames ctx)
            (ctx_markClasses ctx) (feaFile ctx) (todo ctx) log').
Proof.
  intros Hready Hex. unfold makeFeatures.
  destruct (makeMarkToBaseAttachments_total _ _ _ Hready) as [b ->].
  cbn [mbind result_bind Py.bind].
  destruct (makeMarkToLigaAttachments_total _ _ _ Hready) as [l ->].
  cbn [mbind result_bind Py.bind].
  destruct (makeMarkToMarkAttachments_total _ _ _ [] (log ctx) Hready)
    as (m & log' & -> & Hkeys).
  { intros k Hk. now apply elem_of_nil in Hk. }
  cbn [mbind result_bind Py.bind]. cbv zeta.
  set (ctx1 := mkContext _ _ _ _ _ _ log').
  set (atts := mkAttachments b l m).
  assert (Hmk : forall include,
             exists r, makeMkmkFeature astm ctx1 atts include = Ok r).
  { intros include. apply makeMkmkFeature_total; [exact Hex|exact Hkeys]. }
  assert (Hab : forall threshold t include, t = "abvm" \/ t = "blwm" ->
             exists r, makeAbvmOrBlwmFeature astm ctx1 atts threshold t include
                       = Ok r).
  { intros threshold t include Ht.
    apply makeAbvmOrBlwmFeature_total; [exact Hex|exact Ht|exact Hkeys]. }
  cbn [todo].
  match goal with
  | |- context [mbind _ (if ?c then mbind _ (makeMkmkFeature _ _ _ ?inc) else Ok ?fs)] =>
      destruct (feature_step_total c fs "mkmk" _ (Hmk inc)) as [f1 ->]
  end.
  cbn [mbind result_bind Py.bind].
  match goal with
  | |- context [mbind _ (if ?c then mbind _ (makeAbvmOrBlwmFeature _ _ _ ?th _ ?inc) else Ok ?fs)] =>
      destruct (feature_step_total c fs "abvm" _
                  (Hab th "abvm" inc (or_introl eq_refl))) as [f2 ->]
  end.
  cbn [mbind result_bind Py.bind].
  match goal with
  | |- context [if ?c then mbind _ (makeAbvmOrBlwmFeature _ _ _ ?th _ ?inc) else Ok ?fs] =>
      destruct (feature_step_total c fs "blwm" _
                  (Hab th "blwm" inc (or_intror eq_refl))) as [f3 ->]
  end.
  destruct (_ && _); cbn [mbind result_bind Py.bind]; eauto.
Qed.

End Write.
(** Once [setContext] has returned, for a feature file that holds its mark
    classes under their names, [_write] returns: none of its assertions
    fails and none of its dict lookups misses.  In the context it leaves,
    an anchor without number has a key, a base anchor with a key has the
    mark class that [ctx.markClasses] holds for the key, that class is in
    the feature file, and a glyph outside [markGlyphNames] has no mark
    anchor. *)
Theorem write_returns_after_setContext :
  forall (astm : MarkFeatureWriter.AstModule)
         (glyphSet : list (string * list (string * Z * Z)))
         (fea : MarkFeatureWriter.FeaFile) (todo : list string)
         (ctx : MarkFeatureWriter.Context)
         (indicGlyphs : list string) (unitsPerEm : Z),
    classes_wf (MarkFeatureWriter.markClasses fea) ->
    MarkFeatureWriter.setContext glyphSet fea todo = Ok ctx ->
    exists b ctx',
      MarkFeatureWriter.write astm ctx indicGlyphs unitsPerEm = Ok (b, ctx')
      /\ lists_ready (MarkFeatureWriter.ctx_markClasses ctx')
           (MarkFeatureWriter.markGlyphNames ctx')
           (MarkFeatureWriter.anchorLists ctx')
      /\ mark_classes_exist (MarkFeatureWriter.ctx_markClasses ctx')
           (MarkFeatureWriter.markClasses (MarkFeatureWriter.feaFile ctx'))
      /\ classes_wf
           (MarkFeatureWriter.markClasses (MarkFeatureWriter.feaFile ctx')).
Proof.
  intros astm glyphSet fea todo ctx indicGlyphs unitsPerEm Hcl Hset.
  unfold MarkFeatureWriter.setContext in Hset. bind_ok Hset as r Er.
  destruct r as [lists log0]. injection Hset as <-.
  pose proof (getAnchorLists_wf _ _ _ _ Er) as Hwf.
  unfold MarkFeatureWriter.write.
  cbn [MarkFeatureWriter.anchorLists MarkFeatureWriter.anchorPairs
       MarkFeatureWriter.markGlyphNames MarkFeatureWriter.ctx_markClasses
       MarkFeatureWriter.feaFile MarkFeatureWriter.todo MarkFeatureWriter.log].
  set (pairs := MarkFeatureWriter.getAnchorPairs lists).
  set (pruned := MarkFeatureWriter.pruneUnusedAnchors pairs lists).
  pose proof (pruned_wf pairs lists Hwf) as Hpwf. fold pruned in Hpwf.
  destruct (makeMarkClassDefinitions_total astm
              (MarkFeatureWriter.mkContext pruned pairs [] [] fea todo log0)
              Hpwf Hcl)
    as (defs & ctx1 & Hrun & Hlists & Hpairs & Htodo & Hcl1 & Hex1 & Hmarks).
  cbn [MarkFeatureWriter.anchorLists MarkFeatureWriter.anchorPairs] in *.
  rewrite Hrun. cbn [mbind result_bind Py.bind]. rewrite Hlists.
  assert (Hkept : forall g l a, (g, l) ∈ pruned -> a ∈ l ->
            anchor_ok a /\ kept_anchor pairs a = true).
  { intros g l a Hgl Ha. split; [now apply (proj2 Hpwf g l Hgl)|].
    apply elem_of_pruned in Hgl as (_ & l0 & _ & ->).
    now apply list_elem_of_In, filter_In in Ha as [_ Ha]. }
  destruct (setBaseAnchorMarkClasses_total
              (MarkFeatureWriter.ctx_markClasses ctx1) pruned)
    as (lists' & Hrun' & Hl').
  { intros g l a Hgl Ha. destruct (Hkept g l a Hgl Ha) as [Hok Hk].
    split; [exact Hok|]. intros Hbase Hkey.
    destruct (kept_base_has_mark lists Hwf a Hok Hk Hbase Hkey)
      as (g' & l' & m & Hin & Hm & Hname & <-).
    now apply (Hmarks g' l' m Hin Hm Hname). }
  rewrite Hrun'. cbn [mbind result_bind Py.bind].
  assert (Hready : lists_ready (MarkFeatureWriter.ctx_markClasses ctx1)
                     (MarkFeatureWriter.markGlyphNames ctx1) lists').
  { intros g l' a' Hgl Ha'.
    destruct (Hl' g l' a' Hgl Ha')
      as (l & a & Hgl0 & Ha & Hmark & _ & Hready).
    split; [exact Hready|]. intros Hg.
    destruct (MarkFeatureWriter.isMark a') eqn:E; [|reflexivity].
    exfalso. apply Hg. apply (Hmarks g l a Hgl0 Ha).
    destruct (Hkept g l a Hgl0 Ha) as [Hok Hk].
    now apply (kept_mark_attaches lists Hwf). }
  destruct (makeFeatures_total astm
              (MarkFeatureWriter.mkContext lists'
                 (MarkFeatureWriter.anchorPairs ctx1)
                 (MarkFeatureWriter.markGlyphNames ctx1)
                 (MarkFeatureWriter.ctx_markClasses ctx1)
                 (MarkFeatureWriter.feaFile ctx1)
                 (MarkFeatureWriter.todo ctx1)
                 (MarkFeatureWriter.log ctx1))
              indicGlyphs unitsPerEm Hready Hex1)
    as (features & log' & Hf).
  rewrite Hf. cbn [mbind result_bind Py.bind].
  destruct (negb (nonempty features)); eexists _, _;
    (split; [reflexivity|]); cbn; auto.
Qed.

Lemma write_returns_after_setContext_witness :
  exists b ctx',
    MarkFeatureWriter.write MarkFeatureWriter.ast_model WriterExample.ctx
      [] 1000 = Ok (b, ctx')
    /\ lists_ready (MarkFeatureWriter.ctx_markClasses ctx')
         (MarkFeatureWriter.markGlyphNames ctx')
         (MarkFeatureWriter.anchorLists ctx')
    /\ mark_classes_exist (MarkFeatureWriter.ctx_markClasses ctx')
         (MarkFeatureWriter.markClasses (MarkFeatureWriter.feaFile ctx'))
    /\ classes_wf
         (MarkFeatureWriter.markClasses (MarkFeatureWriter.feaFile ctx')).
Proof.
  apply (write_returns_after_setContext MarkFeatureWriter.ast_model
           WriterExample.glyphSet (MarkFeatureWriter.mkFeaFile [] ∅ [])
           ["mark"; "mkmk"] WriterExample.ctx [] 1000).
  - intros k mc H. cbn in H. rewrite lookup_empty in H. discriminate H.
  - vm_compute. reflexivity.
Defined.

(* ===================================================================== *)
(** ** What the groups and the mark classes hold                          *)
(* ===================================================================== *)

Section GroupsSpec.

Import MarkFeatureWriter.

(** What the loop over the anchors of the glyph [g] adds comes from these
    anchors. *)
Lemma group_anchors_sound (M : list string) (g : string) :
  forall (rest : list NamedAnchor) (groups : Groups) (names : list string)
         groups' names',
    group_anchors M g rest groups names = Ok (groups', names') ->
    (forall x, x ∈ names' ->
       x ∈ names \/ (x = g /\ exists a, a ∈ rest /\ name a ∈ M))
    /\ (forall n grp g' a', assoc n groups' = Some grp -> (g', a') ∈ grp ->
          (exists grp0, assoc n groups = Some grp0 /\ (g', a') ∈ grp0)
          \/ (g' = g /\ a' ∈ rest /\ name a' = n /\ n ∈ M)).
Proof.
  induction rest as [|a rest IH]; intros groups names groups' names' H;
    cbn [group_anchors] in H.
  - injection H as <- <-. split; [auto|]. intros n grp g' a' Hn Hin.
    left. eauto.
  - destruct (bool_decide (name a ∈ M)) eqn:Em.
    + apply bool_decide_eq_true in Em. cbv zeta in H.
      destruct (has_key g _); [discriminate H|].
      destruct (IH _ _ _ _ H) as [Hnames Hgroups]. split.
      * intros x Hx. destruct (Hnames x Hx) as [Hin|(-> & b & Hb & Hm)].
        -- destruct (bool_decide (g ∈ names)); [now left|].
           apply elem_of_app in Hin as [Hin|Hin]; [now left|].
           apply list_elem_of_singleton in Hin as ->.
           right. split; [reflexivity|]. exists a. split; [now left|exact Em].
        -- right. split; [reflexivity|]. exists b. split; [now right|exact Hm].
      * intros n grp g' a' Hn Hin.
        destruct (Hgroups n grp g' a' Hn Hin)
          as [(grp0 & Hn0 & Hin0)|(-> & Ha' & Hname & Hm)].
        -- destruct (decide (name a = n)) as [<-|Hne].
           ++ rewrite assoc_set_eq in Hn0. injection Hn0 as <-.
              apply elem_of_app in Hin0 as [Hin0|Hin0].
              ** left. destruct (assoc (name a) groups) as [grp1|];
                   cbn [default from_option id] in Hin0;
                   [eauto|now apply elem_of_nil in Hin0].
              ** apply list_elem_of_singleton in Hin0. injection Hin0 as -> ->.
                 right. split; [reflexivity|]. split; [now left|]. auto.
           ++ rewrite assoc_set_ne in Hn0 by exact Hne. left. eauto.
        -- right. split; [reflexivity|]. split; [now right|]. auto.
    + destruct (IH _ _ _ _ H) as [Hnames Hgroups]. split.
      * intros x Hx. destruct (Hnames x Hx) as [Hin|(-> & b & Hb & Hm)];
          [now left|].
        right. split; [reflexivity|]. exists b. split; [now right|exact Hm].
      * intros n grp g' a' Hn Hin.
        destruct (Hgroups n grp g' a' Hn Hin)
          as [Hold|(-> & Ha' & Hname & Hm)]; [now left|].
        right. split; [reflexivity|]. split; [now right|]. auto.
Qed.

Lemma groupMarkGlyphsByAnchor_sound (M : list string) :
  forall (lists : list (string * list NamedAnchor)) (groups : Groups)
         (names : list string) groups' names',
    groupMarkGlyphsByAnchor M lists groups names = Ok (groups', names') ->
    (forall x, x ∈ names' ->
       x ∈ names \/ exists l a, (x, l) ∈ lists /\ a ∈ l /\ name a ∈ M)
    /\ (forall n grp g a, assoc n groups' = Some grp -> (g, a) ∈ grp ->
          (exists grp0, assoc n groups = Some grp0 /\ (g, a) ∈ grp0)
          \/ (n ∈ M /\ name a = n /\ exists l, (g, l) ∈ lists /\ a ∈ l)).
Proof.
  induction lists as [|[g l] lists IH]; intros groups names groups' names' H;
    cbn [groupMarkGlyphsByAnchor] in H.
  - injection H as <- <-. split; [auto|]. intros n grp g a Hn Hin.
    left. eauto.
  - bind_ok H as r E. destruct r as [groups1 names1].
    destruct (group_anchors_sound M g l _ _ _ _ E) as [Hnames1 Hgroups1].
    destruct (IH _ _ _ _ H) as [Hnames Hgroups]. split.
    + intros x Hx. destruct (Hnames x Hx) as [Hin|(l' & a & Hl' & Ha & Hm)].
      * destruct (Hnames1 x Hin) as [Hold|(-> & a & Ha & Hm)]; [now left|].
        right. exists l, a. split; [now left|]. auto.
      * right. exists l', a. split; [now right|]. auto.
    + intros n grp g' a Hn Hin.
      destruct (Hgroups n grp g' a Hn Hin)
        as [(grp1 & Hn1 & Hin1)|(Hm & Hname & l' & Hl' & Ha)].
      * destruct (Hgroups1 n grp1 g' a Hn1 Hin1)
          as [Hold|(-> & Ha & Hname & Hm)]; [now left|].
        right. split; [exact Hm|]. split; [exact Hname|].
        exists l. split; [now left|exact Ha].
      * right. split; [exact Hm|]. split; [exact Hname|].
        exists l'. split; [now right|exact Ha].
Qed.

Lemma groupMarkGlyphsByAnchor_nodup (M : list string) :
  forall (lists : list (string * list NamedAnchor)) (groups : Groups)
         (names : list string) groups' names',
    groupMarkGlyphsByAnchor M lists groups names = Ok (groups', names') ->
    groups_nodup groups -> groups_nodup groups'.
Proof.
  induction lists as [|[g l] lists IH]; intros groups names groups' names' H Hnd;
    cbn [groupMarkGlyphsByAnchor] in H.
  - now injection H as <- _.
  - bind_ok H as r E. destruct r as [groups1 names1].
    destruct (group_anchors_order _ _ _ _ _ _ _ E Hnd) as [Hnd1 _].
    now apply (IH groups1 names1 groups' names').
Qed.

End GroupsSpec.

(** [_groupMarkGlyphsByAnchor], for anchor lists with one entry per glyph
    and one anchor of a name per glyph: the assertion holds and the call
    returns.  The mark glyphs are the glyphs with an anchor whose name is a
    mark anchor name.  The group of a name holds the glyphs with an anchor
    of that name, each with this anchor, each glyph once, in the order of
    the anchor lists; no name has two groups. *)
Theorem mark_glyphs_are_grouped_by_anchor :
  forall (markAnchorNames : list string)
         (lists : list (string * list MarkFeatureWriter.NamedAnchor)),
    anchors_wf lists ->
    exists groups names,
      MarkFeatureWriter.groupMarkGlyphsByAnchor markAnchorNames lists [] []
      = Ok (groups, names)
      /\ (forall g, g ∈ names <->
            exists l a, (g, l) ∈ lists /\ a ∈ l
                        /\ MarkFeatureWriter.name a ∈ markAnchorNames)
      /\ (forall n g a,
            (exists grp, assoc n groups = Some grp /\ (g, a) ∈ grp) <->
            (n ∈ markAnchorNames /\ MarkFeatureWriter.name a = n
             /\ exists l, (g, l) ∈ lists /\ a ∈ l))
      /\ NoDup (map fst groups)
      /\ (forall n grp, assoc n groups = Some grp ->
            NoDup (map fst grp) /\ map fst grp `sublist_of` map fst lists).
Proof.
  intros M lists Hwf.
  destruct (groupMarkGlyphsByAnchor_total M lists [] [] [] Hwf)
    as (groups & names & Hrun & _ & _ & Hcomplete).
  { intros g _ H. now apply elem_of_nil in H. }
  { intros n grp g' H. discriminate H. }
  exists groups, names. split; [exact Hrun|].
  destruct (groupMarkGlyphsByAnchor_sound M lists [] [] groups names Hrun)
    as [Hnames Hgroups].
  split; [|split; [|split]].
  - intros g. split.
    + intros Hg. destruct (Hnames g Hg) as [Hin|H]; [|exact H].
      now apply elem_of_nil in Hin.
    + intros (l & a & Hl & Ha & Hm). now apply (Hcomplete g l a).
  - intros n g a. split.
    + intros (grp & Hn & Hin).
      destruct (Hgroups n grp g a Hn Hin) as [(grp0 & H0 & _)|H];
        [discriminate H0|exact H].
    + intros (Hm & <- & l & Hl & Ha). now apply (Hcomplete g l a).
  - apply (groupMarkGlyphsByAnchor_keys M lists [] [] groups names Hrun).
    constructor.
  - intros n grp Hn. split.
    + apply (groupMarkGlyphsByAnchor_nodup M lists [] [] groups names Hrun)
        with (k := n); [|exact Hn].
      intros k g0 H. discriminate H.
    + apply (groupMarkGlyphsByAnchor_order M lists [] [] [] groups names Hrun)
        with (k := n); [|intros k g0 H; discriminate H|exact Hn].
      intros k g0 H. discriminate H.
Qed.

Lemma mark_glyphs_are_grouped_by_anchor_witness :
  exists groups names,
    MarkFeatureWriter.groupMarkGlyphsByAnchor ["_top"]
      (MarkFeatureWriter.anchorLists WriterExample.ctx) [] []
    = Ok (groups, names)
    /\ (forall g, g ∈ names <->
          exists l a, (g, l) ∈ MarkFeatureWriter.anchorLists WriterExample.ctx
                      /\ a ∈ l /\ MarkFeatureWriter.name a ∈ ["_top"])
    /\ (forall n g a,
          (exists grp, assoc n groups = Some grp /\ (g, a) ∈ grp) <->
          (n ∈ ["_top"] /\ MarkFeatureWriter.name a = n
           /\ exists l, (g, l) ∈ MarkFeatureWriter.anchorLists WriterExample.ctx
                        /\ a ∈ l))
    /\ NoDup (map fst groups)
    /\ (forall n grp, assoc n groups = Some grp ->
          NoDup (map fst grp)
          /\ map fst grp
             `sublist_of` map fst (MarkFeatureWriter.anchorLists WriterExample.ctx)).
Proof.
  apply (mark_glyphs_are_grouped_by_anchor ["_top"]
           (MarkFeatureWriter.anchorLists WriterExample.ctx)).
  apply (getAnchorLists_wf WriterExample.glyphSet []
           (MarkFeatureWriter.anchorLists WriterExample.ctx)
           (MarkFeatureWriter.log WriterExample.ctx)).
  vm_compute. reflexivity.
Defined.

Section DefineSpec.

Import MarkFeatureWriter.

Lemma assoc_app_fresh {V : Type} (d : list (string * V)) (k : string) (v : V) :
  assoc k d = None -> assoc k (d ++ [(k, v)]) = Some v.
Proof.
  induction d as [|[k' v'] d IH]; cbn [assoc app].
  - intros _. now rewrite String.eqb_refl.
  - destruct (String.eqb k' k); [discriminate|exact IH].
Qed.

End DefineSpec.

(** [_defineMarkClass], for mark classes that are held under their names:
    the call returns, and [addDefinition] never finds the glyph defined
    already.  Afterwards the class that the definition names, or the class
    asked for when no definition is made, is in the feature file under its
    name and defines the glyph at the position asked for; no other class
    has changed.  When no definition is made the mark classes are as they
    were; a definition made is the one the class now holds for the glyph,
    and the last of its definitions. *)
Theorem define_mark_class_defines_the_glyph :
  forall (astm : MarkFeatureWriter.AstModule) (glyphName : string) (x y : Z)
         (className : string)
         (markClasses : gmap string MarkFeatureWriter.MarkClass)
         (log : MarkFeatureWriter.Log),
    classes_wf markClasses ->
    exists mcd markClasses' log',
      MarkFeatureWriter.defineMarkClass astm glyphName x y className
        markClasses log = Ok (mcd, markClasses', log')
      /\ classes_wf markClasses'
      /\ exists (cn : string) (mc : MarkFeatureWriter.MarkClass)
                (d : MarkFeatureWriter.MarkClassDefinition),
           cn = match mcd with
                | Some d0 => MarkFeatureWriter.mcd_markClass d0
                | None => className
                end
           /\ markClasses' !! cn = Some mc
           /\ assoc glyphName (MarkFeatureWriter.glyphs mc) = Some d
           /\ MarkFeatureWriter.mcd_anchor d = MarkFeatureWriter.Anchor_xy x y
           /\ (forall k, k <> cn -> markClasses' !! k = markClasses !! k)
           /\ (mcd = None -> markClasses' = markClasses)
           /\ (forall d0, mcd = Some d0 ->
                 d0 = d
                 /\ MarkFeatureWriter.mcd_glyph d = glyphName
                 /\ last (MarkFeatureWriter.definitions mc) = Some d).
Proof.
  intros astm g px py cn classes log0 Hwf.
  unfold MarkFeatureWriter.defineMarkClass. cbv zeta.
  destruct (classes !! cn) as [mc|] eqn:Ec.
  - destruct (assoc g (MarkFeatureWriter.glyphs mc)) as [mcdef|] eqn:Eg.
    + destruct (MarkFeatureWriter.anchorsAreEqual
                  (MarkFeatureWriter.Anchor_xy px py)
                  (MarkFeatureWriter.mcd_anchor mcdef)) eqn:Ea.
      * eexists None, classes, _. split; [reflexivity|].
        split; [exact Hwf|]. exists cn, mc, mcdef.
        split; [reflexivity|]. split; [exact Ec|]. split; [exact Eg|].
        apply anchorsAreEqual_eq in Ea. split; [now symmetry|].
        split; [reflexivity|]. split; [reflexivity|]. discriminate.
      * set (nn := MarkFeatureWriter.makeFeaClassName_unique astm cn _).
        unfold MarkFeatureWriter.addDefinition.
        cbn [MarkFeatureWriter.glyphs MarkFeatureWriter.mcd_glyph has_key
             assoc MarkFeatureWriter.mc_name MarkFeatureWriter.definitions
             mbind result_bind Py.bind app].
        eexists (Some _), _, _. split; [reflexivity|].
        split.
        { apply classes_wf_insert; [|reflexivity].
          now apply classes_wf_insert. }
        eexists nn, _, _. split; [reflexivity|].
        split; [apply lookup_insert_eq|].
        cbn [MarkFeatureWriter.glyphs assoc MarkFeatureWriter.mcd_anchor
             MarkFeatureWriter.mcd_glyph MarkFeatureWriter.definitions last].
        rewrite String.eqb_refl. split; [reflexivity|].
        split; [reflexivity|]. split.
        { intros k Hk. now rewrite !lookup_insert_ne by congruence. }
        split; [discriminate|]. intros d0 [= <-]. auto.
    + unfold MarkFeatureWriter.addDefinition.
      cbn [MarkFeatureWriter.mcd_glyph]. unfold has_key. rewrite Eg.
      cbn [mbind result_bind Py.bind].
      pose proof (Hwf _ _ Ec) as Hname.
      eexists (Some _), _, _. split; [reflexivity|].
      split; [now apply classes_wf_insert|].
      eexists cn, _, _. cbn [MarkFeatureWriter.mcd_markClass].
      split; [now symmetry|]. split; [apply lookup_insert_eq|].
      cbn [MarkFeatureWriter.glyphs MarkFeatureWriter.mcd_anchor
           MarkFeatureWriter.mcd_glyph MarkFeatureWriter.definitions].
      split; [now apply assoc_app_fresh|]. split; [reflexivity|].
      split.
      { intros k Hk. now rewrite lookup_insert_ne by congruence. }
      split; [discriminate|]. intros d0 [= <-].
      split; [reflexivity|]. split; [reflexivity|]. apply last_snoc.
  - unfold MarkFeatureWriter.addDefinition.
    cbn [MarkFeatureWriter.glyphs MarkFeatureWriter.mcd_glyph has_key
         assoc MarkFeatureWriter.mc_name MarkFeatureWriter.definitions
         mbind result_bind Py.bind app].
    eexists (Some _), _, _. split; [reflexivity|].
    split.
    { apply classes_wf_insert; [|reflexivity]. now apply classes_wf_insert. }
    eexists cn, _, _. split; [reflexivity|].
    split; [apply lookup_insert_eq|].
    cbn [MarkFeatureWriter.glyphs assoc MarkFeatureWriter.mcd_anchor
         MarkFeatureWriter.mcd_glyph MarkFeatureWriter.definitions last].
    rewrite String.eqb_refl. split; [reflexivity|].
    split; [reflexivity|]. split.
    { intros k Hk. now rewrite !lookup_insert_ne by congruence. }
    split; [discriminate|]. intros d0 [= <-]. auto.
Qed.

Lemma define_mark_class_defines_the_glyph_witness :
  exists mcd markClasses' log',
    MarkFeatureWriter.defineMarkClass MarkFeatureWriter.ast_model "acutecomb"
      10 300 "MC_top" ∅ [] = Ok (mcd, markClasses', log')
    /\ classes_wf markClasses'
    /\ exists (cn : string) (mc : MarkFeatureWriter.MarkClass)
              (d : MarkFeatureWriter.MarkClassDefinition),
         cn = match mcd with
              | Some d0 => MarkFeatureWriter.mcd_markClass d0
              | None => "MC_top"
              end
         /\ markClasses' !! cn = Some mc
         /\ assoc "acutecomb" (MarkFeatureWriter.glyphs mc) = Some d
         /\ MarkFeatureWriter.mcd_anchor d = MarkFeatureWriter.Anchor_xy 10 300
         /\ (forall k, k <> cn -> markClasses' !! k = (∅ : gmap string MarkFeatureWriter.MarkClass) !! k)
         /\ (mcd = None -> markClasses' = ∅)
         /\ (forall d0, mcd = Some d0 ->
               d0 = d
               /\ MarkFeatureWriter.mcd_glyph d = "acutecomb"
               /\ last (MarkFeatureWriter.definitions mc) = Some d).
Proof.
  apply (define_mark_class_defines_the_glyph MarkFeatureWriter.ast_model
           "acutecomb" 10 300 "MC_top" ∅ []).
  intros k mc H. rewrite lookup_empty in H. discriminate H.
Defined.

(* ===================================================================== *)
(** ** The category of a glyph: component cycles                          *)
(* ===================================================================== *)

Section CategoryRecursion.

Import PropagateAnchors.

Variable ctx : Context.
Variable gs : gmap string Glyph.

Lemma component_categories_no_raise
    (rec : string -> Glyph -> result (option string)) :
  (forall g glyph e, rec g glyph <> Raise e) ->
  forall comps e, component_categories rec gs comps <> Raise e.
Proof.
  intros Hrec. induction comps as [|c comps IH]; intros e;
    cbn [component_categories]; [discriminate|].
  destruct (gs !! baseGlyph c) as [b|]; [|apply IH].
  destruct (rec (baseGlyph c) b) as [r|e'|] eqn:E;
    cbn [mbind result_bind Py.bind]; [|now apply Hrec in E|discriminate].
  destruct (component_categories rec gs comps) as [cats|e'|] eqn:Ec;
    cbn [mbind result_bind Py.bind]; [|now destruct (IH e')|discriminate].
  destruct r as [cat|]; [destruct (String.eqb cat "")|]; discriminate.
Qed.

(** [get_glyph_category] raises nothing. *)
Lemma get_glyph_category_no_raise :
  forall fuel g glyph e, get_glyph_category fuel ctx gs g glyph <> Raise e.
Proof.
  induction fuel as [|fuel IH]; intros g glyph e;
    cbn [get_glyph_category]; [discriminate|]. cbv zeta.
  destruct (match openTypeCategories ctx !! g with
            | Some c => negb (String.eqb c "")
            | None => false
            end); [discriminate|].
  destruct (negb (default 0 (unicode glyph) =? 0)).
  { destruct (unicodeIsMark ctx _); discriminate. }
  unfold category_of_anchors_and_components.
  destruct (has_mark_anchor ctx glyph); [discriminate|].
  destruct (nonempty (components glyph)); [|discriminate].
  destruct (component_categories _ gs (components glyph)) as [cats|e'|] eqn:Ec;
    cbn [mbind result_bind Py.bind];
    [|now apply (component_categories_no_raise _ (IH)) in Ec|discriminate].
  destruct (forallb _ cats); discriminate.
Qed.

(** One component whose category does not come back is enough. *)
Lemma component_categories_stuck
    (rec : string -> Glyph -> result (option string)) :
  (forall g glyph e, rec g glyph <> Raise e) ->
  forall comps c b,
    c ∈ comps -> gs !! baseGlyph c = Some b ->
    rec (baseGlyph c) b = OutOfFuel ->
    component_categories rec gs comps = OutOfFuel.
Proof.
  intros Hrec. induction comps as [|c0 comps IH]; intros c b Hc Hb Hstuck;
    [now apply elem_of_nil in Hc|].
  cbn [component_categories].
  apply elem_of_cons in Hc as [<-|Hc].
  - rewrite Hb, Hstuck. reflexivity.
  - specialize (IH c b Hc Hb Hstuck).
    destruct (gs !! baseGlyph c0) as [b0|]; [|exact IH].
    destruct (rec (baseGlyph c0) b0) as [r|e'|] eqn:E;
      cbn [mbind result_bind Py.bind]; [|now apply Hrec in E|reflexivity].
    now rewrite IH.
Qed.

Lemma get_glyph_category_by_components (fuel : nat) (g : string)
    (glyph : Glyph) :
  classified_by_components ctx g glyph ->
  get_glyph_category (S fuel) ctx gs g glyph
  = category_of_anchors_and_components (get_glyph_category fuel ctx gs)
      ctx gs glyph.
Proof.
  intros (Hcat & Huni & Hmark). cbn [get_glyph_category]. cbv zeta.
  rewrite Huni. cbn [Z.eqb negb].
  now destruct Hcat as [-> | ->].
Qed.

End CategoryRecursion.

Section CategoryTermination.

Import PropagateAnchors.

Variable ctx : Context.
Variable gs : gmap string Glyph.
Variable rank : string -> nat.

Lemma component_categories_ranked (n : nat) :
  (forall g glyph, (rank g < n)%nat -> gs !! g = Some glyph ->
     exists r, forall fuel, (n <= fuel)%nat ->
                 get_glyph_category fuel ctx gs g glyph = Ok r) ->
  forall comps,
    Forall (fun c => is_Some (gs !! baseGlyph c) ->
                     (rank (baseGlyph c) < n)%nat) comps ->
    exists cats, forall fuel, (n <= fuel)%nat ->
      component_categories (get_glyph_category fuel ctx gs) gs comps = Ok cats.
Proof.
  intros Hrec. induction comps as [|c comps IH]; intros Hall;
    cbn [component_categories]; [eauto|].
  apply Forall_cons in Hall as [Hc Hall].
  destruct (IH Hall) as [cats Hcats].
  destruct (gs !! baseGlyph c) as [b|] eqn:Eb; [|eauto].
  destruct (Hrec (baseGlyph c) b (Hc (mk_is_Some _ _ eq_refl)) Eb) as [r Hr].
  destruct r as [cat|]; [destruct (String.eqb cat "") eqn:Ecat|];
    eexists; intros fuel Hfuel; rewrite (Hr fuel Hfuel), (Hcats fuel Hfuel);
    cbn [mbind result_bind Py.bind]; rewrite ?Ecat; reflexivity.
Qed.

Lemma get_glyph_category_ranked :
  component_rank gs rank ->
  forall n g glyph, (rank g < n)%nat -> gs !! g = Some glyph ->
    exists r, forall fuel, (n <= fuel)%nat ->
                get_glyph_category fuel ctx gs g glyph = Ok r.
Proof.
  intros Hrank. induction n as [|n IH]; intros g glyph Hn Eg; [lia|].
  assert (Hcomps : exists cats, forall fuel, (n <= fuel)%nat ->
            component_categories (get_glyph_category fuel ctx gs) gs
              (components glyph) = Ok cats).
  { apply (component_categories_ranked n IH).
    eapply Forall_impl; [exact (Hrank g glyph Eg)|].
    intros c Hc Hsome. specialize (Hc Hsome). cbn beta in Hc. lia. }
  destruct Hcomps as [cats Hcats].
  assert (Hsame : forall fuel, (S n <= fuel)%nat ->
            get_glyph_category fuel ctx gs g glyph
            = get_glyph_category (S n) ctx gs g glyph).
  { intros [|fuel] Hfuel; [lia|]. cbn [get_glyph_category]. cbv zeta.
    unfold category_of_anchors_and_components.
    rewrite (Hcats fuel), (Hcats n) by lia. reflexivity. }
  assert (Hret : exists r, get_glyph_category (S n) ctx gs g glyph = Ok r).
  { cbn [get_glyph_category]. cbv zeta.
    destruct (match openTypeCategories ctx !! g with
              | Some c => negb (String.eqb c "")
              | None => false
              end); [eauto|].
    destruct (negb (default 0 (unicode glyph) =? 0));
      [destruct (unicodeIsMark ctx _); eauto|].
    unfold category_of_anchors_and_components.
    destruct (has_mark_anchor ctx glyph); [eauto|].
    destruct (nonempty (components glyph)); [|eauto].
    rewrite (Hcats n) by lia. cbn [mbind result_bind Py.bind].
    destruct (forallb _ cats); eauto. }
  destruct Hret as [r Hret]. exists r. intros fuel Hfuel.
  now rewrite Hsame.
Qed.

End CategoryTermination.

(** [get_glyph_category] returns on a glyph set without component cycles:
    when a rank of the glyph names goes down from each glyph to the base
    glyphs of its components, the recursion on a glyph ends within the
    rank of the glyph, raises nothing, and its result is the same however
    much deeper the recursion could go. *)
Theorem glyph_category_returns_without_component_cycles :
  forall (ctx : PropagateAnchors.Context)
         (gs : gmap string PropagateAnchors.Glyph) (rank : string -> nat)
         (g : string) (glyph : PropagateAnchors.Glyph),
    component_rank gs rank ->
    gs !! g = Some glyph ->
    exists r,
      forall fuel, (rank g < fuel)%nat ->
        PropagateAnchors.get_glyph_category fuel ctx gs g glyph = Ok r.
Proof.
  intros ctx gs rank g glyph Hrank Eg.
  destruct (get_glyph_category_ranked ctx gs rank Hrank (S (rank g)) g glyph)
    as [r Hr]; [lia|exact Eg|].
  exists r. intros fuel Hfuel. apply Hr. lia.
Qed.

Lemma glyph_category_returns_without_component_cycles_witness :
  exists r,
    forall fuel, (1 < fuel)%nat ->
      PropagateAnchors.get_glyph_category fuel CategoryExample.ctx
        CategoryExample.font "composite" CategoryExample.composite = Ok r.
Proof.
  apply (glyph_category_returns_without_component_cycles CategoryExample.ctx
           CategoryExample.font
           (fun g => if String.eqb g "composite" then 1%nat else 0%nat)
           "composite" CategoryExample.composite).
  - by_compute.
  - reflexivity.
Defined.

(** [get_glyph_category] does not return on a component cycle of glyphs
    that it classifies by their components (no category of their own, no
    Unicode value, no mark anchor): however deep the recursion may go, it
    has not ended; in Python the call ends in a [RecursionError].  The
    processed set, which cuts such cycles for the propagation, is not
    consulted. *)
Theorem glyph_category_never_returns_on_a_component_cycle :
  forall (ctx : PropagateAnchors.Context)
         (gs : gmap string PropagateAnchors.Glyph) (cyc : string -> Prop)
         (g : string) (glyph : PropagateAnchors.Glyph),
    component_cycle ctx gs cyc ->
    cyc g -> gs !! g = Some glyph ->
    forall fuel,
      PropagateAnchors.get_glyph_category fuel ctx gs g glyph = OutOfFuel.
Proof.
  intros ctx gs cyc g glyph Hcyc Hg Eg fuel. revert g glyph Hg Eg.
  induction fuel as [|fuel IH]; intros g glyph Hg Eg; [reflexivity|].
  destruct (Hcyc g Hg) as (glyph' & c & Eg' & Hcls & Hc & Hnext).
  rewrite Eg in Eg'. injection Eg' as <-.
  rewrite (get_glyph_category_by_components ctx gs fuel g glyph Hcls).
  unfold PropagateAnchors.category_of_anchors_and_components.
  destruct Hcls as (_ & _ & ->).
  destruct (PropagateAnchors.components glyph) as [|c0 comps] eqn:Ec;
    [now apply elem_of_nil in Hc|].
  cbn [nonempty].
  destruct (Hcyc _ Hnext) as (b & _ & Eb & _).
  rewrite (component_categories_stuck gs _
             (get_glyph_category_no_raise ctx gs fuel) (c0 :: comps) c b Hc Eb
             (IH _ b Hnext Eb)).
  reflexivity.
Qed.

Lemma glyph_category_never_returns_on_a_component_cycle_witness :
  PropagateAnchors.get_glyph_category 1000 CycleExample.ctx CycleExample.font
    "loop" CycleExample.loop = OutOfFuel.
Proof.
  refine (glyph_category_never_returns_on_a_component_cycle CycleExample.ctx
            CycleExample.font (fun g => g = "loop") "loop" CycleExample.loop
            _ _ _ 1000%nat).
  - intros g ->. exists CycleExample.loop,
      (PropagateAnchors.mkComponent "loop" PropagateAnchors.identity_transform).
    split; [reflexivity|]. split.
    + split; [left; reflexivity|]. split; reflexivity.
    + split; [|reflexivity]. right. left.
  - reflexivity.
  - reflexivity.
Defined.

Section SelfComponent.

Import PropagateAnchors.

Lemma self_component_category (ctx : Context) (gs : gmap string Glyph)
    (g : string) (glyph : Glyph) (c : Component) :
  gs !! g = Some glyph -> classified_by_components ctx g glyph ->
  c ∈ components glyph -> baseGlyph c = g ->
  forall fuel, get_glyph_category fuel ctx gs g glyph = OutOfFuel.
Proof.
  intros Eg Hcls Hc Hbase. induction fuel as [|fuel IH]; [reflexivity|].
  rewrite (get_glyph_category_by_components ctx gs fuel g glyph Hcls).
  unfold category_of_anchors_and_components.
  destruct Hcls as (_ & _ & ->).
  destruct (components glyph) as [|c0 comps] eqn:Ec;
    [now apply elem_of_nil in Hc|].
  cbn [nonempty].
  rewrite (component_categories_stuck gs _
             (get_glyph_category_no_raise ctx gs fuel) (c0 :: comps) c glyph Hc);
    [reflexivity|now rewrite Hbase..].
Qed.

End SelfComponent.

(** A composite that has itself as a component and that is classified by
    its components stops the filter: the propagation passes the component
    (the glyph is in the processed set by then), but the category of the
    glyph is asked for afterwards and never comes back, so the call
    returns no anchors, whatever the other components are. *)
Theorem self_component_stops_the_propagation :
  forall (ctx : PropagateAnchors.Context) (st : PropagateAnchors.State)
         (g : string) (glyph : PropagateAnchors.Glyph)
         (c : PropagateAnchors.Component),
    PropagateAnchors.glyphSet st !! g = Some glyph ->
    g ∉ PropagateAnchors.processed st ->
    classified_by_components ctx g glyph ->
    c ∈ PropagateAnchors.components glyph ->
    PropagateAnchors.baseGlyph c = g ->
    forall fuel st' r,
      PropagateAnchors.propagate_glyph_anchors fuel ctx st g <> Ok (st', r).
Proof.
  intros ctx st g glyph c Eg Hp Hcls Hc Hbase fuel st' r H.
  destruct (propagate_outcome fuel ctx st g glyph st' r Eg H)
    as [(_ & _ & [Hin|Hnil])
       |(fuel' & st1 & propagated & category & l1 & l2 & _ & _ & _ & _
         & Eg1 & Hcat & _)].
  - contradiction.
  - rewrite Hnil in Hc. now apply elem_of_nil in Hc.
  - rewrite (self_component_category ctx (PropagateAnchors.glyphSet st1)
               g glyph c Eg1 Hcls Hc Hbase) in Hcat.
    discriminate Hcat.
Qed.

Lemma self_component_stops_the_propagation_witness :
  PropagateAnchors.propagate_glyph_anchors 1000 CycleExample.ctx
    CycleExample.start "loop" <> Ok (CycleExample.start, []).
Proof.
  refine (self_component_stops_the_propagation CycleExample.ctx
            CycleExample.start "loop" CycleExample.loop
            (PropagateAnchors.mkComponent "loop"
               PropagateAnchors.identity_transform)
            _ _ _ _ _ 1000%nat CycleExample.start []).
  - reflexivity.
  - by_compute.
  - split; [left; reflexivity|]. split; reflexivity.
  - right. left.
  - reflexivity.
Defined.

(* ===================================================================== *)
(** ** The propagation comes to an end                                    *)
(* ===================================================================== *)

Section Ended.

Import PropagateAnchors.

Lemma ended_Ok {A : Type} (a : A) : ended (Ok a).
Proof. discriminate. Qed.

Lemma ended_Raise {A : Type} (e : exn) : ended (@Raise A e).
Proof. discriminate. Qed.

Lemma ended_bind {A B : Type} (m : result A) (k : A -> result B) :
  ended m -> (forall a, ended (k a)) -> ended (m ≫= k).
Proof.
  intros Hm Hk. destruct m as [a|e|]; cbn [mbind result_bind Py.bind];
    [apply Hk|discriminate|contradiction].
Qed.

Lemma ended_list_remove {A : Type} (eqb : A -> A -> bool) (x : A) :
  forall l, ended (list_remove eqb x l).
Proof.
  induction l as [|y l IH]; cbn [list_remove]; [discriminate|].
  destruct (eqb y x); [discriminate|].
  destruct (list_remove eqb x l); [discriminate|discriminate|contradiction].
Qed.

Lemma ended_prune_loop (cond : PropagatedAnchor -> result bool) :
  (forall pa, ended (cond pa)) ->
  forall copy l, ended (prune_loop cond copy l).
Proof.
  intros Hcond. induction copy as [|pa copy IH]; intros l;
    cbn [prune_loop]; [discriminate|].
  apply ended_bind; [apply Hcond|]. intros [|]; [|apply IH].
  apply ended_bind; [apply ended_list_remove|]. intros l'. apply IH.
Qed.

Lemma ended_attachment_of (pa : PropagatedAnchor) : ended (attachment_of pa).
Proof. unfold attachment_of. destruct (attachment pa); discriminate. Qed.

Lemma ended_match_anchors : forall copy l d, ended (match_anchors copy l d).
Proof.
  induction copy as [|pa copy IH]; intros l d; cbn [match_anchors];
    [discriminate|].
  apply ended_bind; [apply ended_attachment_of|]. intros a1.
  destruct (negb _); [apply IH|]. destruct (negb _); [apply IH|].
  destruct (closest_base pa a1 l) as [[dist m]|]; apply IH.
Qed.

Lemma ended_remove_matches (mode_mark : bool) (num : Z) :
  forall matches i l, ended (remove_matches mode_mark num i matches l).
Proof.
  induction matches as [|[[dist pa1] pa2] matches IH]; intros i l;
    cbn [remove_matches]; [discriminate|].
  destruct (mode_mark && (i =? num)); [discriminate|].
  apply ended_bind; [apply ended_list_remove|]. intros l1.
  apply ended_bind; [apply ended_list_remove|]. intros l2.
  apply ended_bind; [|intros l3; apply IH].
  apply ended_prune_loop. intros pa.
  destruct (Nat.eqb _ _); [|discriminate].
  apply ended_bind; [apply ended_attachment_of|]. discriminate.
Qed.

Lemma ended_remove_all_matches (mode_mark : bool) :
  forall d l, ended (remove_all_matches mode_mark d l).
Proof.
  induction d as [|[n matches] d IH]; intros l; cbn [remove_all_matches];
    [discriminate|].
  cbv zeta. apply ended_bind; [apply ended_remove_matches|].
  intros l'. apply IH.
Qed.

Lemma ended_prune_attached_anchors (mode_mark : bool)
    (l : list PropagatedAnchor) :
  ended (prune_attached_anchors mode_mark l).
Proof.
  unfold prune_attached_anchors.
  apply ended_bind; [apply ended_match_anchors|].
  intros d. apply ended_remove_all_matches.
Qed.

Lemma ended_prune_mark_anchors (l : list PropagatedAnchor) :
  ended (prune_mark_anchors l).
Proof.
  apply ended_prune_loop. intros pa.
  apply ended_bind; [apply ended_attachment_of|]. discriminate.
Qed.

Lemma ended_prune_opposite_mark_anchors (opts : Options) (glyph : Glyph)
    (l : list PropagatedAnchor) :
  ended (prune_opposite_mark_anchors opts glyph l).
Proof.
  apply ended_prune_loop. intros pa.
  apply ended_bind; [apply ended_attachment_of|]. discriminate.
Qed.

Lemma ended_prune_undefined_or_present (glyph : Glyph)
    (l : list PropagatedAnchor) :
  ended (prune_undefined_or_present glyph l).
Proof.
  apply ended_prune_loop. intros pa. destruct (attachment pa); discriminate.
Qed.

Lemma ended_prune_by_category (opts : Options) (glyph : Glyph)
    (category : option string) (l : list PropagatedAnchor) :
  ended (prune_by_category opts glyph category l).
Proof.
  unfold prune_by_category. cbv zeta.
  repeat match goal with
         | |- ended (if ?b then _ else _) => destruct b
         end.
  - apply ended_bind; [apply ended_prune_attached_anchors|].
    intros l'. apply ended_prune_mark_anchors.
  - apply ended_bind; [apply ended_prune_opposite_mark_anchors|].
    intros l'. apply ended_prune_attached_anchors.
  - apply ended_bind; [apply ended_prune_attached_anchors|]. intros l1.
    apply ended_bind; [apply ended_prune_mark_anchors|]. discriminate.
  - apply ended_prune_attached_anchors.
Qed.

End Ended.

Section Ranked.

Import PropagateAnchors.

Variable ctx : Context.
Variable rank : string -> nat.

Lemma component_rank_extends (st st' : State) :
  extends st st' -> component_rank (glyphSet st) rank ->
  component_rank (glyphSet st') rank.
Proof.
  intros (_ & Hnew & _) Hrank g glyph' Eg'.
  destruct (Hnew g) as [new Hg]. rewrite Hg in Eg'.
  destruct (glyphSet st !! g) as [glyph|] eqn:Eg; [|discriminate Eg'].
  injection Eg' as <-. cbn [with_new_anchors set_anchors components].
  eapply Forall_impl; [exact (Hrank g glyph Eg)|].
  intros c Hc Hsome. apply Hc.
  destruct (Hnew (baseGlyph c)) as [new' Hb]. rewrite Hb in Hsome.
  destruct (glyphSet st !! baseGlyph c); [eauto|].
  now destruct Hsome.
Qed.

Lemma is_Some_extends (st st' : State) (h : string) :
  extends st st' -> is_Some (glyphSet st' !! h) -> is_Some (glyphSet st !! h).
Proof.
  intros (_ & Hnew & _) Hsome. destruct (Hnew h) as [new Hh].
  rewrite Hh in Hsome. destruct (glyphSet st !! h); [eauto|].
  now destruct Hsome.
Qed.

(** The loop over the components ends when the calls on the components
    do. *)
Lemma collect_ranked (n : nat) :
  (forall st g, component_rank (glyphSet st) rank -> (rank g < n)%nat ->
     exists res, ended res
       /\ forall fuel, (n <= fuel)%nat ->
            propagate_glyph_anchors fuel ctx st g = res) ->
  forall comps i st acc,
    component_rank (glyphSet st) rank ->
    Forall (fun c => is_Some (glyphSet st !! baseGlyph c) ->
                     (rank (baseGlyph c) < n)%nat) comps ->
    exists res, ended res
      /\ forall fuel, (n <= fuel)%nat ->
           collect_components_anchors (propagate_glyph_anchors fuel ctx) ctx
             i comps st acc = res.
Proof.
  intros Hrec. induction comps as [|c comps IH]; intros i st acc Hrank Hall;
    cbn [collect_components_anchors].
  - eexists. split; [apply ended_Ok|]. reflexivity.
  - apply Forall_cons in Hall as [Hc Hall].
    destruct (glyphSet st !! baseGlyph c) as [b|] eqn:Eb; [|now apply IH].
    destruct (Hrec st (baseGlyph c) Hrank (Hc (mk_is_Some _ _ eq_refl)))
      as (res & Hended & Hres).
    destruct res as [[st1 anchors1]|e|]; [| |contradiction].
    + destruct (propagate_extends ctx n st (baseGlyph c) st1 anchors1)
        as (Hext & _); [now apply Hres|].
      destruct (IH (S i) st1
                  (acc ++ component_propagated_anchors ctx i c
                     (existsb (fun a => mark_anchor_name (name a))
                        (glyph_anchors st1 (baseGlyph c))) anchors1))
        as (res' & Hended' & Hres').
      { now apply (component_rank_extends st). }
      { eapply Forall_impl; [exact Hall|]. intros c' Hc' Hsome.
        apply Hc'. now apply (is_Some_extends st st1). }
      exists res'. split; [exact Hended'|]. intros fuel Hfuel.
      rewrite (Hres fuel Hfuel). cbn [mbind result_bind Py.bind].
      now apply Hres'.
    + exists (Raise e). split; [apply ended_Raise|]. intros fuel Hfuel.
      now rewrite (Hres fuel Hfuel).
Qed.

Lemma propagate_ranked :
  forall n st g, component_rank (glyphSet st) rank -> (rank g < n)%nat ->
    exists res, ended res
      /\ forall fuel, (n <= fuel)%nat ->
           propagate_glyph_anchors fuel ctx st g = res.
Proof.
  induction n as [|n IH]; intros st g Hrank Hn; [lia|].
  exists (propagate_glyph_anchors (S n) ctx st g).
  assert (Hstep : forall fuel, (n <= fuel)%nat ->
            propagate_glyph_anchors (S fuel) ctx st g
            = propagate_glyph_anchors (S n) ctx st g
            /\ ended (propagate_glyph_anchors (S fuel) ctx st g)).
  { intros fuel Hfuel. rewrite !propagate_unfold.
    destruct (glyphSet st !! g) as [glyph|] eqn:Eg;
      [|split; [reflexivity|apply ended_Raise]].
    destruct (bool_decide (g ∈ processed st));
      [split; [reflexivity|apply ended_Ok]|].
    cbv zeta.
    destruct (negb (nonempty (components glyph)));
      [split; [reflexivity|apply ended_Ok]|].
    destruct (collect_ranked n IH (components glyph) 0%nat
                (mkState (glyphSet st) ({[g]} ∪ processed st)) [])
      as (res & Hended & Hres).
    { exact Hrank. }
    { eapply Forall_impl; [exact (Hrank g glyph Eg)|].
      intros c Hc Hsome. specialize (Hc Hsome). cbn beta in Hc. lia. }
    rewrite (Hres fuel Hfuel), (Hres n (le_n n)).
    destruct res as [[st1 propagated]|e|];
      [|split; [reflexivity|apply ended_Raise]|contradiction].
    cbn [mbind result_bind Py.bind].
    destruct (glyphSet st1 !! g) as [glyph1|] eqn:Eg1;
      [|split; [reflexivity|apply ended_Raise]].
    assert (Hrank1 : component_rank (glyphSet st1) rank).
    { apply (component_rank_extends
               (mkState (glyphSet st) ({[g]} ∪ processed st))); [|exact Hrank].
      apply (collect_extends (propagate_glyph_anchors n ctx) ctx
               (fun st0 g0 st0' r0 H =>
                  proj1 (propagate_extends ctx n st0 g0 st0' r0 H))
               (components glyph) 0%nat _ [] st1 propagated).
      now apply Hres. }
    destruct (get_glyph_category_ranked ctx (glyphSet st1) rank Hrank1
                (S n) g glyph1 Hn Eg1) as [category Hcat].
    rewrite (Hcat (S fuel)), (Hcat (S n)) by lia.
    split; [reflexivity|]. cbn [mbind result_bind Py.bind].
    apply ended_bind; [apply ended_prune_undefined_or_present|]. intros l1.
    apply ended_bind; [apply ended_prune_by_category|]. intros l2.
    apply ended_Ok. }
  split; [apply (Hstep n (le_n n))|].
  intros [|fuel] Hfuel; [lia|]. apply Hstep. lia.
Qed.

End Ranked.

(** The propagation comes to an end on a glyph set without component
    cycles: when a rank of the glyph names goes down from each glyph to the
    base glyphs of its components, a call on a glyph returns or raises
    within a recursion depth of the rank of the glyph, and its outcome is
    the same however much deeper the recursion could go. *)
Theorem propagation_ends_without_component_cycles :
  forall (ctx : PropagateAnchors.Context) (st : PropagateAnchors.State)
         (rank : string -> nat) (g : string),
    component_rank (PropagateAnchors.glyphSet st) rank ->
    exists res,
      ended res
      /\ forall fuel, (rank g < fuel)%nat ->
           PropagateAnchors.propagate_glyph_anchors fuel ctx st g = res.
Proof.
  intros ctx st rank g Hrank.
  destruct (propagate_ranked ctx rank (S (rank g)) st g Hrank)
    as (res & Hended & Hres); [lia|].
  exists res. split; [exact Hended|].
  intros fuel Hfuel. apply Hres. lia.
Qed.

Lemma propagation_ends_without_component_cycles_witness :
  exists res,
    ended res
    /\ forall fuel, (1 < fuel)%nat ->
         PropagateAnchors.propagate_glyph_anchors fuel DieresisExample.ctx
           DieresisExample.start "adieresis" = res.
Proof.
  apply (propagation_ends_without_component_cycles DieresisExample.ctx
           DieresisExample.start
           (fun g => if String.eqb g "adieresis" then 1%nat
                     else if String.eqb g "ograve" then 1%nat else 0%nat)
           "adieresis").
  by_compute.
Defined.

(* ===================================================================== *)
(** ** The name of a forked mark class                                    *)
(* ===================================================================== *)

Section FreshNames.

Import MarkFeatureWriter.

Lemma fmt_name_index_longer (orig : string) (j : N) :
  fmt_name_index orig j <> orig.
Proof.
  intros H. apply (f_equal (fun s => length (chars s))) in H.
  rewrite fmt_name_index_chars, length_app in H. cbn [length] in H. lia.
Qed.

(** The counter loop of [makeFeaClassName]: the names tried so far are
    [seen], all taken and all different, and those still to come are
    different again; it stops before the names that are taken run out. *)
Lemma first_free_name_fresh (orig : string) (existing : list string) :
  forall (fuel : nat) (i : N) (name : string) (seen : list string),
    NoDup seen -> (forall s, s ∈ seen -> s ∈ existing) ->
    (name ∉ seen) ->
    (forall j, (i <= j)%N ->
       fmt_name_index orig j <> name /\ (fmt_name_index orig j ∉ seen)) ->
    (length existing < fuel + length seen)%nat ->
    first_free_name fuel orig i name existing ∉ existing.
Proof.
  induction fuel as [|fuel IH]; intros i name seen Hnd Hsub Hname Hnext Hlen.
  - exfalso.
    pose proof (submseteq_length _ _ (NoDup_submseteq _ _ Hnd Hsub)). lia.
  - cbn [first_free_name].
    destruct (bool_decide (name ∈ existing)) eqn:E;
      [|now apply bool_decide_eq_false in E].
    apply bool_decide_eq_true in E.
    apply (IH (i + 1)%N (fmt_name_index orig i) (name :: seen)).
    + now apply NoDup_cons.
    + intros s Hs. apply elem_of_cons in Hs as [->|Hs]; [exact E|now apply Hsub].
    + destruct (Hnext i (N.le_refl i)) as [Hne Hout].
      intros Hin. apply elem_of_cons in Hin as [Hin|Hin]; contradiction.
    + intros j Hj. destruct (Hnext j ltac:(lia)) as [Hne Hout]. split.
      * intros Heq. apply fmt_name_index_inj in Heq as [_ ->]. lia.
      * intros Hin. apply elem_of_cons in Hin as [Hin|Hin]; contradiction.
    + cbn [length]. lia.
Qed.

(** The name that the model of [makeFeaClassName] returns is not among the
    existing names. *)
Lemma ast_model_fresh (name : string) (existing : list string) :
  makeFeaClassName_unique ast_model name existing ∉ existing.
Proof.
  cbn [makeFeaClassName_unique ast_model]. cbv zeta.
  apply (first_free_name_fresh _ existing _ 1%N _ []).
  - constructor.
  - intros s Hs. now apply elem_of_nil in Hs.
  - apply not_elem_of_nil.
  - intros j _. split; [apply fmt_name_index_longer|apply not_elem_of_nil].
  - cbn [length]. lia.
Qed.

Lemma not_class_name (markClasses : gmap string MarkClass) (k : string) :
  k ∉ class_names markClasses -> markClasses !! k = None.
Proof.
  intros H. destruct (markClasses !! k) as [mc|] eqn:E; [|reflexivity].
  exfalso. apply H. unfold class_names.
  apply list_elem_of_In, in_map_iff. exists (k, mc).
  split; [reflexivity|]. now apply list_elem_of_In, elem_of_map_to_list.
Qed.

End FreshNames.

(** C9: when the glyph is already in the mark class of the name asked
    for, [_defineMarkClass] with the same anchor makes no definition, leaves
    the mark classes as they are and logs at debug level, whatever
    [makeFeaClassName] is.  With another anchor, and [makeFeaClassName] as
    it is modelled, it makes a class under a name that no mark class has
    yet, puts the definition there, and leaves every class that there was,
    the one of the conflict included, as it was: the definition is neither
    dropped nor written over another. *)
Theorem C9_define_mark_class_twice :
  forall (astm : MarkFeatureWriter.AstModule) (glyphName : string) (x y : Z)
         (className : string)
         (markClasses : gmap string MarkFeatureWriter.MarkClass)
         (log : MarkFeatureWriter.Log)
         (markClass : MarkFeatureWriter.MarkClass)
         (mcdef : MarkFeatureWriter.MarkClassDefinition),
    markClasses !! className = Some markClass ->
    assoc glyphName (MarkFeatureWriter.glyphs markClass) = Some mcdef ->
    (MarkFeatureWriter.mcd_anchor mcdef = MarkFeatureWriter.Anchor_xy x y ->
       MarkFeatureWriter.defineMarkClass astm glyphName x y className
         markClasses log
       = Ok (None, markClasses,
             log ++ [(MarkFeatureWriter.DEBUG,
                      "Glyph already defined in markClass")]))
    /\ (MarkFeatureWriter.mcd_anchor mcdef <> MarkFeatureWriter.Anchor_xy x y ->
        exists newClassName markClasses',
          markClasses !! newClassName = None
          /\ newClassName <> className
          /\ MarkFeatureWriter.defineMarkClass MarkFeatureWriter.ast_model
               glyphName x y className markClasses log
             = Ok (Some (MarkFeatureWriter.mkMarkClassDefinition newClassName
                           (MarkFeatureWriter.Anchor_xy x y) glyphName),
                   markClasses', log)
          /\ markClasses' !! newClassName
             = Some (MarkFeatureWriter.mkMarkClass newClassName
                       [MarkFeatureWriter.mkMarkClassDefinition newClassName
                          (MarkFeatureWriter.Anchor_xy x y) glyphName]
                       [(glyphName,
                         MarkFeatureWriter.mkMarkClassDefinition newClassName
                           (MarkFeatureWriter.Anchor_xy x y) glyphName)])
          /\ (forall k mc, markClasses !! k = Some mc ->
                markClasses' !! k = Some mc)
          /\ (forall k, k <> newClassName ->
                markClasses' !! k = markClasses !! k)).
Proof.
  intros astm glyphName x y className markClasses log markClass mcdef Hc Hg.
  split.
  - intros Heq. unfold MarkFeatureWriter.defineMarkClass. rewrite Hc, Hg.
    rewrite (proj2 (anchorsAreEqual_eq _ _)) by now symmetry.
    reflexivity.
  - intros Hne.
    set (newClassName :=
           MarkFeatureWriter.makeFeaClassName_unique MarkFeatureWriter.ast_model
             className (MarkFeatureWriter.class_names markClasses)).
    assert (Hfresh : markClasses !! newClassName = None)
      by apply not_class_name, ast_model_fresh.
    assert (Hnn : newClassName <> className) by congruence.
    exists newClassName. eexists. split; [exact Hfresh|]. split; [exact Hnn|].
    split; [|split; [|split]].
    + unfold MarkFeatureWriter.defineMarkClass. rewrite Hc, Hg.
      destruct (MarkFeatureWriter.anchorsAreEqual
                  (MarkFeatureWriter.Anchor_xy x y)
                  (MarkFeatureWriter.mcd_anchor mcdef)) eqn:E.
      { apply anchorsAreEqual_eq in E. now destruct Hne. }
      fold newClassName.
      unfold MarkFeatureWriter.addDefinition, has_key.
      cbn [MarkFeatureWriter.glyphs MarkFeatureWriter.mcd_glyph assoc
           MarkFeatureWriter.mc_name MarkFeatureWriter.definitions
           mbind result_bind Py.bind app].
      rewrite insert_insert_eq. reflexivity.
    + apply lookup_insert_eq.
    + intros k mc Hk. rewrite lookup_insert_ne; [exact Hk|congruence].
    + intros k Hk. now rewrite lookup_insert_ne.
Qed.

(** C9 at the class [MC_top] that holds [acutecomb] at (0, 500), for the
    same anchor and for another: the class of the second is [MC_top_1]. *)
Lemma C9_define_mark_class_twice_witness :
  MarkFeatureWriter.defineMarkClass MarkFeatureWriter.ast_model "acutecomb"
    0 500 "MC_top" MarkClassExample.classes []
  = Ok (None, MarkClassExample.classes,
        [(MarkFeatureWriter.DEBUG, "Glyph already defined in markClass")])
  /\ exists newClassName markClasses',
       MarkClassExample.classes !! newClassName = None
       /\ newClassName <> "MC_top"
       /\ MarkFeatureWriter.defineMarkClass MarkFeatureWriter.ast_model
            "acutecomb" 0 520 "MC_top" MarkClassExample.classes []
          = Ok (Some (MarkFeatureWriter.mkMarkClassDefinition newClassName
                        (MarkFeatureWriter.Anchor_xy 0 520) "acutecomb"),
                markClasses', [])
       /\ newClassName = "MC_top_1"
       /\ markClasses' !! "MC_top_1" = Some MarkClassExample.mc1
       /\ markClasses' !! "MC_top" = Some MarkClassExample.mc0.
Proof.
  destruct (C9_define_mark_class_twice MarkFeatureWriter.ast_model "acutecomb"
              0 500 "MC_top" MarkClassExample.classes []
              MarkClassExample.mc0 MarkClassExample.d0 eq_refl eq_refl)
    as [Hsame _].
  destruct (C9_define_mark_class_twice MarkFeatureWriter.ast_model "acutecomb"
              0 520 "MC_top" MarkClassExample.classes []
              MarkClassExample.mc0 MarkClassExample.d0 eq_refl eq_refl)
    as [_ Hdiff].
  split; [apply Hsame; reflexivity|].
  destruct Hdiff as (n & m' & Hfresh & Hne & Hrun & Hnew & Hold & _);
    [discriminate|].
  assert (En : n = "MC_top_1").
  { assert (E : exists m,
               MarkFeatureWriter.defineMarkClass MarkFeatureWriter.ast_model
                 "acutecomb" 0 520 "MC_top" MarkClassExample.classes []
               = Ok (Some MarkClassExample.d1, m, []))
      by (eexists; vm_compute; reflexivity).
    destruct E as [m E]. rewrite E in Hrun. now injection Hrun as <- _. }
  exists n, m'. split; [exact Hfresh|]. split; [exact Hne|].
  split; [exact Hrun|]. split; [exact En|]. split.
  - rewrite <- En at 1. rewrite Hnew, En. reflexivity.
  - apply Hold. reflexivity.
Defined.

(* ===================================================================== *)
(** ** The order of what the writer emits                                 *)
(* ===================================================================== *)

Section EmissionOrder.

Import MarkFeatureWriter.

(** What the loop over the anchors of the glyph [g] has added when it
    returns: every anchor of a mark anchor name is in the group of its
    name, and nothing is taken out of a group. *)
Lemma group_anchors_complete (M : list string) (g : string) :
  forall (rest : list NamedAnchor) (groups : Groups) (names : list string)
         groups' names',
    group_anchors M g rest groups names = Ok (groups', names') ->
    (forall n grp0 e, assoc n groups = Some grp0 -> e ∈ grp0 ->
       exists grp, assoc n groups' = Some grp /\ e ∈ grp)
    /\ (forall a, a ∈ rest -> name a ∈ M ->
          exists grp, assoc (name a) groups' = Some grp /\ (g, a) ∈ grp).
Proof.
  induction rest as [|a rest IH]; intros groups names groups' names' H;
    cbn [group_anchors] in H.
  - injection H as <- <-. split; [eauto|].
    intros a Ha. now apply elem_of_nil in Ha.
  - destruct (bool_decide (name a ∈ M)) eqn:Em.
    + cbv zeta in H.
      set (group := default [] (assoc (name a) groups)) in *.
      destruct (has_key g group); [discriminate H|].
      destruct (IH _ _ _ _ H) as [Hmono Hall].
      assert (Hg1 : assoc (name a)
                      (assoc_set (name a) (group ++ [(g, a)]) groups)
                    = Some (group ++ [(g, a)])) by apply assoc_set_eq.
      split.
      * intros n grp0 e Hn He. destruct (decide (name a = n)) as [<-|Hne].
        -- apply (Hmono _ _ e Hg1). apply elem_of_app. left.
           unfold group. now rewrite Hn.
        -- apply (Hmono n grp0 e); [|exact He]. now rewrite assoc_set_ne.
      * intros a' Ha' Hm. apply elem_of_cons in Ha' as [->|Ha'];
          [|now apply Hall].
        apply (Hmono _ _ (g, a) Hg1). apply elem_of_app. right. now left.
    + destruct (IH _ _ _ _ H) as [Hmono Hall]. split; [exact Hmono|].
      intros a' Ha' Hm. apply elem_of_cons in Ha' as [->|Ha'];
        [|now apply Hall].
      apply bool_decide_eq_false in Em. contradiction.
Qed.

Lemma groupMarkGlyphsByAnchor_complete (M : list string) :
  forall (lists : list (string * list NamedAnchor)) (groups : Groups)
         (names : list string) groups' names',
    groupMarkGlyphsByAnchor M lists groups names = Ok (groups', names') ->
    (forall n grp0 e, assoc n groups = Some grp0 -> e ∈ grp0 ->
       exists grp, assoc n groups' = Some grp /\ e ∈ grp)
    /\ (forall g l a, (g, l) ∈ lists -> a ∈ l -> name a ∈ M ->
          exists grp, assoc (name a) groups' = Some grp /\ (g, a) ∈ grp).
Proof.
  induction lists as [|[g l] lists IH]; intros groups names groups' names' H;
    cbn [groupMarkGlyphsByAnchor] in H.
  - injection H as <- <-. split; [eauto|].
    intros g l a Hgl. now apply elem_of_nil in Hgl.
  - bind_ok H as r E. destruct r as [groups1 names1].
    destruct (group_anchors_complete M g l _ _ _ _ E) as [Hmono1 Hall1].
    destruct (IH _ _ _ _ H) as [Hmono Hall]. split.
    + intros n grp0 e Hn He.
      destruct (Hmono1 n grp0 e Hn He) as (grp1 & Hn1 & He1).
      now apply (Hmono n grp1 e).
    + intros g' l' a Hgl Ha Hm. apply elem_of_cons in Hgl as [[= -> ->]|Hgl].
      * destruct (Hall1 a Ha Hm) as (grp1 & Hn1 & He1).
        now apply (Hmono _ grp1).
      * now apply (Hall g' l' a).
Qed.

(** A call of [_defineMarkClass] makes the definition of the glyph at the
    position and logs nothing, or makes none and logs that. *)
Lemma defineMarkClass_outcome astm g px py cn
    (classes : gmap string MarkClass) (log0 : Log) mcd classes' log' :
  defineMarkClass astm g px py cn classes log0 = Ok (mcd, classes', log') ->
  match mcd with
  | Some d => mcd_glyph d = g /\ mcd_anchor d = Anchor_xy px py /\ log' = log0
  | None => log' = log0 ++ [already_defined]
  end.
Proof.
  unfold defineMarkClass. intros H.
  destruct (classes !! cn) as [mc|].
  - destruct (assoc g (glyphs mc)) as [mcdef|].
    + destruct (anchorsAreEqual _ _).
      * injection H as <- _ <-. reflexivity.
      * bind_ok H as mc' E. injection H as <- _ <-. auto.
    + bind_ok H as mc' E. injection H as <- _ <-. auto.
  - bind_ok H as mc' E. injection H as <- _ <-. auto.
Qed.

(** The definitions of one group: those of a part of its entries, in the
    order of the entries; an entry without definition has a line in the
    log. *)
Lemma define_group_chunk astm :
  forall (pairs : list (string * NamedAnchor)) cn
         (classes : gmap string MarkClass) (all : list (string * string))
         (newDefs : list MarkClassDefinition) (log0 : Log)
         classes' all' newDefs' log',
    define_group astm pairs cn classes all newDefs log0
    = Ok (classes', all', newDefs', log') ->
    exists sub chunk k,
      newDefs' = newDefs ++ chunk
      /\ sub `sublist_of` pairs /\ Forall2 defined_from sub chunk
      /\ log' = log0 ++ repeat already_defined k
      /\ (length chunk + k = length pairs)%nat.
Proof.
  induction pairs as [|[g a] pairs IH];
    intros cn classes all newDefs log0 classes' all' newDefs' log' H;
    cbn [define_group] in H.
  - injection H as _ _ <- <-. exists [], [], 0%nat.
    rewrite !app_nil_r. repeat split; constructor.
  - bind_ok H as r E. destruct r as [[mcd classes1] log1]. cbv zeta in H.
    apply defineMarkClass_outcome in E.
    destruct (classes1 !! _); [|discriminate H].
    apply IH in H as (sub & chunk & k & -> & Hsub & Hall & -> & Hlen).
    destruct mcd as [d|].
    + destruct E as (Hg & Ha & ->).
      exists ((g, a) :: sub), (d :: chunk), k.
      rewrite <- app_assoc. split; [reflexivity|].
      split; [now apply sublist_skip|].
      split; [constructor; [split; assumption|exact Hall]|].
      split; [reflexivity|]. cbn [length]. lia.
    + subst log1. exists sub, chunk, (S k).
      split; [reflexivity|]. split; [now apply sublist_cons|].
      split; [exact Hall|]. split; [now rewrite <- app_assoc|].
      cbn [length]. lia.
Qed.

(** The definitions of the groups, group after group. *)
Lemma define_groups_chunks astm :
  forall (groups : Groups) (classes : gmap string MarkClass)
         (all : list (string * string))
         (newDefs : list MarkClassDefinition) (log0 : Log)
         classes' all' newDefs' log',
    define_groups astm groups classes all newDefs log0
    = Ok (classes', all', newDefs', log') ->
    exists chunks k,
      newDefs' = newDefs ++ concat chunks
      /\ Forall2 (fun grp chunk =>
                    exists sub, sub `sublist_of` snd grp
                                /\ Forall2 defined_from sub chunk)
                 groups chunks
      /\ log' = log0 ++ repeat already_defined k
      /\ (length (concat chunks) + k
          = length (concat (map snd groups)))%nat.
Proof.
  induction groups as [|[n grp] groups IH];
    intros classes all newDefs log0 classes' all' newDefs' log' H;
    cbn [define_groups] in H.
  - injection H as _ _ <- <-. exists [], 0%nat.
    cbn [concat repeat]. rewrite !app_nil_r. repeat split. constructor.
  - cbv zeta in H. bind_ok H as r E. destruct r as [[[classes1 all1] defs1] log1].
    apply define_group_chunk in E
      as (sub & chunk & k1 & -> & Hsub & Hall & -> & Hlen1).
    apply IH in H as (chunks & k & -> & Hchunks & -> & Hlen).
    exists (chunk :: chunks), (k1 + k)%nat. cbn [concat map snd].
    split; [now rewrite <- app_assoc|].
    split; [constructor; [eauto|exact Hchunks]|].
    split; [now rewrite repeat_app, <- app_assoc|].
    rewrite !length_app. lia.
Qed.

(** C8, as amended: [_write] appends the feature blocks in the sorted order
    of their tags, each tag once; the mark-to-mark lookups of [mkmk], and
    those that close [abvm] and [blwm], are in the sorted order of their
    anchor keys.  The mark class definitions are made group by group: the
    groups are those of the mark anchor names, each name once, in the
    sorted order of the names; a group holds the glyphs with an anchor of
    its name, each glyph once, in the order in which [anchorLists] has
    them, which is the order of the glyph set and not that of the glyph
    names; the definitions are those of the entries of the first group in
    the order of the entries, then those of the second, and so on, each
    for the glyph and at the position of its entry; an entry is without
    definition only where [_defineMarkClass] logs that the glyph is
    defined already. *)
Theorem C8_emission_order :
  (forall astm ctx indicGlyphs unitsPerEm ctx',
     write astm ctx indicGlyphs unitsPerEm = Ok (true, ctx') ->
     exists newDefs fbs,
       statements (feaFile ctx')
       = statements (feaFile ctx) ++ map SMarkClassDefinition newDefs
         ++ [SComment ""] ++ map SFeatureBlock fbs
       /\ StronglySorted (le_prop String.leb) (map tag fbs)
       /\ NoDup (map tag fbs))
  /\ (forall astm ctx atts include fb,
        makeMkmkFeature astm ctx atts include = Ok (Some fb) ->
        exists keys,
          StronglySorted (le_prop String.leb) keys
          /\ (forall k, k ∈ keys -> k ∈ map fst (markToMarkAttachments atts))
          /\ map lookup_name (feature_statements fb)
             = map (fun k => "mark2mark_" +:+ k) keys)
  /\ (forall astm ctx atts threshold t include fb,
        makeAbvmOrBlwmFeature astm ctx atts threshold t include = Ok (Some fb) ->
        exists first mkmk keys,
          feature_statements fb = first ++ mkmk
          /\ map lookup_name first
             `sublist_of` [t +:+ "_mark2base"; t +:+ "_mark2liga"]
          /\ StronglySorted (le_prop String.leb) keys
          /\ (forall k, k ∈ keys -> k ∈ map fst (markToMarkAttachments atts))
          /\ map lookup_name mkmk
             = map (fun k => (t +:+ "_") +:+ "mark2mark_" +:+ k) keys)
  /\ (forall astm ctx newDefs ctx',
        makeMarkClassDefinitions astm ctx = Ok (newDefs, ctx') ->
        exists (groups : Groups) (chunks : list (list MarkClassDefinition))
               (skipped : nat),
          StronglySorted (le_prop String.leb) (map fst groups)
          /\ NoDup (map fst groups)
          /\ (forall n g a,
                (exists grp, (n, grp) ∈ groups /\ (g, a) ∈ grp) <->
                (n ∈ map snd (anchorPairs ctx) /\ name a = n
                 /\ exists l, (g, l) ∈ anchorLists ctx /\ a ∈ l))
          /\ (forall n grp, (n, grp) ∈ groups ->
                NoDup (map fst grp)
                /\ map fst grp `sublist_of` map fst (anchorLists ctx))
          /\ newDefs = concat chunks
          /\ Forall2 (fun grp chunk =>
                        exists sub, sub `sublist_of` snd grp
                                    /\ Forall2 defined_from sub chunk)
                     groups chunks
          /\ log ctx' = log ctx ++ repeat already_defined skipped
          /\ (length newDefs + skipped
              = length (concat (map snd groups)))%nat).
Proof.
  split; [|split; [|split]].
  - intros astm ctx indicGlyphs unitsPerEm ctx' H. unfold write in H.
    bind_ok H as r1 E1. destruct r1 as [newClassDefs ctx1].
    bind_ok H as anchorLists' E2. bind_ok H as r3 E3.
    destruct r3 as [features ctx3].
    destruct (nonempty features); [|discriminate H]. simpl in H.
    injection H as <-. simpl.
    apply makeFeatures_wf in E3 as [[Hnd Htags] Hfea]. simpl in Hfea.
    assert (Hctx1 : statements (feaFile ctx1) = statements (feaFile ctx)).
    { unfold makeMarkClassDefinitions in E1.
      bind_ok E1 as r E. destruct r. bind_ok E1 as r' E'.
      destruct r' as [[[? ?] ?] ?]. injection E1 as _ <-. reflexivity. }
    rewrite Hfea, Hctx1.
    exists newClassDefs, (map snd (sorted name_le features)).
    split; [now rewrite map_map|].
    assert (Hperm : Permutation (sorted name_le features) features)
      by apply sorted_perm.
    assert (Htag : map tag (map snd (sorted name_le features))
                   = map fst (sorted name_le features)).
    { rewrite map_map. apply map_ext_in. intros tf Hin.
      rewrite List.Forall_forall in Htags. apply Htags.
      eapply Permutation_in; [exact Hperm | exact Hin]. }
    rewrite Htag. split; [apply sorted_by_name_keys|].
    assert (Hp : map fst (sorted name_le features) ≡ₚ map fst features)
      by now apply Permutation_map.
    rewrite Hp. exact Hnd.
  - intros astm ctx atts include fb H. unfold makeMkmkFeature in H.
    bind_ok H as lkps E. destruct (nonempty lkps); [|discriminate H].
    injection H as <-. simpl.
    apply sorted_lookups_names in E as (keys & Hs & Hk & Hn).
    exists keys. auto.
  - intros astm ctx atts threshold t include fb H.
    unfold makeAbvmOrBlwmFeature in H.
    bind_ok H as marksFilter E. bind_ok H as mkmkLookups E'.
    apply sorted_lookups_names in E' as (keys & Hs & Hk & Hn).
    set (baseLkp := makeMarkLookup (t +:+ "_mark2base") _ _ _) in *.
    set (ligaLkp := makeMarkLookup (t +:+ "_mark2liga") _ _ _) in *.
    assert (Hfb : feature_statements fb
                  = (opt_to_list baseLkp ++ opt_to_list ligaLkp) ++ mkmkLookups).
    { destruct baseLkp, ligaLkp, mkmkLookups; try discriminate H;
        injection H as <-; simpl; now rewrite <- ?app_assoc. }
    exists (opt_to_list baseLkp ++ opt_to_list ligaLkp), mkmkLookups, keys.
    split; [exact Hfb|]. split; [|auto].
    assert (Hb : forall a, baseLkp = Some a -> lookup_name a = t +:+ "_mark2base").
    { unfold baseLkp, makeMarkLookup. intros a.
      destruct (nonempty _); intros [= <-]. reflexivity. }
    assert (Hl : forall a, ligaLkp = Some a -> lookup_name a = t +:+ "_mark2liga").
    { unfold ligaLkp, makeMarkLookup. intros a.
      destruct (nonempty _); intros [= <-]. reflexivity. }
    destruct baseLkp as [a|], ligaLkp as [a'|]; simpl;
      rewrite ?(Hb _ eq_refl), ?(Hl _ eq_refl);
      repeat first [ apply sublist_skip | apply sublist_cons | apply sublist_nil ].
  - intros astm ctx newDefs ctx' H. unfold makeMarkClassDefinitions in H.
    bind_ok H as r E. destruct r as [markGlyphSets glyphNames].
    bind_ok H as r' E'. destruct r' as [[[classes all] defs] log'].
    injection H as <- <-. cbn [log].
    apply define_groups_chunks in E' as (chunks & k & -> & Hchunks & -> & Hlen).
    assert (Hnd : NoDup (map fst markGlyphSets)).
    { eapply groupMarkGlyphsByAnchor_keys; [exact E | constructor]. }
    assert (Hin : forall e, e ∈ sorted name_le markGlyphSets <-> e ∈ markGlyphSets).
    { intros e. rewrite !list_elem_of_In. split; apply Permutation_in;
        [|symmetry]; apply sorted_perm. }
    exists (sorted name_le markGlyphSets), chunks, k.
    split; [apply sorted_by_name_keys|].
    split.
    { assert (Hp : map fst (sorted name_le markGlyphSets)
                   ≡ₚ map fst markGlyphSets)
        by apply Permutation_map, sorted_perm.
      rewrite Hp. exact Hnd. }
    split; [|split; [|split; [reflexivity|split; [exact Hchunks|]]]].
    + intros n g a. split.
      * intros (grp & Hgrp & Hga). apply Hin in Hgrp.
        apply (in_assoc_Some _ _ _ Hnd) in Hgrp.
        destruct (groupMarkGlyphsByAnchor_sound _ _ _ _ _ _ E) as [_ Hsound].
        destruct (Hsound n grp g a Hgrp Hga) as [(grp0 & H0 & _)|Hsrc];
          [discriminate H0|exact Hsrc].
      * intros (Hm & <- & l & Hgl & Ha).
        destruct (groupMarkGlyphsByAnchor_complete _ _ _ _ _ _ E)
          as [_ Hcomplete].
        destruct (Hcomplete g l a Hgl Ha Hm) as (grp & Hgrp & Hga).
        exists grp. split; [|exact Hga]. now apply Hin, assoc_Some_in.
    + intros n grp Hgrp. apply Hin in Hgrp.
      apply (in_assoc_Some _ _ _ Hnd) in Hgrp. split.
      * apply (groupMarkGlyphsByAnchor_nodup _ _ _ _ _ _ E) with (k := n);
          [|exact Hgrp].
        intros k0 g0 H0. discriminate H0.
      * apply (groupMarkGlyphsByAnchor_order _ _ [] _ _ _ _ E)
          with (k := n); [| |exact Hgrp]; intros k0 g0 H0; discriminate H0.
    + split; [reflexivity|]. exact Hlen.
Qed.

(** The amended claim at a glyph set of a base and two marks, written with
    the features mark and mkmk: the statements written, and the mark class
    definitions made. *)
Lemma C8_emission_order_witness :
  (exists newDefs fbs,
     statements (feaFile WriterExample.written)
     = statements (feaFile WriterExample.ctx)
       ++ map SMarkClassDefinition newDefs
       ++ [SComment ""] ++ map SFeatureBlock fbs
     /\ StronglySorted (le_prop String.leb) (map tag fbs)
     /\ NoDup (map tag fbs))
  /\ (exists (groups : Groups) (chunks : list (list MarkClassDefinition))
             (skipped : nat),
        StronglySorted (le_prop String.leb) (map fst groups)
        /\ NoDup (map fst groups)
        /\ (forall n g a,
              (exists grp, (n, grp) ∈ groups /\ (g, a) ∈ grp) <->
              (n ∈ map snd (anchorPairs WriterExample.ctx) /\ name a = n
               /\ exists l, (g, l) ∈ anchorLists WriterExample.ctx /\ a ∈ l))
        /\ (forall n grp, (n, grp) ∈ groups ->
              NoDup (map fst grp)
              /\ map fst grp
                 `sublist_of` map fst (anchorLists WriterExample.ctx))
        /\ WriterExample.newDefs = concat chunks
        /\ Forall2 (fun grp chunk =>
                      exists sub, sub `sublist_of` snd grp
                                  /\ Forall2 defined_from sub chunk)
                   groups chunks
        /\ log WriterExample.classified
           = log WriterExample.ctx ++ repeat already_defined skipped
        /\ (length WriterExample.newDefs + skipped
            = length (concat (map snd groups)))%nat).
Proof.
  split.
  - apply (proj1 C8_emission_order ast_model WriterExample.ctx [] 1000).
    vm_compute. reflexivity.
  - apply (proj2 (proj2 (proj2 C8_emission_order)) ast_model WriterExample.ctx
             WriterExample.newDefs WriterExample.classified).
    vm_compute. reflexivity.
Defined.

End EmissionOrder.
